(** * Packet Foundry: the simulation core, embedded and verified

    A shallow embedding of the simulation engine of packet-foundry
    (core/latency.ts, core/pipeline.ts, core/tick.ts, core/contracts.ts,
    core/prestige.ts, state/gameState.ts and the content catalogs) and of
    the actions of the player (state/actions.ts, the upkeep of the board in
    web/App.tsx).

    Conventions of the embedding.
    - A JavaScript [number] holding a quantity (queue depth, payload, credits,
      seconds) is an exact rational [Q]: the arithmetic of the source is
      read as arithmetic over the rationals.  A [number] that the code only
      ever uses as a count (levels, counters, the tick count, timestamps in
      milliseconds) is a [Z].
    - Where a property turns on the last digit, the source is read in the
      arithmetic of the language instead: [calculateLatency] is embedded a
      second time on binary64 numbers ([Binary64]), every operation rounded
      to the nearest double, and that reading is compared with the binary64
      numbers of the machine.
    - [Math.pow], whose result the language leaves to the engine, is a
      parameter ([Engine]).
    - [Record<string, number>] is a [gmap string Z]; [x ?? 0] on a lookup is
      [default 0].
    - A [Set] is the list of its members in insertion order.
    - [T | null] is [option T].
    - [Date.now()] is an explicit argument [now] of the two functions that
      call it.
    - Functions are embedded as functions on values.  [processTick], which
      works by assignment into a copy of its argument, is embedded a second
      time as a program over a store of objects, and the two are related. *)

From Stdlib Require Import ZArith QArith Qround Qminmax Qabs Qpower Lqa Lia.
From Stdlib Require PrimFloat FloatOps SpecFloat.
From stdpp Require Import gmap strings list pretty sorting.
From Equations Require Import Equations.

Local Open Scope Z_scope.
Local Open Scope Q_scope.

(** ** Numbers *)

Definition Qleb (a b : Q) : bool := Qle_bool a b.
Definition Qltb (a b : Q) : bool := negb (Qle_bool b a).

(** [Math.round]: the nearest integer, halves going up. *)
Definition Math_round (x : Q) : Z := Qfloor (x + (1 # 2)).

(** [ToInt32]: the signed 32-bit wrap that [|], [^] and [Math.imul] apply. *)
Definition toInt32 (z : Z) : Z := ((z + 2 ^ 31) mod 2 ^ 32 - 2 ^ 31)%Z.

(** [x >>> 0]: the unsigned 32-bit reading. *)
Definition toUint32 (z : Z) : Z := (z mod 2 ^ 32)%Z.

(** [Math.imul a b]. *)
Definition Math_imul (a b : Z) : Z := toInt32 (toInt32 a * toInt32 b).

(** [Math.pow]: the language fixes its result at special arguments only and
    leaves every other result to the engine that runs the program (an
    implementation-approximated value), so the power function is what an
    engine supplies. *)
Class Engine := {
  Math_pow : Q -> Q -> Q;
  (** its result is that of the numbers, however their fractions are written *)
  Math_pow_wd : Proper (Qeq ==> Qeq ==> Qeq) Math_pow
}.

(** ** core/types.ts *)

Inductive ModuleType := decrypt | checksum | compress | tag.
Inductive ProtocolFamily := burst | secure | legacy.
Inductive Tier := low | mid | high.

#[global] Instance ModuleType_eq_dec : EqDecision ModuleType.
Proof. solve_decision. Defined.
#[global] Instance ProtocolFamily_eq_dec : EqDecision ProtocolFamily.
Proof. solve_decision. Defined.
#[global] Instance Tier_eq_dec : EqDecision Tier.
Proof. solve_decision. Defined.

Record ResourcePool := mkResourcePool {
  scrap : Q;
  payload : Q;
  credits : Q;
  fragments : Q
}.

Record ModuleInfo := mkModuleInfo {
  mtype : ModuleType;
  level : Z
}.

Record LaneState := mkLane {
  lane_id : Z;
  queue : Q;
  heat : Q;
  enabledModules : list ModuleType
}.

Record ContractState := mkContract {
  contract_id : string;
  name : string;
  description : string;
  protocol : ProtocolFamily;
  targetPayload : Q;
  timeLimitSec : option Q;
  rewardCredits : Q;
  rewardFragments : Q;
  progressPayload : Q;
  tier : Tier;
  active : bool;
  expired : bool;
  timeRemainingS : option Q
}.

Record MetaProgress := mkMeta {
  prestigeCount : Z;
  totalReputation : Z;
  spentReputation : Z;
  perks : gmap string Z
}.

Record Stats := mkStats {
  totalPayloadProduced : Q;
  totalCreditsEarned : Q;
  playtimeSec : Q;
  prestigeReadyAt : option Z
}.

(** [Record<ModuleType, ModuleInfo>]: one entry per module type. *)
Record Modules := mkModules {
  mod_decrypt : ModuleInfo;
  mod_checksum : ModuleInfo;
  mod_compress : ModuleInfo;
  mod_tag : ModuleInfo
}.

Definition module_info (ms : Modules) (t : ModuleType) : ModuleInfo :=
  match t with
  | decrypt => mod_decrypt ms
  | checksum => mod_checksum ms
  | compress => mod_compress ms
  | tag => mod_tag ms
  end.

Record GameState := mkGameState {
  version : Z;
  lastTickTime : Z;
  resources : ResourcePool;
  lanes : list LaneState;
  modules : Modules;
  activeProtocol : ProtocolFamily;
  upgradesPurchased : gmap string Z;
  contracts : list ContractState;
  activeContractId : option string;
  completedContractCount : Z;
  highTierContractsCompleted : Z;
  protocolsUsed : list ProtocolFamily;
  meta : MetaProgress;
  stats : Stats;
  tickCount : Z
}.

(** [m[k] ?? 0]. *)
Definition level_of (m : gmap string Z) (k : string) : Z := default 0%Z (m !! k).

(** Truthiness of a [string | null]: [null] and the empty string are falsy. *)
Definition truthy (o : option string) : bool :=
  match o with
  | Some s => negb (String.eqb s "")
  | None => false
  end.

(** [new Set(iterable)]: members in order of first insertion. *)
Definition Set_add (x : ProtocolFamily) (l : list ProtocolFamily) : list ProtocolFamily :=
  if decide (x ∈ l) then l else l ++ [x].

Definition new_Set (l : list ProtocolFamily) : list ProtocolFamily :=
  fold_left (fun acc x => Set_add x acc) l [].

(** ** content/modules.ts, content/protocols.ts *)

Record ModuleDefinition := mkModuleDef {
  unlockCost : Q;
  baseCapacityBonus : Q;
  baseOutputMultiplier : Q;
  capacityPerLevel : Q;
  outputMultPerLevel : Q;
  chainDepth : Z
}.

Definition MODULE_DEFINITIONS (t : ModuleType) : ModuleDefinition :=
  match t with
  | decrypt => mkModuleDef 0 5 1.0 2.5 0.08 1
  | checksum => mkModuleDef 50 3 1.1 1.5 0.06 1
  | compress => mkModuleDef 80 4 1.15 2.0 0.1 1
  | tag => mkModuleDef 60 2 1.05 1.0 0.05 1
  end.

Record ProtocolDefinition := mkProtocolDef {
  throughputMultiplier : Q;
  creditMultiplier : Q;
  fragmentsPerHundredTicks : Q;
  requiredModules : list ModuleType;
  switchCost : Q
}.

Definition PROTOCOL_DEFINITIONS (p : ProtocolFamily) : ProtocolDefinition :=
  match p with
  | burst => mkProtocolDef 1.4 0.9 3 [] 0
  | secure => mkProtocolDef 0.8 1.5 8 [checksum] 100
  | legacy => mkProtocolDef 1.0 1.2 6 [tag] 75
  end.

(** ** core/latency.ts *)

Record LatencyInfo := mkLatency {
  latencyMs : Q;
  penalty : Q
}.

Definition calculateLatency
    (activeModuleCount queueSize queueTolerance latencyReductionPct : Q) : LatencyInfo :=
  let BASE_MS := 10 in
  let CHAIN_DEPTH_MS_PER_MODULE := 5 in
  let CONGESTION_MS_PER_QUEUE := 0.5 in
  let effectiveQueue := Qmax 0 (queueSize - queueTolerance) in
  let latencyMs :=
    BASE_MS + activeModuleCount * CHAIN_DEPTH_MS_PER_MODULE
    + effectiveQueue * CONGESTION_MS_PER_QUEUE in
  let depthPenalty := 0.06 * Qmax 0 (activeModuleCount - 3) in
  let queuePenalty := 0.0008 * effectiveQueue in
  let rawPenalty := Qmax 0.1 (1 - depthPenalty - queuePenalty) in
  let penalty := Qmin 1 (rawPenalty + latencyReductionPct * (1 - rawPenalty)) in
  mkLatency latencyMs penalty.

(** ** core/latency.ts in the arithmetic of the language

    The arithmetic of a JavaScript [number] is that of binary64: every
    operation returns the double nearest to its exact result, the even one
    of two that are equally near, and an infinity from [2^1024] on.  A
    finite double is the rational that it denotes; the sign of a zero is
    not told apart (no result of [calculateLatency] depends on it). *)

Module Binary64.

(** The integer nearest to [x], the even one of two that are equally near. *)
Definition roundTiesToEven (x : Q) : Z :=
  let f := Qfloor x in
  match Qcompare (x - inject_Z f) (1 # 2) with
  | Lt => f
  | Gt => (f + 1)%Z
  | Eq => if Z.even f then f else (f + 1)%Z
  end.

(** [floor(log2 x)] for [x > 0]. *)
Definition ilog2 (x : Q) : Z :=
  let k := (Z.log2 (Qnum x) - Z.log2 (Zpos (Qden x)))%Z in
  if Qleb (2 ^ k) x then k else (k - 1)%Z.

(** The weight of the last binary digit that a double near [x > 0] keeps:
    53 digits, and none below [2^-1074]. *)
Definition lastDigit (x : Q) : Z := Z.max (-1074) (ilog2 x - 52).

Definition roundPos (x : Q) : Q :=
  let e := lastDigit x in
  inject_Z (roundTiesToEven (x / 2 ^ e)) * 2 ^ e.

(** The double nearest to [x], with no bound on its size. *)
Definition round (x : Q) : Q :=
  match Qcompare x 0 with
  | Eq => 0
  | Gt => roundPos x
  | Lt => - roundPos (- x)
  end.

(** A [number]. *)
Inductive Number :=
  | NaN
  | Infinity (negative : bool)
  | Fin (value : Q).

(** The Number value for [x]: the double nearest to it, an infinity from
    [2^1024] on. *)
Definition fl (x : Q) : Number :=
  let r := round x in
  if Qleb (2 ^ 1024) (Qabs r) then Infinity (Qltb r 0) else Fin r.

(** [Number.MAX_VALUE]. *)
Definition MAX_VALUE : Q := (2 ^ 53 - 1) * 2 ^ 971.

Definition value (a : Number) : Q :=
  match a with Fin x => x | _ => 0 end.

Definition neg (a : Number) : Number :=
  match a with
  | NaN => NaN
  | Infinity s => Infinity (negb s)
  | Fin x => Fin (- x)
  end.

Definition add (a b : Number) : Number :=
  match a, b with
  | NaN, _ | _, NaN => NaN
  | Infinity s, Infinity t => if Bool.eqb s t then Infinity s else NaN
  | Infinity s, Fin _ | Fin _, Infinity s => Infinity s
  | Fin x, Fin y => fl (x + y)
  end.

Definition sub (a b : Number) : Number := add a (neg b).

Definition mul (a b : Number) : Number :=
  match a, b with
  | NaN, _ | _, NaN => NaN
  | Infinity s, Infinity t => Infinity (xorb s t)
  | Infinity s, Fin y | Fin y, Infinity s =>
      match Qcompare y 0 with
      | Eq => NaN
      | Lt => Infinity (negb s)
      | Gt => Infinity s
      end
  | Fin x, Fin y => fl (x * y)
  end.

(** [a <= b], [a < b] and [a === b]. *)
Definition leb (a b : Number) : bool :=
  match a, b with
  | NaN, _ | _, NaN => false
  | Infinity true, _ | _, Infinity false => true
  | Infinity false, _ | _, Infinity true => false
  | Fin x, Fin y => Qleb x y
  end.

Definition ltb (a b : Number) : bool :=
  match a, b with
  | NaN, _ | _, NaN => false
  | Infinity s, Infinity t => s && negb t
  | Infinity s, Fin _ => s
  | Fin _, Infinity s => negb s
  | Fin x, Fin y => Qltb x y
  end.

Definition eqb (a b : Number) : bool :=
  match a, b with
  | Infinity s, Infinity t => Bool.eqb s t
  | Fin x, Fin y => Qeq_bool x y
  | _, _ => false
  end.

(** [Math.max] and [Math.min]: [NaN] if an argument is. *)
Definition Math_max (a b : Number) : Number :=
  match a, b with
  | NaN, _ | _, NaN => NaN
  | Infinity false, _ | _, Infinity false => Infinity false
  | Infinity true, c | c, Infinity true => c
  | Fin x, Fin y => Fin (Qmax x y)
  end.

Definition Math_min (a b : Number) : Number :=
  match a, b with
  | NaN, _ | _, NaN => NaN
  | Infinity true, _ | _, Infinity true => Infinity true
  | Infinity false, c | c, Infinity false => c
  | Fin x, Fin y => Fin (Qmin x y)
  end.

Declare Scope number_scope.
Delimit Scope number_scope with num.
Bind Scope number_scope with Number.
Infix "+" := add : number_scope.
Infix "-" := sub : number_scope.
Infix "*" := mul : number_scope.

(** ** core/latency.ts, in binary64 *)

Record LatencyInfo := mkLatency {
  latencyMs : Number;
  penalty : Number
}.

Definition calculateLatency
    (activeModuleCount queueSize queueTolerance latencyReductionPct : Number)
    : LatencyInfo :=
  let BASE_MS := fl 10 in
  let CHAIN_DEPTH_MS_PER_MODULE := fl 5 in
  let CONGESTION_MS_PER_QUEUE := fl 0.5 in
  let effectiveQueue := Math_max (fl 0) (queueSize - queueTolerance) in
  let latencyMs :=
    (BASE_MS + activeModuleCount * CHAIN_DEPTH_MS_PER_MODULE
     + effectiveQueue * CONGESTION_MS_PER_QUEUE)%num in
  let depthPenalty := (fl 0.06 * Math_max (fl 0) (activeModuleCount - fl 3))%num in
  let queuePenalty := (fl 0.0008 * effectiveQueue)%num in
  let rawPenalty := Math_max (fl 0.1) (fl 1 - depthPenalty - queuePenalty) in
  let penalty :=
    Math_min (fl 1) (rawPenalty + latencyReductionPct * (fl 1 - rawPenalty)) in
  mkLatency latencyMs penalty.

(** ** The penalty, in parts *)

(** [rawPenalty], the penalty before cooling. *)
Definition rawPenalty (activeModuleCount queueSize queueTolerance : Number) : Number :=
  let effectiveQueue := Math_max (fl 0) (queueSize - queueTolerance) in
  let depthPenalty := (fl 0.06 * Math_max (fl 0) (activeModuleCount - fl 3))%num in
  let queuePenalty := (fl 0.0008 * effectiveQueue)%num in
  Math_max (fl 0.1) (fl 1 - depthPenalty - queuePenalty).

(** The cooling step. *)
Definition cooled (rawPenalty latencyReductionPct : Number) : Number :=
  Math_min (fl 1) (rawPenalty + latencyReductionPct * (fl 1 - rawPenalty)).

(** The two on numbers that stay finite. *)
Definition rawPenaltyQ (n q tol : Q) : Q :=
  let effectiveQueue := Qmax (round 0) (round (q + - tol)) in
  let depthPenalty := round (round 0.06 * Qmax (round 0) (round (n + - round 3))) in
  let queuePenalty := round (round 0.0008 * effectiveQueue) in
  Qmax (round 0.1) (round (round (round 1 + - depthPenalty) + - queuePenalty)).

Definition cooledQ (raw r : Q) : Q :=
  Qmin (round 1) (round (raw + round (r * round (round 1 + - raw)))).

(** ** The same on the binary64 numbers of the machine *)

Section Machine.

Import PrimFloat.

(** The number that a machine double holds. *)
Definition ofFloat (x : float) : Number :=
  match FloatOps.Prim2SF x with
  | SpecFloat.S754_zero _ => Fin 0
  | SpecFloat.S754_infinity s => Infinity s
  | SpecFloat.S754_nan => NaN
  | SpecFloat.S754_finite s m e =>
      Fin ((if s then -1 else 1) * inject_Z (Z.pos m) * 2 ^ e)
  end.

Definition Math_max_float (a b : float) : float :=
  if PrimFloat.is_nan a || PrimFloat.is_nan b then PrimFloat.nan
  else if PrimFloat.ltb a b then b else a.

Definition Math_min_float (a b : float) : float :=
  if PrimFloat.is_nan a || PrimFloat.is_nan b then PrimFloat.nan
  else if PrimFloat.ltb b a then b else a.

(** [penalty] of [calculateLatency]; the constants are the doubles of
    [0.06], [0.0008] and [0.1]. *)
Definition penalty_float
    (activeModuleCount queueSize queueTolerance latencyReductionPct : float) : float :=
  let effectiveQueue := Math_max_float 0 (queueSize - queueTolerance) in
  let depthPenalty :=
    (0x1.eb851eb851eb8p-5 * Math_max_float 0 (activeModuleCount - 3))%float in
  let queuePenalty := (0x1.a36e2eb1c432dp-11 * effectiveQueue)%float in
  let rawPenalty :=
    Math_max_float 0x1.999999999999ap-4 (1 - depthPenalty - queuePenalty) in
  Math_min_float 1 (rawPenalty + latencyReductionPct * (1 - rawPenalty)).

End Machine.

End Binary64.

(** ** core/pipeline.ts *)

Record LaneThroughput := mkThroughput {
  processingCapacity : Q;
  outputMultiplier : Q;
  activeModuleCount : Z
}.

(** The body of the loop over [lane.enabledModules]. *)
Definition moduleStep (state : GameState) (acc : LaneThroughput) (modType : ModuleType)
    : LaneThroughput :=
  let modInfo := module_info (modules state) modType in
  if (level modInfo =? 0)%Z then acc
  else
    let def := MODULE_DEFINITIONS modType in
    let lvl := inject_Z (level modInfo) in
    mkThroughput
      (processingCapacity acc + (baseCapacityBonus def + capacityPerLevel def * (lvl - 1)))
      (outputMultiplier acc * (baseOutputMultiplier def + outputMultPerLevel def * (lvl - 1)))
      (activeModuleCount acc + 1).

Definition calculateLaneThroughput (lane : LaneState) (state : GameState) : LaneThroughput :=
  let BASE_CAPACITY := 3 in
  let t0 := fold_left (moduleStep state) (enabledModules lane) (mkThroughput BASE_CAPACITY 1.0 0) in
  let speedLevel := level_of (upgradesPurchased state) "hw_module_speed" in
  let cap1 := processingCapacity t0 + inject_Z speedLevel * 2 in
  let protoDef := PROTOCOL_DEFINITIONS (activeProtocol state) in
  let cap2 := cap1 * throughputMultiplier protoDef in
  let isCompliant :=
    forallb (fun m => bool_decide (m ∈ enabledModules lane)
                      && (0 <? level (module_info (modules state) m))%Z)
            (requiredModules protoDef) in
  let out1 :=
    if negb isCompliant && (0 <? length (requiredModules protoDef))%nat
    then outputMultiplier t0 * 0.5 else outputMultiplier t0 in
  let throughputPerk := level_of (perks (meta state)) "perk_throughput_boost" in
  if (0 <? throughputPerk)%Z then
    mkThroughput (cap2 * (1 + inject_Z throughputPerk * 0.1))
                 (out1 * (1 + inject_Z throughputPerk * 0.05))
                 (activeModuleCount t0)
  else mkThroughput cap2 out1 (activeModuleCount t0).

Definition calculateScrapGenRate (state : GameState) : Q :=
  let BASE_PER_LANE := 5 in
  let rate0 := BASE_PER_LANE * inject_Z (Z.of_nat (length (lanes state))) in
  let routingLevel := level_of (upgradesPurchased state) "sw_routing_ai" in
  let rate1 := rate0 * (1 + inject_Z routingLevel * 0.15) in
  let throughputPerk := level_of (perks (meta state)) "perk_throughput_boost" in
  if (0 <? throughputPerk)%Z then rate1 * (1 + inject_Z throughputPerk * 0.1) else rate1.

Definition calculateCreditRate (state : GameState) : Q :=
  let rate0 := creditMultiplier (PROTOCOL_DEFINITIONS (activeProtocol state)) in
  let parserLevel := level_of (upgradesPurchased state) "sw_protocol_parser" in
  let rate1 := rate0 * (1 + inject_Z parserLevel * 0.1) in
  let creditPerk := level_of (perks (meta state)) "perk_credit_multiplier" in
  if (0 <? creditPerk)%Z then rate1 * 1.2 else rate1.

Definition calculateFragmentInterval (state : GameState) : Z :=
  let protoDef := PROTOCOL_DEFINITIONS (activeProtocol state) in
  let interval0 := Math_round (100 / fragmentsPerHundredTicks protoDef) in
  let minerLevel := level_of (upgradesPurchased state) "sw_fragment_miner" in
  let interval1 := Z.max 5 (interval0 - minerLevel * 8) in
  let surgePerk := level_of (perks (meta state)) "perk_fragment_surge" in
  Z.max 5 (interval1 - surgePerk * 5).

(** ** Field updates ([{ ...state, f: v }] and [state.f = v]) *)

Definition with_resources (r : ResourcePool) (s : GameState) : GameState :=
  mkGameState (version s) (lastTickTime s) r (lanes s) (modules s) (activeProtocol s)
    (upgradesPurchased s) (contracts s) (activeContractId s) (completedContractCount s)
    (highTierContractsCompleted s) (protocolsUsed s) (meta s) (stats s) (tickCount s).

Definition with_lanes (l : list LaneState) (s : GameState) : GameState :=
  mkGameState (version s) (lastTickTime s) (resources s) l (modules s) (activeProtocol s)
    (upgradesPurchased s) (contracts s) (activeContractId s) (completedContractCount s)
    (highTierContractsCompleted s) (protocolsUsed s) (meta s) (stats s) (tickCount s).

Definition with_contracts (c : list ContractState) (s : GameState) : GameState :=
  mkGameState (version s) (lastTickTime s) (resources s) (lanes s) (modules s) (activeProtocol s)
    (upgradesPurchased s) c (activeContractId s) (completedContractCount s)
    (highTierContractsCompleted s) (protocolsUsed s) (meta s) (stats s) (tickCount s).

Definition with_activeContractId (a : option string) (s : GameState) : GameState :=
  mkGameState (version s) (lastTickTime s) (resources s) (lanes s) (modules s) (activeProtocol s)
    (upgradesPurchased s) (contracts s) a (completedContractCount s)
    (highTierContractsCompleted s) (protocolsUsed s) (meta s) (stats s) (tickCount s).

Definition with_completedContractCount (n : Z) (s : GameState) : GameState :=
  mkGameState (version s) (lastTickTime s) (resources s) (lanes s) (modules s) (activeProtocol s)
    (upgradesPurchased s) (contracts s) (activeContractId s) n
    (highTierContractsCompleted s) (protocolsUsed s) (meta s) (stats s) (tickCount s).

Definition with_highTierContractsCompleted (n : Z) (s : GameState) : GameState :=
  mkGameState (version s) (lastTickTime s) (resources s) (lanes s) (modules s) (activeProtocol s)
    (upgradesPurchased s) (contracts s) (activeContractId s) (completedContractCount s)
    n (protocolsUsed s) (meta s) (stats s) (tickCount s).

Definition with_protocolsUsed (p : list ProtocolFamily) (s : GameState) : GameState :=
  mkGameState (version s) (lastTickTime s) (resources s) (lanes s) (modules s) (activeProtocol s)
    (upgradesPurchased s) (contracts s) (activeContractId s) (completedContractCount s)
    (highTierContractsCompleted s) p (meta s) (stats s) (tickCount s).

Definition with_stats (st : Stats) (s : GameState) : GameState :=
  mkGameState (version s) (lastTickTime s) (resources s) (lanes s) (modules s) (activeProtocol s)
    (upgradesPurchased s) (contracts s) (activeContractId s) (completedContractCount s)
    (highTierContractsCompleted s) (protocolsUsed s) (meta s) st (tickCount s).

Definition with_tickCount (n : Z) (s : GameState) : GameState :=
  mkGameState (version s) (lastTickTime s) (resources s) (lanes s) (modules s) (activeProtocol s)
    (upgradesPurchased s) (contracts s) (activeContractId s) (completedContractCount s)
    (highTierContractsCompleted s) (protocolsUsed s) (meta s) (stats s) n.

Definition with_lastTickTime (t : Z) (s : GameState) : GameState :=
  mkGameState (version s) t (resources s) (lanes s) (modules s) (activeProtocol s)
    (upgradesPurchased s) (contracts s) (activeContractId s) (completedContractCount s)
    (highTierContractsCompleted s) (protocolsUsed s) (meta s) (stats s) (tickCount s).

Definition with_meta (m : MetaProgress) (s : GameState) : GameState :=
  mkGameState (version s) (lastTickTime s) (resources s) (lanes s) (modules s) (activeProtocol s)
    (upgradesPurchased s) (contracts s) (activeContractId s) (completedContractCount s)
    (highTierContractsCompleted s) (protocolsUsed s) m (stats s) (tickCount s).

Definition add_payload (x : Q) (r : ResourcePool) : ResourcePool :=
  mkResourcePool (scrap r) (payload r + x) (credits r) (fragments r).
Definition add_credits (x : Q) (r : ResourcePool) : ResourcePool :=
  mkResourcePool (scrap r) (payload r) (credits r + x) (fragments r).
Definition add_fragments (x : Q) (r : ResourcePool) : ResourcePool :=
  mkResourcePool (scrap r) (payload r) (credits r) (fragments r + x).

Definition add_playtimeSec (x : Q) (st : Stats) : Stats :=
  mkStats (totalPayloadProduced st) (totalCreditsEarned st) (playtimeSec st + x)
    (prestigeReadyAt st).
Definition add_totalPayloadProduced (x : Q) (st : Stats) : Stats :=
  mkStats (totalPayloadProduced st + x) (totalCreditsEarned st) (playtimeSec st)
    (prestigeReadyAt st).
Definition add_totalCreditsEarned (x : Q) (st : Stats) : Stats :=
  mkStats (totalPayloadProduced st) (totalCreditsEarned st + x) (playtimeSec st)
    (prestigeReadyAt st).
Definition set_prestigeReadyAt (o : option Z) (st : Stats) : Stats :=
  mkStats (totalPayloadProduced st) (totalCreditsEarned st) (playtimeSec st) o.

Definition set_progressPayload (x : Q) (c : ContractState) : ContractState :=
  mkContract (contract_id c) (name c) (description c) (protocol c) (targetPayload c)
    (timeLimitSec c) (rewardCredits c) (rewardFragments c) x (tier c)
    (active c) (expired c) (timeRemainingS c).
Definition set_timeRemainingS (t : option Q) (c : ContractState) : ContractState :=
  mkContract (contract_id c) (name c) (description c) (protocol c) (targetPayload c)
    (timeLimitSec c) (rewardCredits c) (rewardFragments c) (progressPayload c) (tier c)
    (active c) (expired c) t.
Definition set_active (b : bool) (c : ContractState) : ContractState :=
  mkContract (contract_id c) (name c) (description c) (protocol c) (targetPayload c)
    (timeLimitSec c) (rewardCredits c) (rewardFragments c) (progressPayload c) (tier c)
    b (expired c) (timeRemainingS c).
Definition set_expired (b : bool) (c : ContractState) : ContractState :=
  mkContract (contract_id c) (name c) (description c) (protocol c) (targetPayload c)
    (timeLimitSec c) (rewardCredits c) (rewardFragments c) (progressPayload c) (tier c)
    (active c) b (timeRemainingS c).

(** ** core/tick.ts *)

(** [JSON.parse(JSON.stringify(state, ...))]: a structural copy.  Values of
    the embedding carry no identity, so the copy is the value itself. *)
Definition deepClone (state : GameState) : GameState := state.

(** One iteration of the per-lane loop: [lane] is [s.lanes[i]] (the working
    copy that is updated), [snapshot] is [state.lanes[i]] (read only).
    Returns the updated lane and [payloadFromLane]. *)
Definition laneBody (state : GameState)
    (deltaSeconds scrapPerLane queueTolerance totalLatencyReduction : Q)
    (lane snapshot : LaneState) : LaneState * Q :=
  let throughput := calculateLaneThroughput snapshot state in
  let queue1 := queue lane + scrapPerLane in
  let toProcess := Qmin queue1 (processingCapacity throughput * deltaSeconds) in
  let queue2 := Qmax 0 (queue1 - toProcess) in
  let pen :=
    penalty (calculateLatency (inject_Z (activeModuleCount throughput)) queue2
                              queueTolerance totalLatencyReduction) in
  let heat' := Qmax 0 (1 - pen) in
  let payloadFromLane := toProcess * outputMultiplier throughput * pen in
  (mkLane (lane_id lane) queue2 heat' (enabledModules lane), payloadFromLane).

(** [for (let i = 0; i < s.lanes.length; i++)], over the working lanes paired
    with the snapshot lanes of the same index; threads [totalPayloadThisTick]. *)
Fixpoint laneLoop (state : GameState)
    (deltaSeconds scrapPerLane queueTolerance totalLatencyReduction : Q)
    (pairs : list (LaneState * LaneState)) (totalPayloadThisTick : Q)
    : list LaneState * Q :=
  match pairs with
  | [] => ([], totalPayloadThisTick)
  | (lane, snapshot) :: rest =>
    let '(lane', payloadFromLane) :=
      laneBody state deltaSeconds scrapPerLane queueTolerance totalLatencyReduction
               lane snapshot in
    let '(rest', total') :=
      laneLoop state deltaSeconds scrapPerLane queueTolerance totalLatencyReduction
               rest (totalPayloadThisTick + payloadFromLane) in
    (lane' :: rest', total')
  end.

(** Section 5 of [processTick]: contract progress, expiry, completion.
    [contract] is a reference into [s.contracts]: its updates are written
    back at the index where [find] found it. *)
Definition contractStep (totalPayloadThisTick deltaSeconds : Q) (s : GameState) : GameState :=
  if truthy (activeContractId s) then
    match list_find (fun c => Some (contract_id c) = activeContractId s) (contracts s) with
    | Some (i, contract) =>
      if active contract then
        let c1 := set_progressPayload (progressPayload contract + totalPayloadThisTick) contract in
        let '(c2, s2) :=
          match timeRemainingS c1 with
          | Some t =>
            let c := set_timeRemainingS (Some (t - deltaSeconds)) c1 in
            if Qleb (t - deltaSeconds) 0
            then (set_active false (set_expired true c), with_activeContractId None s)
            else (c, s)
          | None => (c1, s)
          end in
        if Qleb (targetPayload c2) (progressPayload c2) then
          let c3 := set_expired false (set_active false c2) in
          let s3 := with_resources
                      (add_fragments (rewardFragments c3)
                        (add_credits (rewardCredits c3) (resources s2))) s2 in
          let s4 := with_stats (add_totalCreditsEarned (rewardCredits c3) (stats s3)) s3 in
          let s5 := with_completedContractCount (completedContractCount s4 + 1)%Z s4 in
          let s6 := if bool_decide (tier c3 = high)
                    then with_highTierContractsCompleted (highTierContractsCompleted s5 + 1)%Z s5
                    else s5 in
          with_contracts (<[i := c3]> (contracts s6)) (with_activeContractId None s6)
        else with_contracts (<[i := c2]> (contracts s2)) s2
      else s
    | None => s
    end
  else s.

(** Section 6 of [processTick]: the readiness marker. *)
Definition prestigeReadyStep (s : GameState) : GameState :=
  match prestigeReadyAt (stats s) with
  | None =>
    if Qleb 3000 (totalPayloadProduced (stats s))
    then with_stats (set_prestigeReadyAt (Some (tickCount s)) (stats s)) s
    else s
  | Some _ => s
  end.

Definition processTick (state : GameState) (deltaSeconds : Q) : GameState :=
  let s := deepClone state in
  let s := with_protocolsUsed (new_Set (protocolsUsed state)) s in
  let s := with_stats (add_playtimeSec deltaSeconds (stats s)) s in
  let s := with_tickCount (tickCount s + 1)%Z s in
  (* 1. generate scrap *)
  let scrapRate := calculateScrapGenRate state in
  let scrapGenerated := scrapRate * deltaSeconds in
  let scrapPerLane := scrapGenerated / inject_Z (Z.of_nat (length (lanes s))) in
  (* 2. per-lane processing *)
  let queueTolerance := inject_Z (level_of (upgradesPurchased state) "hw_buffer" * 10) in
  let coolingLevel := level_of (upgradesPurchased state) "hw_cooling" in
  let latencyReductionPct := inject_Z coolingLevel * 0.05 in
  let latencyShieldPerk := level_of (perks (meta state)) "perk_latency_shield" in
  let totalLatencyReduction :=
    Qmin 0.9 (latencyReductionPct + inject_Z latencyShieldPerk * 0.15) in
  let '(lanes', totalPayloadThisTick) :=
    laneLoop state deltaSeconds scrapPerLane queueTolerance totalLatencyReduction
             (zip (lanes s) (lanes state)) 0 in
  let s := with_lanes lanes' s in
  (* 3. accumulate payload and credits *)
  let s := with_resources (add_payload totalPayloadThisTick (resources s)) s in
  let s := with_stats (add_totalPayloadProduced totalPayloadThisTick (stats s)) s in
  let creditRate := calculateCreditRate state in
  let creditsEarned := totalPayloadThisTick * creditRate in
  let s := with_resources (add_credits creditsEarned (resources s)) s in
  let s := with_stats (add_totalCreditsEarned creditsEarned (stats s)) s in
  (* 4. deterministic fragment drops *)
  let fragInterval := calculateFragmentInterval state in
  let s := if (Z.rem (tickCount s) fragInterval =? 0)%Z
           then with_resources (add_fragments 1 (resources s)) s else s in
  (* 5. contract progress *)
  let s := contractStep totalPayloadThisTick deltaSeconds s in
  (* 6. prestige readiness *)
  prestigeReadyStep s.

(** ** content/contracts.ts *)

Module Tpl.
Record t := mk {
  id : string;
  name : string;
  description : string;
  protocol : ProtocolFamily;
  targetPayload : Q;
  timeLimitSec : option Q;
  rewardCredits : Q;
  rewardFragments : Q;
  tier : Tier;
  minPrestige : Z
}.
End Tpl.

Definition CONTRACT_TEMPLATES : list Tpl.t :=
  [ Tpl.mk "tpl_burst_low_1" "Helios Transit: Local Relay"
      "Route basic packet stream for Helios Transit local exchange."
      burst 500 (Some 300) 200 0 low 0;
    Tpl.mk "tpl_burst_low_2" "Civic Mesh: Standard Upload"
      "Process standard civic mesh upload packets."
      burst 800 None 280 1 low 0;
    Tpl.mk "tpl_secure_low_1" "Civic Mesh: Integrity Run"
      "Certified payload run for civic mesh integrity protocol."
      secure 400 (Some 300) 350 1 low 0;
    Tpl.mk "tpl_legacy_low_1" "Archivist Ring: Archive Restore"
      "Restore legacy archive packets with proper tagging."
      legacy 600 None 300 2 low 0;
    Tpl.mk "tpl_burst_mid_1" "Helios Transit: Regional Burst"
      "High-volume regional packet burst for Helios Transit."
      burst 2000 (Some 600) 700 2 mid 0;
    Tpl.mk "tpl_secure_mid_1" "Noctilux: Premium Transfer"
      "High-value secure transfer with certification required."
      secure 1500 (Some 500) 900 3 mid 0;
    Tpl.mk "tpl_legacy_mid_1" "Archivist Ring: Deep Archive"
      "Deep archive restoration requiring full legacy compliance."
      legacy 1800 None 800 4 mid 0;
    Tpl.mk "tpl_burst_high_1" "Helios Transit: Shard Burst"
      "Inter-shard burst protocol — maximum throughput required."
      burst 5000 (Some 900) 2000 5 high 0;
    Tpl.mk "tpl_secure_high_1" "Noctilux: Blackline Contract"
      "Gray-market secure transfer with premium certification."
      secure 4000 (Some 800) 2500 8 high 0;
    Tpl.mk "tpl_legacy_high_1" "Archivist Ring: Shard Restoration"
      "Cross-shard archive restoration. Long-haul, high reward."
      legacy 4500 None 2200 10 high 1 ].

(** ** state/gameState.ts *)

Definition createLane (id : Z) : LaneState := mkLane id 0 0 [decrypt].

Definition createInitialState (now : Z) : GameState :=
  mkGameState
    1 now
    (mkResourcePool 0 0 0 0)
    [createLane 0]
    (mkModules (mkModuleInfo decrypt 1) (mkModuleInfo checksum 0)
               (mkModuleInfo compress 0) (mkModuleInfo tag 0))
    burst
    ∅
    []
    None
    0 0
    (new_Set [burst])
    (mkMeta 0 0 0 ∅)
    (mkStats 0 0 0 None)
    0.

(** [serializeState]: the state with its [Set] spread into an array. *)
Definition serializeState (state : GameState) : GameState :=
  with_protocolsUsed (protocolsUsed state) state.

(** [s.charCodeAt(i)] for every [i]: identifiers are ASCII, so a code unit is
    a byte of the string. *)
Definition charCodes (s : string) : list Z :=
  (fun c => Z.of_nat (Ascii.nat_of_ascii c)) <$> String.list_ascii_of_string s.

Definition deterministicHash (s : string) : Z :=
  let h := fold_left (fun h c => toInt32 (Math_imul 31 h + c)) (charCodes s) 0%Z in
  toUint32 h.

(** [Array.prototype.sort] with a comparator: the sort is stable, so for a
    consistent comparator its result is the stable insertion of every
    element, last to first. *)
Fixpoint sort_insert {A} (cmp : A -> A -> Z) (x : A) (l : list A) : list A :=
  match l with
  | [] => [x]
  | y :: l' => if (cmp x y <=? 0)%Z then x :: y :: l' else y :: sort_insert cmp x l'
  end.

Definition Array_sort {A} (cmp : A -> A -> Z) (l : list A) : list A :=
  foldr (sort_insert cmp) [] l.

(** The selection loop of [buildContractBoard]; [seen] is the [Set] of
    protocols already taken. *)
Fixpoint chooseLoop (shuffled : list Tpl.t) (seen : list ProtocolFamily)
    (chosen : list Tpl.t) : list Tpl.t :=
  match shuffled with
  | [] => chosen
  | t :: rest =>
    if (3 <=? length chosen)%nat then chosen
    else if negb (bool_decide (Tpl.protocol t ∈ seen)) || (length chosen <? 3)%nat
    then chooseLoop rest (Set_add (Tpl.protocol t) seen) (chosen ++ [t])
    else chooseLoop rest seen chosen
  end.

Definition instantiate (seed : Z) (i : nat) (t : Tpl.t) : ContractState :=
  mkContract
    (Tpl.id t +:+ "_run" +:+ pretty seed +:+ "_" +:+ pretty i)
    (Tpl.name t) (Tpl.description t) (Tpl.protocol t) (Tpl.targetPayload t)
    (Tpl.timeLimitSec t) (Tpl.rewardCredits t) (Tpl.rewardFragments t)
    0 (Tpl.tier t) false false (Tpl.timeLimitSec t).

Definition hashCompare (seed : Z) (a b : Tpl.t) : Z :=
  let ha := deterministicHash (Tpl.id a +:+ pretty seed) in
  let hb := deterministicHash (Tpl.id b +:+ pretty seed) in
  (ha - hb)%Z.

Definition shuffleTemplates (prestigeCount seed : Z) : list Tpl.t :=
  let available := filter (fun t => (Tpl.minPrestige t <= prestigeCount)%Z) CONTRACT_TEMPLATES in
  Array_sort (hashCompare seed) available.

Definition buildContractBoard (prestigeCount seed : Z) : list ContractState :=
  let shuffled := shuffleTemplates prestigeCount seed in
  let chosen := chooseLoop shuffled [] [] in
  imap (instantiate seed) (take 3 chosen).

(** ** core/contracts.ts *)

Definition refreshContractBoard (state : GameState) : GameState :=
  let seed := Z.lxor (toInt32 (tickCount state))
                     (toInt32 (prestigeCount (meta state) * 1000)) in
  let newContracts := buildContractBoard (prestigeCount (meta state)) seed in
  with_activeContractId None (with_contracts newContracts state).

Definition activateContract (state : GameState) (contractId : string) : option GameState :=
  match list_find (fun c => contract_id c = contractId) (contracts state) with
  | None => None
  | Some (_, contract) =>
    if active contract || expired contract || Qltb 0 (progressPayload contract) then None
    else if truthy (activeContractId state) then None
    else
      let updated :=
        (fun c => if bool_decide (contract_id c = contractId) then set_active true c else c)
          <$> contracts state in
      Some (with_activeContractId (Some contractId) (with_contracts updated state))
  end.

Definition isBoardExhausted (state : GameState) : bool :=
  (0 <? length (contracts state))%nat
  && forallb (fun c => negb (active c)
                       && (Qleb (targetPayload c) (progressPayload c) || expired c))
             (contracts state).

(** ** core/prestige.ts *)

Definition calculateReputationGain `{Engine} (state : GameState) : Z :=
  let payloadScore :=
    Qfloor (Math_pow (Qmax 0 (totalPayloadProduced (stats state))) 0.25) in
  let contractScore :=
    Qfloor (inject_Z (highTierContractsCompleted state) * 0.5
            + inject_Z (completedContractCount state) * 0.25) in
  let protocolScore := Z.of_nat (length (protocolsUsed state)) in
  Z.max 1 (payloadScore + contractScore + protocolScore).

Definition canPrestige (state : GameState) : bool :=
  Qleb 3000 (totalPayloadProduced (stats state)).

Definition availableReputation (state : GameState) : Z :=
  (totalReputation (meta state) - spentReputation (meta state))%Z.

(** [Array.from({ length: n }, (_, i) => createLane(i))]: a length below
    zero gives the empty array. *)
Definition applyPrestige `{Engine} (now : Z) (state : GameState) : GameState :=
  let gained := calculateReputationGain state in
  let fresh := createInitialState now in
  let newMeta :=
    mkMeta (prestigeCount (meta state) + 1)%Z
           (totalReputation (meta state) + gained)%Z
           (spentReputation (meta state))
           (perks (meta state)) in
  let headStart := level_of (perks newMeta) "perk_head_start" in
  let initialLaneCount := (1 + headStart)%Z in
  let freshLanes := createLane <$> seqZ 0 initialLaneCount in
  with_lastTickTime now
    (with_protocolsUsed (new_Set [burst])
      (with_lanes freshLanes (with_meta newMeta fresh))).

(** ** core/tick.ts: offline replay *)

Record OfflineSummary := mkSummary {
  elapsedSeconds : Q;
  ticksSimulated : Z;
  payloadEarned : Q;
  creditsEarned : Q;
  fragmentsEarned : Q
}.

Definition DEFAULT_OFFLINE_CAP_HOURS : Z := 8.
Definition OFFLINE_CHUNK_SECONDS : Q := 60.

Lemma Qfloor_minus_Z (x : Q) (z : Z) : Qfloor (x - inject_Z z) = (Qfloor x - z)%Z.
Proof.
  destruct x as [n d]. unfold Qminus, Qplus, Qopp, inject_Z, Qfloor. simpl.
  rewrite Z.mul_1_r, Pos.mul_1_r.
  replace (n + - z * Z.pos d)%Z with (n + (- z) * Z.pos d)%Z by lia.
  rewrite Z.div_add by lia. lia.
Qed.

Lemma offline_chunk_decreases (remaining : Q) :
  Qle_bool OFFLINE_CHUNK_SECONDS remaining = true ->
  (Z.to_nat (Qfloor (remaining - OFFLINE_CHUNK_SECONDS)) < Z.to_nat (Qfloor remaining))%nat.
Proof.
  intros H. apply Qle_bool_iff in H. unfold OFFLINE_CHUNK_SECONDS in *.
  change 60 with (inject_Z 60) in *.
  rewrite Qfloor_minus_Z.
  assert (H60 : (60 <= Qfloor remaining)%Z).
  { rewrite <- (Qfloor_Z 60). by apply Qfloor_resp_le. }
  lia.
Qed.

(** Matching on a value while keeping the equation that it satisfies. *)
Definition inspect {A : Type} (x : A) : { y : A | x = y } := exist _ x eq_refl.

(** [while (remaining >= OFFLINE_CHUNK_SECONDS) { ... }]: returns [current],
    [remaining] and [ticksSimulated] at the exit of the loop. *)
Equations offlineLoop (current : GameState) (remaining : Q) (ticks : Z)
    : GameState * Q * Z by wf (Z.to_nat (Qfloor remaining)) lt :=
  offlineLoop current remaining ticks with inspect (Qle_bool OFFLINE_CHUNK_SECONDS remaining) := {
    | exist _ true Hge =>
        offlineLoop (processTick current OFFLINE_CHUNK_SECONDS)
                    (remaining - OFFLINE_CHUNK_SECONDS) (ticks + 1)%Z
    | exist _ false _ => (current, remaining, ticks)
  }.
Next Obligation. by apply offline_chunk_decreases. Qed.

Definition processOfflineProgress (state : GameState) (nowMs : Z)
    : GameState * OfflineSummary :=
  let offlineCapHours :=
    (DEFAULT_OFFLINE_CAP_HOURS + level_of (perks (meta state)) "perk_offline_cap" * 4)%Z in
  let capSeconds := inject_Z (offlineCapHours * 3600) in
  let elapsed :=
    Qmin (Qmax 0 (inject_Z (nowMs - lastTickTime state) / 1000)) capSeconds in
  let before_payload := totalPayloadProduced (stats state) in
  let before_credits := totalCreditsEarned (stats state) in
  let before_fragments := fragments (resources state) in
  let '(current, remaining, ticks) := offlineLoop state elapsed 0 in
  let '(current, ticks) :=
    if Qltb 0 remaining then (processTick current remaining, (ticks + 1)%Z)
    else (current, ticks) in
  let current := with_lastTickTime nowMs current in
  (current,
   mkSummary elapsed ticks
     (totalPayloadProduced (stats current) - before_payload)
     (totalCreditsEarned (stats current) - before_credits)
     (fragments (resources current) - before_fragments)).

(** * The player's actions

    The functions through which the interface changes a state between
    ticks: the shop (state/actions.ts, content/upgrades.ts), the perk shop
    (core/prestige.ts), loading a save (state/gameState.ts) and the upkeep of
    the board (web/App.tsx). *)

(** ** Field updates of the actions *)

Definition with_modules (m : Modules) (s : GameState) : GameState :=
  mkGameState (version s) (lastTickTime s) (resources s) (lanes s) m (activeProtocol s)
    (upgradesPurchased s) (contracts s) (activeContractId s) (completedContractCount s)
    (highTierContractsCompleted s) (protocolsUsed s) (meta s) (stats s) (tickCount s).

Definition with_activeProtocol (p : ProtocolFamily) (s : GameState) : GameState :=
  mkGameState (version s) (lastTickTime s) (resources s) (lanes s) (modules s) p
    (upgradesPurchased s) (contracts s) (activeContractId s) (completedContractCount s)
    (highTierContractsCompleted s) (protocolsUsed s) (meta s) (stats s) (tickCount s).

Definition with_upgradesPurchased (u : gmap string Z) (s : GameState) : GameState :=
  mkGameState (version s) (lastTickTime s) (resources s) (lanes s) (modules s) (activeProtocol s)
    u (contracts s) (activeContractId s) (completedContractCount s)
    (highTierContractsCompleted s) (protocolsUsed s) (meta s) (stats s) (tickCount s).

(** [{ ...state.resources, credits: state.resources.credits - cost }]. *)
Definition pay_credits (cost : Q) (r : ResourcePool) : ResourcePool :=
  mkResourcePool (scrap r) (payload r) (credits r - cost) (fragments r).

Definition set_enabledModules (l : list ModuleType) (lane : LaneState) : LaneState :=
  mkLane (lane_id lane) (queue lane) (heat lane) l.

Definition set_level (n : Z) (i : ModuleInfo) : ModuleInfo := mkModuleInfo (mtype i) n.

(** [{ ...modules, [t]: info }]. *)
Definition set_module (t : ModuleType) (info : ModuleInfo) (ms : Modules) : Modules :=
  match t with
  | decrypt => mkModules info (mod_checksum ms) (mod_compress ms) (mod_tag ms)
  | checksum => mkModules (mod_decrypt ms) info (mod_compress ms) (mod_tag ms)
  | compress => mkModules (mod_decrypt ms) (mod_checksum ms) info (mod_tag ms)
  | tag => mkModules (mod_decrypt ms) (mod_checksum ms) (mod_compress ms) info
  end.

(** [Object.keys(state.modules)]: the keys in the order in which
    [createInitialState] writes them, which spreading preserves. *)
Definition Object_keys_modules : list ModuleType := [decrypt; checksum; compress; tag].

(** The key of a module type in [state.modules], and the module type that a
    key names, if any. *)
Definition ModuleType_key (t : ModuleType) : string :=
  match t with
  | decrypt => "decrypt"
  | checksum => "checksum"
  | compress => "compress"
  | tag => "tag"
  end.

Definition ModuleType_of_key (k : string) : option ModuleType :=
  list_find (fun t => ModuleType_key t = k) Object_keys_modules ≫= Some ∘ snd.

(** [s.replace(pat, rep)] for a string pattern: the first occurrence of
    [pat] is replaced. *)
Fixpoint String_replace (pat rep s : string) : string :=
  if String.prefix pat s then rep +:+ String.substring (String.length pat) (String.length s) s
  else match s with
       | EmptyString => EmptyString
       | String c s' => String c (String_replace pat rep s')
       end.

(** ** content/upgrades.ts *)

Inductive UpgradeEffectType :=
  | scrap_rate_mult | processing_capacity_flat | credit_rate_mult
  | latency_reduction_pct | queue_tolerance_flat | fragment_ticks_reduction.

Inductive UpgradeCategory := hardware | software | module_upgrade.

#[global] Instance UpgradeCategory_eq_dec : EqDecision UpgradeCategory.
Proof. solve_decision. Defined.

Module Upg.
Record t := mk {
  id : string;
  name : string;
  description : string;
  category : UpgradeCategory;
  maxLevel : Z;
  baseCost : Q;
  costGrowth : Q;
  effects : list (UpgradeEffectType * Q)
}.
End Upg.

Definition UPGRADE_DEFINITIONS : list Upg.t :=
  [ Upg.mk "hw_module_speed" "Module Speed"
      "Increases processing capacity per lane (+2 scrap/sec per level)"
      hardware 5 30 1.6 [(processing_capacity_flat, 2)];
    Upg.mk "hw_buffer" "Buffer Expansion"
      "Increases queue tolerance, reducing congestion latency penalty (+10 per level)"
      hardware 5 45 1.5 [(queue_tolerance_flat, 10)];
    Upg.mk "hw_cooling" "Lane Cooling"
      "Reduces latency penalty (-5% per level)"
      hardware 3 60 1.8 [(latency_reduction_pct, 5)];
    Upg.mk "sw_routing_ai" "Routing AI"
      "Increases scrap generation rate (+15% per level)"
      software 5 75 1.4 [(scrap_rate_mult, 0.15)];
    Upg.mk "sw_protocol_parser" "Protocol Parser"
      "Increases credit value of processed payloads (+10% per level)"
      software 4 100 1.5 [(credit_rate_mult, 0.1)];
    Upg.mk "sw_fragment_miner" "Fragment Miner"
      "Generates schema fragments more frequently (-8 ticks per level)"
      software 3 150 2.0 [(fragment_ticks_reduction, 8)];
    Upg.mk "module_decrypt" "Decrypt Upgrade"
      "Upgrade the Decrypt module to the next level"
      module_upgrade 4 30 1.7 [];
    Upg.mk "module_checksum" "Checksum Upgrade"
      "Upgrade the Checksum module to the next level"
      module_upgrade 4 40 1.7 [];
    Upg.mk "module_compress" "Compress Upgrade"
      "Upgrade the Compress module to the next level"
      module_upgrade 4 50 1.7 [];
    Upg.mk "module_tag" "Tag Upgrade"
      "Upgrade the Tag module to the next level"
      module_upgrade 4 35 1.7 [] ].

Definition LANE_COST : Q := 200.
Definition LANE_COST_3 : Q := 500.

(** [Object.fromEntries(UPGRADE_DEFINITIONS.map((u) => [u.id, u]))] read at
    a key, for the keys that the map has of its own: the last definition
    with that id.  A key that the object inherits (["constructor"],
    ["toString"]) reads in the source as a value that is no definition; the
    embedding has no such value and gives [None] there.  The interface
    passes the ids of the catalog, and the properties of [buyUpgrade] are
    stated for those. *)
Definition UPGRADE_MAP (upgradeId : string) : option Upg.t :=
  list_find (fun u => Upg.id u = upgradeId) (reverse UPGRADE_DEFINITIONS) ≫= Some ∘ snd.

(** ** state/actions.ts *)

Section Actions.

(** [upgradeCost(def, currentLevel)], which is
    [Math.round(def.baseCost * Math.pow(def.costGrowth, currentLevel))] in
    double-precision arithmetic.  The price list is a parameter of the
    embedding: the rounding of a floating-point power is not the rounding of
    the rational power ([50 * 1.7 ^ 2] is [144.5] over the rationals), and the
    properties of the shop do not depend on the prices. *)
Variable upgradeCost : Upg.t -> Z -> Q.

Definition buyUpgrade (state : GameState) (upgradeId : string) : option GameState :=
  match UPGRADE_MAP upgradeId with
  | None => None
  | Some def =>
    let currentLevel := level_of (upgradesPurchased state) upgradeId in
    if (Upg.maxLevel def <=? currentLevel)%Z then None
    else
      let cost := upgradeCost def currentLevel in
      if Qltb (credits (resources state)) cost then None
      else
        let newState :=
          with_upgradesPurchased
            (<[upgradeId := (currentLevel + 1)%Z]> (upgradesPurchased state))
            (with_resources (pay_credits cost (resources state)) state) in
        if bool_decide (Upg.category def = module_upgrade) then
          match ModuleType_of_key (String_replace "module_" "" upgradeId) with
          | Some moduleType =>
            let info := module_info (modules newState) moduleType in
            Some (with_modules
                    (set_module moduleType (set_level (level info + 1)%Z info)
                                (modules newState))
                    newState)
          | None => Some newState
          end
        else Some newState
  end.

End Actions.

Definition unlockModule (state : GameState) (moduleType : ModuleType) : option GameState :=
  let mod_ := module_info (modules state) moduleType in
  if (0 <? level mod_)%Z then None
  else
    let def := MODULE_DEFINITIONS moduleType in
    if Qltb (credits (resources state)) (unlockCost def) then None
    else
      let newLanes :=
        (fun lane =>
           set_enabledModules
             (if bool_decide (moduleType ∈ enabledModules lane)
              then enabledModules lane
              else enabledModules lane ++ [moduleType])
             lane) <$> lanes state in
      Some (with_lanes newLanes
              (with_modules (set_module moduleType (mkModuleInfo moduleType 1) (modules state))
                 (with_resources (pay_credits (unlockCost def) (resources state)) state))).

Definition toggleLaneModule (state : GameState) (laneId : Z) (moduleType : ModuleType)
    : option GameState :=
  match list_find (fun l => lane_id l = laneId) (lanes state) with
  | None => None
  | Some (laneIdx, lane) =>
    if (level (module_info (modules state) moduleType) =? 0)%Z then None
    else
      let enabled := bool_decide (moduleType ∈ enabledModules lane) in
      let newEnabled :=
        if enabled then filter (fun m => m <> moduleType) (enabledModules lane)
        else enabledModules lane ++ [moduleType] in
      let newLanes :=
        imap (fun i l => if (i =? laneIdx)%nat then set_enabledModules newEnabled l else l)
             (lanes state) in
      Some (with_lanes newLanes state)
  end.

Definition addLane (state : GameState) : option GameState :=
  if (3 <=? length (lanes state))%nat then None
  else
    let cost := if (length (lanes state) =? 1)%nat then LANE_COST else LANE_COST_3 in
    if Qltb (credits (resources state)) cost then None
    else
      let unlockedModules :=
        filter (fun m => (0 < level (module_info (modules state) m))%Z) Object_keys_modules in
      let newLane :=
        set_enabledModules unlockedModules (createLane (Z.of_nat (length (lanes state)))) in
      Some (with_lanes (lanes state ++ [newLane])
              (with_resources (pay_credits cost (resources state)) state)).

Definition switchProtocol (state : GameState) (protocol : ProtocolFamily) : option GameState :=
  if bool_decide (activeProtocol state = protocol) then None
  else
    let cost := switchCost (PROTOCOL_DEFINITIONS protocol) in
    if Qltb (credits (resources state)) cost then None
    else
      let newProtocolsUsed := Set_add protocol (new_Set (protocolsUsed state)) in
      Some (with_protocolsUsed newProtocolsUsed
              (with_activeProtocol protocol
                 (with_resources (pay_credits cost (resources state)) state))).

(** ** content/contracts.ts: the perk catalog; core/prestige.ts: the perk shop *)

Module Perk.
Record t := mk {
  id : string;
  name : string;
  description : string;
  maxLevel : Z;
  costPerLevel : Z
}.
End Perk.

Definition META_PERKS : list Perk.t :=
  [ Perk.mk "perk_throughput_boost" "Throughput Boost"
      "+10% global scrap generation and processing speed per level" 3 2;
    Perk.mk "perk_latency_shield" "Latency Shield"
      "-15% latency penalty scaling per level" 2 3;
    Perk.mk "perk_head_start" "Head Start"
      "Begin next run with an extra lane already built" 1 4;
    Perk.mk "perk_fragment_surge" "Fragment Surge"
      "+5 fewer ticks between fragment drops per level" 2 2;
    Perk.mk "perk_offline_cap" "Offline Cap+"
      "+4 hours to the offline progression cap" 1 3;
    Perk.mk "perk_credit_multiplier" "Credit Multiplier"
      "+20% credit rate permanently" 1 5 ].

Definition set_perk (perkId : string) (n : Z) (cost : Z) (m : MetaProgress) : MetaProgress :=
  mkMeta (prestigeCount m) (totalReputation m) (spentReputation m + cost)%Z
         (<[perkId := n]> (perks m)).

Definition buyMetaPerk (state : GameState) (perkId : string) : option GameState :=
  match list_find (fun p => Perk.id p = perkId) META_PERKS with
  | None => None
  | Some (_, perkDef) =>
    let currentLevel := level_of (perks (meta state)) perkId in
    if (Perk.maxLevel perkDef <=? currentLevel)%Z then None
    else
      let cost := Perk.costPerLevel perkDef in
      if (availableReputation state <? cost)%Z then None
      else Some (with_meta (set_perk perkId (currentLevel + 1)%Z cost (meta state)) state)
  end.

(** ** state/gameState.ts: loading *)

(** [deserializeState]: the saved object with its array of protocols made a
    [Set] again. *)
Definition deserializeState (raw : GameState) : GameState :=
  with_protocolsUsed (new_Set (protocolsUsed raw)) raw.

(** ** web/App.tsx: upkeep of the board *)

Definition ensureBoard (state : GameState) : GameState :=
  if (length (contracts state) =? 0)%nat || isBoardExhausted state
  then refreshContractBoard state
  else state.

(** [stamp], at the time [now]. *)
Definition stamp (now : Z) (state : GameState) : GameState := with_lastTickTime now state.

(** * The tick engine on a store of mutable objects

    [processTick] builds its result by assignments to a copy of its input.
    This part runs those assignments on a store of objects.  The objects that
    some statement of the engine assigns into are cells of the store and are
    held by reference: the state object, its resource pool, its statistics,
    every lane and every contract.  The arrays and dictionaries that no
    statement assigns into are held by value. *)

Abbreviation loc := nat.

(** The state object: references to its mutable children, values otherwise. *)
Record RootObj := mkRoot {
  r_version : Z;
  r_lastTickTime : Z;
  r_resources : loc;
  r_lanes : list loc;
  r_modules : Modules;
  r_activeProtocol : ProtocolFamily;
  r_upgradesPurchased : gmap string Z;
  r_contracts : list loc;
  r_activeContractId : option string;
  r_completedContractCount : Z;
  r_highTierContractsCompleted : Z;
  r_protocolsUsed : list ProtocolFamily;
  r_meta : MetaProgress;
  r_stats : loc;
  r_tickCount : Z
}.

Inductive obj :=
  | ORoot (r : RootObj)
  | OResources (p : ResourcePool)
  | OStats (st : Stats)
  | OLane (l : LaneState)
  | OContract (c : ContractState).

Abbreviation store := (list obj).

(** ** Reading a state off the store *)

Definition getResources (h : store) (l : loc) : option ResourcePool :=
  match h !! l with Some (OResources p) => Some p | _ => None end.
Definition getStats (h : store) (l : loc) : option Stats :=
  match h !! l with Some (OStats st) => Some st | _ => None end.
Definition getLane (h : store) (l : loc) : option LaneState :=
  match h !! l with Some (OLane x) => Some x | _ => None end.
Definition getContract (h : store) (l : loc) : option ContractState :=
  match h !! l with Some (OContract c) => Some c | _ => None end.
Definition getRoot (h : store) (l : loc) : option RootObj :=
  match h !! l with Some (ORoot r) => Some r | _ => None end.

(** The state value that a root object and its children hold. *)
Definition snapshot (h : store) (s : loc) : option GameState :=
  r ← getRoot h s;
  res ← getResources h (r_resources r);
  ls ← mapM (getLane h) (r_lanes r);
  cs ← mapM (getContract h) (r_contracts r);
  st ← getStats h (r_stats r);
  Some (mkGameState (r_version r) (r_lastTickTime r) res ls (r_modules r)
          (r_activeProtocol r) (r_upgradesPurchased r) cs (r_activeContractId r)
          (r_completedContractCount r) (r_highTierContractsCompleted r)
          (r_protocolsUsed r) (r_meta r) st (r_tickCount r)).

(** ** Programs over the store *)

Definition M (A : Type) : Type := store -> option (A * store).

Definition ret {A} (a : A) : M A := fun h => Some (a, h).
Definition bind {A B} (m : M A) (k : A -> M B) : M B :=
  fun h => match m h with Some (a, h') => k a h' | None => None end.
Definition stuck {A} : M A := fun _ => None.
Definition lift {A} (f : store -> option A) : M A :=
  fun h => match f h with Some a => Some (a, h) | None => None end.

Notation "'let*' x ':=' m 'in' k" := (bind m (fun x => k))
  (at level 10, x name, m at level 100, k at level 200).
Notation "m ';;' k" := (bind m (fun _ => k))
  (at level 100, k at level 200, right associativity).

(** [new]: a fresh object, at the end of the store. *)
Definition alloc (o : obj) : M loc := fun h => Some (length h, h ++ [o]).

(** Assignment into an existing object. *)
Definition assign (l : loc) (o : obj) : M unit :=
  fun h => if decide (l < length h)%nat then Some (tt, <[l := o]> h) else None.

Definition loadRoot (l : loc) : M RootObj := lift (fun h => getRoot h l).
Definition loadResources (l : loc) : M ResourcePool := lift (fun h => getResources h l).
Definition loadStats (l : loc) : M Stats := lift (fun h => getStats h l).
Definition loadLane (l : loc) : M LaneState := lift (fun h => getLane h l).
Definition loadContract (l : loc) : M ContractState := lift (fun h => getContract h l).
Definition readState (s : loc) : M GameState := lift (fun h => snapshot h s).

(** [s.f = v] for a field of the state object, and [s.resources.f = v],
    [s.stats.f = v] for fields of its children. *)
Definition updRoot (s : loc) (f : RootObj -> RootObj) : M unit :=
  let* r := loadRoot s in assign s (ORoot (f r)).
Definition updResources (s : loc) (f : ResourcePool -> ResourcePool) : M unit :=
  let* r := loadRoot s in
  let* p := loadResources (r_resources r) in
  assign (r_resources r) (OResources (f p)).
Definition updStats (s : loc) (f : Stats -> Stats) : M unit :=
  let* r := loadRoot s in
  let* st := loadStats (r_stats r) in
  assign (r_stats r) (OStats (f st)).
Definition updContract (l : loc) (f : ContractState -> ContractState) : M unit :=
  let* c := loadContract l in assign l (OContract (f c)).

Definition set_r_protocolsUsed (p : list ProtocolFamily) (r : RootObj) : RootObj :=
  mkRoot (r_version r) (r_lastTickTime r) (r_resources r) (r_lanes r) (r_modules r)
    (r_activeProtocol r) (r_upgradesPurchased r) (r_contracts r) (r_activeContractId r)
    (r_completedContractCount r) (r_highTierContractsCompleted r) p (r_meta r)
    (r_stats r) (r_tickCount r).
Definition set_r_tickCount (n : Z) (r : RootObj) : RootObj :=
  mkRoot (r_version r) (r_lastTickTime r) (r_resources r) (r_lanes r) (r_modules r)
    (r_activeProtocol r) (r_upgradesPurchased r) (r_contracts r) (r_activeContractId r)
    (r_completedContractCount r) (r_highTierContractsCompleted r) (r_protocolsUsed r)
    (r_meta r) (r_stats r) n.
Definition set_r_activeContractId (a : option string) (r : RootObj) : RootObj :=
  mkRoot (r_version r) (r_lastTickTime r) (r_resources r) (r_lanes r) (r_modules r)
    (r_activeProtocol r) (r_upgradesPurchased r) (r_contracts r) a
    (r_completedContractCount r) (r_highTierContractsCompleted r) (r_protocolsUsed r)
    (r_meta r) (r_stats r) (r_tickCount r).
Definition set_r_completedContractCount (n : Z) (r : RootObj) : RootObj :=
  mkRoot (r_version r) (r_lastTickTime r) (r_resources r) (r_lanes r) (r_modules r)
    (r_activeProtocol r) (r_upgradesPurchased r) (r_contracts r) (r_activeContractId r)
    n (r_highTierContractsCompleted r) (r_protocolsUsed r)
    (r_meta r) (r_stats r) (r_tickCount r).
Definition set_r_highTierContractsCompleted (n : Z) (r : RootObj) : RootObj :=
  mkRoot (r_version r) (r_lastTickTime r) (r_resources r) (r_lanes r) (r_modules r)
    (r_activeProtocol r) (r_upgradesPurchased r) (r_contracts r) (r_activeContractId r)
    (r_completedContractCount r) n (r_protocolsUsed r)
    (r_meta r) (r_stats r) (r_tickCount r).

(** ** [JSON.parse(JSON.stringify(state))] *)

Fixpoint cloneLanes (ls : list loc) : M (list loc) :=
  match ls with
  | [] => ret []
  | l :: rest =>
    let* lane := loadLane l in
    let* l' := alloc (OLane lane) in
    let* rest' := cloneLanes rest in
    ret (l' :: rest')
  end.

Fixpoint cloneContracts (ls : list loc) : M (list loc) :=
  match ls with
  | [] => ret []
  | l :: rest =>
    let* c := loadContract l in
    let* l' := alloc (OContract c) in
    let* rest' := cloneContracts rest in
    ret (l' :: rest')
  end.

Definition deepCloneH (state : loc) : M loc :=
  let* r := loadRoot state in
  let* res := loadResources (r_resources r) in
  let* res' := alloc (OResources res) in
  let* lanes' := cloneLanes (r_lanes r) in
  let* contracts' := cloneContracts (r_contracts r) in
  let* st := loadStats (r_stats r) in
  let* st' := alloc (OStats st) in
  alloc (ORoot (mkRoot (r_version r) (r_lastTickTime r) res' lanes' (r_modules r)
                  (r_activeProtocol r) (r_upgradesPurchased r) contracts'
                  (r_activeContractId r) (r_completedContractCount r)
                  (r_highTierContractsCompleted r) (r_protocolsUsed r) (r_meta r)
                  st' (r_tickCount r))).

(** ** [processTick], statement by statement *)

(** [for (let i = 0; i < s.lanes.length; i++)], with [n] iterations to go.
    The assignments of one iteration to [lane.queue] and [lane.heat] are
    written as one assignment of the lane. *)
Fixpoint laneLoopH (state s : loc)
    (deltaSeconds scrapPerLane queueTolerance totalLatencyReduction : Q)
    (i n : nat) (totalPayloadThisTick : Q) : M Q :=
  match n with
  | O => ret totalPayloadThisTick
  | S n' =>
    let* rs := loadRoot s in
    match r_lanes rs !! i with
    | None => stuck
    | Some ll =>
      let* lane := loadLane ll in
      let* input := readState state in
      match lanes input !! i with
      | None => stuck
      | Some snapshotLane =>
        let '(lane', payloadFromLane) :=
          laneBody input deltaSeconds scrapPerLane queueTolerance totalLatencyReduction
                   lane snapshotLane in
        assign ll (OLane lane');;
        laneLoopH state s deltaSeconds scrapPerLane queueTolerance totalLatencyReduction
                  (S i) n' (totalPayloadThisTick + payloadFromLane)
      end
    end
  end.

(** [s.contracts.find((c) => c.id === s.activeContractId)]. *)
Fixpoint findContractH (ptr : option string) (ls : list loc) : M (option loc) :=
  match ls with
  | [] => ret None
  | l :: rest =>
    let* c := loadContract l in
    if decide (Some (contract_id c) = ptr) then ret (Some l) else findContractH ptr rest
  end.

Definition contractSectionH (s : loc) (totalPayloadThisTick deltaSeconds : Q) : M unit :=
  let* rs := loadRoot s in
  if truthy (r_activeContractId rs) then
    let* found := findContractH (r_activeContractId rs) (r_contracts rs) in
    match found with
    | None => ret tt
    | Some contract =>
      let* c := loadContract contract in
      if active c then
        updContract contract
          (fun c => set_progressPayload (progressPayload c + totalPayloadThisTick) c);;
        let* c := loadContract contract in
        match timeRemainingS c with
        | Some t =>
          updContract contract (set_timeRemainingS (Some (t - deltaSeconds)));;
          if Qleb (t - deltaSeconds) 0 then
            updContract contract (set_expired true);;
            updContract contract (set_active false);;
            updRoot s (set_r_activeContractId None)
          else ret tt
        | None => ret tt
        end;;
        let* c := loadContract contract in
        if Qleb (targetPayload c) (progressPayload c) then
          updContract contract (set_active false);;
          updContract contract (set_expired false);;
          updResources s (add_credits (rewardCredits c));;
          updResources s (add_fragments (rewardFragments c));;
          updStats s (add_totalCreditsEarned (rewardCredits c));;
          updRoot s (fun r => set_r_completedContractCount
                                (r_completedContractCount r + 1)%Z r);;
          (if bool_decide (tier c = high)
           then updRoot s (fun r => set_r_highTierContractsCompleted
                                      (r_highTierContractsCompleted r + 1)%Z r)
           else ret tt);;
          updRoot s (set_r_activeContractId None)
        else ret tt
      else ret tt
    end
  else ret tt.

Definition prestigeReadyH (s : loc) : M unit :=
  let* rs := loadRoot s in
  let* st := loadStats (r_stats rs) in
  match prestigeReadyAt st with
  | None =>
    if Qleb 3000 (totalPayloadProduced st)
    then updStats s (set_prestigeReadyAt (Some (r_tickCount rs)))
    else ret tt
  | Some _ => ret tt
  end.

(** The statements of [processTick] after the copy has been made. *)
Definition tickBodyH (state s : loc) (deltaSeconds : Q) : M loc :=
  let* input := readState state in
  updRoot s (set_r_protocolsUsed (new_Set (protocolsUsed input)));;
  updStats s (add_playtimeSec deltaSeconds);;
  updRoot s (fun r => set_r_tickCount (r_tickCount r + 1)%Z r);;
  (* 1. generate scrap *)
  let* input := readState state in
  let scrapRate := calculateScrapGenRate input in
  let scrapGenerated := scrapRate * deltaSeconds in
  let* rs := loadRoot s in
  let scrapPerLane := scrapGenerated / inject_Z (Z.of_nat (length (r_lanes rs))) in
  (* 2. per-lane processing *)
  let* input := readState state in
  let queueTolerance := inject_Z (level_of (upgradesPurchased input) "hw_buffer" * 10) in
  let coolingLevel := level_of (upgradesPurchased input) "hw_cooling" in
  let latencyReductionPct := inject_Z coolingLevel * 0.05 in
  let latencyShieldPerk := level_of (perks (meta input)) "perk_latency_shield" in
  let totalLatencyReduction :=
    Qmin 0.9 (latencyReductionPct + inject_Z latencyShieldPerk * 0.15) in
  let* totalPayloadThisTick :=
    laneLoopH state s deltaSeconds scrapPerLane queueTolerance totalLatencyReduction
              0 (length (r_lanes rs)) 0 in
  (* 3. accumulate payload and credits *)
  updResources s (add_payload totalPayloadThisTick);;
  updStats s (add_totalPayloadProduced totalPayloadThisTick);;
  let* input := readState state in
  let creditRate := calculateCreditRate input in
  let creditsEarned := totalPayloadThisTick * creditRate in
  updResources s (add_credits creditsEarned);;
  updStats s (add_totalCreditsEarned creditsEarned);;
  (* 4. deterministic fragment drops *)
  let* input := readState state in
  let fragInterval := calculateFragmentInterval input in
  let* rs := loadRoot s in
  (if (Z.rem (r_tickCount rs) fragInterval =? 0)%Z
   then updResources s (add_fragments 1) else ret tt);;
  (* 5. contract progress *)
  contractSectionH s totalPayloadThisTick deltaSeconds;;
  (* 6. prestige readiness *)
  prestigeReadyH s;;
  ret s.

Definition processTickH (state : loc) (deltaSeconds : Q) : M loc :=
  let* s := deepCloneH state in
  tickBodyH state s deltaSeconds.

(** * Vocabulary of the properties *)

(** ** Tick engine *)

(** This step's refined output and the lanes after the step, as the lane
    loop of [processTick] computes them. *)
Definition tickLaneResult (state : GameState) (deltaSeconds : Q) : list LaneState * Q :=
  let scrapPerLane :=
    calculateScrapGenRate state * deltaSeconds
    / inject_Z (Z.of_nat (length (lanes state))) in
  let queueTolerance := inject_Z (level_of (upgradesPurchased state) "hw_buffer" * 10) in
  let totalLatencyReduction :=
    Qmin 0.9 (inject_Z (level_of (upgradesPurchased state) "hw_cooling") * 0.05
              + inject_Z (level_of (perks (meta state)) "perk_latency_shield") * 0.15) in
  laneLoop state deltaSeconds scrapPerLane queueTolerance totalLatencyReduction
           (zip (lanes state) (lanes state)) 0.

Definition tickPayload (state : GameState) (deltaSeconds : Q) : Q :=
  (tickLaneResult state deltaSeconds).2.

(** The fragment that the periodic drop of one call awards. *)
Definition tickDrop (state : GameState) : Q :=
  if (Z.rem (tickCount state + 1) (calculateFragmentInterval state) =? 0)%Z then 1 else 0.

(** The state of [processTick] on entry to its contract section. *)
Definition beforeContracts (state : GameState) (deltaSeconds : Q) : GameState :=
  let total := tickPayload state deltaSeconds in
  let earned := total * calculateCreditRate state in
  let res :=
    add_credits earned (add_payload total (resources state)) in
  let res :=
    if (Z.rem (tickCount state + 1) (calculateFragmentInterval state) =? 0)%Z
    then add_fragments 1 res else res in
  mkGameState (version state) (lastTickTime state) res
    (tickLaneResult state deltaSeconds).1 (modules state) (activeProtocol state)
    (upgradesPurchased state) (contracts state) (activeContractId state)
    (completedContractCount state) (highTierContractsCompleted state)
    (new_Set (protocolsUsed state)) (meta state)
    (add_totalCreditsEarned earned
      (add_totalPayloadProduced total (add_playtimeSec deltaSeconds (stats state))))
    (tickCount state + 1)%Z.

(** The contract that the contract section of [processTick] works on: the
    first contract whose id is the (truthy) active pointer, if it is active. *)
Definition workingContract (s : GameState) : option (nat * ContractState) :=
  if truthy (activeContractId s) then
    match list_find (fun c => Some (contract_id c) = activeContractId s) (contracts s) with
    | Some (i, c) => if active c then Some (i, c) else None
    | None => None
    end
  else None.

(** ** Prestige reward *)

(** The reward formula in the words of the specification:
    [floor(lifetimeOutput ^ 0.25) + highTierCompleted * 0.5
     + totalCompleted * 0.25 + distinctProtocolsUsedThisRun],
    floored at a minimum of 1. *)
Definition rewardFormula_spec `{Engine} (state : GameState) : Q :=
  Qmax 1
    (inject_Z (Qfloor (Math_pow (totalPayloadProduced (stats state)) 0.25))
     + inject_Z (highTierContractsCompleted state) * 0.5
     + inject_Z (completedContractCount state) * 0.25
     + inject_Z (Z.of_nat (length (protocolsUsed state)))).

(** ** Offline replay *)

(** The number of whole chunks in [elapsed] seconds. *)
Definition fullChunks (elapsed : Q) : nat :=
  Z.to_nat (Qfloor (elapsed / OFFLINE_CHUNK_SECONDS)).

(** ** Contract board *)

(** At most one contract of the board is active. *)
Definition singleActive (cs : list ContractState) : Prop :=
  forall i j ci cj,
    cs !! i = Some ci -> cs !! j = Some cj ->
    active ci = true -> active cj = true -> i = j.

(** Every active contract is the one the pointer names. *)
Definition pointerAgrees (cs : list ContractState) (ptr : option string) : Prop :=
  forall c, c ∈ cs -> active c = true -> ptr = Some (contract_id c).

(** The invariant of the board: distinct, non-empty ids, and the pointer
    names every active contract. *)
Definition boardOk (cs : list ContractState) (ptr : option string) : Prop :=
  NoDup (contract_id <$> cs)
  /\ (forall c, c ∈ cs -> contract_id c <> "")
  /\ pointerAgrees cs ptr.

Definition boardInv (s : GameState) : Prop := boardOk (contracts s) (activeContractId s).

(** The states that the engine can produce from a fresh run, on whatever
    engine each reset is computed. *)
Inductive reachable : GameState -> Prop :=
  | reach_init (now : Z) : reachable (createInitialState now)
  | reach_advance (s : GameState) (d : Q) :
      reachable s -> reachable (processTick s d)
  | reach_refresh (s : GameState) :
      reachable s -> reachable (refreshContractBoard s)
  | reach_activate (s s' : GameState) (contractId : string) :
      reachable s -> activateContract s contractId = Some s' -> reachable s'
  | reach_reset (E : Engine) (now : Z) (s : GameState) :
      reachable s -> reachable (applyPrestige now s).

(** The last character of a string. *)
Fixpoint last_char (s : string) : option Ascii.ascii :=
  match s with
  | EmptyString => None
  | String c s' => match s' with EmptyString => Some c | _ => last_char s' end
  end.

(** ** What a tick keeps *)

(** The terms of a contract: everything but its progress. *)
Definition contractTerms (c : ContractState)
    : string * string * string * ProtocolFamily * Q * option Q * Q * Q * Tier :=
  (contract_id c, name c, description c, protocol c, targetPayload c, timeLimitSec c,
   rewardCredits c, rewardFragments c, tier c).

(** Levels are counts. *)
Definition levelsNonneg (m : gmap string Z) : Prop := forall k, (0 <= level_of m k)%Z.

Definition modulesNonneg (ms : Modules) : Prop :=
  forall t, (0 <= level (module_info ms t))%Z.

(** A state whose levels are counts, whose queues hold something or nothing,
    and whose contracts pay something or nothing. *)
Record wellFormed (s : GameState) : Prop := mkWellFormed {
  wf_upgrades : levelsNonneg (upgradesPurchased s);
  wf_perks : levelsNonneg (perks (meta s));
  wf_modules : modulesNonneg (modules s);
  wf_queues : Forall (fun l => 0 <= queue l) (lanes s);
  wf_rewards : Forall (fun c => 0 <= rewardCredits c /\ 0 <= rewardFragments c) (contracts s)
}.

(** ** Contracts on offer *)

(** A contract as the board offers it: not started, with its full time. *)
Definition openContract (c : ContractState) : Prop :=
  active c = false /\ expired c = false /\ progressPayload c = 0
  /\ timeRemainingS c = timeLimitSec c.

(** The terms that every catalog contract has: a target to reach and
    rewards that are not negative. *)
Definition fairTerms (c : ContractState) : Prop :=
  0 < targetPayload c /\ 0 <= rewardCredits c /\ 0 <= rewardFragments c.

(** ** The hash of the shuffle *)

(** The polynomial that [deterministicHash] evaluates, without wrap-around:
    [c0 * 31^(n-1) + c1 * 31^(n-2) + ... + c(n-1)]. *)
Definition hashPolynomial (codes : list Z) : Z :=
  fold_left (fun h c => (31 * h + c)%Z) codes 0%Z.

(** ** A run of the game *)

(** The states of a run: what the tick engine and the actions of the player
    produce from a fresh state, for a price list [upgradeCost].  Time does
    not run backwards: a tick has a duration that is not negative. *)
Inductive playable (upgradeCost : Upg.t -> Z -> Q) : GameState -> Prop :=
  | play_init (now : Z) : playable upgradeCost (createInitialState now)
  | play_tick (s : GameState) (d : Q) :
      playable upgradeCost s -> 0 <= d -> playable upgradeCost (processTick s d)
  | play_stamp (now : Z) (s : GameState) :
      playable upgradeCost s -> playable upgradeCost (stamp now s)
  | play_refresh (s : GameState) :
      playable upgradeCost s -> playable upgradeCost (refreshContractBoard s)
  | play_activate (s s' : GameState) (contractId : string) :
      playable upgradeCost s -> activateContract s contractId = Some s' ->
      playable upgradeCost s'
  | play_prestige (E : Engine) (now : Z) (s : GameState) :
      playable upgradeCost s -> playable upgradeCost (applyPrestige now s)
  | play_buyUpgrade (s s' : GameState) (upgradeId : string) :
      playable upgradeCost s -> buyUpgrade upgradeCost s upgradeId = Some s' ->
      playable upgradeCost s'
  | play_unlockModule (s s' : GameState) (moduleType : ModuleType) :
      playable upgradeCost s -> unlockModule s moduleType = Some s' ->
      playable upgradeCost s'
  | play_toggleLaneModule (s s' : GameState) (laneId : Z) (moduleType : ModuleType) :
      playable upgradeCost s -> toggleLaneModule s laneId moduleType = Some s' ->
      playable upgradeCost s'
  | play_addLane (s s' : GameState) :
      playable upgradeCost s -> addLane s = Some s' -> playable upgradeCost s'
  | play_switchProtocol (s s' : GameState) (protocol : ProtocolFamily) :
      playable upgradeCost s -> switchProtocol s protocol = Some s' ->
      playable upgradeCost s'
  | play_buyMetaPerk (s s' : GameState) (perkId : string) :
      playable upgradeCost s -> buyMetaPerk s perkId = Some s' ->
      playable upgradeCost s'.

(** The highest level that the catalogs give an upgrade and a perk (0 for
    an id that is in no catalog), and the id of the upgrade of a module. *)
Definition upgradeCap (k : string) : Z := from_option Upg.maxLevel 0%Z (UPGRADE_MAP k).

Definition perkCap (k : string) : Z :=
  from_option (fun ip => Perk.maxLevel ip.2) 0%Z
              (list_find (fun p => Perk.id p = k) META_PERKS).

Definition moduleUpgradeId (t : ModuleType) : string := "module_" +:+ ModuleType_key t.

(** The invariant of a run, part by part. *)
Definition lanesInv (ms : Modules) (ls : list LaneState) : Prop :=
  (1 <= length ls <= 3)%nat
  /\ (forall i l, ls !! i = Some l -> lane_id l = Z.of_nat i)
  /\ Forall (fun l => 0 <= queue l /\ 0 <= heat l /\ heat l <= 0.9
                      /\ NoDup (enabledModules l)
                      /\ forall m, m ∈ enabledModules l -> (0 < level (module_info ms m))%Z)
            ls.

Definition levelsInv (ms : Modules) (ups : gmap string Z) : Prop :=
  (forall k, (0 <= level_of ups k <= upgradeCap k)%Z)
  /\ (forall t, mtype (module_info ms t) = t
                /\ (0 <= level (module_info ms t)
                    <= 1 + level_of ups (moduleUpgradeId t))%Z)
  /\ (1 <= level (module_info ms decrypt))%Z.

Definition metaInv (m : MetaProgress) : Prop :=
  (forall k, (0 <= level_of (perks m) k <= perkCap k)%Z)
  /\ (0 <= spentReputation m <= totalReputation m)%Z
  /\ (0 <= prestigeCount m)%Z.

Definition fundsInv (s : GameState) : Prop :=
  0 <= payload (resources s) /\ 0 <= credits (resources s)
  /\ 0 <= fragments (resources s) /\ scrap (resources s) = 0
  /\ 0 <= totalPayloadProduced (stats s) /\ 0 <= totalCreditsEarned (stats s)
  /\ 0 <= playtimeSec (stats s)
  /\ (0 <= tickCount s)%Z
  /\ (0 <= highTierContractsCompleted s <= completedContractCount s)%Z.

Definition readyInv (s : GameState) : Prop :=
  (canPrestige s = true -> prestigeReadyAt (stats s) <> None)
  /\ (forall n, prestigeReadyAt (stats s) = Some n ->
        canPrestige s = true /\ (0 < n <= tickCount s)%Z).

Definition protocolsInv (s : GameState) : Prop :=
  NoDup (protocolsUsed s) /\ activeProtocol s ∈ protocolsUsed s
  /\ burst ∈ protocolsUsed s.

(** The pointer, when it is set, names a contract of the board that is
    active. *)
Definition pointerLive (s : GameState) : Prop :=
  forall contractId, activeContractId s = Some contractId ->
    exists c, c ∈ contracts s /\ contract_id c = contractId /\ active c = true.

Definition offerInv (s : GameState) : Prop :=
  boardInv s /\ Forall fairTerms (contracts s) /\ (length (contracts s) <= 3)%nat
  /\ pointerLive s.

Record playInv (s : GameState) : Prop := mkPlayInv {
  inv_version : version s = 1%Z;
  inv_lanes : lanesInv (modules s) (lanes s);
  inv_levels : levelsInv (modules s) (upgradesPurchased s);
  inv_meta : metaInv (meta s);
  inv_funds : fundsInv s;
  inv_ready : readyInv s;
  inv_protocols : protocolsInv s;
  inv_offer : offerInv s
}.

(** ** Store *)

(** The root object that goes with a state value and the locations of its
    children. *)
Definition rootFor (v : GameState) (res st : loc) (ls cs : list loc) : RootObj :=
  mkRoot (version v) (lastTickTime v) res ls (modules v) (activeProtocol v)
    (upgradesPurchased v) cs (activeContractId v) (completedContractCount v)
    (highTierContractsCompleted v) (protocolsUsed v) (meta v) st (tickCount v).

(** Where the copy of a state with [L] lanes and [C] contracts sits in a
    store that had [n] objects. *)
Definition copyRes (n : nat) : loc := n.
Definition copyLanes (n L : nat) : list loc := seq (n + 1) L.
Definition copyContracts (n L C : nat) : list loc := seq (n + 1 + L) C.
Definition copyStats (n L C : nat) : loc := (n + 1 + L + C)%nat.
Definition copyRoot (n L C : nat) : loc := (n + 1 + L + C + 1)%nat.

Definition copyObjects (v : GameState) (n : nat) : list obj :=
  [OResources (resources v)] ++ (OLane <$> lanes v) ++ (OContract <$> contracts v)
  ++ [OStats (stats v);
      ORoot (rootFor v (copyRes n) (copyStats n (length (lanes v)) (length (contracts v)))
               (copyLanes n (length (lanes v)))
               (copyContracts n (length (lanes v)) (length (contracts v))))].

(** ** States used as examples *)

(** A fresh run working on a high-tier contract with one second left and a
    target that one second of output reaches. *)
Definition lastSecondContract : ContractState :=
  mkContract "timed_contract" "Timed" "" burst 1 (Some 2) 100 2 0 high true false (Some 1).

Definition lastSecondState : GameState :=
  with_activeContractId (Some "timed_contract")
    (with_contracts [lastSecondContract] (createInitialState 0)).

(** A fresh run whose first board has been generated, its first contract
    activated, and one second simulated. *)
Definition firstBoardState : GameState := refreshContractBoard (createInitialState 0).

Definition activatedState : GameState :=
  default firstBoardState (activateContract firstBoardState "tpl_burst_low_1_run0_0").

Definition runningContractState : GameState := processTick activatedState 1.

(** The same run after 100 seconds in one step: the contract (target 500) is
    completed. *)
Definition oneContractDone : GameState := processTick activatedState 100.

(** A contract with target 1 and rewards 500 credits / 3 fragments. *)
Definition fastContractState : GameState :=
  with_activeContractId (Some "fast_contract")
    (with_contracts
       [mkContract "fast_contract" "Fast" "" burst 1 None 500 3 0 mid true false None]
       (createInitialState 0)).

(** A contract with a 2-second budget and a target out of reach. *)
Definition timedContractState : GameState :=
  with_activeContractId (Some "timed_contract")
    (with_contracts
       [mkContract "timed_contract" "Timed" "" burst 999999 (Some 2) 100 0 0 low
                   true false (Some 2)]
       (createInitialState 0)).

(** A store that holds one state and nothing else: the children first, the
    state object last. *)
Definition storeOf (v : GameState) : store :=
  [OResources (resources v); OStats (stats v)]
  ++ (OLane <$> lanes v) ++ (OContract <$> contracts v)
  ++ [ORoot (rootFor v 0%nat 1%nat (seq 2 (length (lanes v)))
               (seq (2 + length (lanes v)) (length (contracts v))))].

Definition rootOf (v : GameState) : loc := (2 + length (lanes v) + length (contracts v))%nat.

(** A store that holds other objects before a copy of [lastSecondState]
    stamped at another time. *)
Definition crowdedStore : store :=
  storeOf runningContractState
  ++ copyObjects (with_lastTickTime 86400000 lastSecondState)
                 (length (storeOf runningContractState)).

Definition crowdedRoot : loc :=
  copyRoot (length (storeOf runningContractState))
           (length (lanes lastSecondState)) (length (contracts lastSecondState)).

(** A board whose two contracts are over: one completed, one expired. *)
Definition exhaustedBoardState : GameState :=
  with_contracts
    [mkContract "done_contract" "Done" "" burst 10 None 5 1 10 low false false None;
     mkContract "late_contract" "Late" "" secure 10 (Some 5) 5 1 0 low false true (Some 0)]
    (createInitialState 0).

(** A fresh run in which the checksum module has level 1 and is switched
    off on the only lane. *)
Definition checksumOffState : GameState :=
  with_modules
    (set_module checksum (mkModuleInfo checksum 1) (modules (createInitialState 0)))
    (createInitialState 0).

(** The catalog entry of the decrypt upgrade. *)
Definition decryptUpgrade : Upg.t :=
  Upg.mk "module_decrypt" "Decrypt Upgrade"
    "Upgrade the Decrypt module to the next level"
    module_upgrade 4 30 1.7 [].

(** A price list for the examples: the base cost at every level. *)
Definition basePrices (def : Upg.t) (currentLevel : Z) : Q := Upg.baseCost def.

(** A run for the examples: a fresh state, the first upgrade of the decrypt
    module bought with credits that 60 seconds of play have earned. *)
Definition shoppingState : GameState :=
  default (createInitialState 0)
    (buyUpgrade basePrices (processTick (createInitialState 0) 60) "module_decrypt").

(** ** The two arithmetics, side by side *)

Section MachineSamples.

Import PrimFloat.

(** Equal as numbers, or both no number. *)
Definition sameNumber (a b : Binary64.Number) : bool :=
  match a, b with
  | Binary64.NaN, Binary64.NaN => true
  | _, _ => Binary64.eqb a b
  end.

(** The operations of the machine on two doubles give what the operations
    of [Binary64] give on the numbers that the doubles hold. *)
Definition agree (a b : float) : bool :=
  let x := Binary64.ofFloat a in
  let y := Binary64.ofFloat b in
  sameNumber (Binary64.ofFloat (a + b)) (Binary64.add x y)
  && sameNumber (Binary64.ofFloat (a - b)) (Binary64.sub x y)
  && sameNumber (Binary64.ofFloat (a * b)) (Binary64.mul x y)
  && Bool.eqb (PrimFloat.leb a b) (Binary64.leb x y)
  && Bool.eqb (PrimFloat.ltb a b) (Binary64.ltb x y)
  && sameNumber (Binary64.ofFloat (Binary64.Math_max_float a b)) (Binary64.Math_max x y)
  && sameNumber (Binary64.ofFloat (Binary64.Math_min_float a b)) (Binary64.Math_min x y).

(** Doubles of every kind: ordinary ones, ties between two doubles, the
    largest and the smallest, sums that overflow and products that
    underflow. *)
Definition machineSamples : list (float * float) :=
  [(0x1.999999999999ap-4, 0x1.999999999999ap-3);
   (0x1.1ccf385ebc8a0p+1023, 0x1.1ccf385ebc8a0p+1023);
   (0x0.0000000000001p-1022, 0x0.0000000000001p-1022);
   (0x1.0000000000000p+0, 0x1.0000000000000p-53);
   (0x1.0000000000000p+0, 0x1.8000000000000p-52);
   (0x1.0000000000000p+53, 0x1.0000000000000p+0);
   (0x1.0000000000001p+53, 0x1.0000000000000p+0);
   (0x1.eb851eb851eb8p-5, 0x1.c000000000000p+2);
   (0x1.a36e2eb1c432dp-11, 0x1.2c00000000000p+9);
   (0x1.a36e2eb1c432dp-11, 0x1.2c80000000000p+9);
   (0x1.0000000000000p+0, -0x1.ae147ae147ae1p-2);
   (0x1.28f5c28f5c28fp-1, 0x1.6666666666666p-2);
   (-0x1.8000000000000p+0, 0x1.8000000000000p+0);
   (0x0.00000000007e8p-1022, 0x1.0000000000000p-1);
   (0x1.fffffffffffffp+1023, 0x1.0000000000000p+1);
   (0x1.a666666666666p+1, -0x1.70ef54646d497p-57);
   (0x1.1c37937e08000p+53, 0x1.0000000000000p+0);
   (0x1.d6f34547df3b6p+26, 0x1.d6f3458fe5604p+29);
   (0x0.0000000000001p-1022, 0x1.0000000000000p-1);
   (0x1.0000000000000p-1022, 0x1.fffffffffffffp-1);
   (-0x1.fffffffffffffp+1023, 0x1.008896bcf54fap+970);
   (0x0.0p+0, -0x1.d000000000000p+2)]%float.

End MachineSamples.

(** ** Proof support *)

(** Reduction of field reads over field updates, and nothing else. *)
Ltac fields :=
  cbn [version lastTickTime resources lanes modules activeProtocol upgradesPurchased
       contracts activeContractId completedContractCount highTierContractsCompleted
       protocolsUsed meta stats tickCount
       with_resources with_lanes with_contracts with_activeContractId
       with_completedContractCount with_highTierContractsCompleted with_protocolsUsed
       with_stats with_tickCount with_lastTickTime with_meta
       scrap payload credits fragments add_payload add_credits add_fragments
       totalPayloadProduced totalCreditsEarned playtimeSec prestigeReadyAt
       add_playtimeSec add_totalPayloadProduced add_totalCreditsEarned set_prestigeReadyAt
       contract_id name description protocol targetPayload timeLimitSec rewardCredits
       rewardFragments progressPayload tier active expired timeRemainingS
       set_progressPayload set_timeRemainingS set_active set_expired
       prestigeCount totalReputation spentReputation perks
       r_version r_lastTickTime r_resources r_lanes r_modules r_activeProtocol
       r_upgradesPurchased r_contracts r_activeContractId r_completedContractCount
       r_highTierContractsCompleted r_protocolsUsed r_meta r_stats r_tickCount rootFor
       set_r_protocolsUsed set_r_tickCount set_r_activeContractId
       set_r_completedContractCount set_r_highTierContractsCompleted
       fst snd].

(** Reduction of field reads over the field updates of the actions. *)
Ltac action_fields :=
  cbn [version lastTickTime resources lanes modules activeProtocol upgradesPurchased
       contracts activeContractId completedContractCount highTierContractsCompleted
       protocolsUsed meta stats tickCount
       with_resources with_lanes with_contracts with_activeContractId
       with_completedContractCount with_highTierContractsCompleted with_protocolsUsed
       with_stats with_tickCount with_lastTickTime with_meta
       with_modules with_activeProtocol with_upgradesPurchased
       scrap payload credits fragments pay_credits
       lane_id queue heat enabledModules set_enabledModules createLane
       mtype level set_level
       prestigeCount totalReputation spentReputation perks set_perk
       fst snd].

(** The parts of the invariant of a run, unfolded. *)
Ltac inv_unfold :=
  unfold lanesInv, levelsInv, metaInv, fundsInv, readyInv, protocolsInv, offerInv,
         pointerLive, boardInv, canPrestige, availableReputation in *;
  action_fields.

(** * Properties *)

(** ** Latency model *)

Section Latency.

Lemma recover_le (r a b : Q) :
  0 <= r -> r <= 1 -> a <= b -> a + r * (1 - a) <= b + r * (1 - b).
Proof. intros Hr0 Hr1 Hab. nra. Qed.

(** The raw penalty as a function of the two penalised quantities. *)
Lemma rawPenalty_antitone (d1 d2 q1 q2 : Q) :
  d1 <= d2 -> q1 <= q2 ->
  Qmax 0.1 (1 - 0.06 * d2 - 0.0008 * q2) <= Qmax 0.1 (1 - 0.06 * d1 - 0.0008 * q1).
Proof. intros Hd Hq. apply Q.max_le_compat_l. lra. Qed.

Lemma rawPenalty_range (d q : Q) :
  0 <= d -> 0 <= q ->
  0.1 <= Qmax 0.1 (1 - 0.06 * d - 0.0008 * q) /\ Qmax 0.1 (1 - 0.06 * d - 0.0008 * q) <= 1.
Proof.
  intros Hd Hq. split; [apply Q.le_max_l|].
  apply Q.max_lub; lra.
Qed.

Lemma penalty_antitone (m1 m2 q1 q2 tol r : Q) :
  0 <= r -> r <= 1 -> m1 <= m2 -> q1 <= q2 ->
  penalty (calculateLatency m2 q2 tol r) <= penalty (calculateLatency m1 q1 tol r).
Proof.
  intros Hr0 Hr1 Hm Hq. unfold calculateLatency; cbn [penalty].
  apply Q.min_le_compat_l, recover_le; [done..|].
  apply rawPenalty_antitone; apply Q.max_le_compat_l; lra.
Qed.

End Latency.

(** In exact arithmetic, for non-negative module count, queue size and
    queue tolerance and a latency reduction in [0, 1], the penalty of
    [calculateLatency] lies in [0.1, 1.0], does not increase when the module
    count grows (it is constant up to the free depth of 3 modules and falls
    beyond it), and does not increase when the queue grows. *)
Lemma calculateLatency_exact_bounds_monotone
    (activeModules queueSize queueTolerance latencyReductionPct : Q) :
  0 <= activeModules -> 0 <= queueSize -> 0 <= queueTolerance ->
  0 <= latencyReductionPct -> latencyReductionPct <= 1 ->
  let p m q := penalty (calculateLatency m q queueTolerance latencyReductionPct) in
  (0.1 <= p activeModules queueSize /\ p activeModules queueSize <= 1.0)
  /\ (forall m', activeModules <= m' -> p m' queueSize <= p activeModules queueSize)
  /\ (forall m', activeModules <= m' -> m' <= 3 -> p m' queueSize == p activeModules queueSize)
  /\ (forall q', queueSize <= q' -> p activeModules q' <= p activeModules queueSize).
Proof.
  intros Hm Hq Ht Hr0 Hr1 p. subst p. cbv beta.
  split; [|split; [|split]].
  - unfold calculateLatency; cbn [penalty].
    pose proof (rawPenalty_range (Qmax 0 (activeModules - 3))
                  (Qmax 0 (queueSize - queueTolerance))
                  (Q.le_max_l _ _) (Q.le_max_l _ _)) as [Hlo Hhi].
    split; [|apply Qle_trans with 1; [apply Q.le_min_l | lra]].
    apply Q.min_glb; [lra|]. nra.
  - intros m' Hm'. apply penalty_antitone; lra.
  - intros m' Hm' H3. unfold calculateLatency; cbn [penalty].
    rewrite !(Q.max_l 0 (_ - 3)) by lra. reflexivity.
  - intros q' Hq'. apply penalty_antitone; lra.
Qed.

(** * Rounding to binary64 *)

Section Rounding.

Import Binary64.

Lemma roundTiesToEven_near (x : Q) :
  x - (1 # 2) <= inject_Z (roundTiesToEven x) /\ inject_Z (roundTiesToEven x) <= x + (1 # 2).
Proof.
  unfold roundTiesToEven. cbv zeta.
  pose proof (Qfloor_le x) as Hlo. pose proof (Qlt_floor x) as Hhi.
  rewrite inject_Z_plus in Hhi. change (inject_Z 1) with 1 in Hhi.
  destruct (Qcompare _ _) eqn:E.
  - apply Qeq_alt in E. destruct (Z.even _);
      rewrite ?inject_Z_plus; change (inject_Z 1) with 1; lra.
  - apply Qlt_alt in E. lra.
  - apply Qgt_alt in E. rewrite inject_Z_plus. change (inject_Z 1) with 1. lra.
Qed.

Lemma roundTiesToEven_floor (x : Q) :
  (Qfloor x <= roundTiesToEven x <= Qfloor x + 1)%Z.
Proof.
  unfold roundTiesToEven. cbv zeta.
  destruct (Qcompare _ _); [destruct (Z.even _)|..]; lia.
Qed.

Lemma roundTiesToEven_mono (x y : Q) :
  x <= y -> (roundTiesToEven x <= roundTiesToEven y)%Z.
Proof.
  intros Hxy. pose proof (Qfloor_resp_le x y Hxy) as Hf.
  destruct (Z.eq_dec (Qfloor x) (Qfloor y)) as [Heq|Hne].
  - unfold roundTiesToEven. cbv zeta. rewrite Heq.
    destruct (Qcompare (x - _) _) eqn:Ex; destruct (Qcompare (y - _) _) eqn:Ey;
      try (destruct (Z.even _)); try lia;
      repeat match goal with
             | H : Qcompare _ _ = Eq |- _ => apply Qeq_alt in H
             | H : Qcompare _ _ = Lt |- _ => apply Qlt_alt in H
             | H : Qcompare _ _ = Gt |- _ => apply Qgt_alt in H
             end; lra.
  - pose proof (roundTiesToEven_floor x). pose proof (roundTiesToEven_floor y). lia.
Qed.

Lemma roundTiesToEven_Z (z : Z) : roundTiesToEven (inject_Z z) = z.
Proof.
  unfold roundTiesToEven. cbv zeta. rewrite Qfloor_Z.
  destruct (Qcompare _ _) eqn:E; [apply Qeq_alt in E; lra | done | apply Qgt_alt in E; lra].
Qed.

#[global] Instance roundTiesToEven_wd : Proper (Qeq ==> eq) roundTiesToEven.
Proof.
  intros x y Hxy. apply Z.le_antisymm; apply roundTiesToEven_mono; rewrite Hxy; apply Qle_refl.
Qed.

(** ** Powers of two *)

Lemma pow2_pos (e : Z) : 0 < 2 ^ e.
Proof. by apply Qpower_0_lt. Qed.

Lemma pow2_plus (a b : Z) : 2 ^ (a + b) == 2 ^ a * 2 ^ b.
Proof. by apply Qpower_plus. Qed.

Lemma pow2_succ (a : Z) : 2 ^ (a + 1) == 2 * 2 ^ a.
Proof. rewrite pow2_plus. change (2 ^ 1) with 2. ring. Qed.

Lemma pow2_le (a b : Z) : (a <= b)%Z -> 2 ^ a <= 2 ^ b.
Proof. intros H. by apply Qpower_le_compat_l. Qed.

Lemma pow2_Z (a : Z) : (0 <= a)%Z -> inject_Z (2 ^ a) == 2 ^ a.
Proof. intros H. by rewrite Zpower_Qpower. Qed.

(** ** The binary logarithm *)

Lemma ilog2_spec (x : Q) : 0 < x -> 2 ^ ilog2 x <= x /\ x < 2 ^ (ilog2 x + 1).
Proof.
  intros Hx. unfold ilog2. cbv zeta.
  destruct x as [n d]. cbn [Qnum Qden].
  assert (Hn : (0 < n)%Z) by (unfold Qlt in Hx; cbn in Hx; lia).
  pose proof (Z.log2_spec n Hn) as [Hn1 Hn2].
  pose proof (Z.log2_spec (Z.pos d) ltac:(lia)) as [Hd1 Hd2].
  pose proof (Z.log2_nonneg n) as Ha. pose proof (Z.log2_nonneg (Z.pos d)) as Hb.
  set (a := Z.log2 n) in *. set (b := Z.log2 (Z.pos d)) in *.
  rewrite Zle_Qle, pow2_Z in Hn1, Hd1 by done.
  rewrite Zlt_Qlt in Hn2, Hd2. rewrite <- Z.add_1_r, pow2_Z, pow2_succ in Hn2, Hd2 by lia.
  assert (Hk : 2 ^ (a - b) * 2 ^ b == 2 ^ a).
  { rewrite <- pow2_plus. by replace (a - b + b)%Z with a by lia. }
  pose proof (pow2_pos (a - b)) as HK. pose proof (pow2_pos a) as HA.
  pose proof (pow2_pos b) as HB.
  assert (Hxd : (n # d) * inject_Z (Z.pos d) == inject_Z n).
  { rewrite (Qmake_Qdiv n d). field. unfold Qeq, inject_Z. cbn. lia. }
  assert (HD : 0 < inject_Z (Z.pos d)) by (unfold Qlt, inject_Z; cbn; lia).
  assert (Hh : 2 ^ (a - b) == 2 * 2 ^ (a - b - 1)).
  { rewrite <- pow2_succ. by replace (a - b - 1 + 1)%Z with (a - b)%Z by lia. }
  pose proof (pow2_pos (a - b - 1)) as HK'.
  destruct (Qleb (2 ^ (a - b)) (n # d)) eqn:E.
  - apply Qle_bool_iff in E. split; [done|].
    rewrite pow2_succ.
    revert Hn1 Hn2 Hd1 Hd2 Hk HK HA HB Hxd HD Hx E.
    generalize (2 ^ (a - b)) (n # d) (inject_Z (Z.pos d)) (inject_Z n) (2 ^ a) (2 ^ b).
    intros K x D N A B. intros.
    apply Qnot_le_lt. intros Hc.
    assert (H1 : K * B <= K * D) by (by apply Qmult_le_l).
    assert (H2 : 2 * K * D <= x * D) by (apply Qmult_le_compat_r; lra).
    lra.
  - assert (E' : n # d < 2 ^ (a - b)).
    { apply Qnot_le_lt. intros Hc. apply Qle_bool_iff in Hc. unfold Qleb in E. congruence. }
    replace (a - b - 1 + 1)%Z with (a - b)%Z by lia. split; [|done].
    rewrite Hh in Hk.
    revert Hn1 Hn2 Hd1 Hd2 Hk HK' HA HB Hxd HD Hx.
    generalize (2 ^ (a - b - 1)) (n # d) (inject_Z (Z.pos d)) (inject_Z n) (2 ^ a) (2 ^ b).
    intros K' x D N A B. intros.
    apply Qnot_lt_le. intros Hc.
    assert (H1 : K' * D < K' * (2 * B)) by (by apply Qmult_lt_l).
    assert (H2 : x * D <= K' * D) by (apply Qmult_le_compat_r; lra).
    lra.
Qed.

Lemma ilog2_mono (x y : Q) : 0 < x -> x <= y -> (ilog2 x <= ilog2 y)%Z.
Proof.
  intros Hx Hxy.
  pose proof (ilog2_spec x Hx) as [Hx1 _].
  pose proof (ilog2_spec y ltac:(lra)) as [_ Hy2].
  destruct (Z_le_gt_dec (ilog2 x) (ilog2 y)) as [|Hgt]; [done|].
  pose proof (pow2_le (ilog2 y + 1) (ilog2 x) ltac:(lia)). lra.
Qed.

End Rounding.

Section RoundingTwo.

Import Binary64.

(** ** The last digit *)

Lemma lastDigit_mono (x y : Q) : 0 < x -> x <= y -> (lastDigit x <= lastDigit y)%Z.
Proof.
  intros Hx Hxy. unfold lastDigit. pose proof (ilog2_mono x y Hx Hxy). lia.
Qed.

Lemma scaled (x : Q) (e : Z) : x / 2 ^ e * 2 ^ e == x.
Proof. field. pose proof (pow2_pos e). lra. Qed.

Lemma scaled_le (x y : Q) (e : Z) : x <= y -> x / 2 ^ e <= y / 2 ^ e.
Proof.
  intros H. unfold Qdiv. apply Qmult_le_compat_r; [done|].
  apply Qlt_le_weak, Qinv_lt_0_compat, pow2_pos.
Qed.

(** Fewer than 54 digits are kept. *)
Lemma scaled_lt (x : Q) : 0 < x -> x / 2 ^ lastDigit x < inject_Z (2 ^ 53).
Proof.
  intros Hx. pose proof (ilog2_spec x Hx) as [_ Hhi].
  apply Qlt_shift_div_r; [apply pow2_pos|].
  rewrite pow2_Z, <- pow2_plus by lia.
  eapply Qlt_le_trans; [exact Hhi|]. apply pow2_le. unfold lastDigit. lia.
Qed.

(** Above the smallest exponent, 53 digits are kept. *)
Lemma scaled_ge (x : Q) :
  0 < x -> (-1074 < lastDigit x)%Z -> inject_Z (2 ^ 52) <= x / 2 ^ lastDigit x.
Proof.
  intros Hx He. pose proof (ilog2_spec x Hx) as [Hlo _].
  apply Qle_shift_div_l; [apply pow2_pos|].
  rewrite pow2_Z, <- pow2_plus by lia.
  eapply Qle_trans; [|exact Hlo]. apply pow2_le. unfold lastDigit in *. lia.
Qed.

(** ** Rounding keeps the order *)

Lemma roundPos_nonneg (x : Q) : 0 < x -> 0 <= roundPos x.
Proof.
  intros Hx. unfold roundPos. cbv zeta.
  apply Qmult_le_0_compat; [|apply Qlt_le_weak, pow2_pos].
  change 0 with (inject_Z 0). rewrite <- Zle_Qle.
  rewrite <- (roundTiesToEven_Z 0). apply roundTiesToEven_mono.
  apply Qle_shift_div_l; [apply pow2_pos|]. change (inject_Z 0) with 0. lra.
Qed.

Lemma roundPos_mono (x y : Q) : 0 < x -> x <= y -> roundPos x <= roundPos y.
Proof.
  intros Hx Hxy. assert (Hy : 0 < y) by lra.
  pose proof (lastDigit_mono x y Hx Hxy) as He.
  unfold roundPos. cbv zeta.
  destruct (Z.eq_dec (lastDigit x) (lastDigit y)) as [Heq|Hne].
  - rewrite Heq. apply Qmult_le_compat_r; [|apply Qlt_le_weak, pow2_pos].
    rewrite <- Zle_Qle. apply roundTiesToEven_mono. by apply scaled_le.
  - assert (Hlt : (lastDigit x < lastDigit y)%Z) by lia.
    pose proof (scaled_lt x Hx) as Hsx.
    pose proof (scaled_ge y Hy ltac:(unfold lastDigit in *; lia)) as Hsy.
    apply Qlt_le_weak, roundTiesToEven_mono in Hsx.
    apply roundTiesToEven_mono in Hsy.
    rewrite roundTiesToEven_Z in Hsx, Hsy.
    rewrite Zle_Qle in Hsx, Hsy.
    pose proof (pow2_pos (lastDigit x)) as Hpx. pose proof (pow2_pos (lastDigit y)) as Hpy.
    pose proof (pow2_le (lastDigit x + 1) (lastDigit y) ltac:(lia)) as Hstep.
    rewrite pow2_succ in Hstep.
    revert Hsx Hsy Hpx Hpy Hstep.
    generalize (inject_Z (roundTiesToEven (x / 2 ^ lastDigit x)))
               (inject_Z (roundTiesToEven (y / 2 ^ lastDigit y)))
               (2 ^ lastDigit x) (2 ^ lastDigit y).
    intros mx my px py Hsx Hsy Hpx Hpy Hstep.
    change (inject_Z (2 ^ 53)) with (2 * inject_Z (2 ^ 52)) in Hsx.
    assert (Hc : 0 <= inject_Z (2 ^ 52)) by done.
    revert Hsx Hsy Hc. generalize (inject_Z (2 ^ 52)). intros c Hsx Hsy Hc.
    apply Qle_trans with (2 * c * px); [apply Qmult_le_compat_r; lra|].
    apply Qle_trans with (c * py); [|apply Qmult_le_compat_r; lra].
    assert ((2 * px) * c <= py * c) by (by apply Qmult_le_compat_r).
    lra.
Qed.

Lemma roundPos_wd (x y : Q) : 0 < x -> x == y -> roundPos x == roundPos y.
Proof.
  intros Hx Hxy. apply Qle_antisym; apply roundPos_mono; lra.
Qed.

Lemma round_nonneg (x : Q) : 0 <= x -> 0 <= round x.
Proof.
  intros Hx. unfold round. destruct (Qcompare x 0) eqn:E.
  - apply Qle_refl.
  - apply Qlt_alt in E. lra.
  - apply Qgt_alt in E. by apply roundPos_nonneg.
Qed.

Lemma round_nonpos (x : Q) : x <= 0 -> round x <= 0.
Proof.
  intros Hx. unfold round. destruct (Qcompare x 0) eqn:E.
  - apply Qle_refl.
  - apply Qlt_alt in E. pose proof (roundPos_nonneg (- x) ltac:(lra)). lra.
  - apply Qgt_alt in E. lra.
Qed.

(** Rounding keeps the order of the numbers. *)
Lemma round_mono (x y : Q) : x <= y -> round x <= round y.
Proof.
  intros Hxy. destruct (Qlt_le_dec 0 x) as [Hx|Hx].
  - unfold round.
    assert (Ex : Qcompare x 0 = Gt) by (apply (proj1 (Qgt_alt x 0)); lra).
    assert (Ey : Qcompare y 0 = Gt) by (apply (proj1 (Qgt_alt y 0)); lra).
    rewrite Ex, Ey. by apply roundPos_mono.
  - destruct (Qlt_le_dec y 0) as [Hy|Hy].
    + unfold round.
      assert (Ex : Qcompare x 0 = Lt) by (apply (proj1 (Qlt_alt x 0)); lra).
      assert (Ey : Qcompare y 0 = Lt) by (apply (proj1 (Qlt_alt y 0)); lra).
      rewrite Ex, Ey.
      assert (H1 : 0 < - y) by lra. assert (H2 : - y <= - x) by lra.
      pose proof (roundPos_mono (- y) (- x) H1 H2). lra.
    + apply Qle_trans with 0; [by apply round_nonpos | by apply round_nonneg].
Qed.

#[global] Instance round_wd : Proper (Qeq ==> Qeq) round.
Proof. intros x y Hxy. apply Qle_antisym; apply round_mono; lra. Qed.

(** ** Rounding is near *)

(** Below 1 the doubles are [2^-53] apart or nearer. *)
Lemma round_near (x : Q) :
  0 <= x -> x < 1 -> x - (1 # 2 ^ 54) <= round x /\ round x <= x + (1 # 2 ^ 54).
Proof.
  intros Hx0 Hx1. unfold round. destruct (Qcompare x 0) eqn:E.
  - apply Qeq_alt in E. rewrite E. split; done.
  - apply Qlt_alt in E. lra.
  - apply Qgt_alt in E.
    assert (He : (lastDigit x <= -53)%Z).
    { pose proof (ilog2_spec x E) as [Hlo _].
      destruct (Z_le_gt_dec (ilog2 x) (-1)) as [|Hgt]; [unfold lastDigit; lia|].
      pose proof (pow2_le 0 (ilog2 x) ltac:(lia)) as H0. change (2 ^ 0) with 1 in H0. lra. }
    unfold roundPos. cbv zeta.
    pose proof (roundTiesToEven_near (x / 2 ^ lastDigit x)) as [Hlo Hhi].
    pose proof (scaled x (lastDigit x)) as Hs.
    pose proof (pow2_pos (lastDigit x)) as Hp.
    pose proof (pow2_le (lastDigit x) (-53) He) as Hp'.
    change (2 ^ (-53)) with (1 # 2 ^ 53) in Hp'.
    set (m := inject_Z (roundTiesToEven (x / 2 ^ lastDigit x))) in *.
    set (t := x / 2 ^ lastDigit x) in *. set (p := 2 ^ lastDigit x) in *.
    clearbody m t p.
    assert (H1 : (t - (1 # 2)) * p <= m * p) by (apply Qmult_le_compat_r; lra).
    assert (H2 : m * p <= (t + (1 # 2)) * p) by (apply Qmult_le_compat_r; lra).
    change (1 # 2 ^ 54) with ((1 # 2) * (1 # 2 ^ 53)).
    split; lra.
Qed.


End RoundingTwo.

Section Doubles.

Import Binary64.

Lemma round_opp (x : Q) : round (- x) == - round x.
Proof.
  unfold round.
  destruct (Qcompare x 0) eqn:E; destruct (Qcompare (- x) 0) eqn:E';
    repeat match goal with
           | H : Qcompare _ _ = Eq |- _ => apply Qeq_alt in H
           | H : Qcompare _ _ = Lt |- _ => apply Qlt_alt in H
           | H : Qcompare _ _ = Gt |- _ => apply Qgt_alt in H
           end; try lra.
  apply Qopp_comp, roundPos_wd; [lra | ring].
Qed.

Lemma ilog2_unique (x : Q) (k : Z) : 2 ^ k <= x -> x < 2 ^ (k + 1) -> ilog2 x = k.
Proof.
  intros Hlo Hhi. pose proof (pow2_pos k) as Hk.
  pose proof (ilog2_spec x ltac:(lra)) as [Hlo' Hhi'].
  assert (H1 : (k < ilog2 x + 1)%Z).
  { apply (Qpower_lt_compat_l_inv 2); [lra|done]. }
  assert (H2 : (ilog2 x < k + 1)%Z).
  { apply (Qpower_lt_compat_l_inv 2); [lra|done]. }
  lia.
Qed.

(** A number that has an integer at its last digit is a double. *)
Lemma roundPos_exact (y : Q) (k : Z) :
  0 < y -> y == inject_Z k * 2 ^ lastDigit y -> roundPos y == y.
Proof.
  intros Hy Hk. unfold roundPos. cbv zeta.
  assert (Hs : y / 2 ^ lastDigit y == inject_Z k).
  { rewrite Hk at 1. field. pose proof (pow2_pos (lastDigit y)). lra. }
  rewrite Hs, roundTiesToEven_Z. by rewrite <- Hk.
Qed.

(** Rounding a double gives the double. *)
Lemma roundPos_idem (x : Q) : 0 < x -> 0 < roundPos x -> roundPos (roundPos x) == roundPos x.
Proof.
  intros Hx Hy.
  set (e := lastDigit x). set (m := roundTiesToEven (x / 2 ^ e)).
  assert (Hyv : roundPos x == inject_Z m * 2 ^ e) by reflexivity.
  pose proof (pow2_pos e) as Hpe.
  assert (Hm0 : (0 < m)%Z).
  { rewrite Hyv in Hy. destruct (Z_lt_le_dec 0 m) as [|Hle]; [done|].
    rewrite Zle_Qle in Hle. change (inject_Z 0) with 0 in Hle.
    assert (inject_Z m * 2 ^ e <= 0 * 2 ^ e) by (apply Qmult_le_compat_r; lra). lra. }
  assert (Hm1 : (m <= 2 ^ 53)%Z).
  { unfold m. rewrite <- (roundTiesToEven_Z (2 ^ 53)).
    apply roundTiesToEven_mono, Qlt_le_weak, scaled_lt, Hx. }
  assert (He : (-1074 <= e)%Z) by (unfold e, lastDigit; lia).
  set (y := roundPos x) in *.
  (* the last digit of [y] is that of [x], or the next when [m = 2^53] *)
  assert (Hup : y < 2 ^ (e + 54)).
  { rewrite Hyv. replace (e + 54)%Z with (54 + e)%Z by lia. rewrite pow2_plus.
    apply Qmult_lt_compat_r; [done|]. rewrite <- pow2_Z by lia. rewrite <- Zlt_Qlt. lia. }
  assert (Hlog : (ilog2 y < e + 54)%Z).
  { pose proof (ilog2_spec y Hy) as [Hlo _].
    apply (Qpower_lt_compat_l_inv 2); [lra|done]. }
  destruct (Z_lt_le_dec (lastDigit y) (e + 1)) as [Hlt|Hge].
  - apply (roundPos_exact y (m * 2 ^ (e - lastDigit y))); [done|].
    etransitivity; [exact Hyv|].
    rewrite inject_Z_mult, pow2_Z by lia.
    rewrite <- Qmult_assoc, <- pow2_plus.
    by replace (e - lastDigit y + lastDigit y)%Z with e by lia.
  - assert (Hld : lastDigit y = (e + 1)%Z) by (unfold lastDigit in *; lia).
    assert (Hil : ilog2 y = (e + 53)%Z) by (unfold lastDigit in *; lia).
    pose proof (ilog2_spec y Hy) as [Hlo _]. rewrite Hil in Hlo.
    assert (Hm : m = (2 ^ 53)%Z).
    { apply Z.le_antisymm; [done|]. rewrite Zle_Qle, pow2_Z by lia.
      rewrite Hyv in Hlo. replace (e + 53)%Z with (53 + e)%Z in Hlo by lia.
      rewrite pow2_plus in Hlo. by apply Qmult_le_r in Hlo. }
    apply (roundPos_exact y (2 ^ 52)); [done|].
    etransitivity; [exact Hyv|].
    rewrite Hld, Hm, !pow2_Z, <- !pow2_plus by lia.
    by replace (53 + e)%Z with (52 + (e + 1))%Z by lia.
Qed.

Lemma round_idem (x : Q) : round (round x) == round x.
Proof.
  assert (Hpos : forall z, 0 < z -> round (roundPos z) == roundPos z).
  { intros z Hz. pose proof (roundPos_nonneg z Hz) as H0.
    unfold round at 1. destruct (Qcompare (roundPos z) 0) eqn:E.
    - apply Qeq_alt in E. by rewrite E.
    - apply Qlt_alt in E. lra.
    - apply Qgt_alt in E. by apply roundPos_idem. }
  unfold round at 2 3. destruct (Qcompare x 0) eqn:E.
  - reflexivity.
  - apply Qlt_alt in E. rewrite round_opp. apply Qopp_comp, Hpos. lra.
  - apply Qgt_alt in E. by apply Hpos.
Qed.

End Doubles.

(** * The latency penalty in binary64 *)

Section Latency64.

Import Binary64.

(** ** The numbers of the function *)

Lemma MAX_VALUE_double : round MAX_VALUE == MAX_VALUE.
Proof. vm_compute. reflexivity. Qed.

Lemma MAX_VALUE_finite : MAX_VALUE < 2 ^ 1024.
Proof. vm_compute. reflexivity. Qed.

Lemma MAX_VALUE_large : 2 * 2 ^ 1022 <= MAX_VALUE /\ 3 <= 2 ^ 1022.
Proof. split; vm_compute; discriminate. Qed.

Lemma half_double : round (2 ^ 1022) == 2 ^ 1022.
Proof. vm_compute. reflexivity. Qed.

Lemma factors_small :
  0 <= round 0.06 /\ round 0.06 * MAX_VALUE <= 2 ^ 1022
  /\ 0 <= round 0.0008 /\ round 0.0008 * MAX_VALUE <= 2 ^ 1022.
Proof. repeat split; vm_compute; discriminate. Qed.

Lemma small_doubles : round 0 == 0 /\ round 1 == 1 /\ round 3 == 3.
Proof. repeat split; vm_compute; reflexivity. Qed.

Lemma tenth_double :
  round (round 0.1) == round 0.1 /\ 0.1 < round 0.1 /\ round 0.1 < 1.
Proof. repeat split; vm_compute; reflexivity. Qed.

(** ** Operations that stay finite *)

Lemma round_range (x b : Q) : round b == b -> - b <= x -> x <= b -> - b <= round x <= b.
Proof.
  intros Hb Hlo Hhi. split.
  - rewrite <- Hb, <- round_opp. by apply round_mono.
  - rewrite <- Hb. by apply round_mono.
Qed.

Lemma fl_Fin (x : Q) : - MAX_VALUE <= x -> x <= MAX_VALUE -> fl x = Fin (round x).
Proof.
  intros Hlo Hhi. unfold fl. cbv zeta.
  pose proof (round_range x MAX_VALUE MAX_VALUE_double Hlo Hhi) as Hr.
  pose proof MAX_VALUE_finite as Hfin.
  destruct (Qleb _ _) eqn:E; [|done].
  apply Qle_bool_iff in E. apply Qabs_Qle_condition in Hr.
  revert E Hfin Hr. generalize (Qabs (round x)) (2 ^ 1024) MAX_VALUE. intros. lra.
Qed.

Lemma add_Fin (x y : Q) :
  - MAX_VALUE <= x + y -> x + y <= MAX_VALUE -> (Fin x + Fin y)%num = Fin (round (x + y)).
Proof. intros. by apply fl_Fin. Qed.

Lemma sub_Fin (x y : Q) :
  - MAX_VALUE <= x + - y -> x + - y <= MAX_VALUE ->
  (Fin x - Fin y)%num = Fin (round (x + - y)).
Proof. intros. by apply fl_Fin. Qed.

Lemma mul_Fin (x y : Q) :
  - MAX_VALUE <= x * y -> x * y <= MAX_VALUE -> (Fin x * Fin y)%num = Fin (round (x * y)).
Proof. intros. by apply fl_Fin. Qed.

Lemma fl_small (x : Q) : 0 <= x -> x <= 3 -> fl x = Fin (round x).
Proof.
  intros H0 H3. pose proof MAX_VALUE_large as [H1 H2].
  apply fl_Fin; revert H1 H2; generalize MAX_VALUE (2 ^ 1022); intros; lra.
Qed.

(** ** The stages of the penalty stay finite *)

Lemma Qmax_range (z x hi : Q) :
  z == 0 -> 0 <= hi -> x <= hi -> 0 <= Qmax z x /\ Qmax z x <= hi.
Proof.
  intros Hz Hhi Hx. destruct (Q.max_spec z x) as [[? ->]|[? ->]]; split; lra.
Qed.

Lemma rawPenalty_stages_gen (M H c d zero one three n q tol : Q) :
  round M == M -> round H == H -> 2 * H <= M -> 3 <= H ->
  0 <= c -> c * M <= H -> 0 <= d -> d * M <= H ->
  zero == 0 -> one == 1 -> round 1 == 1 -> three == 3 ->
  0 <= n <= M -> 0 <= q <= M -> 0 <= tol <= M ->
  let effectiveQueue := Qmax zero (round (q + - tol)) in
  let depth := Qmax zero (round (n + - three)) in
  let depthPenalty := round (c * depth) in
  let queuePenalty := round (d * effectiveQueue) in
  let rest := round (one + - depthPenalty) in
  (0 <= effectiveQueue <= M)
  /\ (0 <= depth <= M)
  /\ (0 <= depthPenalty <= H)
  /\ (0 <= queuePenalty <= H)
  /\ (- H <= rest <= 1)
  /\ (- M <= round (rest + - queuePenalty) <= 1).
Proof.
  intros HM HH HM2 HM3 Hc0 Hc1 Hd0 Hd1 Hz Ho Ho' H3 [Hn0 Hn1] [Hq0 Hq1] [Ht0 Ht1]. cbv zeta.
  assert (Heq : 0 <= Qmax zero (round (q + - tol)) <= M).
  { apply Qmax_range; [exact Hz | lra |].
    apply (round_range _ M); [exact HM | lra | lra]. }
  assert (Hdepth : 0 <= Qmax zero (round (n + - three)) <= M).
  { apply Qmax_range; [exact Hz | lra |].
    apply (round_range _ M); [exact HM | lra | lra]. }
  revert Heq Hdepth.
  generalize (Qmax zero (round (q + - tol))) (Qmax zero (round (n + - three))).
  intros eq depth Heq Hdepth.
  assert (Hdp : 0 <= round (c * depth) <= H).
  { split.
    - apply round_nonneg, Qmult_le_0_compat; lra.
    - rewrite <- HH. apply round_mono.
      apply Qle_trans with (c * M); [|exact Hc1].
      rewrite !(Qmult_comm c). apply Qmult_le_compat_r; lra. }
  assert (Hqp : 0 <= round (d * eq) <= H).
  { split.
    - apply round_nonneg, Qmult_le_0_compat; lra.
    - rewrite <- HH. apply round_mono.
      apply Qle_trans with (d * M); [|exact Hd1].
      rewrite !(Qmult_comm d). apply Qmult_le_compat_r; lra. }
  revert Hdp Hqp. generalize (round (c * depth)) (round (d * eq)). intros dp qp Hdp Hqp.
  assert (Hrest : - H <= round (one + - dp) <= 1).
  { split.
    - apply (round_range _ H); [exact HH | lra | lra].
    - rewrite <- Ho'. apply round_mono. lra. }
  revert Hrest. generalize (round (one + - dp)). intros rest Hrest.
  assert (Hlast : - M <= round (rest + - qp) <= 1).
  { split.
    - apply (round_range _ M); [exact HM | lra | lra].
    - rewrite <- Ho'. apply round_mono. lra. }
  repeat split; lra.
Qed.

Lemma rawPenalty_stages (n q tol : Q) :
  0 <= n <= MAX_VALUE -> 0 <= q <= MAX_VALUE -> 0 <= tol <= MAX_VALUE ->
  let effectiveQueue := Qmax (round 0) (round (q + - tol)) in
  let depth := Qmax (round 0) (round (n + - round 3)) in
  let depthPenalty := round (round 0.06 * depth) in
  let queuePenalty := round (round 0.0008 * effectiveQueue) in
  let rest := round (round 1 + - depthPenalty) in
  (0 <= effectiveQueue <= MAX_VALUE)
  /\ (0 <= depth <= MAX_VALUE)
  /\ (0 <= depthPenalty <= 2 ^ 1022)
  /\ (0 <= queuePenalty <= 2 ^ 1022)
  /\ (- 2 ^ 1022 <= rest <= 1)
  /\ (- MAX_VALUE <= round (rest + - queuePenalty) <= 1).
Proof.
  pose proof MAX_VALUE_large as [HM2 HM3].
  pose proof factors_small as (Hc0 & Hc1 & Hd0 & Hd1).
  pose proof small_doubles as (Hz & Ho & H3).
  apply (rawPenalty_stages_gen MAX_VALUE (2 ^ 1022) (round 0.06) (round 0.0008)
           (round 0) (round 1) (round 3) n q tol
           MAX_VALUE_double half_double HM2 HM3 Hc0 Hc1 Hd0 Hd1 Hz Ho Ho H3).
Qed.

Lemma rawPenaltyQ_range (n q tol : Q) :
  0 <= n <= MAX_VALUE -> 0 <= q <= MAX_VALUE -> 0 <= tol <= MAX_VALUE ->
  round 0.1 <= rawPenaltyQ n q tol <= 1.
Proof.
  intros Hn Hq Ht.
  pose proof (rawPenalty_stages n q tol Hn Hq Ht) as (_ & _ & _ & _ & _ & _ & Hhi).
  cbv zeta in Hhi. unfold rawPenaltyQ. cbv zeta.
  pose proof tenth_double as (_ & _ & Hc).
  split; [apply Q.le_max_l | apply Q.max_lub; lra].
Qed.

(** The penalty before cooling is a finite number. *)
Lemma rawPenalty_finite (n q tol : Q) :
  0 <= n <= MAX_VALUE -> 0 <= q <= MAX_VALUE -> 0 <= tol <= MAX_VALUE ->
  rawPenalty (Fin n) (Fin q) (Fin tol) = Fin (rawPenaltyQ n q tol).
Proof.
  intros Hn Hq Ht.
  pose proof (rawPenalty_stages n q tol Hn Hq Ht) as (He & Hd & Hdp & Hqp & Hrest & Hlast).
  cbv zeta in He, Hd, Hdp, Hqp, Hrest, Hlast.
  pose proof MAX_VALUE_large as [HM2 HM3].
  pose proof factors_small as (Hc0 & Hc1 & Hd0 & Hd1).
  pose proof small_doubles as (Hz & Ho & H3).
  assert (Hprod : forall c x, 0 <= c -> c * MAX_VALUE <= 2 ^ 1022 -> 0 <= x <= MAX_VALUE ->
                    - MAX_VALUE <= c * x /\ c * x <= MAX_VALUE).
  { intros c x Hc0' Hc1' [Hx0 Hx1].
    assert (H : 0 <= c * x) by (apply Qmult_le_0_compat; [exact Hc0' | exact Hx0]).
    assert (H0 : c * x <= c * MAX_VALUE)
      by (rewrite !(Qmult_comm c); apply Qmult_le_compat_r; [exact Hx1 | exact Hc0']).
    revert HM2 HM3 Hc1' Hx1 H H0. generalize (c * x) (c * MAX_VALUE) MAX_VALUE (2 ^ 1022).
    intros. lra. }
  unfold rawPenalty, rawPenaltyQ. cbv zeta.
  rewrite !(fl_small 0), (fl_small 0.06), (fl_small 3), (fl_small 0.0008),
    (fl_small 0.1), (fl_small 1) by lra.
  destruct Hn as [Hn0 Hn1], Hq as [Hq0 Hq1], Ht as [Ht0 Ht1].
  rewrite (sub_Fin q tol)
    by (revert Hq0 Hq1 Ht0 Ht1; generalize MAX_VALUE; intros; lra).
  rewrite (sub_Fin n (round 3))
    by (revert Hn0 Hn1 H3 HM2 HM3; generalize (round 3) MAX_VALUE (2 ^ 1022); intros; lra).
  cbn [Math_max].
  destruct (Hprod _ _ Hc0 Hc1 Hd) as [Hp1 Hp2]. destruct (Hprod _ _ Hd0 Hd1 He) as [Hp3 Hp4].
  rewrite (mul_Fin _ _ Hp1 Hp2), (mul_Fin _ _ Hp3 Hp4).
  rewrite sub_Fin
    by (revert Ho HM2 HM3 Hdp; generalize (round 1) MAX_VALUE (2 ^ 1022);
        match goal with |- context [round (?c * ?x)] => generalize (round (c * x)) end;
        intros; lra).
  rewrite sub_Fin
    by (revert HM2 HM3 Hqp Hrest; generalize MAX_VALUE (2 ^ 1022);
        repeat match goal with |- context [round ?x] => generalize (round x) end;
        intros; lra).
  reflexivity.
Qed.

End Latency64.

Section Cooling.

Import Binary64.

Lemma cooling_double : round (round 1 + - round 0.1) < 1.
Proof. vm_compute. reflexivity. Qed.

(** The stages of the cooling step, for a penalty [raw] in [[0.1, 1]] and a
    reduction [r] in [[0, 1]]: their ranges and their distances from the
    exact results. *)
Lemma cooled_stages_gen (one tenth raw r : Q) :
  one == 1 -> round 1 == 1 -> round tenth == tenth -> 0 < tenth ->
  round (one + - tenth) < 1 ->
  tenth <= raw <= 1 -> 0 <= r <= 1 ->
  let a := round (one + - raw) in
  let b := round (r * a) in
  let c := round (raw + b) in
  (0 <= a /\ a < 1 /\ (1 - raw) - (1 # 2 ^ 54) <= a <= (1 - raw) + (1 # 2 ^ 54))
  /\ (0 <= b <= 1 /\ r * a - (1 # 2 ^ 54) <= b <= r * a + (1 # 2 ^ 54))
  /\ (tenth <= c <= 2
      /\ Qmin 1 (raw + b) - (1 # 2 ^ 54) <= Qmin one c <= Qmin 1 (raw + b) + (1 # 2 ^ 54)).
Proof.
  intros Ho Ho' Ht Ht0 Hmax [Hr0 Hr1] [Hr Hr']. cbv zeta.
  assert (Ha : 0 <= round (one + - raw) /\ round (one + - raw) < 1
               /\ (1 - raw) - (1 # 2 ^ 54) <= round (one + - raw) <= (1 - raw) + (1 # 2 ^ 54)).
  { split; [apply round_nonneg; lra|]. split.
    - eapply Qle_lt_trans; [|exact Hmax]. apply round_mono. lra.
    - pose proof (round_near (one + - raw) ltac:(lra) ltac:(lra)). lra. }
  revert Ha. generalize (round (one + - raw)). intros a (Ha0 & Ha1 & Ha).
  assert (Hra : 0 <= r * a /\ r * a <= a).
  { split; [apply Qmult_le_0_compat; lra|].
    rewrite <- (Qmult_1_l a) at 2. apply Qmult_le_compat_r; lra. }
  assert (Hb : 0 <= round (r * a) <= 1
               /\ r * a - (1 # 2 ^ 54) <= round (r * a) <= r * a + (1 # 2 ^ 54)).
  { split.
    - split; [apply round_nonneg; lra|]. rewrite <- Ho'. apply round_mono. lra.
    - apply round_near; lra. }
  revert Hb. generalize (round (r * a)). intros b ((Hb0 & Hb1) & Hb).
  split; [done|]. split; [done|].
  assert (Hc0 : tenth <= round (raw + b)).
  { rewrite <- Ht. apply round_mono. lra. }
  assert (Hc1 : round (raw + b) <= 2).
  { assert (H2 : round 2 == 2) by (vm_compute; reflexivity).
    rewrite <- H2. apply round_mono. lra. }
  split; [done|].
  destruct (Qlt_le_dec (raw + b) 1) as [Hlt|Hge].
  - pose proof (round_near (raw + b) ltac:(lra) Hlt) as Hn.
    assert (Hle : round (raw + b) <= 1).
    { rewrite <- Ho'. apply round_mono. lra. }
    rewrite (Q.min_r 1 (raw + b)) by lra.
    rewrite (Q.min_r one (round (raw + b))) by lra. lra.
  - assert (Hle : 1 <= round (raw + b)).
    { rewrite <- Ho'. by apply round_mono. }
    rewrite (Q.min_l 1 (raw + b)) by lra.
    rewrite (Q.min_l one (round (raw + b))) by lra. lra.
Qed.

Lemma cooled_stages (raw r : Q) :
  round 0.1 <= raw <= 1 -> 0 <= r <= 1 ->
  let a := round (round 1 + - raw) in
  let b := round (r * a) in
  let c := round (raw + b) in
  (0 <= a /\ a < 1 /\ (1 - raw) - (1 # 2 ^ 54) <= a <= (1 - raw) + (1 # 2 ^ 54))
  /\ (0 <= b <= 1 /\ r * a - (1 # 2 ^ 54) <= b <= r * a + (1 # 2 ^ 54))
  /\ (round 0.1 <= c <= 2
      /\ Qmin 1 (raw + b) - (1 # 2 ^ 54) <= Qmin (round 1) c
         <= Qmin 1 (raw + b) + (1 # 2 ^ 54)).
Proof.
  pose proof small_doubles as (_ & Ho & _).
  pose proof tenth_double as (Ht & Ht0 & _).
  apply (cooled_stages_gen (round 1) (round 0.1) raw r Ho Ho Ht); [|exact cooling_double].
  eapply Qlt_trans; [|exact Ht0]. reflexivity.
Qed.

Lemma cooledQ_range (raw r : Q) :
  round 0.1 <= raw <= 1 -> 0 <= r <= 1 -> round 0.1 <= cooledQ raw r <= 1.
Proof.
  intros Hraw Hr.
  pose proof (cooled_stages raw r Hraw Hr) as (_ & _ & (Hc0 & _) & _). cbv zeta in Hc0.
  pose proof small_doubles as (_ & Ho & _). pose proof tenth_double as (_ & _ & Ht).
  unfold cooledQ. split.
  - apply Q.min_glb; [lra | exact Hc0].
  - apply Qle_trans with (round 1); [apply Q.le_min_l | lra].
Qed.

(** The penalty is within three halves of the last digit of the exact
    result of the cooling step. *)
Lemma cooledQ_near (raw r : Q) :
  round 0.1 <= raw <= 1 -> 0 <= r <= 1 ->
  raw + r * (1 - raw) - (3 # 2 ^ 54) <= cooledQ raw r
  /\ cooledQ raw r <= raw + r * (1 - raw) + (3 # 2 ^ 54).
Proof.
  intros Hraw Hr.
  pose proof (cooled_stages raw r Hraw Hr) as ((Ha0 & Ha1 & Ha) & (Hb01 & Hb) & _ & Hc).
  cbv zeta in Ha0, Ha1, Ha, Hb01, Hb, Hc. unfold cooledQ.
  revert Ha0 Ha1 Ha Hb01 Hb Hc.
  generalize (round (round 1 + - raw)). intros a.
  generalize (round (r * a)). intros b.
  generalize (Qmin (round 1) (round (raw + b))). intros p.
  intros Ha0 Ha1 Ha Hb01 Hb Hc.
  assert (Hra : r * (1 - raw - (1 # 2 ^ 54)) <= r * a /\ r * a <= r * (1 - raw + (1 # 2 ^ 54))).
  { rewrite !(Qmult_comm r). split; apply Qmult_le_compat_r; lra. }
  assert (Hre : r * (1 # 2 ^ 54) <= 1 # 2 ^ 54).
  { apply Qle_trans with (1 * (1 # 2 ^ 54)); [|apply Qle_refl].
    apply Qmult_le_compat_r; [lra|done]. }
  assert (Hraw' : 0 <= r * (1 - raw) /\ r * (1 - raw) <= 1 - raw).
  { split; [apply Qmult_le_0_compat; lra|].
    rewrite <- (Qmult_1_l (1 - raw)) at 2. apply Qmult_le_compat_r; lra. }
  assert (He : (3 # 2 ^ 54) == 3 * (1 # 2 ^ 54)) by reflexivity.
  rewrite He. clear He. revert Ha Hb Hc Hra Hre.
  generalize (1 # 2 ^ 54). intros eps Ha Hb Hc Hra Hre.
  destruct (Q.min_spec 1 (raw + b)) as [[Hlt Hm]|[Hge Hm]]; rewrite Hm in Hc; clear Hm.
  - split; lra.
  - split; lra.
Qed.

(** Without cooling the penalty is the penalty before cooling. *)
Lemma cooledQ_zero (raw r : Q) :
  round raw == raw -> raw <= 1 -> r == 0 -> cooledQ raw r == raw.
Proof.
  intros Hd Hraw Hr. unfold cooledQ.
  pose proof small_doubles as (Hz & Ho & _).
  assert (Hb : round (r * round (round 1 + - raw)) == 0).
  { rewrite Hr, Qmult_0_l. exact Hz. }
  assert (Hc : round (raw + round (r * round (round 1 + - raw))) == raw).
  { rewrite Hb, Qplus_0_r. exact Hd. }
  rewrite Hc. apply Q.min_r. lra.
Qed.

Lemma cooledQ_wd (raw raw' r : Q) : raw == raw' -> cooledQ raw r == cooledQ raw' r.
Proof. intros H. unfold cooledQ. by rewrite H. Qed.

Lemma cooled_finite (raw r : Q) :
  round 0.1 <= raw <= 1 -> 0 <= r <= 1 -> cooled (Fin raw) (Fin r) = Fin (cooledQ raw r).
Proof.
  intros Hraw Hr.
  pose proof (cooled_stages raw r Hraw Hr) as ((Ha0 & Ha1 & _) & ((Hb0 & Hb1) & _) & _).
  cbv zeta in Ha0, Ha1, Hb0, Hb1.
  pose proof MAX_VALUE_large as [HM2 HM3].
  pose proof small_doubles as (_ & Ho & _). pose proof tenth_double as (_ & Ht & _).
  unfold cooled, cooledQ. rewrite (fl_small 1) by lra.
  destruct Hraw as [Hraw0 Hraw1], Hr as [Hr0 Hr1].
  rewrite sub_Fin
    by (revert Ho Ht Hraw0 Hraw1 HM2 HM3;
        generalize (round 1) (round 0.1) MAX_VALUE (2 ^ 1022); intros; lra).
  assert (Hra : 0 <= r * round (round 1 + - raw) /\ r * round (round 1 + - raw) <= 1).
  { split; [by apply Qmult_le_0_compat|].
    apply Qle_trans with (1 * round (round 1 + - raw)); [|lra].
    by apply Qmult_le_compat_r. }
  rewrite mul_Fin
    by (revert Hra HM2 HM3; generalize (r * round (round 1 + - raw)) MAX_VALUE (2 ^ 1022);
        intros; lra).
  rewrite add_Fin
    by (revert Hb0 Hb1 Ht Hraw0 Hraw1 HM2 HM3;
        generalize (round (r * round (round 1 + - raw))) (round 0.1) MAX_VALUE (2 ^ 1022);
        intros; lra).
  reflexivity.
Qed.

(** ** The penalty before cooling keeps the order *)

Lemma rawPenaltyQ_antitone_gen (n n' q q' tol : Q) :
  Qmax (round 0) (round (n + - round 3)) <= Qmax (round 0) (round (n' + - round 3)) ->
  q <= q' ->
  rawPenaltyQ n' q' tol <= rawPenaltyQ n q tol.
Proof.
  intros Hdepth Hq. unfold rawPenaltyQ. cbv zeta.
  pose proof factors_small as (Hc0 & _ & Hd0 & _).
  assert (Heq : Qmax (round 0) (round (q + - tol)) <= Qmax (round 0) (round (q' + - tol))).
  { apply Q.max_le_compat_l, round_mono. lra. }
  revert Hdepth Heq Hc0 Hd0.
  generalize (Qmax (round 0) (round (n + - round 3)))
             (Qmax (round 0) (round (n' + - round 3)))
             (Qmax (round 0) (round (q + - tol)))
             (Qmax (round 0) (round (q' + - tol)))
             (round 0.06) (round 0.0008) (round 0.1) (round 1).
  intros depth depth' eq eq' c d tenth one Hdepth Heq Hc0 Hd0.
  apply Q.max_le_compat_l, round_mono.
  assert (Hdp : round (c * depth) <= round (c * depth')).
  { apply round_mono. rewrite !(Qmult_comm c). by apply Qmult_le_compat_r. }
  assert (Hqp : round (d * eq) <= round (d * eq')).
  { apply round_mono. rewrite !(Qmult_comm d). by apply Qmult_le_compat_r. }
  assert (Hrest : round (one + - round (c * depth')) <= round (one + - round (c * depth))).
  { apply round_mono. lra. }
  lra.
Qed.

Lemma rawPenaltyQ_antitone (n n' q q' tol : Q) :
  n <= n' -> q <= q' -> rawPenaltyQ n' q' tol <= rawPenaltyQ n q tol.
Proof.
  intros Hn Hq. apply rawPenaltyQ_antitone_gen; [|done].
  apply Q.max_le_compat_l, round_mono. lra.
Qed.

(** Up to the free depth of 3 modules there is no penalty for depth. *)
Lemma rawPenaltyQ_free_depth (n n' q tol : Q) :
  n <= 3 -> n' <= 3 -> rawPenaltyQ n' q tol == rawPenaltyQ n q tol.
Proof.
  assert (Hfree : forall m, m <= 3 -> Qmax (round 0) (round (m + - round 3)) == 0).
  { intros m Hm. pose proof small_doubles as (Hz & _ & H3).
    rewrite Q.max_l; [exact Hz|]. apply round_mono. lra. }
  intros Hn Hn'.
  apply Qle_antisym; apply rawPenaltyQ_antitone_gen; try apply Qle_refl;
    rewrite !Hfree by done; apply Qle_refl.
Qed.

Lemma Qmax_double (x y : Q) : round x == x -> round y == y -> round (Qmax x y) == Qmax x y.
Proof.
  intros Hx Hy. destruct (Q.max_spec x y) as [[_ H]|[_ H]]; rewrite H; done.
Qed.

Lemma rawPenaltyQ_double (n q tol : Q) : round (rawPenaltyQ n q tol) == rawPenaltyQ n q tol.
Proof.
  unfold rawPenaltyQ. cbv zeta. apply Qmax_double; [|apply round_idem].
  apply tenth_double.
Qed.

End Cooling.

Section Penalty64.

Import Binary64.

(** The penalty of finite arguments that are not negative, with a reduction
    in [[0, 1]], is a finite number. *)
Lemma penalty_finite (n q tol r : Q) :
  0 <= n <= MAX_VALUE -> 0 <= q <= MAX_VALUE -> 0 <= tol <= MAX_VALUE -> 0 <= r <= 1 ->
  penalty (calculateLatency (Fin n) (Fin q) (Fin tol) (Fin r))
  = Fin (cooledQ (rawPenaltyQ n q tol) r).
Proof.
  intros Hn Hq Ht Hr.
  change (penalty (calculateLatency (Fin n) (Fin q) (Fin tol) (Fin r)))
    with (cooled (rawPenalty (Fin n) (Fin q) (Fin tol)) (Fin r)).
  rewrite rawPenalty_finite by done.
  apply cooled_finite; [|done]. by apply rawPenaltyQ_range.
Qed.

Lemma leb_Fin (x y : Q) : x <= y -> leb (Fin x) (Fin y) = true.
Proof. intros H. by apply Qle_bool_iff. Qed.

End Penalty64.

Section MachineRun.

Import PrimFloat.

(** C3, as stated, fails in the arithmetic of the language.  With a
    reduction of 0.35, no tolerance and 10 modules the penalty of a queue of
    601 is greater than the penalty of a queue of 600 (0.41500000000000004
    against 0.415); with a reduction of 0.4 and a queue of 75 the penalty of
    18 modules is greater than the penalty of 17 (0.4600000000000001 against
    0.46).  The numbers of this embedding and those of the machine are the
    same. *)
Lemma calculateLatency_binary64_not_monotone :
  let p m q r :=
    Binary64.penalty
      (Binary64.calculateLatency (Binary64.fl m) (Binary64.fl q) (Binary64.fl 0)
                                 (Binary64.fl r)) in
  let machine m q r := Binary64.ofFloat (Binary64.penalty_float m q 0 r) in
  (Binary64.fl 0.35 = Binary64.ofFloat 0x1.6666666666666p-2%float
   /\ Binary64.fl 0.4 = Binary64.ofFloat 0x1.999999999999ap-2%float)
  /\ (p 10 600 0.35 = Binary64.Fin (7475975381435023 # 2 ^ 54)
      /\ p 10 601 0.35 = Binary64.Fin (7475975381435024 # 2 ^ 54)
      /\ Binary64.ltb (p 10 600 0.35) (p 10 601 0.35) = true
      /\ Binary64.leb (p 10 601 0.35) (p 10 600 0.35) = false)
  /\ (Binary64.ltb (p 17 75 0.4) (p 18 75 0.4) = true
      /\ Binary64.leb (p 18 75 0.4) (p 17 75 0.4) = false)
  /\ ((machine 10 600 0x1.6666666666666p-2)%float = p 10 600 0.35
      /\ (machine 10 601 0x1.6666666666666p-2)%float = p 10 601 0.35
      /\ (machine 17 75 0x1.999999999999ap-2)%float = p 17 75 0.4
      /\ (machine 18 75 0x1.999999999999ap-2)%float = p 18 75 0.4).
Proof. vm_compute. repeat split; reflexivity. Qed.

End MachineRun.

(** C3, amended.  In the arithmetic of the language, for finite module
    count, queue size and queue tolerance that are not negative and a
    latency reduction in [0, 1]: the penalty of [calculateLatency] is a
    number in [0.1, 1.0]; the penalty before cooling does not increase when
    the module count or the queue grows; without cooling (a reduction of 0,
    the default) neither does the penalty; with cooling, the penalty of more
    modules or a longer queue exceeds the other by [3 * 2^-53] at most, the
    rounding of the cooling step; and up to the free depth of 3 modules the
    penalty is the same. *)
Theorem calculateLatency_binary64_bounds_monotone
    (activeModules queueSize queueTolerance latencyReductionPct : Q) :
  0 <= activeModules <= Binary64.MAX_VALUE ->
  0 <= queueSize <= Binary64.MAX_VALUE ->
  0 <= queueTolerance <= Binary64.MAX_VALUE ->
  0 <= latencyReductionPct <= 1 ->
  let p m q :=
    Binary64.penalty
      (Binary64.calculateLatency (Binary64.Fin m) (Binary64.Fin q)
         (Binary64.Fin queueTolerance) (Binary64.Fin latencyReductionPct)) in
  let raw m q :=
    Binary64.rawPenalty (Binary64.Fin m) (Binary64.Fin q) (Binary64.Fin queueTolerance) in
  (p activeModules queueSize
   = Binary64.cooled (raw activeModules queueSize) (Binary64.Fin latencyReductionPct)
   /\ Binary64.leb (Binary64.fl 0.1) (p activeModules queueSize) = true
   /\ Binary64.leb (p activeModules queueSize) (Binary64.fl 1) = true
   /\ 0.1 <= Binary64.value (p activeModules queueSize) <= 1)
  /\ (forall m' q',
        activeModules <= m' <= Binary64.MAX_VALUE -> queueSize <= q' <= Binary64.MAX_VALUE ->
        Binary64.leb (raw m' q') (raw activeModules queueSize) = true
        /\ (latencyReductionPct == 0 ->
            Binary64.leb (p m' q') (p activeModules queueSize) = true)
        /\ Binary64.value (p m' q')
           <= Binary64.value (p activeModules queueSize) + (3 # 2 ^ 53))
  /\ (forall m', activeModules <= m' <= 3 ->
        Binary64.eqb (p m' queueSize) (p activeModules queueSize) = true).
Proof.
  intros Hm Hq Ht Hr p raw. subst p raw. cbv beta.
  pose proof tenth_double as (_ & Htenth & _).
  pose proof MAX_VALUE_large as [HM2 HM3].
  pose proof (rawPenaltyQ_range _ _ _ Hm Hq Ht) as Hraw.
  pose proof (cooledQ_range _ _ Hraw Hr) as Hp.
  split; [|split].
  - split; [reflexivity|].
    rewrite (penalty_finite _ _ _ _ Hm Hq Ht Hr), !fl_small by lra.
    cbn [Binary64.value].
    pose proof small_doubles as (_ & Ho & _).
    split; [apply leb_Fin; lra|]. split; [apply leb_Fin; lra|]. lra.
  - intros m' q' Hm' Hq'.
    assert (Hm'' : 0 <= m' <= Binary64.MAX_VALUE) by lra.
    assert (Hq'' : 0 <= q' <= Binary64.MAX_VALUE) by lra.
    pose proof (rawPenaltyQ_range _ _ _ Hm'' Hq'' Ht) as Hraw'.
    pose proof (rawPenaltyQ_antitone activeModules m' queueSize q' queueTolerance
                  ltac:(lra) ltac:(lra)) as Hanti.
    rewrite !rawPenalty_finite, !penalty_finite by assumption.
    cbn [Binary64.value].
    split; [by apply leb_Fin|]. split.
    + intros Hzero. apply leb_Fin.
      rewrite (cooledQ_zero _ _ (rawPenaltyQ_double _ _ _) (proj2 Hraw') Hzero).
      rewrite (cooledQ_zero _ _ (rawPenaltyQ_double _ _ _) (proj2 Hraw) Hzero).
      exact Hanti.
    + pose proof (cooledQ_near _ _ Hraw Hr) as [Hlo _].
      pose proof (cooledQ_near _ _ Hraw' Hr) as [_ Hhi].
      pose proof (recover_le latencyReductionPct _ _ ltac:(lra) ltac:(lra) Hanti) as Hrec.
      assert (He : (3 # 2 ^ 53) == 2 * (3 # 2 ^ 54)) by reflexivity.
      rewrite He. revert Hlo Hhi. generalize (3 # 2 ^ 54). intros. lra.
  - intros m' Hm'.
    assert (Hm'' : 0 <= m' <= Binary64.MAX_VALUE)
      by (revert HM2 HM3; generalize Binary64.MAX_VALUE (2 ^ 1022); intros; lra).
    rewrite !penalty_finite by assumption.
    apply Qeq_bool_iff, cooledQ_wd, rawPenaltyQ_free_depth; lra.
Qed.

Lemma calculateLatency_binary64_bounds_monotone_witness :
  let p m q :=
    Binary64.penalty
      (Binary64.calculateLatency (Binary64.Fin m) (Binary64.Fin q)
         (Binary64.Fin 10) (Binary64.Fin (Binary64.round 0.3))) in
  let raw m q :=
    Binary64.rawPenalty (Binary64.Fin m) (Binary64.Fin q) (Binary64.Fin 10) in
  (p 2 100
   = Binary64.cooled (raw 2 100) (Binary64.Fin (Binary64.round 0.3))
   /\ Binary64.leb (Binary64.fl 0.1) (p 2 100) = true
   /\ Binary64.leb (p 2 100) (Binary64.fl 1) = true
   /\ 0.1 <= Binary64.value (p 2 100) <= 1)
  /\ (forall m' q',
        2 <= m' <= Binary64.MAX_VALUE -> 100 <= q' <= Binary64.MAX_VALUE ->
        Binary64.leb (raw m' q') (raw 2 100) = true
        /\ (Binary64.round 0.3 == 0 -> Binary64.leb (p m' q') (p 2 100) = true)
        /\ Binary64.value (p m' q') <= Binary64.value (p 2 100) + (3 # 2 ^ 53))
  /\ (forall m', 2 <= m' <= 3 -> Binary64.eqb (p m' 100) (p 2 100) = true).
Proof.
  apply (calculateLatency_binary64_bounds_monotone 2 100 10 (Binary64.round 0.3));
    split; vm_compute; discriminate.
Defined.

(** ** Prestige reward *)

Section Reward.

Lemma Qfloor_le_Z (x : Q) (z : Z) : x <= inject_Z z -> (Qfloor x <= z)%Z.
Proof. intros H. rewrite <- (Qfloor_Z z). by apply Qfloor_resp_le. Qed.

Lemma Z_le_Qfloor (x : Q) (z : Z) : inject_Z z <= x -> (z <= Qfloor x)%Z.
Proof. intros H. rewrite <- (Qfloor_Z z). by apply Qfloor_resp_le. Qed.

Lemma Qfloor_plus_Z (z : Z) (x : Q) : Qfloor (inject_Z z + x) = (z + Qfloor x)%Z.
Proof.
  destruct x as [n d]. unfold Qplus, inject_Z, Qfloor. simpl.
  rewrite Pos.mul_1_l, Z.mul_1_r, Z.add_comm, Z.div_add by lia. lia.
Qed.

Lemma Qfloor_max_Z (z : Z) (x : Q) : Qfloor (Qmax (inject_Z z) x) = Z.max z (Qfloor x).
Proof.
  destruct (Qlt_le_dec x (inject_Z z)) as [Hlt|Hle].
  - assert (Hx : (Qfloor x <= z)%Z) by (apply Qfloor_le_Z; lra).
    rewrite Z.max_l by done. rewrite <- (Qfloor_Z z) at 2.
    apply Z.le_antisymm; apply Qfloor_resp_le.
    + apply Q.max_lub; lra.
    + apply Q.le_max_l.
  - assert (Hx : (z <= Qfloor x)%Z) by (by apply Z_le_Qfloor).
    rewrite Z.max_r by done.
    apply Z.le_antisymm; apply Qfloor_resp_le.
    + apply Q.max_lub; lra.
    + apply Q.le_max_r.
Qed.

Lemma calculateReputationGain_ge_1 `{Engine} (s : GameState) :
  (1 <= calculateReputationGain s)%Z.
Proof. unfold calculateReputationGain. lia. Qed.

(** [Math.max(0, x)] is [x] when [x] is not negative. *)
Lemma payloadScore_clamp `{Engine} (x : Q) :
  0 <= x -> Qfloor (Math_pow (Qmax 0 x) 0.25) = Qfloor (Math_pow x 0.25).
Proof.
  intros Hx. apply Qfloor_comp, Math_pow_wd; [|reflexivity].
  apply Qle_antisym; [apply Q.max_lub; lra | apply Q.le_max_r].
Qed.

End Reward.

(** C4, as stated, fails: in a run that has produced 500 payload and
    completed one low-tier contract, on every engine whose fourth root of
    500 (4.72...) has the integer part 4, the formula of the specification
    gives 5.25 while [calculateReputationGain] gives 5. *)
Lemma calculateReputationGain_not_spec_formula :
  reachable oneContractDone
  /\ completedContractCount oneContractDone = 1%Z
  /\ highTierContractsCompleted oneContractDone = 0%Z
  /\ protocolsUsed oneContractDone = [burst]
  /\ totalPayloadProduced (stats oneContractDone) == 500
  /\ forall E : Engine,
       Qfloor (Math_pow 500 0.25) = 4%Z ->
       calculateReputationGain oneContractDone = 5%Z
       /\ rewardFormula_spec oneContractDone == 5.25
       /\ ~ (inject_Z (calculateReputationGain oneContractDone)
             == rewardFormula_spec oneContractDone).
Proof.
  split.
  { apply reach_advance.
    apply (reach_activate firstBoardState _ "tpl_burst_low_1_run0_0").
    - apply reach_refresh, reach_init.
    - vm_compute. reflexivity. }
  split; [vm_compute; reflexivity|]. split; [vm_compute; reflexivity|].
  split; [vm_compute; reflexivity|]. split; [vm_compute; reflexivity|].
  intros E H4.
  assert (Hp : totalPayloadProduced (stats oneContractDone) == 500)
    by (vm_compute; reflexivity).
  assert (Hcode : Qfloor (Math_pow (Qmax 0 (totalPayloadProduced (stats oneContractDone)))
                                   0.25) = 4%Z).
  { rewrite payloadScore_clamp by (rewrite Hp; lra).
    rewrite <- H4. apply Qfloor_comp, Math_pow_wd; [exact Hp | reflexivity]. }
  assert (Hspec : Qfloor (Math_pow (totalPayloadProduced (stats oneContractDone)) 0.25)
                  = 4%Z).
  { rewrite <- H4. apply Qfloor_comp, Math_pow_wd; [exact Hp | reflexivity]. }
  assert (Hgain : calculateReputationGain oneContractDone = 5%Z).
  { unfold calculateReputationGain. cbv zeta. rewrite Hcode. vm_compute. reflexivity. }
  assert (Hform : rewardFormula_spec oneContractDone == 5.25).
  { unfold rewardFormula_spec. rewrite Hspec. vm_compute. reflexivity. }
  split; [exact Hgain|]. split; [exact Hform|].
  rewrite Hgain, Hform. intros Heq. vm_compute in Heq. discriminate Heq.
Qed.

(** C4, amended. On every engine the reward preview is
    [floor(pow(max(0, lifetimeOutput), 0.25))
     + floor(highTier * 0.5 + completed * 0.25) + distinctProtocols]
    floored at a minimum of 1, where [pow] is the power function of the
    engine: the contract term is rounded down on its own, which makes the
    reward, for a lifetime output that is not negative, the integer part of
    the formula of the specification; it is always at least 1. *)
Theorem calculateReputationGain_formula `{Engine} (s : GameState) :
  calculateReputationGain s
  = Z.max 1 (Qfloor (Math_pow (Qmax 0 (totalPayloadProduced (stats s))) 0.25)
             + Qfloor (inject_Z (highTierContractsCompleted s) * 0.5
                       + inject_Z (completedContractCount s) * 0.25)
             + Z.of_nat (length (protocolsUsed s)))%Z
  /\ (0 <= totalPayloadProduced (stats s) ->
      calculateReputationGain s = Qfloor (rewardFormula_spec s))
  /\ (1 <= calculateReputationGain s)%Z.
Proof.
  split; [reflexivity|]. split; [|apply calculateReputationGain_ge_1].
  intros Hpos. unfold calculateReputationGain, rewardFormula_spec. cbv zeta.
  rewrite payloadScore_clamp by done.
  change 1 with (inject_Z 1). rewrite Qfloor_max_Z. f_equal.
  set (k := Qfloor (Math_pow _ _)).
  set (h := inject_Z (highTierContractsCompleted s) * 0.5).
  set (c := inject_Z (completedContractCount s) * 0.25).
  set (p := Z.of_nat _).
  assert (Hre : inject_Z k + h + c + inject_Z p == inject_Z (k + p) + (h + c)).
  { rewrite inject_Z_plus. ring. }
  assert (Hfl : Qfloor (inject_Z k + h + c + inject_Z p) = Qfloor (inject_Z (k + p) + (h + c))).
  { apply Z.le_antisymm; apply Qfloor_resp_le; rewrite Hre; apply Qle_refl. }
  rewrite Hfl, Qfloor_plus_Z. lia.
Qed.

(** ** Tick engine *)

Section Tick.

Lemma processTick_stages (state : GameState) (d : Q) :
  processTick state d
  = prestigeReadyStep (contractStep (tickPayload state d) d (beforeContracts state d)).
Proof.
  unfold processTick, beforeContracts, tickPayload, tickLaneResult, deepClone.
  cbn [lanes with_protocolsUsed with_stats with_tickCount].
  destruct (laneLoop _ _ _ _ _ _ _) as [lanes' total] eqn:E.
  cbn [fst snd]. destruct (Z.rem _ _ =? 0)%Z; reflexivity.
Qed.

Lemma prestigeReadyStep_frame (s : GameState) :
  let s' := prestigeReadyStep s in
  tickCount s' = tickCount s /\ resources s' = resources s
  /\ contracts s' = contracts s /\ activeContractId s' = activeContractId s
  /\ completedContractCount s' = completedContractCount s
  /\ highTierContractsCompleted s' = highTierContractsCompleted s
  /\ playtimeSec (stats s') = playtimeSec (stats s)
  /\ totalCreditsEarned (stats s') = totalCreditsEarned (stats s)
  /\ totalPayloadProduced (stats s') = totalPayloadProduced (stats s)
  /\ lastTickTime s' = lastTickTime s /\ meta s' = meta s
  /\ lanes s' = lanes s /\ protocolsUsed s' = protocolsUsed s.
Proof.
  unfold prestigeReadyStep.
  destruct (prestigeReadyAt (stats s)); [by repeat split|].
  destruct (Qleb _ _); by repeat split.
Qed.

(** What the contract section leaves alone, whichever branch it takes. *)
Lemma contractStep_frame (total d : Q) (s : GameState) :
  let s' := contractStep total d s in
  tickCount s' = tickCount s
  /\ playtimeSec (stats s') = playtimeSec (stats s)
  /\ totalPayloadProduced (stats s') = totalPayloadProduced (stats s)
  /\ prestigeReadyAt (stats s') = prestigeReadyAt (stats s)
  /\ lastTickTime s' = lastTickTime s /\ meta s' = meta s
  /\ lanes s' = lanes s /\ protocolsUsed s' = protocolsUsed s
  /\ payload (resources s') = payload (resources s)
  /\ length (contracts s') = length (contracts s).
Proof.
  unfold contractStep.
  destruct (truthy _); [|by repeat split].
  destruct (list_find _ _) as [[i c]|]; [|by repeat split].
  destruct (active c); [|by repeat split].
  destruct (timeRemainingS _) as [t|].
  - destruct (Qleb (t - d) 0); cbn [set_active set_expired set_timeRemainingS
      set_progressPayload progressPayload targetPayload];
    destruct (Qleb _ _); try destruct (bool_decide _);
      cbn; rewrite ?length_insert; by repeat split.
  - cbn [set_progressPayload progressPayload targetPayload].
    destruct (Qleb _ _); try destruct (bool_decide _);
      cbn; rewrite ?length_insert; by repeat split.
Qed.

(** The contract section either completes the working contract, adding
    its fragment reward and counting it, or leaves both counters alone. *)
Lemma contractStep_fragments (total d : Q) (s : GameState) :
  let s' := contractStep total d s in
  (completedContractCount s' = completedContractCount s
   /\ fragments (resources s') = fragments (resources s))
  \/ (exists i c, workingContract s = Some (i, c)
       /\ completedContractCount s' = (completedContractCount s + 1)%Z
       /\ fragments (resources s') = fragments (resources s) + rewardFragments c).
Proof.
  unfold contractStep, workingContract.
  destruct (truthy _); [|by left].
  destruct (list_find _ _) as [[i c]|]; [|by left].
  destruct (active c); [|by left].
  destruct (timeRemainingS _) as [t|].
  - destruct (Qleb (t - d) 0);
      cbn [set_active set_expired set_timeRemainingS set_progressPayload
           progressPayload targetPayload rewardFragments rewardCredits tier];
      (destruct (Qleb _ _); [right; exists i, c | by left]);
      (split; [done|]); destruct (bool_decide _); by split.
  - cbn [set_progressPayload progressPayload targetPayload].
    destruct (Qleb _ _); [right; exists i, c | by left].
    split; [done|]. destruct (bool_decide _); by split.
Qed.

Lemma processTick_tickCount (s : GameState) (d : Q) :
  tickCount (processTick s d) = (tickCount s + 1)%Z.
Proof.
  rewrite processTick_stages.
  pose proof (prestigeReadyStep_frame
                (contractStep (tickPayload s d) d (beforeContracts s d))) as Hp.
  pose proof (contractStep_frame (tickPayload s d) d (beforeContracts s d)) as Hc.
  cbv zeta in Hp, Hc. destruct Hp as (-> & _). by destruct Hc as (-> & _).
Qed.

Lemma processTick_playtimeSec (s : GameState) (d : Q) :
  playtimeSec (stats (processTick s d)) = playtimeSec (stats s) + d.
Proof.
  rewrite processTick_stages.
  pose proof (prestigeReadyStep_frame
                (contractStep (tickPayload s d) d (beforeContracts s d))) as Hp.
  pose proof (contractStep_frame (tickPayload s d) d (beforeContracts s d)) as Hc.
  cbv zeta in Hp, Hc.
  destruct Hp as (_ & _ & _ & _ & _ & _ & -> & _). by destruct Hc as (_ & -> & _).
Qed.

Lemma workingContract_beforeContracts (s : GameState) (d : Q) :
  workingContract (beforeContracts s d) = workingContract s.
Proof. reflexivity. Qed.

Lemma fragments_beforeContracts (s : GameState) (d : Q) :
  fragments (resources (beforeContracts s d)) == fragments (resources s) + tickDrop s.
Proof.
  unfold beforeContracts, tickDrop. cbn [resources].
  destruct (Z.rem _ _ =? 0)%Z; cbn [fragments add_fragments add_credits add_payload]; ring.
Qed.

End Tick.

(** C9, as stated, fails: one call with [deltaSeconds = 60] on a fresh state
    leaves the step counter at 1, not at 60. *)
Lemma processTick_tickCount_not_delta :
  tickCount (processTick (createInitialState 0) 60) = 1%Z
  /\ ~ (inject_Z (tickCount (processTick (createInitialState 0) 60))
        == inject_Z (tickCount (createInitialState 0)) + 60).
Proof.
  split; [reflexivity|]. intros H. vm_compute in H. discriminate H.
Qed.

(** The step counter grows by 1 and the elapsed-time statistic by
    [deltaSeconds]. *)
Lemma processTick_counter_and_playtime (s : GameState) (d : Q) :
  tickCount (processTick s d) = (tickCount s + 1)%Z
  /\ playtimeSec (stats (processTick s d)) = playtimeSec (stats s) + d.
Proof. split; [apply processTick_tickCount | apply processTick_playtimeSec]. Qed.

(** C10. Whatever [deltaSeconds] is, one call of [processTick] advances the
    step counter by exactly 1 and the periodic drop awards [tickDrop s], which
    is 0 or 1 and is decided by the step counter and the drop interval alone;
    any further fragment gained in the call is the reward of a contract that
    the call completed. *)
Theorem processTick_fragment_drop_once (s : GameState) (d : Q) :
  let s' := processTick s d in
  tickCount s' = (tickCount s + 1)%Z
  /\ (tickDrop s = 0 \/ tickDrop s = 1)
  /\ (tickDrop s = 1 <-> (Z.rem (tickCount s + 1) (calculateFragmentInterval s) = 0)%Z)
  /\ exists reward,
       fragments (resources s') == fragments (resources s) + tickDrop s + reward
       /\ ((completedContractCount s' = completedContractCount s /\ reward = 0)
           \/ (completedContractCount s' = (completedContractCount s + 1)%Z
               /\ exists i c, workingContract s = Some (i, c)
                              /\ reward = rewardFragments c)).
Proof.
  intros s'. subst s'.
  split; [apply processTick_tickCount|].
  split; [unfold tickDrop; destruct (_ =? _)%Z; auto|].
  split.
  { unfold tickDrop. destruct (Z.eqb_spec (Z.rem (tickCount s + 1)
                                 (calculateFragmentInterval s)) 0); split; auto; done. }
  rewrite processTick_stages.
  pose proof (prestigeReadyStep_frame
                (contractStep (tickPayload s d) d (beforeContracts s d))) as Hp.
  cbv zeta in Hp. destruct Hp as (_ & -> & _ & _ & -> & _).
  pose proof (contractStep_fragments (tickPayload s d) d (beforeContracts s d)) as Hc.
  cbv zeta in Hc. rewrite workingContract_beforeContracts in Hc.
  pose proof (fragments_beforeContracts s d) as Hb.
  destruct Hc as [[Hn Hf]|(i & c & Hw & Hn & Hf)].
  - exists 0. rewrite Hf, Hb. split; [ring|]. left. by rewrite Hn.
  - exists (rewardFragments c). rewrite Hf, Hb. split; [ring|].
    right. rewrite Hn. split; [done|]. by exists i, c.
Qed.

(** The consequence for replay: from a fresh state, 120 one-second calls
    collect three periodic drops, two 60-second calls collect none. *)
Example fragment_drop_chunked_vs_fine :
  fragments (resources (Nat.iter 120 (fun s => processTick s 1) (createInitialState 0))) == 3
  /\ fragments (resources (Nat.iter 2 (fun s => processTick s 60) (createInitialState 0))) == 0.
Proof. split; vm_compute; reflexivity. Qed.

(** ** Completion and expiry in the same step *)

Section Completion.

Lemma list_find_lookup {A} (P : A -> Prop) `{!forall x, Decision (P x)}
    (l : list A) (i : nat) (x : A) :
  list_find P l = Some (i, x) -> l !! i = Some x /\ (i < length l)%nat.
Proof.
  intros Hfind. apply list_find_Some in Hfind as (Hl & _ & _).
  split; [done|]. by eapply lookup_lt_Some.
Qed.

Lemma workingContract_Some (s : GameState) (i : nat) (c : ContractState) :
  workingContract s = Some (i, c) ->
  truthy (activeContractId s) = true
  /\ list_find (fun c => Some (contract_id c) = activeContractId s) (contracts s)
     = Some (i, c)
  /\ active c = true.
Proof.
  unfold workingContract. destruct (truthy _); [|done].
  destruct (list_find _ _) as [[j c']|]; [|done].
  destruct (active c') eqn:Ha; [|done]. by intros [= <- <-].
Qed.


End Completion.



(** ** Determinism *)

Section Determinism.

Lemma serializeState_id (s : GameState) : serializeState s = s.
Proof. by destruct s. Qed.

Lemma with_lastTickTime_twice (a b : Z) (s : GameState) :
  with_lastTickTime a (with_lastTickTime b s) = with_lastTickTime a s.
Proof. reflexivity. Qed.

Lemma lastTickTime_with (t : Z) (s : GameState) : lastTickTime (with_lastTickTime t s) = t.
Proof. reflexivity. Qed.

(** The lane loop reads the state only through the throughput model. *)
Lemma laneLoop_ext (s1 s2 : GameState) (d spl tol red : Q)
    (pairs : list (LaneState * LaneState)) (total : Q) :
  (forall lane, calculateLaneThroughput lane s1 = calculateLaneThroughput lane s2) ->
  laneLoop s1 d spl tol red pairs total = laneLoop s2 d spl tol red pairs total.
Proof.
  intros Hthr. revert total.
  induction pairs as [|[lane snap] rest IH]; intros total; [done|].
  cbn [laneLoop]. unfold laneBody. rewrite Hthr. by rewrite IH.
Qed.

Lemma tickLaneResult_clock (t : Z) (s : GameState) (d : Q) :
  tickLaneResult (with_lastTickTime t s) d = tickLaneResult s d.
Proof. unfold tickLaneResult. by apply laneLoop_ext. Qed.

Lemma beforeContracts_clock (t : Z) (s : GameState) (d : Q) :
  beforeContracts (with_lastTickTime t s) d = with_lastTickTime t (beforeContracts s d).
Proof.
  unfold beforeContracts, tickPayload. rewrite tickLaneResult_clock. reflexivity.
Qed.

Lemma contractStep_clock (t : Z) (total d : Q) (s : GameState) :
  contractStep total d (with_lastTickTime t s)
  = with_lastTickTime t (contractStep total d s).
Proof.
  unfold contractStep. fields.
  destruct (truthy _); [|done].
  destruct (list_find _ _) as [[i c]|]; [|done].
  destruct (active c); [|done].
  destruct (timeRemainingS _) as [r|]; [destruct (Qleb (r - d) 0)|];
    fields; destruct (Qleb _ _); try destruct (bool_decide _); reflexivity.
Qed.

Lemma prestigeReadyStep_clock (t : Z) (s : GameState) :
  prestigeReadyStep (with_lastTickTime t s) = with_lastTickTime t (prestigeReadyStep s).
Proof.
  unfold prestigeReadyStep. fields.
  destruct (prestigeReadyAt _); [done|]. by destruct (Qleb _ _).
Qed.

(** The time stamp of the last advance is the only wall-clock reading that
    a state holds; the tick engine passes it through and reads it nowhere. *)
Lemma processTick_clock (t : Z) (s : GameState) (d : Q) :
  processTick (with_lastTickTime t s) d = with_lastTickTime t (processTick s d).
Proof.
  rewrite !processTick_stages, beforeContracts_clock.
  unfold tickPayload. rewrite tickLaneResult_clock.
  by rewrite contractStep_clock, prestigeReadyStep_clock.
Qed.

End Determinism.

(** ** Prestige reset *)

(** C6. [applyPrestige] returns a state whose resource pool, module levels,
    upgrade levels, contract board, active pointer, per-run statistics and
    counters are the run-start defaults, whose protocols-used set holds only
    the starting protocol, whose lanes are [1 + headStart] fresh lanes, and
    whose meta progress is that of the input with the reset counter
    incremented, the lifetime reputation increased by the computed reward
    (hence not decreased), and spent reputation and perk levels unchanged. *)
Theorem applyPrestige_reset_scope `{Engine} (now : Z) (s : GameState) :
  let s' := applyPrestige now s in
  let headStart := level_of (perks (meta s)) "perk_head_start" in
  (resources s' = mkResourcePool 0 0 0 0
   /\ modules s' = mkModules (mkModuleInfo decrypt 1) (mkModuleInfo checksum 0)
                             (mkModuleInfo compress 0) (mkModuleInfo tag 0)
   /\ upgradesPurchased s' = ∅
   /\ contracts s' = []
   /\ activeContractId s' = None
   /\ stats s' = mkStats 0 0 0 None
   /\ completedContractCount s' = 0%Z
   /\ highTierContractsCompleted s' = 0%Z
   /\ tickCount s' = 0%Z
   /\ activeProtocol s' = burst
   /\ protocolsUsed s' = [burst])
  /\ (lanes s' = createLane <$> seqZ 0 (1 + headStart)
      /\ Z.of_nat (length (lanes s')) = Z.max 0 (1 + headStart)
      /\ forall lane, lane ∈ lanes s' ->
           queue lane = 0 /\ heat lane = 0 /\ enabledModules lane = [decrypt])
  /\ (prestigeCount (meta s') = (prestigeCount (meta s) + 1)%Z
      /\ totalReputation (meta s')
         = (totalReputation (meta s) + calculateReputationGain s)%Z
      /\ (totalReputation (meta s) < totalReputation (meta s'))%Z
      /\ spentReputation (meta s') = spentReputation (meta s)
      /\ perks (meta s') = perks (meta s)).
Proof.
  intros s' headStart. subst s' headStart.
  split; [by repeat split|]. split.
  - unfold applyPrestige; fields. split; [done|]. split.
    + rewrite length_fmap, length_seqZ. lia.
    + intros lane [z [-> _]]%list_elem_of_fmap. done.
  - unfold applyPrestige; fields. repeat split; try done.
    pose proof (calculateReputationGain_ge_1 s). lia.
Qed.

(** ** Offline replay *)

Section Replay.

Lemma fullChunks_step (r : Q) :
  Qle_bool OFFLINE_CHUNK_SECONDS r = true ->
  fullChunks r = S (fullChunks (r - OFFLINE_CHUNK_SECONDS)).
Proof.
  intros H. apply Qle_bool_iff in H. unfold fullChunks, OFFLINE_CHUNK_SECONDS in *.
  assert (Heq : (r - 60) / 60 == r / 60 - inject_Z 1) by (unfold inject_Z; field).
  rewrite Heq, Qfloor_minus_Z.
  assert (1 <= Qfloor (r / 60))%Z.
  { apply Z_le_Qfloor. unfold inject_Z. apply Qle_shift_div_l; lra. }
  lia.
Qed.

Lemma fullChunks_stop (r : Q) :
  Qle_bool OFFLINE_CHUNK_SECONDS r = false -> fullChunks r = 0%nat.
Proof.
  intros H. unfold fullChunks, OFFLINE_CHUNK_SECONDS in *.
  assert (Hlt : r < 60).
  { apply Qnot_le_lt. intros Hle. apply Qle_bool_iff in Hle. congruence. }
  assert (Qfloor (r / 60) < 1)%Z; [|lia].
  destruct (Z.lt_ge_cases (Qfloor (r / 60)) 1) as [|Hge]; [done|].
  exfalso. pose proof (Qfloor_le (r / 60)) as Hfl.
  assert (1 <= r / 60).
  { apply Qle_trans with (inject_Z (Qfloor (r / 60))); [|done].
    change 1 with (inject_Z 1). by rewrite <- Zle_Qle. }
  assert (r / 60 < 1) by (apply Qlt_shift_div_r; lra).
  lra.
Qed.

(** The loop runs one 60-second tick per whole chunk and takes the chunk
    off [remaining] each time. *)
Lemma offlineLoop_iter (current : GameState) (remaining : Q) (ticks : Z) :
  offlineLoop current remaining ticks
  = (Nat.iter (fullChunks remaining) (fun s => processTick s OFFLINE_CHUNK_SECONDS) current,
     Nat.iter (fullChunks remaining) (fun r => r - OFFLINE_CHUNK_SECONDS) remaining,
     (ticks + Z.of_nat (fullChunks remaining))%Z).
Proof.
  funelim (offlineLoop current remaining ticks).
  - rewrite H. rewrite (fullChunks_step remaining Hge).
    rewrite !Nat.iter_succ_r. f_equal. lia.
  - rewrite (fullChunks_stop remaining e). cbn [Nat.iter]. f_equal. lia.
Qed.

Lemma iter_minus_chunk (n : nat) (x : Q) :
  Nat.iter n (fun r => r - OFFLINE_CHUNK_SECONDS) x
  == x - OFFLINE_CHUNK_SECONDS * inject_Z (Z.of_nat n).
Proof.
  induction n as [|n IH].
  - cbn [Nat.iter]. unfold inject_Z; cbn. ring.
  - rewrite Nat.iter_succ, IH, Nat2Z.inj_succ, <- Z.add_1_r, inject_Z_plus.
    unfold inject_Z at 3. ring.
Qed.

Lemma remainder_lt_chunk (x : Q) :
  x - OFFLINE_CHUNK_SECONDS * inject_Z (Z.of_nat (fullChunks x)) < OFFLINE_CHUNK_SECONDS.
Proof.
  unfold fullChunks, OFFLINE_CHUNK_SECONDS.
  pose proof (Qlt_floor (x / 60)) as Hhi.
  assert (Hz : (Qfloor (x / 60) <= Z.of_nat (Z.to_nat (Qfloor (x / 60))))%Z) by lia.
  rewrite Zle_Qle in Hz. rewrite inject_Z_plus in Hhi. unfold inject_Z at 2 in Hhi.
  assert (Hx : x == 60 * (x / 60)) by field.
  set (k := inject_Z (Z.of_nat (Z.to_nat (Qfloor (x / 60))))) in *.
  set (f := inject_Z (Qfloor (x / 60))) in *.
  set (y := x / 60) in *. clearbody k f y. lra.
Qed.

Lemma remainder_nonneg (x : Q) :
  0 <= x -> 0 <= x - OFFLINE_CHUNK_SECONDS * inject_Z (Z.of_nat (fullChunks x)).
Proof.
  intros H0. unfold fullChunks, OFFLINE_CHUNK_SECONDS.
  pose proof (Qfloor_le (x / 60)) as Hlo.
  assert (H1 : (0 <= Qfloor (x / 60))%Z).
  { apply Z_le_Qfloor. unfold inject_Z. apply Qle_shift_div_l; lra. }
  rewrite Z2Nat.id by done.
  assert (Hx : x == 60 * (x / 60)) by field.
  set (f := inject_Z (Qfloor (x / 60))) in *.
  set (y := x / 60) in *. clearbody f y. lra.
Qed.

Lemma processOfflineProgress_run (s : GameState) (nowMs : Z) :
  let elapsed :=
    Qmin (Qmax 0 (inject_Z (nowMs - lastTickTime s) / 1000))
         (inject_Z ((8 + level_of (perks (meta s)) "perk_offline_cap" * 4) * 3600)) in
  let n := fullChunks elapsed in
  let rest := Nat.iter n (fun r => r - 60) elapsed in
  let chunked := Nat.iter n (fun st => processTick st 60) s in
  let final := if Qltb 0 rest then processTick chunked rest else chunked in
  processOfflineProgress s nowMs
  = (with_lastTickTime nowMs final,
     mkSummary elapsed (if Qltb 0 rest then Z.of_nat n + 1 else Z.of_nat n)%Z
       (totalPayloadProduced (stats final) - totalPayloadProduced (stats s))
       (totalCreditsEarned (stats final) - totalCreditsEarned (stats s))
       (fragments (resources final) - fragments (resources s))).
Proof.
  cbv zeta. unfold processOfflineProgress. cbv beta zeta.
  rewrite offlineLoop_iter. unfold OFFLINE_CHUNK_SECONDS, DEFAULT_OFFLINE_CAP_HOURS.
  generalize
    (Qmin (Qmax 0 (inject_Z (nowMs - lastTickTime s) / 1000))
          (inject_Z ((8 + level_of (perks (meta s)) "perk_offline_cap" * 4) * 3600))).
  intros elapsed.
  generalize (fullChunks elapsed). intros n.
  generalize (Nat.iter n (fun r : Q => r - 60) elapsed). intros rest.
  generalize (Nat.iter n (fun st : GameState => processTick st 60) s). intros chunked.
  destruct (Qltb 0 rest); [generalize (processTick chunked rest); intros r|]; reflexivity.
Qed.

End Replay.

(** C8. [processOfflineProgress] clamps the elapsed seconds
    [(now - lastTickTime) / 1000] to [[0, cap]], where [cap] is 8 hours plus 4
    hours per level of the offline-cap perk; runs one 60-second tick for every
    whole chunk of the elapsed time (while at least one chunk remains), then
    one tick of the remainder if it is positive; stamps [lastTickTime] with
    [now]; and reports the differences of lifetime payload, lifetime credits
    and fragments between the replayed state and the input. *)
Theorem processOfflineProgress_contract (s : GameState) (nowMs : Z) :
  let level := level_of (perks (meta s)) "perk_offline_cap" in
  let cap := inject_Z ((8 + level * 4) * 3600) in
  let elapsed := Qmin (Qmax 0 (inject_Z (nowMs - lastTickTime s) / 1000)) cap in
  let n := fullChunks elapsed in
  let rest := Nat.iter n (fun r => r - 60) elapsed in
  let chunked := Nat.iter n (fun st => processTick st 60) s in
  let final := if Qltb 0 rest then processTick chunked rest else chunked in
  processOfflineProgress s nowMs
  = (with_lastTickTime nowMs final,
     mkSummary elapsed (if Qltb 0 rest then Z.of_nat n + 1 else Z.of_nat n)%Z
       (totalPayloadProduced (stats final) - totalPayloadProduced (stats s))
       (totalCreditsEarned (stats final) - totalCreditsEarned (stats s))
       (fragments (resources final) - fragments (resources s)))
  /\ lastTickTime (processOfflineProgress s nowMs).1 = nowMs
  /\ rest == elapsed - 60 * inject_Z (Z.of_nat n)
  /\ rest < 60
  /\ elapsed <= cap
  /\ ((0 <= level)%Z -> 0 <= elapsed /\ 0 <= rest).
Proof.
  cbv zeta.
  pose proof (processOfflineProgress_run s nowMs) as Hrun. cbv zeta in Hrun.
  split; [exact Hrun|]. split; [rewrite Hrun; apply lastTickTime_with|].
  clear Hrun.
  generalize (nowMs - lastTickTime s)%Z. intros ms.
  generalize (level_of (perks (meta s)) "perk_offline_cap"). intros level.
  set (cap := inject_Z ((8 + level * 4) * 3600)).
  set (elapsed := Qmin (Qmax 0 (inject_Z ms / 1000)) cap).
  pose proof (iter_minus_chunk (fullChunks elapsed) elapsed) as Hrest.
  unfold OFFLINE_CHUNK_SECONDS in Hrest.
  split; [exact Hrest|]. split.
  { rewrite Hrest. apply remainder_lt_chunk. }
  split; [apply Q.le_min_r|].
  intros Hlevel.
  assert (Hcap : 0 <= cap).
  { subst cap. change 0 with (inject_Z 0). rewrite <- Zle_Qle. lia. }
  assert (Hel : 0 <= elapsed).
  { subst elapsed. apply Q.min_glb; [apply Q.le_max_l | done]. }
  split; [done|]. rewrite Hrest. by apply remainder_nonneg.
Qed.

(** ** Board generation *)

Section Board.

Lemma sort_insert_Permutation {A} (cmp : A -> A -> Z) (x : A) (l : list A) :
  sort_insert cmp x l ≡ₚ x :: l.
Proof.
  induction l as [|y l IH]; [done|].
  cbn [sort_insert]. destruct (cmp x y <=? 0)%Z; [done|].
  rewrite IH. apply Permutation_swap.
Qed.

Lemma Array_sort_Permutation {A} (cmp : A -> A -> Z) (l : list A) :
  Array_sort cmp l ≡ₚ l.
Proof.
  induction l as [|x l IH]; [done|].
  unfold Array_sort in *. cbn [foldr]. by rewrite sort_insert_Permutation, IH.
Qed.

(** For a comparator that subtracts keys, the result is in key order. *)
Lemma sort_insert_sorted {A} (key : A -> Z) (x : A) (l : list A) :
  StronglySorted (fun a b => (key a <= key b)%Z) l ->
  StronglySorted (fun a b => (key a <= key b)%Z)
                 (sort_insert (fun a b => (key a - key b)%Z) x l).
Proof.
  induction 1 as [|y l Hsorted IH Hall]; cbn [sort_insert].
  - by repeat constructor.
  - destruct (Z.leb_spec (key x - key y) 0) as [Hle|Hgt].
    + constructor; [by constructor|].
      constructor; [lia|]. eapply Forall_impl; [exact Hall|]. intros z Hz; cbn in *. lia.
    + constructor; [done|].
      rewrite sort_insert_Permutation. constructor; [lia|done].
Qed.

Lemma Array_sort_sorted {A} (key : A -> Z) (l : list A) :
  StronglySorted (fun a b => (key a <= key b)%Z)
                 (Array_sort (fun a b => (key a - key b)%Z) l).
Proof.
  induction l as [|x l IH]; [constructor|].
  unfold Array_sort in *. cbn [foldr]. by apply sort_insert_sorted.
Qed.

(** The shuffle keeps exactly the templates that pass the reset gate and
    puts them in the order of their hash. *)
Lemma shuffleTemplates_spec (prestigeCount seed : Z) :
  shuffleTemplates prestigeCount seed
    ≡ₚ filter (fun t => (Tpl.minPrestige t <= prestigeCount)%Z) CONTRACT_TEMPLATES
  /\ StronglySorted
       (fun a b => (deterministicHash (Tpl.id a +:+ pretty seed)
                    <= deterministicHash (Tpl.id b +:+ pretty seed))%Z)
       (shuffleTemplates prestigeCount seed).
Proof.
  split; [apply Array_sort_Permutation|].
  apply (Array_sort_sorted (fun t => deterministicHash (Tpl.id t +:+ pretty seed))).
Qed.

(** The test [!seen.has(t.protocol) || chosen.length < 3] sits behind the
    [break] on [chosen.length >= 3], so it never rejects a candidate. *)
Lemma chooseLoop_no_skip (shuffled : list Tpl.t) (seen : list ProtocolFamily)
    (chosen : list Tpl.t) :
  chooseLoop shuffled seen chosen
  = if (3 <=? length chosen)%nat then chosen
    else chosen ++ take (3 - length chosen) shuffled.
Proof.
  revert seen chosen. induction shuffled as [|t rest IH]; intros seen chosen.
  - cbn [chooseLoop]. destruct (3 <=? length chosen)%nat; [done|].
    by rewrite take_nil, app_nil_r.
  - cbn [chooseLoop]. destruct (Nat.leb_spec 3 (length chosen)) as [Hge|Hlt]; [done|].
    assert ((length chosen <? 3)%nat = true) as -> by (by apply Nat.ltb_lt).
    rewrite orb_true_r, IH, length_app. cbn [length].
    destruct (Nat.leb_spec 3 (length chosen + 1)) as [Hge|Hlt'].
    + replace (3 - length chosen)%nat with 1%nat by lia. reflexivity.
    + replace (3 - length chosen)%nat with (S (3 - (length chosen + 1))) by lia.
      cbn [take]. by rewrite <- app_assoc.
Qed.

Lemma buildContractBoard_first_three (prestigeCount seed : Z) :
  buildContractBoard prestigeCount seed
  = imap (instantiate seed) (take 3 (shuffleTemplates prestigeCount seed)).
Proof.
  unfold buildContractBoard. rewrite chooseLoop_no_skip.
  generalize (shuffleTemplates prestigeCount seed). intros shuffled.
  cbn [length Nat.leb Nat.sub app]. by rewrite take_take.
Qed.

End Board.

(** C7, evaluated. For [resetCount = 0] and [seed = 0] (the first board of a
    fresh run) the candidates in hash order start with three burst templates
    and continue with a secure one; the board is the first three, all of one
    protocol family: the second candidate repeats the family of the first
    while a later candidate has a fresh family, and it is chosen all the
    same. *)
Theorem buildContractBoard_no_diversity :
  Tpl.protocol <$> shuffleTemplates 0 0
    = [burst; burst; burst; secure; secure; secure; burst; legacy; legacy]
  /\ contract_id <$> buildContractBoard 0 0
     = ["tpl_burst_low_1_run0_0"; "tpl_burst_low_2_run0_1"; "tpl_burst_mid_1_run0_2"]
  /\ protocol <$> buildContractBoard 0 0 = [burst; burst; burst].
Proof. repeat split; vm_compute; reflexivity. Qed.

(** ** Single active contract *)

Section SingleActive.

Lemma append_nonempty_r (a b : string) : b <> "" -> a +:+ b <> "".
Proof. destruct a; [done|]. discriminate. Qed.

Lemma last_char_append (a b : string) : b <> "" -> last_char (a +:+ b) = last_char b.
Proof.
  intros Hb. induction a as [|c a IH]; [done|].
  simpl. destruct (a +:+ b) eqn:E; [by apply (append_nonempty_r a) in Hb|].
  by rewrite <- IH.
Qed.

Lemma last_char_nonempty (s : string) (c : Ascii.ascii) : last_char s = Some c -> s <> "".
Proof. by destruct s. Qed.

(** An instantiated contract id ends in the text of its index. *)
Lemma instantiate_last_char (seed : Z) (i : nat) (t : Tpl.t) (tail : string) :
  tail <> "" -> pretty i = tail ->
  last_char (contract_id (instantiate seed i t)) = last_char tail.
Proof.
  intros Hne Hp. cbn [instantiate contract_id]. rewrite Hp.
  assert (H1 : "_" +:+ tail <> "") by done.
  assert (H2 : pretty seed +:+ "_" +:+ tail <> "") by (by apply append_nonempty_r).
  assert (H3 : "_run" +:+ pretty seed +:+ "_" +:+ tail <> "") by done.
  by rewrite !last_char_append.
Qed.

Lemma board_ids_ok (seed : Z) (l : list Tpl.t) :
  (length l <= 3)%nat ->
  NoDup (contract_id <$> imap (instantiate seed) l)
  /\ (forall c, c ∈ imap (instantiate seed) l -> contract_id c <> "")
  /\ (forall c, c ∈ imap (instantiate seed) l -> active c = false).
Proof.
  intros Hlen.
  pose proof (fun t => instantiate_last_char seed 0 t "0" ltac:(done) eq_refl) as L0.
  pose proof (fun t => instantiate_last_char seed 1 t "1" ltac:(done) eq_refl) as L1.
  pose proof (fun t => instantiate_last_char seed 2 t "2" ltac:(done) eq_refl) as L2.
  cbn [last_char] in L0, L1, L2.
  assert (Hne : forall i t c, last_char (contract_id (instantiate seed i t)) = Some c ->
                contract_id (instantiate seed i t) <> "")
    by (intros i t c; apply last_char_nonempty).
  destruct l as [|t0 [|t1 [|t2 [|t3 l]]]]; cbn [length] in Hlen; try lia;
    cbn [imap fmap list_fmap compose].
  - split; [constructor|]. split; intros c Hc; by apply elem_of_nil in Hc.
  - split; [|split].
    + apply NoDup_singleton.
    + intros c ->%list_elem_of_singleton. eapply Hne, L0.
    + by intros c ->%list_elem_of_singleton.
  - split; [|split].
    + apply NoDup_cons; split; [|apply NoDup_singleton].
      intros Hin%list_elem_of_singleton.
      pose proof (L0 t0) as E0. pose proof (L1 t1) as E1.
      unfold compose in *. rewrite Hin, E1 in E0. discriminate E0.
    + intros c Hc. apply elem_of_cons in Hc as [->|Hc];
        [eapply Hne, L0|apply list_elem_of_singleton in Hc as ->; eapply Hne, L1].
    + intros c Hc. apply elem_of_cons in Hc as [->|Hc];
        [done|by apply list_elem_of_singleton in Hc as ->].
  - split; [|split].
    + pose proof (L0 t0) as E0. pose proof (L1 t1) as E1. pose proof (L2 t2) as E2.
      unfold compose in *.
      apply NoDup_cons; split; [|apply NoDup_cons; split; [|apply NoDup_singleton]].
      * intros Hin. apply elem_of_cons in Hin as [Hin|Hin%list_elem_of_singleton].
        -- rewrite Hin, E1 in E0. discriminate E0.
        -- rewrite Hin, E2 in E0. discriminate E0.
      * intros Hin%list_elem_of_singleton. rewrite Hin, E2 in E1. discriminate E1.
    + intros c Hc. apply elem_of_cons in Hc as [->|Hc]; [eapply Hne, L0|].
      apply elem_of_cons in Hc as [->|Hc]; [eapply Hne, L1|].
      apply list_elem_of_singleton in Hc as ->. eapply Hne, L2.
    + intros c Hc. apply elem_of_cons in Hc as [->|Hc]; [done|].
      apply elem_of_cons in Hc as [->|Hc]; [done|].
      by apply list_elem_of_singleton in Hc as ->.
Qed.

Lemma boardOk_nil (ptr : option string) : boardOk [] ptr.
Proof.
  split; [constructor|]. split; intros c Hc; by apply elem_of_nil in Hc.
Qed.

Lemma boardOk_singleActive (cs : list ContractState) (ptr : option string) :
  boardOk cs ptr -> singleActive cs.
Proof.
  intros (Hnd & _ & Hptr) i j ci cj Hi Hj Hai Haj.
  pose proof (Hptr ci (list_elem_of_lookup_2 _ _ _ Hi) Hai) as Pi.
  pose proof (Hptr cj (list_elem_of_lookup_2 _ _ _ Hj) Haj) as Pj.
  assert (Hid : contract_id ci = contract_id cj) by congruence.
  eapply NoDup_lookup; [exact Hnd| |]; rewrite list_lookup_fmap.
  - by rewrite Hi.
  - by rewrite Hj, Hid.
Qed.

Lemma truthy_Some (x : string) : x <> "" -> truthy (Some x) = true.
Proof. intros Hx. cbn. by apply String.eqb_neq in Hx as ->. Qed.

(** Replacing the contract at [i] by one with the same id, while either
    keeping its activity and the pointer, or deactivating the contract that
    the pointer names and clearing the pointer. *)
Lemma boardOk_update (cs : list ContractState) (ptr ptr' : option string)
    (i : nat) (c c' : ContractState) :
  boardOk cs ptr ->
  cs !! i = Some c ->
  contract_id c' = contract_id c ->
  (ptr' = ptr /\ active c' = active c)
  \/ (ptr' = None /\ active c' = false /\ ptr = Some (contract_id c)) ->
  boardOk (<[i := c']> cs) ptr'.
Proof.
  intros (Hnd & Hne & Hptr) Hi Hid Hcase.
  assert (Hids : contract_id <$> <[i := c']> cs = contract_id <$> cs).
  { rewrite list_fmap_insert, Hid. apply list_insert_id.
    by rewrite list_lookup_fmap, Hi. }
  assert (Hmem : forall x, x ∈ <[i := c']> cs ->
            x = c' \/ exists j, j <> i /\ cs !! j = Some x).
  { intros x [j Hj]%list_elem_of_lookup_1.
    destruct (decide (j = i)) as [->|Hji].
    - rewrite list_lookup_insert_eq in Hj by (by eapply lookup_lt_Some).
      left. congruence.
    - rewrite list_lookup_insert_ne in Hj by done. right. by exists j. }
  split; [by rewrite Hids|]. split.
  - intros x [->|(j & _ & Hj)]%Hmem.
    + rewrite Hid. eapply Hne, list_elem_of_lookup_2, Hi.
    + eapply Hne, list_elem_of_lookup_2, Hj.
  - intros x Hx Hact. apply Hmem in Hx as [->|(j & Hji & Hj)].
    + destruct Hcase as [[-> Ha]|(_ & Ha & _)]; [|congruence].
      rewrite Hid. apply Hptr; [eapply list_elem_of_lookup_2, Hi | congruence].
    + pose proof (Hptr x (list_elem_of_lookup_2 _ _ _ Hj) Hact) as Px.
      destruct Hcase as [[-> _]|(_ & _ & Hp)]; [done|].
      exfalso. apply Hji.
      assert (Hsame : contract_id x = contract_id c) by congruence.
      eapply NoDup_lookup; [exact Hnd| |]; rewrite list_lookup_fmap.
      * by rewrite Hj.
      * by rewrite Hi, Hsame.
Qed.

Lemma contractStep_boardInv (total d : Q) (s : GameState) :
  boardInv s -> boardInv (contractStep total d s).
Proof.
  unfold boardInv, contractStep. intros Hinv.
  destruct (truthy _); [|done].
  destruct (list_find _ _) as [[i c]|] eqn:Hfind; [|done].
  apply list_find_Some in Hfind as (Hi & Hp & _).
  destruct (active c) eqn:Hact; [|done].
  destruct (timeRemainingS _) as [t|]; [destruct (Qleb (t - d) 0)|];
    fields; destruct (Qleb _ _); try destruct (bool_decide _); fields;
    (eapply boardOk_update; [exact Hinv | exact Hi | reflexivity |]);
    fields; auto.
Qed.

Lemma processTick_boardInv (s : GameState) (d : Q) :
  boardInv s -> boardInv (processTick s d).
Proof.
  intros Hinv. rewrite processTick_stages.
  pose proof (prestigeReadyStep_frame
                (contractStep (tickPayload s d) d (beforeContracts s d))) as Hp.
  cbv zeta in Hp. destruct Hp as (_ & _ & Hc & Ha & _).
  unfold boardInv. rewrite Hc, Ha.
  by apply (contractStep_boardInv _ d (beforeContracts s d)).
Qed.

Lemma refreshContractBoard_boardInv (s : GameState) : boardInv (refreshContractBoard s).
Proof.
  unfold boardInv, refreshContractBoard; fields.
  rewrite buildContractBoard_first_three.
  set (seed := Z.lxor _ _). set (l := take 3 _).
  assert (Hlen : (length l <= 3)%nat) by (subst l; rewrite length_take; lia).
  destruct (board_ids_ok seed l Hlen) as (Hnd & Hne & Hina).
  split; [done|]. split; [done|].
  intros c Hc Hact. rewrite (Hina c Hc) in Hact. discriminate Hact.
Qed.

Lemma activateContract_boardInv (s s' : GameState) (contractId : string) :
  boardInv s -> activateContract s contractId = Some s' -> boardInv s'.
Proof.
  unfold boardInv, activateContract. intros (Hnd & Hne & Hptr).
  destruct (list_find _ _) as [[i c]|] eqn:Hfind; [|done].
  destruct (_ || _); [done|].
  destruct (truthy (activeContractId s)) eqn:Hfree; [done|].
  intros [= <-]. fields.
  set (f := fun c0 => if bool_decide (contract_id c0 = contractId)
                      then set_active true c0 else c0).
  assert (Hfid : forall c0, contract_id (f c0) = contract_id c0)
    by (intros c0; unfold f; by destruct (bool_decide _)).
  assert (Hids : contract_id <$> (f <$> contracts s) = contract_id <$> contracts s).
  { rewrite <- list_fmap_compose. apply list_fmap_ext. intros ? c0 _. apply Hfid. }
  split; [by rewrite Hids|]. split.
  - intros x (c0 & -> & Hc0)%list_elem_of_fmap. rewrite Hfid. by apply Hne.
  - intros x (c0 & -> & Hc0)%list_elem_of_fmap Hact. rewrite Hfid.
    unfold f in Hact. destruct (bool_decide_reflect (contract_id c0 = contractId)) as [->|Hn];
      [done|].
    pose proof (Hptr c0 Hc0 Hact) as Hp. rewrite Hp in Hfree.
    rewrite truthy_Some in Hfree by (by apply Hne). discriminate Hfree.
Qed.

Lemma reachable_boardInv (s : GameState) : reachable s -> boardInv s.
Proof.
  induction 1 as [now | s d _ IH | s _ _ | s s' contractId _ IH Hact | E now s _ _].
  - apply boardOk_nil.
  - by apply processTick_boardInv.
  - apply refreshContractBoard_boardInv.
  - by eapply activateContract_boardInv.
  - apply boardOk_nil.
Qed.

(** [if (state.activeContractId) return null]. *)
Lemma activateContract_busy (s : GameState) (contractId : string) :
  truthy (activeContractId s) = true -> activateContract s contractId = None.
Proof.
  intros Hbusy. unfold activateContract.
  destruct (list_find _ _) as [[i c]|]; [|done].
  destruct (_ || _); [done|]. by rewrite Hbusy.
Qed.

(** On a board that satisfies the invariant, the contract section works on
    the active contract, wherever it sits. *)
Lemma boardInv_workingContract (s : GameState) (i : nat) (c : ContractState) :
  boardInv s -> contracts s !! i = Some c -> active c = true ->
  workingContract s = Some (i, c).
Proof.
  intros (Hnd & Hne & Hptr) Hi Hact.
  pose proof (list_elem_of_lookup_2 _ _ _ Hi) as Hc.
  pose proof (Hptr c Hc Hact) as Hp.
  unfold workingContract. rewrite Hp, truthy_Some by (by apply Hne).
  assert (Hfind : list_find (fun c0 => Some (contract_id c0) = Some (contract_id c))
                            (contracts s) = Some (i, c)).
  { apply list_find_Some. split; [done|]. split; [done|].
    intros j y Hj Hlt [= Hsame].
    assert (j = i); [|lia].
    eapply NoDup_lookup; [exact Hnd| |]; rewrite list_lookup_fmap.
    - by rewrite Hj.
    - by rewrite Hi, Hsame. }
  by rewrite Hfind, Hact.
Qed.

End SingleActive.

(** C2. In every state reachable from a fresh run by [processTick],
    [refreshContractBoard], [activateContract] and [applyPrestige], at most one
    contract of the board is active and the active pointer names it; and
    [activateContract] on a reachable state that has an active contract
    returns the no-op result, for every contract id.  The active contract is
    also the one that the contract section of [processTick] works on. *)
Theorem single_active_invariant (s : GameState) :
  reachable s ->
  singleActive (contracts s)
  /\ (forall c, c ∈ contracts s -> active c = true ->
        activeContractId s = Some (contract_id c))
  /\ ((exists c, c ∈ contracts s /\ active c = true) ->
      forall contractId, activateContract s contractId = None)
  /\ (forall i c, contracts s !! i = Some c -> active c = true ->
        workingContract s = Some (i, c)).
Proof.
  intros Hreach. pose proof (reachable_boardInv s Hreach) as Hinv.
  split; [by eapply boardOk_singleActive|].
  split; [apply Hinv|]. split.
  - destruct Hinv as (_ & Hne & Hptr).
    intros (c & Hc & Hact) contractId. apply activateContract_busy.
    rewrite (Hptr c Hc Hact). by apply truthy_Some, Hne.
  - intros i c. by apply boardInv_workingContract.
Qed.

Lemma single_active_invariant_witness :
  singleActive (contracts runningContractState)
  /\ (forall c, c ∈ contracts runningContractState -> active c = true ->
        activeContractId runningContractState = Some (contract_id c))
  /\ ((exists c, c ∈ contracts runningContractState /\ active c = true) ->
      forall contractId, activateContract runningContractState contractId = None)
  /\ (forall i c, contracts runningContractState !! i = Some c -> active c = true ->
        workingContract runningContractState = Some (i, c)).
Proof.
  apply (single_active_invariant runningContractState).
  apply reach_advance.
  apply (reach_activate firstBoardState _ "tpl_burst_low_1_run0_0").
  - apply reach_refresh, reach_init.
  - vm_compute. reflexivity.
Defined.

(** The state above does hold an active contract, so its invariant is not
    vacuous. *)
Example runningContractState_active :
  activeContractId runningContractState = Some "tpl_burst_low_1_run0_0"
  /\ active <$> contracts runningContractState = [true; false; false].
Proof. split; vm_compute; reflexivity. Qed.

(** ** The result is an independent copy *)

(** *** Stores that grow *)

Section Growth.

Lemma getRoot_app (h ext : store) (l : loc) (r : RootObj) :
  getRoot h l = Some r -> getRoot (h ++ ext) l = Some r.
Proof.
  unfold getRoot. destruct (h !! l) as [o|] eqn:E; [|done].
  by rewrite (lookup_app_l_Some _ _ _ _ E).
Qed.

Lemma getResources_app (h ext : store) (l : loc) (p : ResourcePool) :
  getResources h l = Some p -> getResources (h ++ ext) l = Some p.
Proof.
  unfold getResources. destruct (h !! l) as [o|] eqn:E; [|done].
  by rewrite (lookup_app_l_Some _ _ _ _ E).
Qed.

Lemma getStats_app (h ext : store) (l : loc) (x : Stats) :
  getStats h l = Some x -> getStats (h ++ ext) l = Some x.
Proof.
  unfold getStats. destruct (h !! l) as [o|] eqn:E; [|done].
  by rewrite (lookup_app_l_Some _ _ _ _ E).
Qed.

Lemma getLane_app (h ext : store) (l : loc) (x : LaneState) :
  getLane h l = Some x -> getLane (h ++ ext) l = Some x.
Proof.
  unfold getLane. destruct (h !! l) as [o|] eqn:E; [|done].
  by rewrite (lookup_app_l_Some _ _ _ _ E).
Qed.

Lemma getContract_app (h ext : store) (l : loc) (c : ContractState) :
  getContract h l = Some c -> getContract (h ++ ext) l = Some c.
Proof.
  unfold getContract. destruct (h !! l) as [o|] eqn:E; [|done].
  by rewrite (lookup_app_l_Some _ _ _ _ E).
Qed.

Lemma snapshot_Some (h : store) (l : loc) (v : GameState) :
  snapshot h l = Some v <->
  exists res st ls cs,
    getRoot h l = Some (rootFor v res st ls cs)
    /\ getResources h res = Some (resources v)
    /\ mapM (getLane h) ls = Some (lanes v)
    /\ mapM (getContract h) cs = Some (contracts v)
    /\ getStats h st = Some (stats v).
Proof.
  unfold snapshot. split.
  - intros H. destruct (getRoot h l) as [r|]; [|done]. cbn in H.
    destruct (getResources _ _) as [p|] eqn:Hp; [|done]. cbn in H.
    destruct (mapM (getLane h) _) as [xs|] eqn:Hl; [|done]. cbn in H.
    destruct (mapM (getContract h) _) as [ys|] eqn:Hc; [|done]. cbn in H.
    destruct (getStats _ _) as [x|] eqn:Hs; [|done]. cbn in H.
    injection H as <-.
    exists (r_resources r), (r_stats r), (r_lanes r), (r_contracts r).
    split; [by destruct r|]. by repeat split.
  - intros (res & st & ls & cs & -> & Hp & Hl & Hc & Hs). cbn.
    rewrite Hp; cbn. rewrite Hl; cbn. rewrite Hc; cbn. rewrite Hs; cbn.
    by destruct v.
Qed.

(** A state that a store holds is still held after the store has grown. *)
Lemma snapshot_app (h ext : store) (l : loc) (v : GameState) :
  snapshot h l = Some v -> snapshot (h ++ ext) l = Some v.
Proof.
  rewrite !snapshot_Some. intros (res & st & ls & cs & Hr & Hp & Hl & Hc & Hs).
  exists res, st, ls, cs.
  split; [by apply getRoot_app|]. split; [by apply getResources_app|].
  split; [|split; [|by apply getStats_app]].
  - apply mapM_Some. apply mapM_Some in Hl.
    eapply Forall2_impl; [exact Hl|]. intros ???. by apply getLane_app.
  - apply mapM_Some. apply mapM_Some in Hc.
    eapply Forall2_impl; [exact Hc|]. intros ???. by apply getContract_app.
Qed.

Lemma insert_keeps_prefix (h0 ext : store) (l : loc) (o : obj) :
  (length h0 <= l)%nat -> exists ext', <[l := o]> (h0 ++ ext) = h0 ++ ext'.
Proof. intros Hl. eexists. by apply insert_app_r_alt. Qed.

End Growth.

(** *** A private copy and what it holds *)

Section Owned.

(** [h0] is the store on entry and [state] the input of [processTick], which
    holds [input]; [s] is the working copy, with children at [res], [st],
    [ls] and [cs]. *)
Variables (h0 : store) (state : loc) (input : GameState).
Variables (s res st : loc) (ls cs : list loc).
Hypothesis Hinput : snapshot h0 state = Some input.

(** The copy holds [v], sits apart from everything that existed on entry,
    shares no object between two of its parts, and the store on entry is
    intact. *)
Definition owned (h : store) (v : GameState) : Prop :=
  (exists ext, h = h0 ++ ext)
  /\ h !! s = Some (ORoot (rootFor v res st ls cs))
  /\ h !! res = Some (OResources (resources v))
  /\ h !! st = Some (OStats (stats v))
  /\ Forall2 (fun l x => h !! l = Some (OLane x)) ls (lanes v)
  /\ Forall2 (fun l c => h !! l = Some (OContract c)) cs (contracts v)
  /\ NoDup (s :: res :: st :: ls ++ cs)
  /\ Forall (fun l => (length h0 <= l)%nat) (s :: res :: st :: ls ++ cs).

(** From a state that the copy holds to another, returning [a]. *)
Definition step {A} (v : GameState) (m : M A) (a : A) (v' : GameState) : Prop :=
  forall h, owned h v -> exists h', m h = Some (a, h') /\ owned h' v'.

Lemma step_ret {A} (v : GameState) (a : A) : step v (ret a) a v.
Proof. intros h Ho. by exists h. Qed.

Lemma step_bind {A B} (v v1 v2 : GameState) (m : M A) (k : A -> M B) (a : A) (b : B) :
  step v m a v1 -> step v1 (k a) b v2 -> step v (bind m k) b v2.
Proof.
  intros Hm Hk h Ho. destruct (Hm h Ho) as (h1 & Hrun & Ho1).
  destruct (Hk h1 Ho1) as (h2 & Hrun2 & Ho2).
  exists h2. unfold bind. by rewrite Hrun.
Qed.

Lemma bind_assoc {A B C} (m : M A) (k : A -> M B) (k2 : B -> M C) (h : store) :
  bind (bind m k) k2 h = bind m (fun a => bind (k a) k2) h.
Proof. unfold bind. by destruct (m h) as [[a h']|]. Qed.

Lemma step_assoc {A B C} (v v' : GameState) (m : M A) (k : A -> M B) (k2 : B -> M C)
    (c : C) :
  step v (bind m (fun a => bind (k a) k2)) c v' -> step v (bind (bind m k) k2) c v'.
Proof. intros H h Ho. rewrite bind_assoc. by apply H. Qed.

Lemma step_eq {A} (v v1 v2 : GameState) (m : M A) (a : A) :
  step v m a v1 -> v1 = v2 -> step v m a v2.
Proof. by intros H <-. Qed.

(** What the copy holds. *)

Lemma owned_snapshot (h : store) (v : GameState) : owned h v -> snapshot h s = Some v.
Proof.
  intros (_ & Hs & Hres & Hst & Hls & Hcs & _). apply snapshot_Some.
  exists res, st, ls, cs. unfold getRoot, getResources, getStats.
  rewrite Hs, Hres, Hst. repeat split.
  - apply mapM_Some. eapply Forall2_impl; [exact Hls|].
    intros l x Hl. unfold getLane. by rewrite Hl.
  - apply mapM_Some. eapply Forall2_impl; [exact Hcs|].
    intros l x Hl. unfold getContract. by rewrite Hl.
Qed.

(** The input of the call reads as it did on entry. *)
Lemma owned_input (h : store) (v : GameState) : owned h v -> snapshot h state = Some input.
Proof. intros ([ext ->] & _). by apply snapshot_app. Qed.

Lemma step_readState (v : GameState) : step v (readState state) input v.
Proof.
  intros h Ho. exists h. split; [|done].
  unfold readState, lift. by rewrite (owned_input h v Ho).
Qed.

Lemma step_loadRoot (v : GameState) : step v (loadRoot s) (rootFor v res st ls cs) v.
Proof.
  intros h Ho. exists h. split; [|done].
  destruct Ho as (_ & Hs & _). unfold loadRoot, lift, getRoot. by rewrite Hs.
Qed.

Lemma step_loadResources (v : GameState) : step v (loadResources res) (resources v) v.
Proof.
  intros h Ho. exists h. split; [|done].
  destruct Ho as (_ & _ & Hres & _). unfold loadResources, lift, getResources.
  by rewrite Hres.
Qed.

Lemma step_loadStats (v : GameState) : step v (loadStats st) (stats v) v.
Proof.
  intros h Ho. exists h. split; [|done].
  destruct Ho as (_ & _ & _ & Hst & _). unfold loadStats, lift, getStats. by rewrite Hst.
Qed.

Lemma step_loadLane (v : GameState) (i : nat) (l : loc) (x : LaneState) :
  ls !! i = Some l -> lanes v !! i = Some x -> step v (loadLane l) x v.
Proof.
  intros Hl Hx h Ho. exists h. split; [|done].
  destruct Ho as (_ & _ & _ & _ & Hls & _).
  pose proof (Forall2_lookup_lr _ _ _ _ _ _ Hls Hl Hx) as Hh.
  unfold loadLane, lift, getLane. by rewrite Hh.
Qed.

Lemma step_loadContract (v : GameState) (i : nat) (l : loc) (c : ContractState) :
  cs !! i = Some l -> contracts v !! i = Some c -> step v (loadContract l) c v.
Proof.
  intros Hl Hc h Ho. exists h. split; [|done].
  destruct Ho as (_ & _ & _ & _ & _ & Hcs & _).
  pose proof (Forall2_lookup_lr _ _ _ _ _ _ Hcs Hl Hc) as Hh.
  unfold loadContract, lift, getContract. by rewrite Hh.
Qed.

(** Assignments into the copy. *)

Lemma assign_runs (h : store) (l : loc) (o o' : obj) :
  h !! l = Some o -> assign l o' h = Some (tt, <[l := o']> h).
Proof.
  intros Hl. unfold assign. apply lookup_lt_Some in Hl. by rewrite decide_True.
Qed.

Lemma Forall2_retarget {A} (P Q : loc -> A -> Prop) (l : list loc) (k : list A) :
  Forall2 P l k -> (forall x y, x ∈ l -> P x y -> Q x y) -> Forall2 Q l k.
Proof.
  induction 1 as [|x y l k HP _ IH]; intros Himpl; constructor.
  - apply Himpl; [left|done].
  - apply IH. intros x' y' Hin. apply Himpl. by right.
Qed.

(** One element of a list of cells is assigned, the list of values changes
    at the same index. *)
Lemma Forall2_assign {A} (mk : A -> obj) (h : store) (locs : list loc) (xs : list A)
    (i : nat) (l : loc) (x : A) :
  NoDup locs -> locs !! i = Some l ->
  Forall2 (fun l x => h !! l = Some (mk x)) locs xs ->
  Forall2 (fun l' x' => <[l := mk x]> h !! l' = Some (mk x')) locs (<[i := x]> xs).
Proof.
  intros Hnd Hl Hall.
  apply Forall2_same_length_lookup_2.
  { rewrite length_insert. by eapply Forall2_length. }
  intros j a b Ha Hb. cbv beta.
  destruct (decide (j = i)) as [->|Hji].
  - assert (a = l) as -> by congruence.
    destruct (Forall2_lookup_l _ _ _ _ _ Hall Hl) as (y & Hy & Hh).
    rewrite list_lookup_insert_eq in Hb by (by eapply lookup_lt_Some).
    injection Hb as <-.
    apply list_lookup_insert_eq. by eapply lookup_lt_Some.
  - rewrite list_lookup_insert_ne in Hb by done.
    rewrite list_lookup_insert_ne.
    + exact (Forall2_lookup_lr _ _ _ _ _ _ Hall Ha Hb).
    + intros ->. apply Hji. symmetry. by eapply NoDup_lookup.
Qed.

Lemma owned_apart (h : store) (v : GameState) :
  owned h v ->
  NoDup ls /\ NoDup cs
  /\ (forall l, l ∈ ls -> l <> s /\ l <> res /\ l <> st)
  /\ (forall l, l ∈ cs -> l <> s /\ l <> res /\ l <> st /\ l ∉ ls)
  /\ s <> res /\ s <> st /\ res <> st.
Proof.
  intros (_ & _ & _ & _ & _ & _ & Hnd & _).
  apply NoDup_cons in Hnd as [Hs Hnd]. apply NoDup_cons in Hnd as [Hres Hnd].
  apply NoDup_cons in Hnd as [Hst Hnd]. apply NoDup_app in Hnd as (Hls & Hdis & Hcs).
  split; [done|]. split; [done|]. set_solver.
Qed.

Lemma owned_assign_root (h : store) (v v' : GameState) :
  owned h v ->
  resources v' = resources v -> stats v' = stats v ->
  lanes v' = lanes v -> contracts v' = contracts v ->
  owned (<[s := ORoot (rootFor v' res st ls cs)]> h) v'.
Proof.
  intros Ho Er Es El Ec. pose proof (owned_apart h v Ho) as (_ & _ & Hl & Hc & ? & ? & ?).
  destruct Ho as ([ext ->] & Hs & Hres & Hst & Hls & Hcs & Hnd & Hfresh).
  split. { apply insert_keeps_prefix. by apply Forall_cons in Hfresh as [? _]. }
  split. { apply list_lookup_insert_eq. by eapply lookup_lt_Some. }
  rewrite Er, Es, El, Ec.
  split. { by rewrite list_lookup_insert_ne. }
  split. { by rewrite list_lookup_insert_ne. }
  split. { eapply Forall2_retarget; [exact Hls|]. intros l x Hin Hx. cbv beta.
           rewrite list_lookup_insert_ne; [done|]. by destruct (Hl l Hin) as (? & _). }
  split; [|done].
  eapply Forall2_retarget; [exact Hcs|]. intros l x Hin Hx. cbv beta.
  rewrite list_lookup_insert_ne; [done|]. by destruct (Hc l Hin) as (? & _).
Qed.

Lemma owned_assign_resources (h : store) (v : GameState) (p : ResourcePool) :
  owned h v -> owned (<[res := OResources p]> h) (with_resources p v).
Proof.
  intros Ho. pose proof (owned_apart h v Ho) as (_ & _ & Hl & Hc & ? & ? & ?).
  destruct Ho as ([ext ->] & Hs & Hres & Hst & Hls & Hcs & Hnd & Hfresh).
  split. { apply insert_keeps_prefix.
           apply Forall_cons in Hfresh as [_ Hfresh]. by apply Forall_cons in Hfresh as [? _]. }
  split. { by rewrite list_lookup_insert_ne. }
  split. { apply list_lookup_insert_eq. by eapply lookup_lt_Some. }
  split. { by rewrite list_lookup_insert_ne. }
  split. { eapply Forall2_retarget; [exact Hls|]. intros l x Hin Hx. cbv beta.
           rewrite list_lookup_insert_ne; [done|]. by destruct (Hl l Hin) as (? & ? & _). }
  split; [|done].
  eapply Forall2_retarget; [exact Hcs|]. intros l x Hin Hx. cbv beta.
  rewrite list_lookup_insert_ne; [done|]. by destruct (Hc l Hin) as (? & ? & _).
Qed.

Lemma owned_assign_stats (h : store) (v : GameState) (x : Stats) :
  owned h v -> owned (<[st := OStats x]> h) (with_stats x v).
Proof.
  intros Ho. pose proof (owned_apart h v Ho) as (_ & _ & Hl & Hc & ? & ? & ?).
  destruct Ho as ([ext ->] & Hs & Hres & Hst & Hls & Hcs & Hnd & Hfresh).
  split. { apply insert_keeps_prefix.
           apply Forall_cons in Hfresh as [_ Hfresh].
           apply Forall_cons in Hfresh as [_ Hfresh]. by apply Forall_cons in Hfresh as [? _]. }
  split. { by rewrite list_lookup_insert_ne. }
  split. { by rewrite list_lookup_insert_ne. }
  split. { apply list_lookup_insert_eq. by eapply lookup_lt_Some. }
  split. { eapply Forall2_retarget; [exact Hls|]. intros l y Hin Hy. cbv beta.
           rewrite list_lookup_insert_ne; [done|]. by destruct (Hl l Hin) as (? & ? & ?). }
  split; [|done].
  eapply Forall2_retarget; [exact Hcs|]. intros l y Hin Hy. cbv beta.
  rewrite list_lookup_insert_ne; [done|]. by destruct (Hc l Hin) as (? & ? & ? & _).
Qed.

Lemma owned_assign_lane (h : store) (v : GameState) (i : nat) (l : loc) (x : LaneState) :
  ls !! i = Some l ->
  owned h v -> owned (<[l := OLane x]> h) (with_lanes (<[i := x]> (lanes v)) v).
Proof.
  intros Hi Ho. pose proof (owned_apart h v Ho) as (Hndl & _ & Hl & Hc & ? & ? & ?).
  pose proof (list_elem_of_lookup_2 _ _ _ Hi) as Hin.
  destruct (Hl l Hin) as (? & ? & ?).
  destruct Ho as ([ext ->] & Hs & Hres & Hst & Hls & Hcs & Hnd & Hfresh).
  split. { apply insert_keeps_prefix. rewrite Forall_forall in Hfresh.
           apply Hfresh. do 3 right. apply elem_of_app. by left. }
  split. { by rewrite list_lookup_insert_ne. }
  split. { by rewrite list_lookup_insert_ne. }
  split. { by rewrite list_lookup_insert_ne. }
  split. { by apply (Forall2_assign OLane). }
  split; [|done].
  eapply Forall2_retarget; [exact Hcs|]. intros l' y Hin' Hy. cbv beta.
  rewrite list_lookup_insert_ne; [done|]. intros ->.
  by destruct (Hc l' Hin') as (_ & _ & _ & ?).
Qed.

Lemma owned_assign_contract (h : store) (v : GameState) (i : nat) (l : loc)
    (c : ContractState) :
  cs !! i = Some l ->
  owned h v -> owned (<[l := OContract c]> h) (with_contracts (<[i := c]> (contracts v)) v).
Proof.
  intros Hi Ho. pose proof (owned_apart h v Ho) as (_ & Hndc & Hl & Hc & ? & ? & ?).
  pose proof (list_elem_of_lookup_2 _ _ _ Hi) as Hin.
  destruct (Hc l Hin) as (? & ? & ? & ?).
  destruct Ho as ([ext ->] & Hs & Hres & Hst & Hls & Hcs & Hnd & Hfresh).
  split. { apply insert_keeps_prefix. rewrite Forall_forall in Hfresh.
           apply Hfresh. do 3 right. apply elem_of_app. by right. }
  split. { by rewrite list_lookup_insert_ne. }
  split. { by rewrite list_lookup_insert_ne. }
  split. { by rewrite list_lookup_insert_ne. }
  split. { eapply Forall2_retarget; [exact Hls|]. intros l' y Hin' Hy. cbv beta.
           rewrite list_lookup_insert_ne; [done|]. by intros ->. }
  split; [|done].
  by apply (Forall2_assign OContract).
Qed.

(** The statements of the engine on the copy. *)

Lemma step_updRoot (v : GameState) (f : RootObj -> RootObj) (v' : GameState) :
  f (rootFor v res st ls cs) = rootFor v' res st ls cs ->
  resources v' = resources v -> stats v' = stats v ->
  lanes v' = lanes v -> contracts v' = contracts v ->
  step v (updRoot s f) tt v'.
Proof.
  intros Hf Er Es El Ec h Ho. exists (<[s := ORoot (rootFor v' res st ls cs)]> h).
  split; [|by eapply owned_assign_root].
  destruct Ho as (_ & Hs & _).
  unfold updRoot, bind, loadRoot, lift, getRoot. rewrite Hs, Hf.
  by eapply assign_runs.
Qed.

Lemma step_updResources (v : GameState) (f : ResourcePool -> ResourcePool) :
  step v (updResources s f) tt (with_resources (f (resources v)) v).
Proof.
  intros h Ho. exists (<[res := OResources (f (resources v))]> h).
  split; [|by apply owned_assign_resources].
  destruct Ho as (_ & Hs & Hres & _).
  unfold updResources, bind, loadRoot, loadResources, lift, getRoot, getResources.
  rewrite Hs. cbn [r_resources rootFor]. rewrite Hres. by eapply assign_runs.
Qed.

Lemma step_updStats (v : GameState) (f : Stats -> Stats) :
  step v (updStats s f) tt (with_stats (f (stats v)) v).
Proof.
  intros h Ho. exists (<[st := OStats (f (stats v))]> h).
  split; [|by apply owned_assign_stats].
  destruct Ho as (_ & Hs & _ & Hst & _).
  unfold updStats, bind, loadRoot, loadStats, lift, getRoot, getStats.
  rewrite Hs. cbn [r_stats rootFor]. rewrite Hst. by eapply assign_runs.
Qed.

Lemma step_updContract (v : GameState) (i : nat) (l : loc) (c : ContractState)
    (f : ContractState -> ContractState) :
  cs !! i = Some l -> contracts v !! i = Some c ->
  step v (updContract l f) tt (with_contracts (<[i := f c]> (contracts v)) v).
Proof.
  intros Hl Hc h Ho. exists (<[l := OContract (f c)]> h).
  split; [|by apply owned_assign_contract].
  destruct Ho as (_ & _ & _ & _ & _ & Hcs & _).
  pose proof (Forall2_lookup_lr _ _ _ _ _ _ Hcs Hl Hc) as Hh.
  cbv beta in Hh.
  unfold updContract, bind, loadContract, lift, getContract. rewrite Hh.
  exact (assign_runs _ _ _ _ Hh).
Qed.

Lemma step_assign_lane (v : GameState) (i : nat) (l : loc) (x x' : LaneState) :
  ls !! i = Some l -> lanes v !! i = Some x ->
  step v (assign l (OLane x')) tt (with_lanes (<[i := x']> (lanes v)) v).
Proof.
  intros Hl Hx h Ho. exists (<[l := OLane x']> h).
  split; [|by apply owned_assign_lane].
  destruct Ho as (_ & _ & _ & _ & Hls & _).
  pose proof (Forall2_lookup_lr _ _ _ _ _ _ Hls Hl Hx) as Hh.
  exact (assign_runs _ _ _ _ Hh).
Qed.

Lemma with_lanes_same (v : GameState) : with_lanes (lanes v) v = v.
Proof. by destruct v. Qed.

Lemma with_lanes_twice (a b : list LaneState) (v : GameState) :
  with_lanes a (with_lanes b v) = with_lanes a v.
Proof. reflexivity. Qed.

(** The lane loop on the copy, from lane [i] on, against the lane loop of
    the embedding on the lanes that are left. *)
Lemma step_laneLoopH (d spl tol red : Q) (n : nat) :
  forall (i : nat) (v : GameState) (total : Q),
    length ls = length (lanes v) ->
    length (lanes input) = length (lanes v) ->
    (i + n = length (lanes v))%nat ->
    let r := laneLoop input d spl tol red
               (zip (drop i (lanes v)) (drop i (lanes input))) total in
    step v (laneLoopH state s d spl tol red i n total) r.2
         (with_lanes (take i (lanes v) ++ r.1) v).
Proof.
  induction n as [|n IH]; intros i v total Hls Hin Hlen r; subst r.
  - rewrite !drop_ge by lia. cbn [zip zip_with laneLoop fst snd laneLoopH].
    rewrite take_ge by lia. rewrite app_nil_r, with_lanes_same. apply step_ret.
  - destruct (lookup_lt_is_Some_2 ls i) as [ll Hll]; [lia|].
    destruct (lookup_lt_is_Some_2 (lanes v) i) as [lane Hlane]; [lia|].
    destruct (lookup_lt_is_Some_2 (lanes input) i) as [snap Hsnap]; [lia|].
    rewrite (drop_S _ _ _ Hlane), (drop_S _ _ _ Hsnap).
    cbn [zip zip_with laneLoop laneLoopH].
    eapply step_bind; [apply step_loadRoot|]. cbn [r_lanes rootFor]. rewrite Hll.
    eapply step_bind; [by eapply step_loadLane|].
    eapply step_bind; [apply step_readState|]. rewrite Hsnap.
    destruct (laneBody input d spl tol red lane snap) as [lane' p].
    eapply step_bind; [by eapply step_assign_lane|].
    set (v1 := with_lanes (<[i := lane']> (lanes v)) v).
    assert (Hl1 : lanes v1 = <[i := lane']> (lanes v)) by reflexivity.
    specialize (IH (S i) v1 (total + p)).
    rewrite Hl1, length_insert in IH. specialize (IH Hls Hin ltac:(lia)).
    cbv zeta in IH.
    rewrite drop_insert_lt in IH by lia.
    rewrite (take_S_r _ _ lane') in IH
      by (apply list_lookup_insert_eq; by eapply lookup_lt_Some).
    rewrite take_insert_ge in IH by lia.
    destruct (laneLoop input d spl tol red _ (total + p)) as [rest' total'].
    cbn [fst snd] in *. subst v1. rewrite with_lanes_twice in IH.
    by rewrite <- app_assoc in IH.
Qed.

(** [find] over the contract cells returns the cell at the index that
    [list_find] returns over the contract values. *)
Lemma findContractH_run (h : store) (ptr : option string)
    (locs : list loc) (xs : list ContractState) :
  Forall2 (fun l c => h !! l = Some (OContract c)) locs xs ->
  findContractH ptr locs h
  = Some (match list_find (fun c => Some (contract_id c) = ptr) xs with
          | Some (i, _) => locs !! i
          | None => None
          end, h).
Proof.
  induction 1 as [|l c locs xs Hl _ IH]; [done|].
  cbn [findContractH list_find]. unfold bind, loadContract, lift, getContract.
  rewrite Hl. destruct (decide (Some (contract_id c) = ptr)) as [Hp|Hp]; [done|].
  rewrite IH. by destruct (list_find _ xs) as [[i c']|].
Qed.

Lemma step_findContractH (v : GameState) (ptr : option string) :
  step v (findContractH ptr cs)
       (match list_find (fun c => Some (contract_id c) = ptr) (contracts v) with
        | Some (i, _) => cs !! i
        | None => None
        end) v.
Proof.
  intros h Ho. exists h. split; [|done].
  destruct Ho as (_ & _ & _ & _ & _ & Hcs & _). by apply findContractH_run.
Qed.

Lemma with_contracts_twice (a b : list ContractState) (v : GameState) :
  with_contracts a (with_contracts b v) = with_contracts a v.
Proof. reflexivity. Qed.

(** A run of contract assignments at one index is one assignment. *)
Lemma step_updContract_again (v : GameState) (i : nat) (l : loc) (c : ContractState)
    (f : ContractState -> ContractState) :
  cs !! i = Some l -> (i < length (contracts v))%nat ->
  step (with_contracts (<[i := c]> (contracts v)) v) (updContract l f) tt
       (with_contracts (<[i := f c]> (contracts v)) v).
Proof.
  intros Hl Hi. eapply step_eq.
  - eapply (step_updContract _ i l c f); [done|].
    cbn [contracts with_contracts]. by apply list_lookup_insert_eq.
  - cbn [contracts with_contracts]. by rewrite with_contracts_twice, list_insert_insert_eq.
Qed.

Lemma step_loadContract_again (v : GameState) (i : nat) (l : loc) (c : ContractState) :
  cs !! i = Some l -> (i < length (contracts v))%nat ->
  step (with_contracts (<[i := c]> (contracts v)) v) (loadContract l) c
       (with_contracts (<[i := c]> (contracts v)) v).
Proof.
  intros Hl Hi. eapply step_loadContract; [done|].
  cbn [contracts with_contracts]. by apply list_lookup_insert_eq.
Qed.

Lemma step_set_activeContractId (v : GameState) (a : option string) :
  step v (updRoot s (set_r_activeContractId a)) tt (with_activeContractId a v).
Proof. by apply step_updRoot. Qed.

Lemma step_inc_completedContractCount (v : GameState) :
  step v (updRoot s (fun r => set_r_completedContractCount
                                (r_completedContractCount r + 1)%Z r)) tt
       (with_completedContractCount (completedContractCount v + 1)%Z v).
Proof. by apply step_updRoot. Qed.

Lemma step_inc_highTierContractsCompleted (v : GameState) :
  step v (updRoot s (fun r => set_r_highTierContractsCompleted
                                (r_highTierContractsCompleted r + 1)%Z r)) tt
       (with_highTierContractsCompleted (highTierContractsCompleted v + 1)%Z v).
Proof. by apply step_updRoot. Qed.

Lemma step_inc_tickCount (v : GameState) :
  step v (updRoot s (fun r => set_r_tickCount (r_tickCount r + 1)%Z r)) tt
       (with_tickCount (tickCount v + 1)%Z v).
Proof. by apply step_updRoot. Qed.

Lemma step_set_protocolsUsed (v : GameState) (p : list ProtocolFamily) :
  step v (updRoot s (set_r_protocolsUsed p)) tt (with_protocolsUsed p v).
Proof. by apply step_updRoot. Qed.

Opaque updRoot updResources updStats updContract.

(** One statement, then the rest. *)
Ltac tidy := fields; rewrite ?with_contracts_twice, ?list_insert_insert_eq.
Ltac next_step tac := eapply step_bind; [tac|]; tidy.
Ltac held_at := tidy;
                first [ eassumption
                      | apply list_lookup_insert_eq; rewrite ?length_insert; assumption ].
Ltac one_step Hl :=
  first
    [ eapply step_updContract; [exact Hl | held_at]
    | eapply step_loadContract; [exact Hl | held_at]
    | apply step_set_activeContractId
    | apply step_inc_completedContractCount
    | apply step_inc_highTierContractsCompleted
    | apply step_inc_tickCount
    | apply step_set_protocolsUsed
    | apply step_updResources
    | apply step_updStats
    | apply step_loadRoot
    | apply step_loadStats
    | apply step_ret ].
Ltac run_with Hl :=
  tidy; repeat first [ next_step ltac:(one_step Hl) | apply step_assoc ].
Ltac same_state := tidy; reflexivity.
Ltac last_step Hl := eapply step_eq; [one_step Hl | same_state].

Lemma step_contractSectionH (total d : Q) (v : GameState) :
  length cs = length (contracts v) ->
  step v (contractSectionH s total d) tt (contractStep total d v).
Proof.
  intros Hlen. unfold contractSectionH, contractStep.
  next_step ltac:(apply step_loadRoot).
  destruct (truthy (activeContractId v)); [|apply step_ret].
  next_step ltac:(apply step_findContractH).
  destruct (list_find _ (contracts v)) as [[i c]|] eqn:Hfind; [|apply step_ret].
  apply list_find_Some in Hfind as (Hc & _ & _).
  assert (Hi : (i < length (contracts v))%nat) by (by eapply lookup_lt_Some).
  destruct (lookup_lt_is_Some_2 cs i) as [l Hl]; [lia|]. rewrite Hl.
  run_with Hl.
  destruct (active c) eqn:Hact; [|apply step_ret].
  run_with Hl.
  destruct (timeRemainingS c) as [t|]; run_with Hl.
  - destruct (Qleb (t - d) 0); run_with Hl;
      (destruct (Qleb (targetPayload c) (progressPayload c + total)); run_with Hl;
       [destruct (bool_decide (tier c = high)); run_with Hl|]);
      last_step Hl.
  - destruct (Qleb (targetPayload c) (progressPayload c + total)); run_with Hl;
      [destruct (bool_decide (tier c = high)); run_with Hl|];
      last_step Hl.
Qed.

Lemma step_prestigeReadyH (v : GameState) :
  step v (prestigeReadyH s) tt (prestigeReadyStep v).
Proof.
  unfold prestigeReadyH, prestigeReadyStep.
  next_step ltac:(apply step_loadRoot). next_step ltac:(apply step_loadStats).
  destruct (prestigeReadyAt (stats v)); [apply step_ret|].
  destruct (Qleb 3000 (totalPayloadProduced (stats v))); [|apply step_ret].
  apply step_updStats.
Qed.

(** The body of [processTick] on a copy that holds the input. *)
Lemma step_tickBodyH (d : Q) :
  length ls = length (lanes input) ->
  length cs = length (contracts input) ->
  step input (tickBodyH state s d) s (processTick input d).
Proof.
  intros Hls Hcs. rewrite processTick_stages. unfold tickBodyH.
  next_step ltac:(apply step_readState).
  next_step ltac:(apply step_set_protocolsUsed).
  next_step ltac:(apply step_updStats).
  next_step ltac:(apply step_inc_tickCount).
  next_step ltac:(apply step_readState).
  next_step ltac:(apply step_loadRoot).
  next_step ltac:(apply step_readState).
  eapply step_bind.
  { eapply (step_laneLoopH d _ _ _ (length ls) 0); fields; lia. }
  fields. rewrite !drop_0, take_0, app_nil_l, Hls.
  fold (tickLaneResult input d).
  destruct (tickLaneResult input d) as [lanes' total] eqn:Hres.
  assert (Htotal : tickPayload input d = total) by (unfold tickPayload; by rewrite Hres).
  assert (Hlen' : length cs = length (contracts input)) by done.
  fields.
  next_step ltac:(apply step_updResources).
  next_step ltac:(apply step_updStats).
  next_step ltac:(apply step_readState).
  next_step ltac:(apply step_updResources).
  next_step ltac:(apply step_updStats).
  next_step ltac:(apply step_readState).
  next_step ltac:(apply step_loadRoot).
  assert (Hbefore : forall w : GameState,
            w = beforeContracts input d ->
            step w (contractSectionH s total d;; prestigeReadyH s;; ret s) s
                 (prestigeReadyStep (contractStep (tickPayload input d) d
                                       (beforeContracts input d)))).
  { intros w ->. rewrite Htotal.
    next_step ltac:(apply step_contractSectionH; exact Hcs).
    next_step ltac:(apply step_prestigeReadyH). apply step_ret. }
  destruct (Z.rem (tickCount input + 1) (calculateFragmentInterval input) =? 0)%Z eqn:Hdrop.
  - next_step ltac:(apply step_updResources). apply Hbefore.
    unfold beforeContracts. rewrite Hdrop, Htotal, Hres. reflexivity.
  - next_step ltac:(apply step_ret). apply Hbefore.
    unfold beforeContracts. rewrite Hdrop, Htotal, Hres. reflexivity.
Qed.

End Owned.

Transparent updRoot updResources updStats updContract.

(** *** The copy that [JSON.parse(JSON.stringify(state))] makes *)

Section Clone.

Lemma cloneLanes_run (locs : list loc) (xs : list LaneState) :
  forall h : store,
    Forall2 (fun l x => getLane h l = Some x) locs xs ->
    cloneLanes locs h = Some (seq (length h) (length xs), h ++ (OLane <$> xs)).
Proof.
  revert xs. induction locs as [|l locs IH]; intros xs h Hall.
  - apply Forall2_nil_inv_l in Hall as ->. cbn. by rewrite app_nil_r.
  - apply Forall2_cons_inv_l in Hall as (x & xs' & Hx & Hall & ->).
    cbn [cloneLanes]. unfold bind, loadLane, lift, alloc. rewrite Hx.
    rewrite (IH xs' (h ++ [OLane x])).
    + unfold ret. rewrite length_app, Nat.add_1_r. cbn [length seq fmap list_fmap].
      by rewrite <- app_assoc.
    + eapply Forall2_impl; [exact Hall|]. intros ???. by apply getLane_app.
Qed.

Lemma cloneContracts_run (locs : list loc) (xs : list ContractState) :
  forall h : store,
    Forall2 (fun l x => getContract h l = Some x) locs xs ->
    cloneContracts locs h = Some (seq (length h) (length xs), h ++ (OContract <$> xs)).
Proof.
  revert xs. induction locs as [|l locs IH]; intros xs h Hall.
  - apply Forall2_nil_inv_l in Hall as ->. cbn. by rewrite app_nil_r.
  - apply Forall2_cons_inv_l in Hall as (x & xs' & Hx & Hall & ->).
    cbn [cloneContracts]. unfold bind, loadContract, lift, alloc. rewrite Hx.
    rewrite (IH xs' (h ++ [OContract x])).
    + unfold ret. rewrite length_app, Nat.add_1_r. cbn [length seq fmap list_fmap].
      by rewrite <- app_assoc.
    + eapply Forall2_impl; [exact Hall|]. intros ???. by apply getContract_app.
Qed.

Lemma deepCloneH_run (h0 : store) (state : loc) (input : GameState) :
  snapshot h0 state = Some input ->
  deepCloneH state h0
  = Some (copyRoot (length h0) (length (lanes input)) (length (contracts input)),
          h0 ++ copyObjects input (length h0)).
Proof.
  intros (res0 & st0 & ls0 & cs0 & Hr & Hp & Hl & Hc & Hs)%snapshot_Some.
  apply mapM_Some in Hl. apply mapM_Some in Hc.
  unfold deepCloneH, bind, loadRoot, loadResources, loadStats, lift. rewrite Hr.
  cbn [r_resources r_lanes r_contracts r_stats rootFor]. rewrite Hp.
  unfold alloc at 1.
  rewrite (cloneLanes_run ls0 (lanes input))
    by (eapply Forall2_impl; [exact Hl|]; intros ???; by apply getLane_app).
  rewrite (cloneContracts_run cs0 (contracts input))
    by (eapply Forall2_impl; [exact Hc|]; intros ???; by do 2 apply getContract_app).
  rewrite (getStats_app _ _ _ _ (getStats_app _ _ _ _ (getStats_app _ _ _ _ Hs))).
  unfold alloc. rewrite !length_app, !length_fmap. cbn [length].
  unfold copyRoot, copyObjects, copyRes, copyStats, copyLanes, copyContracts.
  cbn [r_version r_lastTickTime r_modules r_activeProtocol r_upgradesPurchased
       r_activeContractId r_completedContractCount r_highTierContractsCompleted
       r_protocolsUsed r_meta r_tickCount rootFor].
  rewrite <- !app_assoc. reflexivity.
Qed.

Lemma copyObjects_lookup (v : GameState) (n : nat) :
  let L := length (lanes v) in
  let C := length (contracts v) in
  copyObjects v n !! 0%nat = Some (OResources (resources v))
  /\ (forall j x, lanes v !! j = Some x -> copyObjects v n !! (1 + j)%nat = Some (OLane x))
  /\ (forall j c, contracts v !! j = Some c ->
        copyObjects v n !! (1 + L + j)%nat = Some (OContract c))
  /\ copyObjects v n !! (1 + L + C)%nat = Some (OStats (stats v))
  /\ copyObjects v n !! (1 + L + C + 1)%nat
     = Some (ORoot (rootFor v (copyRes n) (copyStats n L C) (copyLanes n L)
                      (copyContracts n L C))).
Proof.
  intros L C. unfold copyObjects. split; [done|].
  assert (HL : length (OLane <$> lanes v) = L) by apply length_fmap.
  assert (HC : length (OContract <$> contracts v) = C) by apply length_fmap.
  assert (H1 : length [OResources (resources v)] = 1%nat) by done.
  split; [|split; [|split]].
  - intros j x Hj.
    rewrite lookup_app_r by (rewrite H1; lia). rewrite H1.
    replace (1 + j - 1)%nat with j by lia.
    rewrite lookup_app_l by (rewrite HL; by eapply lookup_lt_Some).
    by rewrite list_lookup_fmap, Hj.
  - intros j c Hj.
    rewrite lookup_app_r by (rewrite H1; lia). rewrite H1.
    rewrite lookup_app_r by (rewrite HL; lia). rewrite HL.
    replace (1 + L + j - 1 - L)%nat with j by lia.
    rewrite lookup_app_l by (rewrite HC; by eapply lookup_lt_Some).
    by rewrite list_lookup_fmap, Hj.
  - rewrite lookup_app_r by (rewrite H1; lia). rewrite H1.
    rewrite lookup_app_r by (rewrite HL; lia). rewrite HL.
    rewrite lookup_app_r by (rewrite HC; lia). rewrite HC.
    by replace (1 + L + C - 1 - L - C)%nat with 0%nat by lia.
  - rewrite lookup_app_r by (rewrite H1; lia). rewrite H1.
    rewrite lookup_app_r by (rewrite HL; lia). rewrite HL.
    rewrite lookup_app_r by (rewrite HC; lia). rewrite HC.
    by replace (1 + L + C + 1 - 1 - L - C)%nat with 1%nat by lia.
Qed.

(** The copy is private to the call and holds the input. *)
Lemma deepCloneH_owned (h0 : store) (input : GameState) :
  let n := length h0 in
  let L := length (lanes input) in
  let C := length (contracts input) in
  owned h0 (copyRoot n L C) (copyRes n) (copyStats n L C) (copyLanes n L)
        (copyContracts n L C) (h0 ++ copyObjects input n) input.
Proof.
  intros n L C.
  pose proof (copyObjects_lookup input n) as (Hres & Hlanes & Hcontracts & Hstats & Hroot).
  cbv zeta in *. fold L C in Hlanes, Hcontracts, Hstats, Hroot.
  assert (Hat : forall k, (h0 ++ copyObjects input n) !! (n + k)%nat
                          = copyObjects input n !! k).
  { intros k. rewrite lookup_app_r by (unfold n; lia). f_equal. unfold n. lia. }
  split; [by eexists|].
  split. { unfold copyRoot. replace (n + 1 + L + C + 1)%nat with (n + (1 + L + C + 1))%nat by lia.
           by rewrite Hat. }
  split. { unfold copyRes. replace n with (n + 0)%nat at 1 by lia. by rewrite Hat. }
  split. { unfold copyStats. replace (n + 1 + L + C)%nat with (n + (1 + L + C))%nat by lia.
           by rewrite Hat. }
  split.
  { apply Forall2_same_length_lookup_2; [unfold copyLanes; by rewrite length_seq|].
    intros j a x Ha Hx. unfold copyLanes in Ha.
    apply lookup_seq in Ha as [-> _].
    replace (n + 1 + j)%nat with (n + (1 + j))%nat by lia. rewrite Hat. by apply Hlanes. }
  split.
  { apply Forall2_same_length_lookup_2; [unfold copyContracts; by rewrite length_seq|].
    intros j a x Ha Hx. unfold copyContracts in Ha.
    apply lookup_seq in Ha as [-> _].
    replace (n + 1 + L + j)%nat with (n + (1 + L + j))%nat by lia. rewrite Hat.
    by apply Hcontracts. }
  unfold copyRoot, copyRes, copyStats, copyLanes, copyContracts. split.
  - repeat (apply NoDup_cons; split).
    + rewrite !not_elem_of_cons, not_elem_of_app, !elem_of_seq. lia.
    + rewrite !not_elem_of_cons, not_elem_of_app, !elem_of_seq. lia.
    + rewrite not_elem_of_app, !elem_of_seq. lia.
    + apply NoDup_app. split; [apply NoDup_seq|]. split; [|apply NoDup_seq].
      intros x. rewrite !elem_of_seq. lia.
  - repeat (apply Forall_cons; split); try (fold n; lia).
    apply Forall_app. split; apply Forall_forall; intros x; rewrite elem_of_seq; fold n; lia.
Qed.

End Clone.

(** C9, amended. [processTick] returns an independent copy: run on a store of
    objects that holds the input state, it allocates every object of its
    result after the objects that existed on entry, assigns into none of
    those, hence leaves the input state as it was, and the state that its
    result holds is [processTick] of the embedding; the step counter of that
    state is the input's plus 1, whatever [deltaSeconds] is, and its
    elapsed-time statistic is the input's plus [deltaSeconds]. *)
Theorem processTick_independent_copy
    (h0 : store) (state : loc) (input : GameState) (d : Q) :
  snapshot h0 state = Some input ->
  exists (s : loc) (h : store) (r : RootObj),
    processTickH state d h0 = Some (s, h)
    /\ snapshot h s = Some (processTick input d)
    /\ (exists ext, h = h0 ++ ext)
    /\ snapshot h state = Some input
    /\ getRoot h s = Some r
    /\ Forall (fun l => (length h0 <= l)%nat)
              (s :: r_resources r :: r_stats r :: r_lanes r ++ r_contracts r)
    /\ tickCount (processTick input d) = (tickCount input + 1)%Z
    /\ playtimeSec (stats (processTick input d)) = playtimeSec (stats input) + d.
Proof.
  intros Hinput.
  set (n := length h0). set (L := length (lanes input)). set (C := length (contracts input)).
  pose proof (deepCloneH_owned h0 input) as Hown. cbv zeta in Hown. fold n L C in Hown.
  pose proof (step_tickBodyH h0 state input (copyRoot n L C) (copyRes n) (copyStats n L C)
                (copyLanes n L) (copyContracts n L C) Hinput d) as Hbody.
  destruct (Hbody ltac:(unfold copyLanes; by rewrite length_seq)
                  ltac:(unfold copyContracts; by rewrite length_seq)
                  _ Hown) as (h & Hrun & Hfinal).
  exists (copyRoot n L C), h,
    (rootFor (processTick input d) (copyRes n) (copyStats n L C) (copyLanes n L)
             (copyContracts n L C)).
  split. { unfold processTickH, bind. rewrite (deepCloneH_run h0 state input Hinput).
           exact Hrun. }
  split; [by eapply owned_snapshot|].
  split; [apply Hfinal|].
  split; [by eapply owned_input|].
  destruct Hfinal as (_ & Hroot & _ & _ & _ & _ & _ & Hfresh).
  split. { unfold getRoot. by rewrite Hroot. }
  split; [exact Hfresh|].
  split; [apply processTick_tickCount | apply processTick_playtimeSec].
Qed.

Lemma processTick_independent_copy_witness :
  exists (s : loc) (h : store) (r : RootObj),
    processTickH (rootOf lastSecondState) 1 (storeOf lastSecondState) = Some (s, h)
    /\ snapshot h s = Some (processTick lastSecondState 1)
    /\ (exists ext, h = storeOf lastSecondState ++ ext)
    /\ snapshot h (rootOf lastSecondState) = Some lastSecondState
    /\ getRoot h s = Some r
    /\ Forall (fun l => (length (storeOf lastSecondState) <= l)%nat)
              (s :: r_resources r :: r_stats r :: r_lanes r ++ r_contracts r)
    /\ tickCount (processTick lastSecondState 1) = (tickCount lastSecondState + 1)%Z
    /\ playtimeSec (stats (processTick lastSecondState 1))
       = playtimeSec (stats lastSecondState) + 1.
Proof.
  apply (processTick_independent_copy (storeOf lastSecondState) (rootOf lastSecondState)
           lastSecondState 1).
  reflexivity.
Defined.

(** The same run, computed: the input occupies the first five cells, the
    result the five cells after them, and the first five cells are as they
    were. *)
Example processTickH_computed :
  match processTickH (rootOf lastSecondState) 1 (storeOf lastSecondState) with
  | Some (s, h) =>
      s = 9%nat /\ length h = 10%nat
      /\ take 5 h = storeOf lastSecondState
      /\ snapshot h s = Some (processTick lastSecondState 1)
  | None => False
  end.
Proof. vm_compute. repeat split; reflexivity. Qed.

(** ** Determinism *)

Section TwoRuns.

(** What a call returns and where it puts it. *)
Lemma processTickH_result (h0 : store) (state : loc) (input : GameState) (d : Q) :
  snapshot h0 state = Some input ->
  exists (s : loc) (ext : store),
    processTickH state d h0 = Some (s, h0 ++ ext)
    /\ snapshot (h0 ++ ext) s = Some (processTick input d)
    /\ (length h0 <= s)%nat.
Proof.
  intros Hinput.
  set (n := length h0). set (L := length (lanes input)). set (C := length (contracts input)).
  pose proof (deepCloneH_owned h0 input) as Hown. cbv zeta in Hown. fold n L C in Hown.
  pose proof (step_tickBodyH h0 state input (copyRoot n L C) (copyRes n) (copyStats n L C)
                (copyLanes n L) (copyContracts n L C) Hinput d) as Hbody.
  destruct (Hbody ltac:(unfold copyLanes; by rewrite length_seq)
                  ltac:(unfold copyContracts; by rewrite length_seq)
                  _ Hown) as (h & Hrun & Hfinal).
  pose proof (owned_snapshot _ _ _ _ _ _ _ _ Hfinal) as Hsnap.
  destruct Hfinal as ([ext ->] & _ & _ & _ & _ & _ & _ & Hfresh).
  exists (copyRoot n L C), ext.
  split. { unfold processTickH, bind. rewrite (deepCloneH_run h0 state input Hinput).
           exact Hrun. }
  split; [exact Hsnap|]. by apply Forall_cons in Hfresh as [? _].
Qed.

Lemma snapshot_lt (h : store) (l : loc) (v : GameState) :
  snapshot h l = Some v -> (l < length h)%nat.
Proof.
  intros (res & st & ls & cs & Hr & _)%snapshot_Some.
  unfold getRoot in Hr. destruct (h !! l) eqn:E; [|done].
  by eapply lookup_lt_Some.
Qed.

Lemma with_lastTickTime_same (s : GameState) : with_lastTickTime (lastTickTime s) s = s.
Proof. by destruct s. Qed.

(** The stamp of the result is the stamp of the input. *)
Lemma processTick_lastTickTime (s : GameState) (d : Q) :
  lastTickTime (processTick s d) = lastTickTime s.
Proof.
  rewrite <- (with_lastTickTime_same s) at 1.
  by rewrite processTick_clock, lastTickTime_with.
Qed.

(** Inputs that differ in the stamp only give results that differ in the
    stamp only. *)
Lemma processTick_but_stamp (s1 s2 : GameState) (d : Q) :
  with_lastTickTime 0 s1 = with_lastTickTime 0 s2 ->
  with_lastTickTime 0 (processTick s1 d) = with_lastTickTime 0 (processTick s2 d).
Proof.
  intros Heq. by rewrite <- !processTick_clock, Heq.
Qed.

End TwoRuns.

(** C1. [processTick], run on a store of objects, gives the same serialized
    output whenever it is given the same serialized input and the same
    [deltaSeconds].  The two invocations may run on the same state object,
    the second in the store that the first has left: the first has changed
    nothing that the second reads, the second changes nothing of the first
    result, and in the end the input serializes as it did and the two
    results are objects apart from it and from each other that serialize
    alike.
    They may also run in two stores that have nothing else in common: what
    else a store holds and where the objects sit has no influence.  The one
    clock reading that the input holds, [lastTickTime], is handed on and
    has no influence on the rest: inputs that differ in it only give
    results that differ in it only. *)
Theorem processTick_deterministic
    (h1 h2 : store) (state1 state2 : loc) (input1 input2 : GameState) (d : Q) :
  snapshot h1 state1 = Some input1 ->
  snapshot h2 state2 = Some input2 ->
  with_lastTickTime 0 input1 = with_lastTickTime 0 input2 ->
  exists (s1 : loc) (h1' : store) (out1 : GameState)
         (s2 : loc) (h2' : store) (out2 : GameState),
    (processTickH state1 d h1 = Some (s1, h1') /\ snapshot h1' s1 = Some out1)
    /\ (processTickH state2 d h2 = Some (s2, h2') /\ snapshot h2' s2 = Some out2)
    /\ (with_lastTickTime 0 out1 = with_lastTickTime 0 out2
        /\ lastTickTime out1 = lastTickTime input1
        /\ lastTickTime out2 = lastTickTime input2
        /\ (lastTickTime input1 = lastTickTime input2 ->
            serializeState out1 = serializeState out2))
    /\ exists (s3 : loc) (h3 : store),
         processTickH state1 d h1' = Some (s3, h3)
         /\ (s1 <> state1 /\ s3 <> state1 /\ s3 <> s1)
         /\ serializeState <$> snapshot h3 state1 = Some (serializeState input1)
         /\ serializeState <$> snapshot h3 s3 = Some (serializeState out1)
         /\ serializeState <$> snapshot h3 s1 = Some (serializeState out1).
Proof.
  intros Hin1 Hin2 Heq.
  destruct (processTickH_result h1 state1 input1 d Hin1)
    as (s1 & ext1 & Hrun1 & Hout1 & Hfresh1).
  destruct (processTickH_result h2 state2 input2 d Hin2) as (s2 & ext2 & Hrun2 & Hout2 & _).
  destruct (processTickH_result (h1 ++ ext1) state1 input1 d (snapshot_app _ _ _ _ Hin1))
    as (s3 & ext3 & Hrun3 & Hout3 & Hfresh3).
  exists s1, (h1 ++ ext1), (processTick input1 d), s2, (h2 ++ ext2), (processTick input2 d).
  split; [done|]. split; [done|]. split.
  - split; [by apply processTick_but_stamp|].
    split; [apply processTick_lastTickTime|]. split; [apply processTick_lastTickTime|].
    intros Hstamp. f_equal.
    rewrite <- (with_lastTickTime_same input1), <- (with_lastTickTime_same input2).
    rewrite <- (with_lastTickTime_twice _ 0 input1), <- (with_lastTickTime_twice _ 0 input2).
    by rewrite Heq, Hstamp.
  - exists s3, ((h1 ++ ext1) ++ ext3).
    split; [done|]. split.
    + pose proof (snapshot_lt _ _ _ Hout1). pose proof (snapshot_lt _ _ _ Hin1).
      rewrite length_app in *. lia.
    + rewrite Hout3, (snapshot_app _ ext3 _ _ Hout1).
      by rewrite (snapshot_app _ ext3 _ _ (snapshot_app _ ext1 _ _ Hin1)).
Qed.

Lemma processTick_deterministic_witness :
  exists (s1 : loc) (h1' : store) (out1 : GameState)
         (s2 : loc) (h2' : store) (out2 : GameState),
    (processTickH (rootOf lastSecondState) 1 (storeOf lastSecondState) = Some (s1, h1')
     /\ snapshot h1' s1 = Some out1)
    /\ (processTickH crowdedRoot 1 crowdedStore = Some (s2, h2')
        /\ snapshot h2' s2 = Some out2)
    /\ (with_lastTickTime 0 out1 = with_lastTickTime 0 out2
        /\ lastTickTime out1 = lastTickTime lastSecondState
        /\ lastTickTime out2 = lastTickTime (with_lastTickTime 86400000 lastSecondState)
        /\ (lastTickTime lastSecondState
            = lastTickTime (with_lastTickTime 86400000 lastSecondState) ->
            serializeState out1 = serializeState out2))
    /\ exists (s3 : loc) (h3 : store),
         processTickH (rootOf lastSecondState) 1 h1' = Some (s3, h3)
         /\ (s1 <> rootOf lastSecondState /\ s3 <> rootOf lastSecondState /\ s3 <> s1)
         /\ serializeState <$> snapshot h3 (rootOf lastSecondState)
            = Some (serializeState lastSecondState)
         /\ serializeState <$> snapshot h3 s3 = Some (serializeState out1)
         /\ serializeState <$> snapshot h3 s1 = Some (serializeState out1).
Proof.
  apply (processTick_deterministic (storeOf lastSecondState) crowdedStore
           (rootOf lastSecondState) crowdedRoot
           lastSecondState (with_lastTickTime 86400000 lastSecondState) 1);
    reflexivity.
Defined.

(** * Further properties of the tick engine *)

Section TickFrame.

Lemma laneLoop_eq (st : GameState) (d spl tol red : Q)
    (pairs : list (LaneState * LaneState)) (total : Q) :
  laneLoop st d spl tol red pairs total
  = ((fun p => (laneBody st d spl tol red p.1 p.2).1) <$> pairs,
     fold_left (fun acc p => acc + (laneBody st d spl tol red p.1 p.2).2) pairs total).
Proof.
  revert total. induction pairs as [|[lane snap] rest IH]; intros total; [done|].
  cbn [laneLoop]. unfold laneBody at 1. rewrite IH. reflexivity.
Qed.

Lemma tickLaneResult_frame (s : GameState) (d : Q) :
  lane_id <$> (tickLaneResult s d).1 = lane_id <$> lanes s
  /\ enabledModules <$> (tickLaneResult s d).1 = enabledModules <$> lanes s
  /\ length (tickLaneResult s d).1 = length (lanes s).
Proof.
  unfold tickLaneResult. rewrite laneLoop_eq. cbn [fst].
  generalize (lanes s). intros l.
  repeat split.
  - rewrite <- list_fmap_compose. induction l as [|x l IH]; [done|]. cbn. by f_equal.
  - rewrite <- list_fmap_compose. induction l as [|x l IH]; [done|]. cbn. by f_equal.
  - rewrite length_fmap, length_zip_with. lia.
Qed.

(** The configuration of a run: what only the shops change. *)
Lemma contractStep_config (total d : Q) (s : GameState) :
  let s' := contractStep total d s in
  version s' = version s /\ modules s' = modules s
  /\ activeProtocol s' = activeProtocol s
  /\ upgradesPurchased s' = upgradesPurchased s
  /\ contractTerms <$> contracts s' = contractTerms <$> contracts s.
Proof.
  unfold contractStep.
  destruct (truthy _); [|done].
  destruct (list_find _ _) as [[i c]|] eqn:Hfind; [|done].
  apply list_find_lookup in Hfind as [Hi _].
  destruct (active c); [|done].
  assert (Hins : forall c' (l : list ContractState), l !! i = Some c -> contractTerms c' = contractTerms c ->
            contractTerms <$> <[i := c']> l = contractTerms <$> l).
  { intros c' l Hl Hc'. rewrite list_fmap_insert, Hc'.
    apply list_insert_id. by rewrite list_lookup_fmap, Hl. }
  destruct (timeRemainingS _) as [t|].
  - destruct (Qleb (t - d) 0);
      cbn [set_active set_expired set_timeRemainingS set_progressPayload
           progressPayload targetPayload rewardFragments rewardCredits tier];
      destruct (Qleb _ _); try destruct (bool_decide _); fields;
        (repeat split; try done); by apply Hins.
  - cbn [set_progressPayload progressPayload targetPayload].
    destruct (Qleb _ _); try destruct (bool_decide _); fields;
        (repeat split; try done); by apply Hins.
Qed.

Lemma prestigeReadyStep_config (s : GameState) :
  let s' := prestigeReadyStep s in
  version s' = version s /\ modules s' = modules s
  /\ activeProtocol s' = activeProtocol s
  /\ upgradesPurchased s' = upgradesPurchased s.
Proof.
  unfold prestigeReadyStep.
  destruct (prestigeReadyAt (stats s)); [done|].
  destruct (Qleb _ _); done.
Qed.

Lemma processTick_config (s : GameState) (d : Q) :
  let s' := processTick s d in
  version s' = version s /\ lastTickTime s' = lastTickTime s
  /\ modules s' = modules s /\ activeProtocol s' = activeProtocol s
  /\ upgradesPurchased s' = upgradesPurchased s /\ meta s' = meta s.
Proof.
  cbv zeta. rewrite processTick_stages.
  pose proof (prestigeReadyStep_config
                (contractStep (tickPayload s d) d (beforeContracts s d))) as Hp.
  pose proof (prestigeReadyStep_frame
                (contractStep (tickPayload s d) d (beforeContracts s d))) as Hp'.
  pose proof (contractStep_config (tickPayload s d) d (beforeContracts s d)) as Hc.
  pose proof (contractStep_frame (tickPayload s d) d (beforeContracts s d)) as Hc'.
  cbv zeta in Hp, Hp', Hc, Hc'.
  destruct Hp as (-> & -> & -> & ->).
  destruct Hp' as (_ & _ & _ & _ & _ & _ & _ & _ & _ & -> & -> & _).
  destruct Hc as (-> & -> & -> & -> & _).
  destruct Hc' as (_ & _ & _ & _ & -> & -> & _).
  done.
Qed.

Lemma processTick_lanes (s : GameState) (d : Q) :
  lanes (processTick s d) = (tickLaneResult s d).1.
Proof.
  rewrite processTick_stages.
  pose proof (prestigeReadyStep_frame
                (contractStep (tickPayload s d) d (beforeContracts s d))) as Hp.
  pose proof (contractStep_frame (tickPayload s d) d (beforeContracts s d)) as Hc.
  cbv zeta in Hp, Hc.
  destruct Hp as (_ & _ & _ & _ & _ & _ & _ & _ & _ & _ & _ & -> & _).
  destruct Hc as (_ & _ & _ & _ & _ & _ & -> & _).
  done.
Qed.

Lemma processTick_contractTerms (s : GameState) (d : Q) :
  contractTerms <$> contracts (processTick s d) = contractTerms <$> contracts s.
Proof.
  rewrite processTick_stages.
  pose proof (prestigeReadyStep_frame
                (contractStep (tickPayload s d) d (beforeContracts s d))) as Hp.
  pose proof (contractStep_config (tickPayload s d) d (beforeContracts s d)) as Hc.
  cbv zeta in Hp, Hc.
  destruct Hp as (_ & _ & -> & _).
  destruct Hc as (_ & _ & _ & _ & ->).
  done.
Qed.

End TickFrame.

(** X1. A tick changes no configuration: the version, the clock stamp, the
    module levels, the active protocol, the upgrade levels and the meta
    progress of the result are those of the input; the lanes keep their
    number, their ids and their enabled modules; the contracts keep their
    number and their terms (id, texts, protocol, target, time limit, rewards
    and tier). *)
Theorem processTick_frame (s : GameState) (d : Q) :
  let s' := processTick s d in
  (version s' = version s /\ lastTickTime s' = lastTickTime s
   /\ modules s' = modules s /\ activeProtocol s' = activeProtocol s
   /\ upgradesPurchased s' = upgradesPurchased s /\ meta s' = meta s)
  /\ (length (lanes s') = length (lanes s)
      /\ lane_id <$> lanes s' = lane_id <$> lanes s
      /\ enabledModules <$> lanes s' = enabledModules <$> lanes s)
  /\ (length (contracts s') = length (contracts s)
      /\ contractTerms <$> contracts s' = contractTerms <$> contracts s).
Proof.
  cbv zeta. split; [apply processTick_config|]. split.
  - rewrite processTick_lanes.
    pose proof (tickLaneResult_frame s d) as (? & ? & ?). done.
  - pose proof (processTick_contractTerms s d) as H.
    split; [|done]. apply (f_equal length) in H. by rewrite !length_fmap in H.
Qed.

(** ** Output of a tick *)

Section Pipeline.

Lemma inject_Z_ge_1 (z : Z) : (1 <= z)%Z -> 1 <= inject_Z z.
Proof. intros H. rewrite (Zle_Qle 1 z) in H. exact H. Qed.

Lemma inject_Z_nonneg (z : Z) : (0 <= z)%Z -> 0 <= inject_Z z.
Proof. intros H. rewrite (Zle_Qle 0 z) in H. exact H. Qed.

Lemma Qdiv_nonneg (x y : Q) : 0 <= x -> 0 <= y -> 0 <= x / y.
Proof.
  intros Hx Hy. unfold Qdiv.
  apply Qmult_le_0_compat; [done|]. by apply Qinv_le_0_compat.
Qed.

Lemma moduleStep_bounds (st : GameState) (acc : LaneThroughput) (m : ModuleType) :
  modulesNonneg (modules st) ->
  3 <= processingCapacity acc -> 1 <= outputMultiplier acc ->
  (0 <= activeModuleCount acc)%Z ->
  3 <= processingCapacity (moduleStep st acc m)
  /\ 1 <= outputMultiplier (moduleStep st acc m)
  /\ (0 <= activeModuleCount (moduleStep st acc m))%Z.
Proof.
  intros Hms Hc Ho Hn. unfold moduleStep.
  pose proof (Hms m) as Hm.
  destruct (Z.eqb_spec (level (module_info (modules st) m)) 0) as [|Hne]; [done|].
  assert (Hl : 1 <= inject_Z (level (module_info (modules st) m))).
  { apply inject_Z_ge_1. lia. }
  revert Hl. generalize (inject_Z (level (module_info (modules st) m))). intros l Hl.
  cbn [processingCapacity outputMultiplier activeModuleCount].
  split; [|split; [|lia]].
  - destruct m; cbn [MODULE_DEFINITIONS baseCapacityBonus capacityPerLevel]; lra.
  - destruct m; cbn [MODULE_DEFINITIONS baseOutputMultiplier outputMultPerLevel]; nra.
Qed.

Lemma fold_moduleStep_bounds (st : GameState) (ms : list ModuleType) (acc : LaneThroughput) :
  modulesNonneg (modules st) ->
  3 <= processingCapacity acc -> 1 <= outputMultiplier acc ->
  (0 <= activeModuleCount acc)%Z ->
  3 <= processingCapacity (fold_left (moduleStep st) ms acc)
  /\ 1 <= outputMultiplier (fold_left (moduleStep st) ms acc)
  /\ (0 <= activeModuleCount (fold_left (moduleStep st) ms acc))%Z.
Proof.
  intros Hms. revert acc. induction ms as [|m ms IH]; intros acc Hc Ho Hn; [done|].
  cbn [fold_left].
  pose proof (moduleStep_bounds st acc m Hms Hc Ho Hn) as (? & ? & ?).
  by apply IH.
Qed.

Lemma throughputMultiplier_pos (p : ProtocolFamily) :
  0 <= throughputMultiplier (PROTOCOL_DEFINITIONS p).
Proof. destruct p; cbn; lra. Qed.

(** With levels that are counts, a lane has a capacity, a multiplier and a
    module count that are not negative. *)
Lemma calculateLaneThroughput_nonneg (lane : LaneState) (st : GameState) :
  levelsNonneg (upgradesPurchased st) -> levelsNonneg (perks (meta st)) ->
  modulesNonneg (modules st) ->
  0 <= processingCapacity (calculateLaneThroughput lane st)
  /\ 0 <= outputMultiplier (calculateLaneThroughput lane st)
  /\ (0 <= activeModuleCount (calculateLaneThroughput lane st))%Z.
Proof.
  intros Hu Hp Hms. unfold calculateLaneThroughput. cbv zeta.
  pose proof (fold_moduleStep_bounds st (enabledModules lane) (mkThroughput 3 1.0 0) Hms)
    as (Hc & Ho & Hn); [cbn; lra | cbn; lra | cbn; lia |].
  revert Hc Ho Hn.
  generalize (fold_left (moduleStep st) (enabledModules lane) (mkThroughput 3 1.0 0)).
  intros t0 Hc Ho Hn.
  pose proof (inject_Z_nonneg _ (Hu "hw_module_speed")) as Hs. revert Hs.
  generalize (inject_Z (level_of (upgradesPurchased st) "hw_module_speed")). intros sp Hs.
  pose proof (throughputMultiplier_pos (activeProtocol st)) as Ht. revert Ht.
  generalize (throughputMultiplier (PROTOCOL_DEFINITIONS (activeProtocol st))). intros tm Ht.
  pose proof (inject_Z_nonneg _ (Hp "perk_throughput_boost")) as Hb. revert Hb.
  generalize (inject_Z (level_of (perks (meta st)) "perk_throughput_boost")). intros tb Hb.
  assert (Hcap : 0 <= (processingCapacity t0 + sp * 2) * tm) by nra.
  assert (Hout : 0 <= (if negb
                         (forallb
                            (fun m => bool_decide (m ∈ enabledModules lane)
                                      && (0 <? level (module_info (modules st) m))%Z)
                            (requiredModules (PROTOCOL_DEFINITIONS (activeProtocol st))))
                         && (0 <? length (requiredModules
                                            (PROTOCOL_DEFINITIONS (activeProtocol st))))%nat
                       then outputMultiplier t0 * 0.5 else outputMultiplier t0)).
  { destruct (_ && _); lra. }
  revert Hout. generalize (if negb
                         (forallb
                            (fun m => bool_decide (m ∈ enabledModules lane)
                                      && (0 <? level (module_info (modules st) m))%Z)
                            (requiredModules (PROTOCOL_DEFINITIONS (activeProtocol st))))
                         && (0 <? length (requiredModules
                                            (PROTOCOL_DEFINITIONS (activeProtocol st))))%nat
                       then outputMultiplier t0 * 0.5 else outputMultiplier t0).
  intros out Hout.
  destruct (0 <? _)%Z; cbn [processingCapacity outputMultiplier activeModuleCount];
    (split; [|split; [|done]]); nra.
Qed.

Lemma calculateScrapGenRate_nonneg (st : GameState) :
  levelsNonneg (upgradesPurchased st) -> levelsNonneg (perks (meta st)) ->
  0 <= calculateScrapGenRate st.
Proof.
  intros Hu Hp. unfold calculateScrapGenRate. cbv zeta.
  pose proof (inject_Z_nonneg _ (Hu "sw_routing_ai")) as Hr. revert Hr.
  generalize (inject_Z (level_of (upgradesPurchased st) "sw_routing_ai")). intros r Hr.
  pose proof (inject_Z_nonneg _ (Hp "perk_throughput_boost")) as Hb. revert Hb.
  generalize (inject_Z (level_of (perks (meta st)) "perk_throughput_boost")). intros tb Hb.
  assert (Hn : 0 <= inject_Z (Z.of_nat (length (lanes st)))) by (apply inject_Z_nonneg; lia).
  revert Hn. generalize (inject_Z (Z.of_nat (length (lanes st)))). intros n Hn.
  assert (H1 : 0 <= 5 * n * (1 + r * 0.15)) by nra.
  destruct (0 <? _)%Z; [|done].
  apply Qmult_le_0_compat; [done | nra].
Qed.

Lemma calculateCreditRate_nonneg (st : GameState) :
  levelsNonneg (upgradesPurchased st) -> 0 <= calculateCreditRate st.
Proof.
  intros Hu. unfold calculateCreditRate. cbv zeta.
  pose proof (inject_Z_nonneg _ (Hu "sw_protocol_parser")) as Hr. revert Hr.
  generalize (inject_Z (level_of (upgradesPurchased st) "sw_protocol_parser")). intros r Hr.
  assert (Hm : 0 <= creditMultiplier (PROTOCOL_DEFINITIONS (activeProtocol st))).
  { destruct (activeProtocol st); cbn; lra. }
  revert Hm. generalize (creditMultiplier (PROTOCOL_DEFINITIONS (activeProtocol st))).
  intros m Hm. destruct (0 <? _)%Z; nra.
Qed.

(** The penalty for a reduction in [[0, 1]]. *)
Lemma penalty_range (m q tol r : Q) :
  0 <= r -> r <= 1 ->
  0.1 <= penalty (calculateLatency m q tol r) /\ penalty (calculateLatency m q tol r) <= 1.
Proof.
  intros Hr0 Hr1. unfold calculateLatency; cbn [penalty].
  pose proof (rawPenalty_range (Qmax 0 (m - 3)) (Qmax 0 (q - tol))
                (Q.le_max_l _ _) (Q.le_max_l _ _)) as [Hlo Hhi].
  split; [|apply Q.le_min_l].
  apply Q.min_glb; [lra|]. nra.
Qed.

(** The reduction that [processTick] passes to the latency model. *)
Lemma totalLatencyReduction_range (cooling shield : Z) :
  (0 <= cooling)%Z -> (0 <= shield)%Z ->
  0 <= Qmin 0.9 (inject_Z cooling * 0.05 + inject_Z shield * 0.15)
  /\ Qmin 0.9 (inject_Z cooling * 0.05 + inject_Z shield * 0.15) <= 1.
Proof.
  intros Hc Hs.
  apply inject_Z_nonneg in Hc, Hs.
  split; [apply Q.min_glb; [lra | nra]|].
  apply Qle_trans with 0.9; [apply Q.le_min_l | lra].
Qed.

Lemma laneBody_bounds (st : GameState) (d spl tol red : Q) (lane snap : LaneState) :
  0 <= red -> red <= 1 ->
  let lane' := (laneBody st d spl tol red lane snap).1 in
  0 <= queue lane' /\ 0 <= heat lane' /\ heat lane' <= 0.9.
Proof.
  intros Hr0 Hr1. unfold laneBody. cbv zeta. cbn [fst queue heat].
  split; [apply Q.le_max_l|]. split; [apply Q.le_max_l|].
  match goal with |- Qmax 0 (1 - penalty (calculateLatency ?m ?q ?t ?r)) <= _ =>
    pose proof (penalty_range m q t r Hr0 Hr1) as [Hlo _] end.
  apply Q.max_lub; lra.
Qed.

Lemma laneBody_payload_nonneg (st : GameState) (d spl tol red : Q) (lane snap : LaneState) :
  levelsNonneg (upgradesPurchased st) -> levelsNonneg (perks (meta st)) ->
  modulesNonneg (modules st) ->
  0 <= red -> red <= 1 -> 0 <= d -> 0 <= spl -> 0 <= queue lane ->
  0 <= (laneBody st d spl tol red lane snap).2.
Proof.
  intros Hu Hp Hms Hr0 Hr1 Hd Hspl Hq. unfold laneBody. cbv zeta. cbn [snd].
  pose proof (calculateLaneThroughput_nonneg snap st Hu Hp Hms) as (Hc & Ho & _).
  match goal with |- context [penalty (calculateLatency ?m ?q ?t ?r)] =>
    pose proof (penalty_range m q t r Hr0 Hr1) as [Hlo _];
    revert Hlo; generalize (penalty (calculateLatency m q t r)); intros pen Hlo end.
  revert Hc Ho.
  generalize (processingCapacity (calculateLaneThroughput snap st)).
  generalize (outputMultiplier (calculateLaneThroughput snap st)).
  intros out cap Hc Ho.
  assert (Hmin : 0 <= Qmin (queue lane + spl) (cap * d)).
  { apply Q.min_glb; nra. }
  revert Hmin. generalize (Qmin (queue lane + spl) (cap * d)). intros tp Htp.
  apply Qmult_le_0_compat; [|lra]. by apply Qmult_le_0_compat.
Qed.

Lemma fold_payload_nonneg {A} (f : A -> Q) (l : list A) (acc : Q) :
  Forall (fun x => 0 <= f x) l ->
  acc <= fold_left (fun a x => a + f x) l acc.
Proof.
  revert acc. induction l as [|x l IH]; intros acc Hl; [cbn; lra|].
  apply Forall_cons in Hl as [Hx Hl]. cbn [fold_left].
  apply Qle_trans with (acc + f x); [lra | by apply IH].
Qed.

Lemma scrapPerLane_nonneg (s : GameState) (d : Q) :
  levelsNonneg (upgradesPurchased s) -> levelsNonneg (perks (meta s)) -> 0 <= d ->
  0 <= calculateScrapGenRate s * d / inject_Z (Z.of_nat (length (lanes s))).
Proof.
  intros Hu Hp Hd. apply Qdiv_nonneg; [|apply inject_Z_nonneg; lia].
  apply Qmult_le_0_compat; [by apply calculateScrapGenRate_nonneg | done].
Qed.

(** The output of a tick on a well-formed state is not negative. *)
Lemma tickPayload_nonneg (s : GameState) (d : Q) :
  wellFormed s -> 0 <= d -> 0 <= tickPayload s d.
Proof.
  intros [Hu Hp Hms Hq _] Hd. unfold tickPayload, tickLaneResult.
  rewrite laneLoop_eq. cbn [snd].
  pose proof (totalLatencyReduction_range _ _ (Hu "hw_cooling") (Hp "perk_latency_shield"))
    as [Hr0 Hr1].
  apply (fold_payload_nonneg
           (fun p => (laneBody s d _ _ _ p.1 p.2).2) (zip (lanes s) (lanes s)) 0).
  apply Forall_forall. intros [lane snap] Hin. cbn [fst snd].
  apply laneBody_payload_nonneg; try done.
  - by apply scrapPerLane_nonneg.
  - apply elem_of_zip_l in Hin. cbn in Hin.
    rewrite Forall_forall in Hq. by apply Hq.
Qed.

Lemma tickLaneResult_bounds (s : GameState) (d : Q) :
  (0 <= level_of (upgradesPurchased s) "hw_cooling")%Z ->
  (0 <= level_of (perks (meta s)) "perk_latency_shield")%Z ->
  Forall (fun l => 0 <= queue l /\ 0 <= heat l /\ heat l <= 0.9) (tickLaneResult s d).1.
Proof.
  intros Hc Hs. unfold tickLaneResult. rewrite laneLoop_eq. cbn [fst].
  pose proof (totalLatencyReduction_range _ _ Hc Hs) as [Hr0 Hr1].
  apply Forall_fmap, Forall_forall. intros [lane snap] _.
  by apply laneBody_bounds.
Qed.

Lemma tickLaneResult_queue_nonneg (s : GameState) (d : Q) :
  Forall (fun l => 0 <= queue l) (tickLaneResult s d).1.
Proof.
  unfold tickLaneResult. rewrite laneLoop_eq. cbn [fst].
  apply Forall_fmap, Forall_forall. intros [lane snap] _. apply Q.le_max_l.
Qed.

End Pipeline.

(** X2. After a tick on a state whose cooling and latency-shield levels are
    not negative, every lane has a queue that is not negative and a heat
    between 0 and 0.9. *)
Theorem processTick_lane_bounds (s : GameState) (d : Q) :
  (0 <= level_of (upgradesPurchased s) "hw_cooling")%Z ->
  (0 <= level_of (perks (meta s)) "perk_latency_shield")%Z ->
  Forall (fun l => 0 <= queue l /\ 0 <= heat l /\ heat l <= 0.9) (lanes (processTick s d)).
Proof. intros Hc Hs. rewrite processTick_lanes. by apply tickLaneResult_bounds. Qed.

Lemma processTick_lane_bounds_witness :
  Forall (fun l => 0 <= queue l /\ 0 <= heat l /\ heat l <= 0.9)
         (lanes (processTick (createInitialState 0) 1)).
Proof.
  apply (processTick_lane_bounds (createInitialState 0) 1); vm_compute; discriminate.
Defined.

(** ** The ledger of a tick *)

Section Ledger.

(** The contract section either pays the rewards of the working contract
    and counts it, or pays and counts nothing. *)
Lemma contractStep_credits (total d : Q) (s : GameState) :
  let s' := contractStep total d s in
  (credits (resources s') = credits (resources s)
   /\ totalCreditsEarned (stats s') = totalCreditsEarned (stats s)
   /\ completedContractCount s' = completedContractCount s
   /\ highTierContractsCompleted s' = highTierContractsCompleted s)
  \/ (exists i c, workingContract s = Some (i, c)
       /\ credits (resources s') = credits (resources s) + rewardCredits c
       /\ totalCreditsEarned (stats s') = totalCreditsEarned (stats s) + rewardCredits c
       /\ completedContractCount s' = (completedContractCount s + 1)%Z
       /\ highTierContractsCompleted s'
          = if bool_decide (tier c = high)
            then (highTierContractsCompleted s + 1)%Z
            else highTierContractsCompleted s).
Proof.
  unfold contractStep, workingContract.
  destruct (truthy _); [|by left].
  destruct (list_find _ _) as [[i c]|]; [|by left].
  destruct (active c); [|by left].
  destruct (timeRemainingS _) as [t|].
  - destruct (Qleb (t - d) 0);
      cbn [set_active set_expired set_timeRemainingS set_progressPayload
           progressPayload targetPayload rewardFragments rewardCredits tier];
      (destruct (Qleb _ _); [right; exists i, c | by left]);
      (split; [done|]); destruct (bool_decide _); by repeat split.
  - cbn [set_progressPayload progressPayload targetPayload rewardCredits tier].
    destruct (Qleb _ _); [right; exists i, c | by left].
    split; [done|]. destruct (bool_decide _); by repeat split.
Qed.

Lemma contractStep_idle (total d : Q) (s : GameState) :
  workingContract s = None -> contractStep total d s = s.
Proof.
  unfold contractStep, workingContract.
  destruct (truthy _); [|done].
  destruct (list_find _ _) as [[i c]|]; [|done].
  by destruct (active c).
Qed.

Lemma contractStep_others (total d : Q) (s : GameState) (i : nat) (c : ContractState) :
  workingContract s = Some (i, c) ->
  forall j, j <> i -> contracts (contractStep total d s) !! j = contracts s !! j.
Proof.
  unfold contractStep, workingContract.
  destruct (truthy _); [|done].
  destruct (list_find _ _) as [[i' c']|]; [|done].
  destruct (active c'); [|done].
  intros [= -> ->] j Hj.
  destruct (timeRemainingS _) as [t|].
  - destruct (Qleb (t - d) 0);
      cbn [set_active set_expired set_timeRemainingS set_progressPayload
           progressPayload targetPayload rewardFragments rewardCredits tier];
      destruct (Qleb _ _); try destruct (bool_decide _); fields;
        by rewrite list_lookup_insert_ne.
  - cbn [set_progressPayload progressPayload targetPayload rewardCredits tier].
    destruct (Qleb _ _); try destruct (bool_decide _); fields;
      by rewrite list_lookup_insert_ne.
Qed.

Lemma beforeContracts_ledger (s : GameState) (d : Q) :
  let b := beforeContracts s d in
  payload (resources b) = payload (resources s) + tickPayload s d
  /\ totalPayloadProduced (stats b) = totalPayloadProduced (stats s) + tickPayload s d
  /\ credits (resources b)
     = credits (resources s) + tickPayload s d * calculateCreditRate s
  /\ totalCreditsEarned (stats b)
     = totalCreditsEarned (stats s) + tickPayload s d * calculateCreditRate s
  /\ scrap (resources b) = scrap (resources s)
  /\ completedContractCount b = completedContractCount s
  /\ highTierContractsCompleted b = highTierContractsCompleted s.
Proof.
  unfold beforeContracts. cbv zeta. fields.
  destruct (Z.rem _ _ =? 0)%Z; by repeat split.
Qed.

Lemma contractStep_scrap (total d : Q) (s : GameState) :
  scrap (resources (contractStep total d s)) = scrap (resources s).
Proof.
  unfold contractStep.
  destruct (truthy _); [|done].
  destruct (list_find _ _) as [[i c]|]; [|done].
  destruct (active c); [|done].
  destruct (timeRemainingS _) as [t|].
  - destruct (Qleb (t - d) 0);
      cbn [set_active set_expired set_timeRemainingS set_progressPayload
           progressPayload targetPayload rewardFragments rewardCredits tier];
      destruct (Qleb _ _); try destruct (bool_decide _); done.
  - cbn [set_progressPayload progressPayload targetPayload rewardCredits tier].
    destruct (Qleb _ _); try destruct (bool_decide _); done.
Qed.

(** One tick, field by field: what the ledger of the result holds. *)
Lemma processTick_accounts (s : GameState) (d : Q) :
  let s' := processTick s d in
  exists reward,
    payload (resources s') = payload (resources s) + tickPayload s d
    /\ totalPayloadProduced (stats s')
       = totalPayloadProduced (stats s) + tickPayload s d
    /\ credits (resources s')
       == credits (resources s) + tickPayload s d * calculateCreditRate s + reward
    /\ totalCreditsEarned (stats s')
       == totalCreditsEarned (stats s) + tickPayload s d * calculateCreditRate s + reward
    /\ scrap (resources s') = scrap (resources s)
    /\ ((completedContractCount s' = completedContractCount s
         /\ highTierContractsCompleted s' = highTierContractsCompleted s
         /\ reward = 0)
        \/ (exists i c, workingContract s = Some (i, c)
             /\ completedContractCount s' = (completedContractCount s + 1)%Z
             /\ highTierContractsCompleted s'
                = (if bool_decide (tier c = high)
                   then (highTierContractsCompleted s + 1)%Z
                   else highTierContractsCompleted s)
             /\ reward = rewardCredits c)).
Proof.
  cbv zeta. rewrite processTick_stages.
  pose proof (prestigeReadyStep_frame
                (contractStep (tickPayload s d) d (beforeContracts s d))) as Hp.
  pose proof (contractStep_frame (tickPayload s d) d (beforeContracts s d)) as Hf.
  pose proof (contractStep_credits (tickPayload s d) d (beforeContracts s d)) as Hc.
  pose proof (contractStep_scrap (tickPayload s d) d (beforeContracts s d)) as Hs.
  pose proof (beforeContracts_ledger s d) as Hb.
  cbv zeta in Hp, Hf, Hc, Hb. rewrite workingContract_beforeContracts in Hc.
  destruct Hp as (_ & -> & _ & _ & -> & -> & _ & -> & -> & _).
  destruct Hf as (_ & _ & -> & _ & _ & _ & _ & _ & -> & _).
  destruct Hb as (-> & -> & Hb1 & Hb2 & Hb3 & Hb4 & Hb5).
  rewrite Hs, Hb3.
  destruct Hc as [(-> & -> & -> & ->)|(i & c & Hw & -> & -> & -> & ->)].
  - exists 0. rewrite Hb1, Hb2, Hb4, Hb5.
    repeat split; try done; try ring. by left.
  - exists (rewardCredits c). rewrite Hb1, Hb2, Hb4, Hb5.
    repeat split; try done. right. by exists i, c.
Qed.

End Ledger.

(** X3. The ledger of a tick balances.  The payload pool and the lifetime
    payload both grow by this tick's output; the credit pool and the
    lifetime credits both grow by the output priced at the credit rate plus
    a reward, which is the credit reward of the working contract when the
    tick completes it and zero otherwise; scrap in the pool is left alone.
    Hence what a tick adds to a pool it adds to the lifetime total. *)
Theorem processTick_ledger (s : GameState) (d : Q) :
  let s' := processTick s d in
  payload (resources s') == payload (resources s) + tickPayload s d
  /\ totalPayloadProduced (stats s') == totalPayloadProduced (stats s) + tickPayload s d
  /\ (exists reward,
        credits (resources s')
        == credits (resources s) + tickPayload s d * calculateCreditRate s + reward
        /\ totalCreditsEarned (stats s')
           == totalCreditsEarned (stats s) + tickPayload s d * calculateCreditRate s + reward
        /\ ((completedContractCount s' = completedContractCount s /\ reward = 0)
            \/ (completedContractCount s' = (completedContractCount s + 1)%Z
                /\ exists i c, workingContract s = Some (i, c)
                               /\ reward = rewardCredits c)))
  /\ credits (resources s') - credits (resources s)
     == totalCreditsEarned (stats s') - totalCreditsEarned (stats s)
  /\ scrap (resources s') = scrap (resources s).
Proof.
  cbv zeta.
  destruct (processTick_accounts s d) as (reward & Hp & Ht & Hc & He & Hs & Hr).
  cbv zeta in *.
  split; [by rewrite Hp|]. split; [by rewrite Ht|]. split.
  - exists reward. split; [done|]. split; [done|].
    destruct Hr as [(? & _ & ?)|(i & c & ? & ? & _ & ?)]; [by left|].
    right. split; [done|]. by exists i, c.
  - split; [|done]. rewrite Hc, He. ring.
Qed.

Section Monotone.

Lemma workingContract_elem (s : GameState) (i : nat) (c : ContractState) :
  workingContract s = Some (i, c) -> c ∈ contracts s.
Proof.
  intros H. apply workingContract_Some in H as (_ & H & _).
  apply list_find_lookup in H as [H _]. by apply list_elem_of_lookup_2 in H.
Qed.

Lemma createInitialState_wellFormed (now : Z) : wellFormed (createInitialState now).
Proof.
  split.
  - intros k. unfold level_of. cbn. by rewrite lookup_empty.
  - intros k. unfold level_of. cbn. by rewrite lookup_empty.
  - intros []; cbn; lia.
  - repeat constructor. apply Qle_refl.
  - constructor.
Qed.

Lemma processTick_wellFormed (s : GameState) (d : Q) :
  wellFormed s -> wellFormed (processTick s d).
Proof.
  intros [Hu Hp Hms Hq Hr].
  pose proof (processTick_config s d) as (_ & _ & Hm & _ & Hup & Hmeta).
  cbv zeta in *. split.
  - by rewrite Hup.
  - by rewrite Hmeta.
  - by rewrite Hm.
  - rewrite processTick_lanes. apply tickLaneResult_queue_nonneg.
  - pose proof (processTick_contractTerms s d) as Ht.
    apply Forall_forall. intros c' Hc'.
    apply (list_elem_of_fmap_2 contractTerms) in Hc'. rewrite Ht in Hc'.
    apply list_elem_of_fmap in Hc' as (c & Heq & Hc).
    rewrite Forall_forall in Hr. specialize (Hr c Hc).
    unfold contractTerms in Heq. by injection Heq as _ _ _ _ _ _ -> -> _.
Qed.

(** What a tick on a well-formed state accumulates. *)
Lemma processTick_grows (s : GameState) (d : Q) :
  wellFormed s -> 0 <= d ->
  let s' := processTick s d in
  totalPayloadProduced (stats s) <= totalPayloadProduced (stats s')
  /\ totalCreditsEarned (stats s) <= totalCreditsEarned (stats s')
  /\ playtimeSec (stats s) <= playtimeSec (stats s')
  /\ payload (resources s) <= payload (resources s')
  /\ credits (resources s) <= credits (resources s')
  /\ fragments (resources s) <= fragments (resources s')
  /\ (completedContractCount s <= completedContractCount s')%Z
  /\ (highTierContractsCompleted s <= highTierContractsCompleted s')%Z
  /\ (tickCount s < tickCount s')%Z.
Proof.
  intros Hwf Hd. cbv zeta.
  pose proof (tickPayload_nonneg s d Hwf Hd) as Hpay.
  pose proof (calculateCreditRate_nonneg s (wf_upgrades s Hwf)) as Hrate.
  destruct (processTick_accounts s d) as (reward & Hp & Ht & Hc & He & _ & Hr).
  cbv zeta in *.
  assert (Hearn : 0 <= tickPayload s d * calculateCreditRate s)
    by by apply Qmult_le_0_compat.
  assert (Hrew : forall i c, workingContract s = Some (i, c) ->
            0 <= rewardCredits c /\ 0 <= rewardFragments c).
  { intros i c Hw. apply workingContract_elem in Hw.
    pose proof (wf_rewards s Hwf) as Hall. rewrite Forall_forall in Hall. by apply Hall. }
  assert (Hreward : 0 <= reward).
  { destruct Hr as [(_ & _ & ->)|(i & c & Hw & _ & _ & ->)]; [lra|]. by apply (Hrew i c). }
  split; [rewrite Ht; lra|]. split; [rewrite He; lra|].
  split; [rewrite processTick_playtimeSec; lra|].
  split; [rewrite Hp; lra|]. split; [rewrite Hc; lra|].
  split.
  { rewrite processTick_stages.
    pose proof (prestigeReadyStep_frame
                  (contractStep (tickPayload s d) d (beforeContracts s d))) as Hps.
    cbv zeta in Hps. destruct Hps as (_ & -> & _).
    pose proof (contractStep_fragments (tickPayload s d) d (beforeContracts s d)) as Hf.
    cbv zeta in Hf. rewrite workingContract_beforeContracts in Hf.
    pose proof (fragments_beforeContracts s d) as Hb.
    assert (Hdrop : 0 <= tickDrop s) by (unfold tickDrop; destruct (_ =? _)%Z; lra).
    destruct Hf as [[_ ->]|(i & c & Hw & _ & ->)]; [lra|].
    pose proof (Hrew i c Hw). lra. }
  split; [destruct Hr as [(-> & _)|(i & c & _ & -> & _)]; lia|].
  split; [|rewrite processTick_tickCount; lia].
  destruct Hr as [(_ & -> & _)|(i & c & _ & _ & -> & _)]; [lia|].
  destruct (bool_decide _); lia.
Qed.

End Monotone.

(** X4. On a well-formed state, a tick of a duration that is not negative
    lowers nothing that the game accumulates: the lifetime payload, the
    lifetime credits and the elapsed-time statistic, the payload, credit and
    fragment pools, and the two counters of completed contracts do not
    decrease, and the step counter increases.  The result is well-formed
    again, so the same holds of every further tick. *)
Theorem processTick_monotone (s : GameState) (d : Q) :
  wellFormed s -> 0 <= d ->
  let s' := processTick s d in
  wellFormed s'
  /\ totalPayloadProduced (stats s) <= totalPayloadProduced (stats s')
  /\ totalCreditsEarned (stats s) <= totalCreditsEarned (stats s')
  /\ playtimeSec (stats s) <= playtimeSec (stats s')
  /\ payload (resources s) <= payload (resources s')
  /\ credits (resources s) <= credits (resources s')
  /\ fragments (resources s) <= fragments (resources s')
  /\ (completedContractCount s <= completedContractCount s')%Z
  /\ (highTierContractsCompleted s <= highTierContractsCompleted s')%Z
  /\ (tickCount s < tickCount s')%Z.
Proof.
  intros Hwf Hd. split; [by apply processTick_wellFormed | by apply processTick_grows].
Qed.

Lemma processTick_monotone_witness :
  let s := createInitialState 0 in
  let s' := processTick s 1 in
  wellFormed s'
  /\ totalPayloadProduced (stats s) <= totalPayloadProduced (stats s')
  /\ totalCreditsEarned (stats s) <= totalCreditsEarned (stats s')
  /\ playtimeSec (stats s) <= playtimeSec (stats s')
  /\ payload (resources s) <= payload (resources s')
  /\ credits (resources s) <= credits (resources s')
  /\ fragments (resources s) <= fragments (resources s')
  /\ (completedContractCount s <= completedContractCount s')%Z
  /\ (highTierContractsCompleted s <= highTierContractsCompleted s')%Z
  /\ (tickCount s < tickCount s')%Z.
Proof.
  apply (processTick_monotone (createInitialState 0) 1);
    [apply createInitialState_wellFormed | lra].
Defined.

(** X5. A tick works on one contract at most.  Without a working contract
    (no truthy pointer, no contract of that id, or the contract not active)
    the board, the pointer and the counters are left as they are; with one,
    every other position of the board is left as it is.  In particular a
    contract that is not active is never touched: a tick does not bring a
    completed or expired contract back. *)
Theorem processTick_one_contract (s : GameState) (d : Q) :
  let s' := processTick s d in
  (workingContract s = None ->
     contracts s' = contracts s /\ activeContractId s' = activeContractId s
     /\ completedContractCount s' = completedContractCount s
     /\ highTierContractsCompleted s' = highTierContractsCompleted s)
  /\ (forall i c, workingContract s = Some (i, c) ->
        forall j, j <> i -> contracts s' !! j = contracts s !! j)
  /\ (forall j c, contracts s !! j = Some c -> active c = false ->
        contracts s' !! j = Some c).
Proof.
  cbv zeta. rewrite processTick_stages.
  pose proof (prestigeReadyStep_frame
                (contractStep (tickPayload s d) d (beforeContracts s d))) as Hp.
  cbv zeta in Hp. destruct Hp as (_ & _ & -> & -> & -> & -> & _).
  assert (Hothers : forall i c, workingContract s = Some (i, c) ->
            forall j, j <> i ->
              contracts (contractStep (tickPayload s d) d (beforeContracts s d)) !! j
              = contracts s !! j).
  { intros i c Hw j Hj.
    rewrite <- workingContract_beforeContracts with (d := d) in Hw.
    by rewrite (contractStep_others _ _ _ i c Hw j Hj). }
  split; [|split; [done|]].
  - intros Hw. rewrite <- workingContract_beforeContracts with (d := d) in Hw.
    rewrite (contractStep_idle _ _ _ Hw). done.
  - intros j c Hj Hina.
    destruct (workingContract s) as [[i ci]|] eqn:Hw.
    + assert (j <> i).
      { intros ->. apply workingContract_Some in Hw as (_ & Hi & Hact).
        apply list_find_lookup in Hi as [Hi _]. congruence. }
      by rewrite (Hothers i ci eq_refl j).
    + rewrite <- workingContract_beforeContracts with (d := d) in Hw.
      by rewrite (contractStep_idle _ _ _ Hw).
Qed.

Section Readiness.

(** The readiness marker over one tick. *)
Lemma processTick_ready (s : GameState) (d : Q) :
  let s' := processTick s d in
  (forall n, prestigeReadyAt (stats s) = Some n -> prestigeReadyAt (stats s') = Some n)
  /\ (canPrestige s' = true -> prestigeReadyAt (stats s') <> None)
  /\ (prestigeReadyAt (stats s) = None ->
      forall n, prestigeReadyAt (stats s') = Some n ->
        n = (tickCount s + 1)%Z /\ canPrestige s' = true).
Proof.
  cbv zeta. rewrite processTick_stages.
  pose proof (contractStep_frame (tickPayload s d) d (beforeContracts s d)) as Hf.
  cbv zeta in Hf. destruct Hf as (Htick & _ & _ & Hready & _).
  revert Htick Hready.
  generalize (contractStep (tickPayload s d) d (beforeContracts s d)). intros c Htick Hready.
  change (prestigeReadyAt (stats (beforeContracts s d))) with (prestigeReadyAt (stats s))
    in Hready.
  change (tickCount (beforeContracts s d)) with (tickCount s + 1)%Z in Htick.
  unfold prestigeReadyStep, canPrestige. rewrite Hready.
  destruct (prestigeReadyAt (stats s)) as [n|].
  - rewrite Hready. done.
  - destruct (Qleb 3000 (totalPayloadProduced (stats c))) eqn:Hq; fields.
    + split; [done|]. split; [done|]. intros _ n [= <-]. by rewrite Htick.
    + rewrite Hready, Hq. done.
Qed.

End Readiness.

(** X6. The readiness marker is written once.  A marker that is set
    survives a tick unchanged; a tick that ends with a lifetime payload of
    3000 or more ends with the marker set; and a marker that a tick sets
    holds the step counter of that tick. *)
Theorem processTick_readiness (s : GameState) (d : Q) :
  let s' := processTick s d in
  (forall n, prestigeReadyAt (stats s) = Some n -> prestigeReadyAt (stats s') = Some n)
  /\ (canPrestige s' = true -> prestigeReadyAt (stats s') <> None)
  /\ (prestigeReadyAt (stats s) = None ->
      forall n, prestigeReadyAt (stats s') = Some n ->
        n = (tickCount s + 1)%Z /\ canPrestige s' = true).
Proof. apply processTick_ready. Qed.

(** ** Periodic drops over many ticks *)

Section Drops.

Lemma div_succ (m i : Z) :
  (0 <= m)%Z -> (0 < i)%Z ->
  ((m + 1) / i = m / i + if Z.rem (m + 1) i =? 0 then 1 else 0)%Z.
Proof.
  intros Hm Hi. rewrite Z.rem_mod_nonneg by lia.
  destruct (Z.eqb_spec ((m + 1) mod i) 0) as [H0|H0];
    Z.to_euclidean_division_equations; nia.
Qed.

Lemma calculateFragmentInterval_ge_5 (s : GameState) : (5 <= calculateFragmentInterval s)%Z.
Proof. unfold calculateFragmentInterval. lia. Qed.

Lemma calculateFragmentInterval_config (s s' : GameState) :
  activeProtocol s' = activeProtocol s -> upgradesPurchased s' = upgradesPurchased s ->
  meta s' = meta s ->
  calculateFragmentInterval s' = calculateFragmentInterval s.
Proof. unfold calculateFragmentInterval. by intros -> -> ->. Qed.

Lemma workingContract_no_pointer (s : GameState) :
  truthy (activeContractId s) = false -> workingContract s = None.
Proof. unfold workingContract. by intros ->. Qed.

(** A tick without a contract to work on: the pointer stays as it is and
    the fragment pool grows by the periodic drop alone. *)
Lemma processTick_no_contract (s : GameState) (d : Q) :
  workingContract s = None ->
  activeContractId (processTick s d) = activeContractId s
  /\ fragments (resources (processTick s d)) == fragments (resources s) + tickDrop s.
Proof.
  intros Hw. rewrite processTick_stages.
  pose proof (prestigeReadyStep_frame
                (contractStep (tickPayload s d) d (beforeContracts s d))) as Hp.
  cbv zeta in Hp. destruct Hp as (_ & -> & _ & -> & _).
  rewrite <- workingContract_beforeContracts with (d := d) in Hw.
  rewrite (contractStep_idle _ _ _ Hw).
  split; [done|]. apply fragments_beforeContracts.
Qed.

Lemma iter_no_contract (s : GameState) (d : Q) (n : nat) :
  truthy (activeContractId s) = false ->
  let s' := Nat.iter n (fun st => processTick st d) s in
  truthy (activeContractId s') = false
  /\ tickCount s' = (tickCount s + Z.of_nat n)%Z
  /\ calculateFragmentInterval s' = calculateFragmentInterval s.
Proof.
  intros Hptr. cbv zeta. induction n as [|n (IHp & IHt & IHi)];
    [change (Nat.iter 0 (fun st => processTick st d) s) with s;
     split; [done|split; [lia|done]]|].
  rewrite Nat.iter_succ.
  pose proof (processTick_no_contract _ d (workingContract_no_pointer _ IHp)) as [Hp _].
  pose proof (processTick_config (Nat.iter n (fun st => processTick st d) s) d)
    as (_ & _ & _ & Hproto & Hup & Hmeta).
  cbv zeta in Hproto, Hup, Hmeta.
  split; [by rewrite Hp|]. split; [rewrite processTick_tickCount; lia|].
  rewrite <- IHi. by apply calculateFragmentInterval_config.
Qed.

End Drops.

(** X7. Periodic drops over a run of ticks.  From a state with no active
    pointer and a step counter [t >= 0], [n] ticks of any duration raise the
    fragment pool by the number of multiples of the drop interval in
    [(t, t + n]], that is [(t + n) / I - t / I]; the interval [I] is at least
    5 and stays the same over the run. *)
Theorem processTick_periodic_drops (s : GameState) (d : Q) (n : nat) :
  truthy (activeContractId s) = false -> (0 <= tickCount s)%Z ->
  let s' := Nat.iter n (fun st => processTick st d) s in
  let I := calculateFragmentInterval s in
  (5 <= I)%Z
  /\ calculateFragmentInterval s' = I
  /\ tickCount s' = (tickCount s + Z.of_nat n)%Z
  /\ fragments (resources s')
     == fragments (resources s)
        + inject_Z ((tickCount s + Z.of_nat n) / I - tickCount s / I).
Proof.
  intros Hptr Ht. cbv zeta.
  split; [apply calculateFragmentInterval_ge_5|].
  pose proof (iter_no_contract s d n Hptr) as (_ & Hn & Hi). cbv zeta in Hn, Hi.
  split; [done|]. split; [done|]. clear Hn Hi.
  induction n as [|n IH].
  - change (Nat.iter 0 (fun st => processTick st d) s) with s.
    replace (tickCount s + Z.of_nat 0)%Z with (tickCount s) by lia.
    rewrite Z.sub_diag. change (inject_Z 0) with 0. ring.
  - rewrite Nat.iter_succ.
    pose proof (iter_no_contract s d n Hptr) as (Hp & Hn & Hi). cbv zeta in Hp, Hn, Hi.
    pose proof (processTick_no_contract _ d (workingContract_no_pointer _ Hp)) as [_ Hf].
    rewrite Hf, IH. unfold tickDrop. rewrite Hn, Hi.
    replace (tickCount s + Z.of_nat (S n))%Z with (tickCount s + Z.of_nat n + 1)%Z by lia.
    pose proof (calculateFragmentInterval_ge_5 s) as H5.
    rewrite (div_succ (tickCount s + Z.of_nat n) (calculateFragmentInterval s))
      by lia.
    destruct (_ =? 0)%Z.
    + replace (_ + 1 - _)%Z with ((tickCount s + Z.of_nat n) / calculateFragmentInterval s
                                  - tickCount s / calculateFragmentInterval s + 1)%Z by lia.
      rewrite inject_Z_plus. change (inject_Z 1) with 1. ring.
    + rewrite Z.add_0_r. ring.
Qed.

Lemma processTick_periodic_drops_witness :
  let s := createInitialState 0 in
  let s' := Nat.iter 100 (fun st => processTick st 1) s in
  let I := calculateFragmentInterval s in
  (5 <= I)%Z
  /\ calculateFragmentInterval s' = I
  /\ tickCount s' = (tickCount s + Z.of_nat 100)%Z
  /\ fragments (resources s')
     == fragments (resources s)
        + inject_Z ((tickCount s + Z.of_nat 100) / I - tickCount s / I).
Proof.
  apply (processTick_periodic_drops (createInitialState 0) 1 100); [reflexivity | cbn; lia].
Defined.

(** * Properties of the player's actions *)

(** ** Sets of protocols *)

Section Sets.

Lemma Set_add_elem (x y : ProtocolFamily) (l : list ProtocolFamily) :
  y ∈ Set_add x l <-> y = x \/ y ∈ l.
Proof.
  unfold Set_add. destruct (decide (x ∈ l)) as [Hx|Hx].
  - split; [by right|]. intros [->|]; done.
  - rewrite elem_of_app, list_elem_of_singleton. tauto.
Qed.

Lemma Set_add_NoDup (x : ProtocolFamily) (l : list ProtocolFamily) :
  NoDup l -> NoDup (Set_add x l).
Proof.
  intros Hl. unfold Set_add. destruct (decide (x ∈ l)) as [Hx|Hx]; [done|].
  apply NoDup_app. split; [done|]. split; [|apply NoDup_singleton].
  intros y Hy ->%list_elem_of_singleton. done.
Qed.

Lemma fold_Set_add_elem (l acc : list ProtocolFamily) (y : ProtocolFamily) :
  y ∈ fold_left (fun acc x => Set_add x acc) l acc <-> y ∈ acc \/ y ∈ l.
Proof.
  revert acc. induction l as [|x l IH]; intros acc; cbn [fold_left].
  - rewrite elem_of_nil. tauto.
  - rewrite IH, Set_add_elem, elem_of_cons. tauto.
Qed.

Lemma fold_Set_add_NoDup (l acc : list ProtocolFamily) :
  NoDup acc -> NoDup (fold_left (fun acc x => Set_add x acc) l acc).
Proof.
  revert acc. induction l as [|x l IH]; intros acc Hacc; [done|].
  cbn [fold_left]. by apply IH, Set_add_NoDup.
Qed.

Lemma fold_Set_add_id (l acc : list ProtocolFamily) :
  NoDup (acc ++ l) -> fold_left (fun acc x => Set_add x acc) l acc = acc ++ l.
Proof.
  revert acc. induction l as [|x l IH]; intros acc Hnd; cbn [fold_left].
  - by rewrite app_nil_r.
  - replace (acc ++ x :: l) with ((acc ++ [x]) ++ l) in * by by rewrite <- app_assoc.
    assert (Hx : x ∉ acc).
    { apply NoDup_app in Hnd as [Hnd _]. apply NoDup_app in Hnd as (_ & Hnd & _).
      intros Hx. apply (Hnd x Hx). by apply list_elem_of_singleton. }
    replace (Set_add x acc) with (acc ++ [x]); [by apply IH|].
    unfold Set_add. by destruct (decide (x ∈ acc)).
Qed.

Lemma new_Set_elem (l : list ProtocolFamily) (y : ProtocolFamily) : y ∈ new_Set l <-> y ∈ l.
Proof. unfold new_Set. rewrite fold_Set_add_elem, elem_of_nil. tauto. Qed.

Lemma new_Set_NoDup (l : list ProtocolFamily) : NoDup (new_Set l).
Proof. apply fold_Set_add_NoDup. constructor. Qed.

Lemma new_Set_id (l : list ProtocolFamily) : NoDup l -> new_Set l = l.
Proof. intros Hl. unfold new_Set. by rewrite fold_Set_add_id. Qed.

End Sets.

(** ** Sums that are compared *)

Section Compare.

Lemma Qltb_true (a b : Q) : Qltb a b = true <-> a < b.
Proof.
  unfold Qltb. rewrite negb_true_iff. split.
  - intros H. apply Qnot_le_lt. intros Hle. apply Qle_bool_iff in Hle. congruence.
  - intros H. destruct (Qle_bool b a) eqn:E; [|done].
    apply Qle_bool_iff in E. apply Qlt_not_le in H. done.
Qed.

Lemma Qltb_false (a b : Q) : Qltb a b = false <-> b <= a.
Proof.
  unfold Qltb. rewrite negb_false_iff. apply Qle_bool_iff.
Qed.

End Compare.

(** ** Switching protocols *)

(** X8. [switchProtocol] refuses exactly when the protocol asked for is the
    active one or its switch cost exceeds the credits.  When it accepts, the
    protocol is the active one, the credits are lowered by the switch cost
    and are not negative, the set of protocols used holds the new protocol
    and what it held before and nothing twice, and nothing else changes. *)
Theorem switchProtocol_spec (s : GameState) (p : ProtocolFamily) :
  let cost := switchCost (PROTOCOL_DEFINITIONS p) in
  (switchProtocol s p = None <-> activeProtocol s = p \/ credits (resources s) < cost)
  /\ forall s', switchProtocol s p = Some s' ->
       activeProtocol s' = p
       /\ credits (resources s') = credits (resources s) - cost
       /\ 0 <= credits (resources s')
       /\ (forall q, q ∈ protocolsUsed s' <-> q = p \/ q ∈ protocolsUsed s)
       /\ NoDup (protocolsUsed s')
       /\ s' = with_protocolsUsed (protocolsUsed s')
                 (with_activeProtocol p
                    (with_resources (pay_credits cost (resources s)) s)).
Proof.
  cbv zeta. unfold switchProtocol.
  destruct (bool_decide_reflect (activeProtocol s = p)) as [Hp|Hp].
  { split; [|done]. split; [by left | done]. }
  destruct (Qltb _ _) eqn:Hc.
  { apply Qltb_true in Hc. split; [|done]. split; [by right | done]. }
  apply Qltb_false in Hc. split.
  { split; [done|]. intros [?|Hlt]; [done|]. apply Qlt_not_le in Hlt. done. }
  intros s' [= <-]. action_fields.
  split; [done|]. split; [done|]. split; [lra|]. split.
  { intros q. by rewrite Set_add_elem, new_Set_elem. }
  split; [apply Set_add_NoDup, new_Set_NoDup | done].
Qed.

(** ** Adding a lane *)

(** X9. [addLane] refuses exactly when there are three lanes or more, or the
    price (200 credits for the second lane, 500 otherwise) exceeds the
    credits.  When it accepts, the lanes are the old lanes followed by one
    new lane, at most three in all; the new lane has the number of old lanes
    as its id, an empty queue, no heat, and the modules of positive level
    enabled, each once, in the order decrypt, checksum, compress, tag; the
    credits are lowered by the price and are not negative. *)
Theorem addLane_spec (s : GameState) :
  let n := length (lanes s) in
  let cost := if (n =? 1)%nat then LANE_COST else LANE_COST_3 in
  (addLane s = None <-> (3 <= n)%nat \/ credits (resources s) < cost)
  /\ forall s', addLane s = Some s' ->
       exists lane,
         lanes s' = lanes s ++ [lane]
         /\ (length (lanes s') <= 3)%nat
         /\ lane_id lane = Z.of_nat n /\ queue lane = 0 /\ heat lane = 0
         /\ enabledModules lane
            = filter (fun m => (0 < level (module_info (modules s) m))%Z)
                     [decrypt; checksum; compress; tag]
         /\ NoDup (enabledModules lane)
         /\ (forall m, m ∈ enabledModules lane <-> (0 < level (module_info (modules s) m))%Z)
         /\ credits (resources s') = credits (resources s) - cost
         /\ 0 <= credits (resources s')
         /\ s' = with_lanes (lanes s')
                   (with_resources (pay_credits cost (resources s)) s).
Proof.
  cbv zeta. unfold addLane.
  destruct (Nat.leb_spec 3 (length (lanes s))) as [Hn|Hn].
  { split; [|done]. split; [by left | done]. }
  destruct (Qltb _ _) eqn:Hc.
  { apply Qltb_true in Hc. split; [|done]. split; [by right | done]. }
  apply Qltb_false in Hc. split.
  { split; [done|]. intros [?|Hlt]; [lia|]. apply Qlt_not_le in Hlt. done. }
  intros s' [= <-]. action_fields. eexists. split; [done|].
  split; [rewrite length_app; cbn; lia|].
  cbn [lane_id queue heat enabledModules set_enabledModules createLane].
  split; [done|]. split; [done|]. split; [done|]. split; [done|].
  split.
  { apply NoDup_filter. compute_done. }
  split.
  { intros m. rewrite list_elem_of_filter. unfold Object_keys_modules.
    split; [tauto|]. intros H. split; [done|]. destruct m; repeat constructor. }
  split; [done|]. split; [lra | done].
Qed.

(** ** Unlocking and toggling modules *)

Section ModuleSwitches.

Lemma module_info_set_module (t u : ModuleType) (info : ModuleInfo) (ms : Modules) :
  module_info (set_module t info ms) u = if decide (u = t) then info else module_info ms u.
Proof. by destruct t, u. Qed.

Lemma imap_replace {A} (f : A -> A) (l : list A) (idx : nat) (x : A) :
  l !! idx = Some x ->
  imap (fun i y => if (i =? idx)%nat then f y else y) l = <[idx := f x]> l.
Proof.
  intros Hx. apply list_eq. intros i. rewrite list_lookup_imap.
  destruct (decide (i = idx)) as [->|Hne].
  - rewrite Hx, list_lookup_insert_eq by (by eapply lookup_lt_Some). cbn.
    by rewrite Nat.eqb_refl.
  - rewrite list_lookup_insert_ne by done. destruct (l !! i) eqn:E; [|done]. cbn.
    apply Nat.eqb_neq in Hne. by rewrite Hne.
Qed.

Lemma list_find_None_lanes (ls : list LaneState) (laneId : Z) :
  list_find (fun l => lane_id l = laneId) ls = None
  <-> forall l, l ∈ ls -> lane_id l <> laneId.
Proof. rewrite list_find_None, Forall_forall. done. Qed.

End ModuleSwitches.

(** X10. [unlockModule] refuses exactly when the module has a positive level
    or its unlock cost exceeds the credits.  When it accepts, the module has
    level 1 and the other modules are as before; the credits are lowered by
    the unlock cost and are not negative; every lane keeps its id, queue and
    heat and has the module enabled: where it was enabled the list is as
    before, elsewhere the module is appended, so that a list without
    repetition stays so; nothing else changes. *)
Theorem unlockModule_spec (s : GameState) (m : ModuleType) :
  let cost := unlockCost (MODULE_DEFINITIONS m) in
  (unlockModule s m = None
   <-> (0 < level (module_info (modules s) m))%Z \/ credits (resources s) < cost)
  /\ forall s', unlockModule s m = Some s' ->
       module_info (modules s') m = mkModuleInfo m 1
       /\ (forall t, t <> m -> module_info (modules s') t = module_info (modules s) t)
       /\ credits (resources s') = credits (resources s) - cost
       /\ 0 <= credits (resources s')
       /\ Forall2 (fun l' l =>
                     lane_id l' = lane_id l /\ queue l' = queue l /\ heat l' = heat l
                     /\ m ∈ enabledModules l'
                     /\ enabledModules l'
                        = (if bool_decide (m ∈ enabledModules l) then enabledModules l
                           else enabledModules l ++ [m])
                     /\ (NoDup (enabledModules l) -> NoDup (enabledModules l')))
                  (lanes s') (lanes s)
       /\ s' = with_lanes (lanes s')
                 (with_modules (modules s')
                    (with_resources (pay_credits cost (resources s)) s)).
Proof.
  cbv zeta. unfold unlockModule.
  destruct (Z.ltb_spec 0 (level (module_info (modules s) m))) as [Hl|Hl].
  { split; [|done]. split; [by left | done]. }
  destruct (Qltb _ _) eqn:Hc.
  { apply Qltb_true in Hc. split; [|done]. split; [by right | done]. }
  apply Qltb_false in Hc. split.
  { split; [done|]. intros [?|Hlt]; [lia|]. apply Qlt_not_le in Hlt. done. }
  intros s' [= <-]. action_fields.
  split; [rewrite module_info_set_module; by destruct (decide (m = m))|].
  split; [intros t Ht; rewrite module_info_set_module; by destruct (decide (t = m))|].
  split; [done|]. split; [lra|]. split; [|done].
  apply Forall2_fmap_l, Forall_Forall2_diag, Forall_forall. intros l _.
  cbn [compose]. action_fields.
  split; [done|]. split; [done|]. split; [done|].
  destruct (bool_decide_reflect (m ∈ enabledModules l)) as [Hin|Hin].
  - done.
  - split; [apply elem_of_app; right; by apply list_elem_of_singleton|].
    split; [done|]. intros Hnd. apply NoDup_app. split; [done|].
    split; [|apply NoDup_singleton].
    intros y Hy ->%list_elem_of_singleton. done.
Qed.

(** X11. [toggleLaneModule] refuses exactly when no lane has the id asked
    for or the module has level 0.  When it accepts, it changes the first
    lane of that id and no other: the module is enabled there afterwards if
    and only if it was not before, every other module is enabled as before,
    a list without repetition stays so, and nothing else changes. *)
Theorem toggleLaneModule_spec (s : GameState) (laneId : Z) (m : ModuleType) :
  (toggleLaneModule s laneId m = None
   <-> (forall l, l ∈ lanes s -> lane_id l <> laneId)
       \/ level (module_info (modules s) m) = 0%Z)
  /\ forall s', toggleLaneModule s laneId m = Some s' ->
       exists idx lane lane',
         lanes s !! idx = Some lane /\ lane_id lane = laneId
         /\ (forall j l, lanes s !! j = Some l -> lane_id l = laneId -> (idx <= j)%nat)
         /\ lanes s' = <[idx := lane']> (lanes s)
         /\ lane_id lane' = lane_id lane /\ queue lane' = queue lane
         /\ heat lane' = heat lane
         /\ (m ∈ enabledModules lane' <-> m ∉ enabledModules lane)
         /\ (forall t, t <> m -> t ∈ enabledModules lane' <-> t ∈ enabledModules lane)
         /\ (NoDup (enabledModules lane) -> NoDup (enabledModules lane'))
         /\ s' = with_lanes (lanes s') s.
Proof.
  unfold toggleLaneModule.
  destruct (list_find _ _) as [[idx lane]|] eqn:Hfind.
  2: { pose proof (proj1 (list_find_None_lanes _ _) Hfind) as Hno.
       split; [|done]. split; [by left | done]. }
  apply list_find_Some in Hfind as (Hidx & Hid & Hfirst).
  destruct (Z.eqb_spec (level (module_info (modules s) m)) 0) as [Hl|Hl].
  { split; [|done]. split; [by right | done]. }
  split.
  { split; [done|]. intros [Hno|?]; [|done].
    exfalso. apply (Hno lane); [by eapply list_elem_of_lookup_2 | done]. }
  intros s' [= <-]. action_fields.
  rewrite (imap_replace _ _ _ _ Hidx).
  exists idx, lane. eexists. split; [done|]. split; [done|]. split.
  { intros j l Hj Hl'. destruct (Nat.le_gt_cases idx j) as [|Hlt]; [done|].
    exfalso. by apply (Hfirst j l Hj Hlt). }
  split; [done|]. action_fields.
  split; [done|]. split; [done|]. split; [done|].
  destruct (bool_decide_reflect (m ∈ enabledModules lane)) as [Hin|Hin].
  - split; [rewrite list_elem_of_filter; tauto|]. split.
    + intros t Ht. rewrite list_elem_of_filter. tauto.
    + split; [apply NoDup_filter | done].
  - split; [rewrite elem_of_app, list_elem_of_singleton; tauto|]. split.
    + intros t Ht. rewrite elem_of_app, list_elem_of_singleton. tauto.
    + split; [|done]. intros Hnd. apply NoDup_app. split; [done|].
      split; [|apply NoDup_singleton].
      intros y Hy ->%list_elem_of_singleton. done.
Qed.

Section Toggle.

Lemma filter_app_not_in (m : ModuleType) (l : list ModuleType) :
  m ∉ l -> filter (fun x => x <> m) (l ++ [m]) = l.
Proof.
  intros Hm. rewrite filter_app.
  replace (filter (fun x => x <> m) [m]) with (@nil ModuleType).
  2: { rewrite filter_cons. by destruct (decide (m <> m)). }
  rewrite app_nil_r. induction l as [|x l IH]; [done|].
  apply not_elem_of_cons in Hm as [Hx Hm].
  rewrite filter_cons. destruct (decide (x <> m)); [|done]. by rewrite IH.
Qed.

End Toggle.

(** X12. Toggling a module that is off on a lane, and toggling it again,
    gives the state back: what [toggleLaneModule] appends to the lane's
    list the second call filters out. *)
Theorem toggleLaneModule_on_off (s s1 : GameState) (laneId : Z) (m : ModuleType)
    (idx : nat) (lane : LaneState) :
  list_find (fun l => lane_id l = laneId) (lanes s) = Some (idx, lane) ->
  m ∉ enabledModules lane ->
  toggleLaneModule s laneId m = Some s1 ->
  m ∈ enabledModules (default lane (lanes s1 !! idx))
  /\ toggleLaneModule s1 laneId m = Some s.
Proof.
  intros Hfind Hoff. unfold toggleLaneModule at 1. rewrite Hfind.
  destruct (Z.eqb_spec (level (module_info (modules s) m)) 0) as [Hl|Hl]; [done|].
  rewrite bool_decide_eq_false_2 by done.
  pose proof Hfind as (Hidx & Hid & Hfirst)%list_find_Some.
  rewrite (imap_replace _ _ _ _ Hidx).
  intros [= <-]. action_fields.
  rewrite list_lookup_insert_eq by (by eapply lookup_lt_Some). cbn [default].
  action_fields. split; [apply elem_of_app; right; by apply list_elem_of_singleton|].
  unfold toggleLaneModule. action_fields.
  assert (Hfind' :
    list_find (fun l => lane_id l = laneId)
              (<[idx := set_enabledModules (enabledModules lane ++ [m]) lane]> (lanes s))
    = Some (idx, set_enabledModules (enabledModules lane ++ [m]) lane)).
  { apply list_find_Some. split.
    - by rewrite list_lookup_insert_eq by (by eapply lookup_lt_Some).
    - split; [done|]. intros j y Hj Hlt.
      rewrite list_lookup_insert_ne in Hj by lia. by apply (Hfirst j y Hj Hlt). }
  rewrite Hfind'.
  destruct (Z.eqb_spec (level (module_info (modules s) m)) 0) as [|_]; [done|].
  action_fields.
  rewrite bool_decide_eq_true_2
    by (apply elem_of_app; right; by apply list_elem_of_singleton).
  rewrite (imap_replace _ _ _ _
             (proj1 (proj1 (list_find_Some _ _ _ _) Hfind'))).
  action_fields. rewrite filter_app_not_in by done.
  rewrite list_insert_insert_eq.
  replace (set_enabledModules (enabledModules lane)
             (set_enabledModules (enabledModules lane ++ [m]) lane))
    with lane by by destruct lane.
  rewrite list_insert_id by done. f_equal. by destruct s.
Qed.

Lemma toggleLaneModule_on_off_witness :
  let s1 := default checksumOffState (toggleLaneModule checksumOffState 0 checksum) in
  checksum ∈ enabledModules (default (createLane 0) (lanes s1 !! 0%nat))
  /\ toggleLaneModule s1 0 checksum = Some checksumOffState.
Proof.
  apply (toggleLaneModule_on_off checksumOffState _ 0 checksum 0 (createLane 0)).
  - reflexivity.
  - compute_done.
  - reflexivity.
Defined.

(** ** The upgrade shop *)

Section Shop.

Lemma level_of_insert (m : gmap string Z) (k k' : string) (v : Z) :
  level_of (<[k := v]> m) k' = if decide (k' = k) then v else level_of m k'.
Proof.
  unfold level_of. destruct (decide (k' = k)) as [->|Hne].
  - by rewrite lookup_insert_eq.
  - by rewrite lookup_insert_ne.
Qed.

Lemma UPGRADE_MAP_Some (upgradeId : string) (def : Upg.t) :
  UPGRADE_MAP upgradeId = Some def -> def ∈ UPGRADE_DEFINITIONS /\ Upg.id def = upgradeId.
Proof.
  unfold UPGRADE_MAP.
  destruct (list_find _ _) as [[i u]|] eqn:Hfind; [|done].
  intros [= <-]. apply list_find_Some in Hfind as (Hi & Hid & _).
  split; [|done]. apply list_elem_of_lookup_2 in Hi. by apply elem_of_reverse in Hi.
Qed.

Lemma UPGRADE_MAP_catalog (def : Upg.t) :
  def ∈ UPGRADE_DEFINITIONS -> UPGRADE_MAP (Upg.id def) = Some def.
Proof.
  intros Hin. unfold UPGRADE_DEFINITIONS in Hin.
  repeat (apply elem_of_cons in Hin as [->|Hin]; [reflexivity|]).
  by apply elem_of_nil in Hin.
Qed.

(** The module that a catalog id upgrades. *)
Lemma upgraded_module (def : Upg.t) :
  def ∈ UPGRADE_DEFINITIONS ->
  (Upg.category def = module_upgrade
   /\ exists t, ModuleType_of_key (String_replace "module_" "" (Upg.id def)) = Some t
                /\ Upg.id def = "module_" +:+ ModuleType_key t
                /\ forall u, u <> t -> Upg.id def <> "module_" +:+ ModuleType_key u)
  \/ (Upg.category def <> module_upgrade
      /\ forall u, Upg.id def <> "module_" +:+ ModuleType_key u).
Proof.
  intros Hin. unfold UPGRADE_DEFINITIONS in Hin.
  repeat (apply elem_of_cons in Hin as [->|Hin];
          [first [ right; split; [done|]; by intros []
                 | left; split; [done|]; eexists; split; [reflexivity|];
                   split; [reflexivity|]; by intros [] ] |]).
  by apply elem_of_nil in Hin.
Qed.

End Shop.

(** X13. [buyUpgrade] on an upgrade of the catalog, whatever the price
    list.  The purchase is refused exactly when the level has reached the
    maximum of the upgrade or the price exceeds the credits.  When it is
    accepted, the level of the upgrade rises by one and does not exceed the
    maximum, no other upgrade level changes, the credits are lowered by the
    price and are not negative, and the level of a module rises by one
    exactly when the id is [module_] followed by the name of that module (so
    no module changes for a hardware or software upgrade, and a module
    upgrade raises the module even from level 0); nothing else changes. *)
Theorem buyUpgrade_spec (upgradeCost : Upg.t -> Z -> Q) (s : GameState) (def : Upg.t) :
  def ∈ UPGRADE_DEFINITIONS ->
  let upgradeId := Upg.id def in
  let lvl := level_of (upgradesPurchased s) upgradeId in
  (buyUpgrade upgradeCost s upgradeId = None
   <-> (Upg.maxLevel def <= lvl)%Z \/ credits (resources s) < upgradeCost def lvl)
  /\ forall s', buyUpgrade upgradeCost s upgradeId = Some s' ->
       level_of (upgradesPurchased s') upgradeId = (lvl + 1)%Z
       /\ (lvl + 1 <= Upg.maxLevel def)%Z
       /\ (forall k, k <> upgradeId ->
             level_of (upgradesPurchased s') k = level_of (upgradesPurchased s) k)
       /\ credits (resources s') = credits (resources s) - upgradeCost def lvl
       /\ 0 <= credits (resources s')
       /\ (forall t,
             mtype (module_info (modules s') t) = mtype (module_info (modules s) t)
             /\ level (module_info (modules s') t)
                = (level (module_info (modules s) t)
                   + if bool_decide (upgradeId = "module_" +:+ ModuleType_key t)
                     then 1 else 0)%Z)
       /\ s' = with_modules (modules s')
                 (with_upgradesPurchased (upgradesPurchased s')
                    (with_resources (pay_credits (upgradeCost def lvl) (resources s)) s)).
Proof.
  intros Hin. cbv zeta. unfold buyUpgrade.
  rewrite (UPGRADE_MAP_catalog def Hin).
  destruct (Z.leb_spec (Upg.maxLevel def) (level_of (upgradesPurchased s) (Upg.id def)))
    as [Hmax|Hmax]; [split; [split; [by left | done] | done]|].
  destruct (Qltb _ _) eqn:Hc.
  { apply Qltb_true in Hc. split; [split; [by right | done] | done]. }
  apply Qltb_false in Hc. cbv zeta. split.
  { split.
    - destruct (bool_decide _); [destruct (ModuleType_of_key _)|]; done.
    - intros [?|Hlt]; [lia|]. apply Qlt_not_le in Hlt. done. }
  intros s' Hs'.
  assert (Hfacts :
    level_of (<[Upg.id def := (level_of (upgradesPurchased s) (Upg.id def) + 1)%Z]>
                (upgradesPurchased s)) (Upg.id def)
    = (level_of (upgradesPurchased s) (Upg.id def) + 1)%Z
    /\ (level_of (upgradesPurchased s) (Upg.id def) + 1 <= Upg.maxLevel def)%Z
    /\ (forall k, k <> Upg.id def ->
          level_of (<[Upg.id def := (level_of (upgradesPurchased s) (Upg.id def) + 1)%Z]>
                      (upgradesPurchased s)) k
          = level_of (upgradesPurchased s) k)
    /\ 0 <= credits (resources s)
             - upgradeCost def (level_of (upgradesPurchased s) (Upg.id def))).
  { split; [rewrite level_of_insert; by destruct (decide (Upg.id def = Upg.id def))|].
    split; [lia|]. split; [|lra].
    intros k Hk. rewrite level_of_insert. by destruct (decide (k = Upg.id def)). }
  destruct Hfacts as (Hf1 & Hf2 & Hf3 & Hf4).
  destruct (upgraded_module def Hin) as [(Hcat & t & Hkey & Hname & Hother)|(Hcat & Hother)].
  - rewrite bool_decide_eq_true_2 in Hs' by done. rewrite Hkey in Hs'.
    injection Hs' as <-. action_fields.
    repeat (split; [done|]). split; [|done].
    intros u. rewrite module_info_set_module.
    destruct (decide (u = t)) as [->|Hne].
    + action_fields. by rewrite bool_decide_eq_true_2 by done.
    + rewrite bool_decide_eq_false_2 by by apply Hother. split; [done | lia].
  - rewrite bool_decide_eq_false_2 in Hs' by done.
    injection Hs' as <-. action_fields.
    repeat (split; [done|]). split; [|by destruct s].
    intros u. rewrite bool_decide_eq_false_2 by by apply Hother. split; [done | lia].
Qed.

Lemma buyUpgrade_spec_witness :
  let s := processTick (createInitialState 0) 60 in
  let upgradeId := Upg.id decryptUpgrade in
  let lvl := level_of (upgradesPurchased s) upgradeId in
  (buyUpgrade basePrices s upgradeId = None
   <-> (Upg.maxLevel decryptUpgrade <= lvl)%Z
       \/ credits (resources s) < basePrices decryptUpgrade lvl)
  /\ forall s', buyUpgrade basePrices s upgradeId = Some s' ->
       level_of (upgradesPurchased s') upgradeId = (lvl + 1)%Z
       /\ (lvl + 1 <= Upg.maxLevel decryptUpgrade)%Z
       /\ (forall k, k <> upgradeId ->
             level_of (upgradesPurchased s') k = level_of (upgradesPurchased s) k)
       /\ credits (resources s') = credits (resources s) - basePrices decryptUpgrade lvl
       /\ 0 <= credits (resources s')
       /\ (forall t,
             mtype (module_info (modules s') t) = mtype (module_info (modules s) t)
             /\ level (module_info (modules s') t)
                = (level (module_info (modules s) t)
                   + if bool_decide (upgradeId = "module_" +:+ ModuleType_key t)
                     then 1 else 0)%Z)
       /\ s' = with_modules (modules s')
                 (with_upgradesPurchased (upgradesPurchased s')
                    (with_resources
                       (pay_credits (basePrices decryptUpgrade lvl) (resources s)) s)).
Proof.
  apply (buyUpgrade_spec basePrices (processTick (createInitialState 0) 60) decryptUpgrade).
  unfold UPGRADE_DEFINITIONS, decryptUpgrade. repeat constructor.
Defined.

(** ** The perk shop *)

Section Perks.

Lemma META_PERKS_find (perkId : string) :
  match list_find (fun p => Perk.id p = perkId) META_PERKS with
  | Some (_, p) =>
    p ∈ META_PERKS /\ Perk.id p = perkId /\ (0 < Perk.costPerLevel p)%Z
    /\ (0 < Perk.maxLevel p)%Z
  | None => forall p, p ∈ META_PERKS -> Perk.id p <> perkId
  end.
Proof.
  destruct (list_find _ _) as [[i p]|] eqn:Hfind.
  - apply list_find_Some in Hfind as (Hi & Hid & _).
    apply list_elem_of_lookup_2 in Hi. split; [done|]. split; [done|].
    clear Hid. unfold META_PERKS in Hi.
    repeat (apply elem_of_cons in Hi as [->|Hi]; [by cbn|]).
    by apply elem_of_nil in Hi.
  - apply list_find_None in Hfind. rewrite Forall_forall in Hfind. done.
Qed.

End Perks.

(** X14. [buyMetaPerk] refuses exactly when the catalog has no perk of that
    id, or the perk is at its maximum level, or its cost exceeds the
    reputation available.  When it accepts, the level of the perk rises by
    one and does not exceed the maximum, no other perk changes, the
    reputation spent rises by the cost, the reputation available falls by
    the cost and is not negative, the lifetime reputation and the reset
    counter are as before, and nothing outside the meta progress changes. *)
Theorem buyMetaPerk_spec (s : GameState) (perkId : string) :
  let lvl := level_of (perks (meta s)) perkId in
  (buyMetaPerk s perkId = None
   <-> (forall p, p ∈ META_PERKS -> Perk.id p <> perkId)
       \/ exists p, p ∈ META_PERKS /\ Perk.id p = perkId
                    /\ ((Perk.maxLevel p <= lvl)%Z
                        \/ (availableReputation s < Perk.costPerLevel p)%Z))
  /\ forall s', buyMetaPerk s perkId = Some s' ->
       exists p,
         p ∈ META_PERKS /\ Perk.id p = perkId
         /\ level_of (perks (meta s')) perkId = (lvl + 1)%Z
         /\ (lvl + 1 <= Perk.maxLevel p)%Z
         /\ (forall k, k <> perkId ->
               level_of (perks (meta s')) k = level_of (perks (meta s)) k)
         /\ spentReputation (meta s') = (spentReputation (meta s) + Perk.costPerLevel p)%Z
         /\ availableReputation s' = (availableReputation s - Perk.costPerLevel p)%Z
         /\ (0 <= availableReputation s')%Z
         /\ totalReputation (meta s') = totalReputation (meta s)
         /\ prestigeCount (meta s') = prestigeCount (meta s)
         /\ s' = with_meta (meta s') s.
Proof.
  cbv zeta. unfold buyMetaPerk.
  pose proof (META_PERKS_find perkId) as Hfind.
  destruct (list_find _ _) as [[i p]|].
  2: { split; [|done]. split; [by left | done]. }
  destruct Hfind as (Hin & Hid & Hcost & Hmaxpos).
  assert (Huniq : forall q, q ∈ META_PERKS -> Perk.id q = perkId -> q = p).
  { intros q Hq Hqid. rewrite <- Hid in Hqid. clear Hid. revert Hqid.
    unfold META_PERKS in Hin, Hq.
    repeat (apply elem_of_cons in Hin as [->|Hin];
            [repeat (apply elem_of_cons in Hq as [->|Hq]; [by cbn|]);
             by apply elem_of_nil in Hq|]).
    by apply elem_of_nil in Hin. }
  destruct (Z.leb_spec (Perk.maxLevel p) (level_of (perks (meta s)) perkId)) as [Hmax|Hmax].
  { split; [|done]. split; [|done]. intros _. right. exists p. auto. }
  destruct (Z.ltb_spec (availableReputation s) (Perk.costPerLevel p)) as [Hav|Hav].
  { split; [|done]. split; [|done]. intros _. right. exists p. auto. }
  split.
  { split; [done|]. intros [Hno|(q & Hq & Hqid & Hbad)].
    - exfalso. by apply (Hno p).
    - rewrite (Huniq q Hq Hqid) in Hbad. lia. }
  intros s' [= <-]. exists p. unfold availableReputation in *. action_fields.
  split; [done|]. split; [done|].
  split; [rewrite level_of_insert; by destruct (decide (perkId = perkId))|].
  split; [lia|]. split.
  { intros k Hk. rewrite level_of_insert. by destruct (decide (k = perkId)). }
  split; [done|]. split; [lia|]. split; [lia|]. done.
Qed.

(** * Properties of the contract board *)

Section BoardContents.

Lemma CONTRACT_TEMPLATES_NoDup : NoDup CONTRACT_TEMPLATES.
Proof. apply (NoDup_fmap_1 Tpl.id). compute_done. Qed.

Lemma CONTRACT_TEMPLATES_fair :
  Forall (fun t => 0 < Tpl.targetPayload t /\ 0 <= Tpl.rewardCredits t
                   /\ 0 <= Tpl.rewardFragments t) CONTRACT_TEMPLATES.
Proof. repeat (constructor; [cbn; repeat split; lra|]). constructor. Qed.

Lemma filter_all {A} (P : A -> Prop) `{!forall x, Decision (P x)} (l : list A) :
  Forall P l -> filter P l = l.
Proof.
  induction 1 as [|x l Hx _ IH]; [done|].
  rewrite filter_cons. destruct (decide (P x)); [by rewrite IH | done].
Qed.

Lemma filter_none {A} (P : A -> Prop) `{!forall x, Decision (P x)} (l : list A) :
  Forall (fun x => ~ P x) l -> filter P l = [].
Proof.
  induction 1 as [|x l Hx _ IH]; [done|].
  rewrite filter_cons. by destruct (decide (P x)).
Qed.

Lemma CONTRACT_TEMPLATES_gates :
  Forall (fun t => (0 <= Tpl.minPrestige t)%Z) CONTRACT_TEMPLATES
  /\ Forall (fun t => (Tpl.minPrestige t <= 0)%Z) (take 3 CONTRACT_TEMPLATES)
  /\ length (take 3 CONTRACT_TEMPLATES) = 3%nat.
Proof.
  split; [repeat (constructor; [cbn; lia|]); constructor|].
  split; [|reflexivity].
  unfold CONTRACT_TEMPLATES. cbn [take].
  repeat (constructor; [cbn; lia|]). constructor.
Qed.

Lemma available_at_least_three (prestigeCount : Z) :
  (0 <= prestigeCount)%Z ->
  (3 <= length (filter (fun t => (Tpl.minPrestige t <= prestigeCount)%Z)
                       CONTRACT_TEMPLATES))%nat.
Proof.
  intros Hp. destruct CONTRACT_TEMPLATES_gates as (_ & Hlow & Hlen).
  rewrite <- (take_drop 3 CONTRACT_TEMPLATES), filter_app, length_app.
  rewrite filter_all; [lia|].
  eapply Forall_impl; [exact Hlow|]. cbv beta. intros t Ht. lia.
Qed.

Lemma available_none (prestigeCount : Z) :
  (prestigeCount < 0)%Z ->
  filter (fun t => (Tpl.minPrestige t <= prestigeCount)%Z) CONTRACT_TEMPLATES = [].
Proof.
  intros Hp. destruct CONTRACT_TEMPLATES_gates as (Hall & _).
  apply filter_none. eapply Forall_impl; [exact Hall|]. cbv beta. intros t Ht. lia.
Qed.

Lemma instantiate_open (seed : Z) (i : nat) (t : Tpl.t) : openContract (instantiate seed i t).
Proof. done. Qed.

End BoardContents.

(** X15. The board that [buildContractBoard] builds instantiates catalog
    templates: distinct ones, each with its prestige gate met, as many as
    there are up to three (three whenever the prestige count is not
    negative, none when it is).  Every contract of the board is open (not
    active, not expired, no progress, its full time remaining), has a
    positive target and rewards that are not negative. *)
Theorem buildContractBoard_catalog (prestigeCount seed : Z) :
  let available :=
    filter (fun t => (Tpl.minPrestige t <= prestigeCount)%Z) CONTRACT_TEMPLATES in
  let board := buildContractBoard prestigeCount seed in
  (exists ts,
     board = imap (instantiate seed) ts
     /\ NoDup ts
     /\ (forall t, t ∈ ts -> t ∈ CONTRACT_TEMPLATES /\ (Tpl.minPrestige t <= prestigeCount)%Z)
     /\ length ts = Nat.min 3 (length available))
  /\ length board = Nat.min 3 (length available)
  /\ ((0 <= prestigeCount)%Z -> length board = 3%nat)
  /\ ((prestigeCount < 0)%Z -> board = [])
  /\ Forall (fun c => openContract c /\ fairTerms c) board.
Proof.
  cbv zeta. rewrite buildContractBoard_first_three.
  destruct (shuffleTemplates_spec prestigeCount seed) as [Hperm _].
  assert (Hlen : length (take 3 (shuffleTemplates prestigeCount seed))
                 = Nat.min 3 (length (filter (fun t => (Tpl.minPrestige t <= prestigeCount)%Z)
                                             CONTRACT_TEMPLATES))).
  { by rewrite length_take, Hperm. }
  assert (Hin : forall t, t ∈ take 3 (shuffleTemplates prestigeCount seed) ->
                  t ∈ CONTRACT_TEMPLATES /\ (Tpl.minPrestige t <= prestigeCount)%Z).
  { intros t Ht. apply subseteq_take in Ht. rewrite Hperm in Ht.
    by apply list_elem_of_filter in Ht as [? ?]. }
  split; [|split; [|split; [|split]]].
  - eexists. split; [done|]. split; [|done].
    eapply sublist_NoDup; [|apply sublist_take].
    rewrite Hperm. apply NoDup_filter, CONTRACT_TEMPLATES_NoDup.
  - by rewrite length_imap.
  - intros Hp. rewrite length_imap, Hlen.
    pose proof (available_at_least_three prestigeCount Hp). lia.
  - intros Hp. rewrite (available_none prestigeCount Hp) in Hperm.
    apply Permutation_nil_r in Hperm. by rewrite Hperm.
  - apply Forall_forall. intros c Hc.
    apply elem_of_lookup_imap in Hc as (i & t & -> & Ht).
    split; [apply instantiate_open|].
    apply list_elem_of_lookup_2, Hin in Ht as [Ht _].
    pose proof CONTRACT_TEMPLATES_fair as Hfair. rewrite Forall_forall in Hfair.
    by apply Hfair.
Qed.

Section Upkeep.

Lemma isBoardExhausted_true (s : GameState) :
  isBoardExhausted s = true
  <-> contracts s <> []
      /\ forall c, c ∈ contracts s ->
           active c = false /\ (targetPayload c <= progressPayload c \/ expired c = true).
Proof.
  unfold isBoardExhausted. rewrite andb_true_iff, forallb_forall. split.
  - intros [Hlen Hall]. split.
    { intros Hnil. rewrite Hnil in Hlen. done. }
    intros c Hc. apply list_elem_of_In, Hall in Hc.
    apply andb_true_iff in Hc as [Ha Hc]. apply negb_true_iff in Ha.
    split; [done|]. apply orb_true_iff in Hc as [Hc|Hc]; [left|by right].
    by apply Qle_bool_iff in Hc.
  - intros [Hne Hall]. split.
    { destruct (contracts s); [done|]. done. }
    intros c Hc. apply list_elem_of_In, Hall in Hc as [Ha Hc].
    rewrite Ha. cbn. apply orb_true_iff. destruct Hc as [Hc|Hc]; [left|by right].
    by apply Qle_bool_iff.
Qed.

Lemma isBoardExhausted_open (s : GameState) (c : ContractState) :
  c ∈ contracts s ->
  active c = true \/ (expired c = false /\ progressPayload c < targetPayload c) ->
  isBoardExhausted s = false.
Proof.
  intros Hc Hopen. destruct (isBoardExhausted s) eqn:E; [|done].
  apply isBoardExhausted_true in E as [_ Hall].
  destruct (Hall c Hc) as [Ha Hclosed].
  destruct Hopen as [?|[Hexp Hlt]]; [congruence|].
  destruct Hclosed as [Hle|?]; [|congruence].
  apply Qlt_not_le in Hlt. done.
Qed.

Lemma refreshContractBoard_open (s : GameState) :
  Forall (fun c => openContract c /\ fairTerms c) (contracts (refreshContractBoard s)).
Proof.
  unfold refreshContractBoard. fields.
  rewrite buildContractBoard_first_three.
  apply Forall_forall. intros c Hc.
  apply elem_of_lookup_imap in Hc as (i & t & -> & Ht).
  split; [apply instantiate_open|].
  apply list_elem_of_lookup_2, subseteq_take in Ht.
  destruct (shuffleTemplates_spec (prestigeCount (meta s))
              (Z.lxor (toInt32 (tickCount s)) (toInt32 (prestigeCount (meta s) * 1000))))
    as [Hperm _].
  rewrite Hperm in Ht. apply list_elem_of_filter in Ht as [_ Ht].
  pose proof CONTRACT_TEMPLATES_fair as Hfair. rewrite Forall_forall in Hfair.
  by apply Hfair.
Qed.

Lemma refreshContractBoard_not_exhausted (s : GameState) :
  isBoardExhausted (refreshContractBoard s) = false.
Proof.
  destruct (contracts (refreshContractBoard s)) as [|c l] eqn:E.
  { unfold isBoardExhausted. by rewrite E. }
  pose proof (refreshContractBoard_open s) as Hall. rewrite E in Hall.
  apply Forall_cons in Hall as [[(Ha & He & Hp & _) (Ht & _)] _].
  apply (isBoardExhausted_open _ c); [rewrite E; by left|].
  right. split; [done|]. by rewrite Hp.
Qed.

Lemma refreshContractBoard_twice (s : GameState) :
  refreshContractBoard (refreshContractBoard s) = refreshContractBoard s.
Proof. reflexivity. Qed.

Lemma refreshContractBoard_length (s : GameState) :
  (0 <= prestigeCount (meta s))%Z -> length (contracts (refreshContractBoard s)) = 3%nat.
Proof.
  intros Hp. unfold refreshContractBoard. fields.
  rewrite buildContractBoard_first_three, length_imap, length_take.
  destruct (shuffleTemplates_spec (prestigeCount (meta s))
              (Z.lxor (toInt32 (tickCount s)) (toInt32 (prestigeCount (meta s) * 1000))))
    as [Hperm _].
  rewrite Hperm. pose proof (available_at_least_three _ Hp). lia.
Qed.

End Upkeep.

(** X16. [ensureBoard] keeps a board that still has something to offer and
    replaces one that has not.  Its result is never exhausted; applying it
    again changes nothing; the board of the result is not empty when the
    prestige count is not negative; a state that holds an active contract,
    or a contract that is neither expired nor at its target, is returned as
    it is; and the invariant of the board is kept. *)
Theorem ensureBoard_spec (s : GameState) :
  isBoardExhausted (ensureBoard s) = false
  /\ ensureBoard (ensureBoard s) = ensureBoard s
  /\ ((0 <= prestigeCount (meta s))%Z -> contracts (ensureBoard s) <> [])
  /\ (forall c, c ∈ contracts s ->
        active c = true \/ (expired c = false /\ progressPayload c < targetPayload c) ->
        ensureBoard s = s)
  /\ (boardInv s -> boardInv (ensureBoard s)).
Proof.
  assert (Hkeep : forall c, c ∈ contracts s ->
            active c = true \/ (expired c = false /\ progressPayload c < targetPayload c) ->
            ensureBoard s = s).
  { intros c Hc Hopen. unfold ensureBoard.
    rewrite (isBoardExhausted_open s c Hc Hopen).
    destruct (contracts s); [by apply elem_of_nil in Hc | done]. }
  assert (Hrefreshed : ensureBoard (refreshContractBoard s) = refreshContractBoard s).
  { unfold ensureBoard. rewrite refreshContractBoard_not_exhausted, orb_false_r.
    destruct (_ =? _)%nat; [apply refreshContractBoard_twice | done]. }
  assert (Hcases :
    ensureBoard s = refreshContractBoard s
    \/ (ensureBoard s = s /\ contracts s <> [] /\ isBoardExhausted s = false)).
  { unfold ensureBoard.
    destruct (Nat.eqb_spec (length (contracts s)) 0) as [Hlen|Hlen]; [by left|].
    destruct (isBoardExhausted s); [by left|]. right.
    split; [done|]. split; [|done]. intros Hnil. by rewrite Hnil in Hlen. }
  destruct Hcases as [Heq|(Heq & Hne & Hex)]; rewrite Heq.
  - split; [apply refreshContractBoard_not_exhausted|].
    split; [done|]. split; [|split].
    + intros Hp Hnil. pose proof (refreshContractBoard_length s Hp) as H3.
      rewrite Hnil in H3. done.
    + intros c Hc Hopen. rewrite <- Heq. by apply (Hkeep c).
    + intros _. apply refreshContractBoard_boardInv.
  - split; [done|]. split; [done|]. done.
Qed.

(** X17. An exhausted board offers nothing: when every contract has a
    positive target and [isBoardExhausted] holds, [activateContract] refuses
    every id. *)
Theorem exhausted_board_refuses (s : GameState) (contractId : string) :
  Forall (fun c => 0 < targetPayload c) (contracts s) ->
  isBoardExhausted s = true ->
  activateContract s contractId = None.
Proof.
  intros Htarget Hex. apply isBoardExhausted_true in Hex as [_ Hall].
  unfold activateContract.
  destruct (list_find _ _) as [[i c]|] eqn:Hfind; [|done].
  apply list_find_lookup in Hfind as [Hi _]. apply list_elem_of_lookup_2 in Hi.
  destruct (Hall c Hi) as [_ Hclosed]. rewrite Forall_forall in Htarget.
  pose proof (Htarget c Hi) as Ht.
  destruct Hclosed as [Hle|Hexp]; [|by rewrite Hexp, orb_true_r].
  assert (Hpos : Qltb 0 (progressPayload c) = true) by (apply Qltb_true; lra).
  by rewrite Hpos, orb_true_r.
Qed.

Lemma exhausted_board_refuses_witness :
  activateContract exhaustedBoardState "done_contract" = None.
Proof.
  apply (exhausted_board_refuses exhaustedBoardState "done_contract");
    [repeat constructor | reflexivity].
Defined.

(** * The hash of the shuffle *)

Section Hash.

Lemma toInt32_mod (z : Z) : (toInt32 z mod 2 ^ 32 = z mod 2 ^ 32)%Z.
Proof.
  unfold toInt32. rewrite Zminus_mod_idemp_l. f_equal. lia.
Qed.

Lemma hash_step_mod (h h' c : Z) :
  (h mod 2 ^ 32 = h' mod 2 ^ 32)%Z ->
  (toInt32 (Math_imul 31 h + c) mod 2 ^ 32 = (31 * h' + c) mod 2 ^ 32)%Z.
Proof.
  intros Hh. rewrite toInt32_mod. unfold Math_imul.
  rewrite <- Zplus_mod_idemp_l, toInt32_mod.
  rewrite <- Zmult_mod_idemp_l, toInt32_mod, Zmult_mod_idemp_l.
  rewrite <- Zmult_mod_idemp_r, toInt32_mod, Hh, Zmult_mod_idemp_r.
  by rewrite Zplus_mod_idemp_l.
Qed.

Lemma hash_fold_mod (codes : list Z) (h h' : Z) :
  (h mod 2 ^ 32 = h' mod 2 ^ 32)%Z ->
  (fold_left (fun h c => toInt32 (Math_imul 31 h + c)) codes h mod 2 ^ 32
   = fold_left (fun h c => (31 * h + c)%Z) codes h' mod 2 ^ 32)%Z.
Proof.
  revert h h'. induction codes as [|c codes IH]; intros h h' Hh; [done|].
  cbn [fold_left]. by apply IH, hash_step_mod.
Qed.

End Hash.

(** X18. [deterministicHash] is the polynomial hash of the code units to
    the base 31, reduced modulo [2^32]: the 32-bit wrap-around of every step
    ([Math.imul], [| 0]) and the unsigned reading at the end ([>>> 0]) lose
    nothing but multiples of [2^32].  The result lies in [[0, 2^32)]. *)
Theorem deterministicHash_polynomial (s : string) :
  deterministicHash s = (hashPolynomial (charCodes s) mod 2 ^ 32)%Z
  /\ (0 <= deterministicHash s < 2 ^ 32)%Z.
Proof.
  assert (H : deterministicHash s = (hashPolynomial (charCodes s) mod 2 ^ 32)%Z).
  { unfold deterministicHash, hashPolynomial, toUint32. by apply hash_fold_mod. }
  split; [done|]. rewrite H. apply Z.mod_pos_bound. lia.
Qed.

(** * Saving and loading *)

(** X19. Loading what was saved gives the state back: for a state whose
    set of protocols holds nothing twice, [deserializeState] of
    [serializeState] is the state itself, members in the same order. *)
Theorem deserializeState_serializeState (s : GameState) :
  NoDup (protocolsUsed s) -> deserializeState (serializeState s) = s.
Proof.
  intros Hnd. unfold deserializeState, serializeState. fields.
  rewrite new_Set_id by done. by destruct s.
Qed.

Lemma deserializeState_serializeState_witness :
  deserializeState (serializeState (processTick (createInitialState 0) 1))
  = processTick (createInitialState 0) 1.
Proof.
  apply (deserializeState_serializeState (processTick (createInitialState 0) 1)).
  compute_done.
Defined.

(** * Further properties of the offline replay *)

Section ReplayCounts.

Lemma iter_tick_counts (s : GameState) (d : Q) (n : nat) :
  let s' := Nat.iter n (fun st => processTick st d) s in
  tickCount s' = (tickCount s + Z.of_nat n)%Z
  /\ playtimeSec (stats s') == playtimeSec (stats s) + d * inject_Z (Z.of_nat n)
  /\ version s' = version s /\ modules s' = modules s
  /\ activeProtocol s' = activeProtocol s
  /\ upgradesPurchased s' = upgradesPurchased s /\ meta s' = meta s.
Proof.
  cbv zeta. induction n as [|n (IHt & IHp & IHv & IHm & IHa & IHu & IHmeta)].
  - change (Nat.iter 0 (fun st => processTick st d) s) with s.
    split; [lia|]. split; [|done]. change (inject_Z (Z.of_nat 0)) with 0. ring.
  - rewrite Nat.iter_succ.
    pose proof (processTick_config (Nat.iter n (fun st => processTick st d) s) d)
      as (Hv & _ & Hm & Ha & Hu & Hmeta).
    cbv zeta in Hv, Hm, Ha, Hu, Hmeta.
    rewrite processTick_tickCount, processTick_playtimeSec, IHt, IHp.
    split; [lia|]. split.
    { rewrite Nat2Z.inj_succ. unfold Z.succ. rewrite inject_Z_plus.
      change (inject_Z 1) with 1. ring. }
    by rewrite Hv, Hm, Ha, Hu, Hmeta.
Qed.

End ReplayCounts.

(** X20. What a replay adds up to.  The replay advances the step counter
    by the number of ticks that its summary reports and leaves the version,
    the module levels, the active protocol, the upgrade levels and the meta
    progress as they were; with an offline-cap perk level that is not
    negative it adds exactly the elapsed seconds of the summary to the
    elapsed-time statistic, and the number of ticks is the number of whole
    minutes elapsed, or one more. *)
Theorem processOfflineProgress_counts (s : GameState) (nowMs : Z) :
  let s' := (processOfflineProgress s nowMs).1 in
  let summary := (processOfflineProgress s nowMs).2 in
  tickCount s' = (tickCount s + ticksSimulated summary)%Z
  /\ (version s' = version s /\ modules s' = modules s
      /\ activeProtocol s' = activeProtocol s
      /\ upgradesPurchased s' = upgradesPurchased s /\ meta s' = meta s)
  /\ ((0 <= level_of (perks (meta s)) "perk_offline_cap")%Z ->
      playtimeSec (stats s') == playtimeSec (stats s) + elapsedSeconds summary
      /\ (Z.of_nat (fullChunks (elapsedSeconds summary)) <= ticksSimulated summary
          <= Z.of_nat (fullChunks (elapsedSeconds summary)) + 1)%Z).
Proof.
  cbv zeta. rewrite processOfflineProgress_run. cbn [fst snd elapsedSeconds ticksSimulated].
  set (elapsed := Qmin _ _).
  pose proof (iter_minus_chunk (fullChunks elapsed) elapsed) as Hrest.
  unfold OFFLINE_CHUNK_SECONDS in Hrest.
  pose proof (iter_tick_counts s 60 (fullChunks elapsed))
    as (Ht & Hp & Hv & Hm & Ha & Hu & Hmeta).
  cbv zeta in Ht, Hp, Hv, Hm, Ha, Hu, Hmeta.
  revert Hrest Ht Hp Hv Hm Ha Hu Hmeta.
  generalize (Nat.iter (fullChunks elapsed) (fun r : Q => r - 60) elapsed).
  generalize (Nat.iter (fullChunks elapsed) (fun st : GameState => processTick st 60) s).
  intros chunked rest Hrest Ht Hp Hv Hm Ha Hu Hmeta.
  destruct (Qltb 0 rest) eqn:Hpos.
  - pose proof (processTick_config chunked rest) as (Hv' & _ & Hm' & Ha' & Hu' & Hmeta').
    cbv zeta in Hv', Hm', Ha', Hu', Hmeta'.
    pose proof (processTick_tickCount chunked rest) as Htf.
    pose proof (processTick_playtimeSec chunked rest) as Hpf.
    revert Hv' Hm' Ha' Hu' Hmeta' Htf Hpf.
    generalize (processTick chunked rest). intros final Hv' Hm' Ha' Hu' Hmeta' Htf Hpf.
    fields.
    split; [lia|]. split; [by rewrite Hv', Hm', Ha', Hu', Hmeta'|].
    intros _. split; [|lia]. rewrite Hpf, Hp, Hrest. ring.
  - fields. split; [lia|]. split; [done|].
    intros Hlevel. split; [|lia].
    apply Qltb_false in Hpos.
    assert (Hel : 0 <= elapsed).
    { subst elapsed. apply Q.min_glb; [apply Q.le_max_l|].
      apply inject_Z_nonneg. lia. }
    pose proof (remainder_nonneg elapsed Hel) as Hnn.
    unfold OFFLINE_CHUNK_SECONDS in Hnn. rewrite <- Hrest in Hnn.
    rewrite Hp. assert (Hz : rest == 0) by lra. rewrite Hrest in Hz. lra.
Qed.

(** X21. A clock that has not advanced replays nothing: when [now] is not
    later than the stamp of the state, [processOfflineProgress] returns the
    state with its stamp set to [now] and reports no tick. *)
Theorem processOfflineProgress_no_time (s : GameState) (nowMs : Z) :
  (nowMs <= lastTickTime s)%Z ->
  (processOfflineProgress s nowMs).1 = with_lastTickTime nowMs s
  /\ ticksSimulated (processOfflineProgress s nowMs).2 = 0%Z
  /\ elapsedSeconds (processOfflineProgress s nowMs).2 <= 0
  /\ payloadEarned (processOfflineProgress s nowMs).2 == 0
  /\ creditsEarned (processOfflineProgress s nowMs).2 == 0
  /\ fragmentsEarned (processOfflineProgress s nowMs).2 == 0.
Proof.
  intros Hnow. rewrite processOfflineProgress_run.
  cbn [fst snd elapsedSeconds ticksSimulated payloadEarned creditsEarned fragmentsEarned].
  set (elapsed := Qmin _ _).
  assert (Hel : elapsed <= 0).
  { subst elapsed. apply Qle_trans with (Qmax 0 (inject_Z (nowMs - lastTickTime s) / 1000));
      [apply Q.le_min_l|].
    apply Q.max_lub; [lra|].
    assert (Hneg : inject_Z (nowMs - lastTickTime s) <= 0).
    { change 0 with (inject_Z 0). rewrite <- Zle_Qle. lia. }
    revert Hneg. generalize (inject_Z (nowMs - lastTickTime s)). intros x Hx.
    apply Qle_shift_div_r; lra. }
  assert (Hn : fullChunks elapsed = 0%nat).
  { apply fullChunks_stop. destruct (Qle_bool OFFLINE_CHUNK_SECONDS elapsed) eqn:E; [|done].
    apply Qle_bool_iff in E. unfold OFFLINE_CHUNK_SECONDS in E. lra. }
  rewrite Hn.
  change (Nat.iter 0 (fun r : Q => r - 60) elapsed) with elapsed.
  change (Nat.iter 0 (fun st : GameState => processTick st 60) s) with s.
  assert (Hpos : Qltb 0 elapsed = false) by by apply Qltb_false.
  rewrite Hpos. repeat split; try done; ring.
Qed.

Lemma processOfflineProgress_no_time_witness :
  (processOfflineProgress (createInitialState 5000) 1000).1
  = with_lastTickTime 1000 (createInitialState 5000)
  /\ ticksSimulated (processOfflineProgress (createInitialState 5000) 1000).2 = 0%Z
  /\ elapsedSeconds (processOfflineProgress (createInitialState 5000) 1000).2 <= 0
  /\ payloadEarned (processOfflineProgress (createInitialState 5000) 1000).2 == 0
  /\ creditsEarned (processOfflineProgress (createInitialState 5000) 1000).2 == 0
  /\ fragmentsEarned (processOfflineProgress (createInitialState 5000) 1000).2 == 0.
Proof.
  apply (processOfflineProgress_no_time (createInitialState 5000) 1000). cbn. lia.
Defined.

(** * The invariant of a run *)

Section Caps.

Lemma UPGRADE_DEFINITIONS_levels :
  Forall (fun def => (0 < Upg.maxLevel def)%Z) UPGRADE_DEFINITIONS.
Proof. repeat (constructor; [cbn; lia|]). constructor. Qed.

Lemma upgradeCap_nonneg (k : string) : (0 <= upgradeCap k)%Z.
Proof.
  unfold upgradeCap. destruct (UPGRADE_MAP k) as [def|] eqn:E; [|done].
  apply UPGRADE_MAP_Some in E as [Hin _]. cbn.
  pose proof UPGRADE_DEFINITIONS_levels as H. rewrite Forall_forall in H.
  specialize (H def Hin). lia.
Qed.

Lemma perkCap_nonneg (k : string) : (0 <= perkCap k)%Z.
Proof.
  unfold perkCap. pose proof (META_PERKS_find k) as H.
  destruct (list_find _ _) as [[i p]|]; [|done]. cbn.
  destruct H as (_ & _ & _ & H). lia.
Qed.

Lemma level_of_empty (k : string) : level_of ∅ k = 0%Z.
Proof. unfold level_of. by rewrite lookup_empty. Qed.

End Caps.

Section Invariant.

Variable upgradeCost : Upg.t -> Z -> Q.

Lemma playInv_wellFormed (s : GameState) : playInv s -> wellFormed s.
Proof.
  intros [_ (_ & _ & Hl) (Hu & Hm & _) (Hp & _) _ _ _ (_ & Hfair & _ & _)]. split.
  - intros k. apply Hu.
  - intros k. apply Hp.
  - intros t. apply Hm.
  - eapply Forall_impl; [exact Hl|]. by intros l (? & _).
  - eapply Forall_impl; [exact Hfair|]. by intros c (_ & ? & ?).
Qed.

Lemma createInitialState_playInv (now : Z) : playInv (createInitialState now).
Proof.
  split; inv_unfold.
  - done.
  - split; [cbn; lia|]. split.
    + intros [|i] l; [|done]. by intros [= <-].
    + constructor; [|constructor]. cbn [createLane queue heat enabledModules].
      split; [apply Qle_refl|]. split; [apply Qle_refl|]. split; [lra|].
      split; [apply NoDup_singleton|].
      intros m ->%list_elem_of_singleton. cbn. lia.
  - split; [|split].
    + intros k. rewrite level_of_empty. pose proof (upgradeCap_nonneg k). lia.
    + intros t. rewrite level_of_empty. destruct t; cbn; split; (done || lia).
    + cbn. lia.
  - split; [|cbn; lia].
    intros k. cbn [perks]. rewrite level_of_empty. pose proof (perkCap_nonneg k). lia.
  - cbn. repeat split; (lra || lia || done).
  - cbn. split; [done|]. done.
  - split; [compute_done|]. split; compute_done.
  - split; [apply boardOk_nil|]. split; [constructor|]. split; [cbn; lia | done].
Qed.

(** *** Ticks *)

Lemma tickLaneResult_lanesInv (s : GameState) (d : Q) :
  (0 <= level_of (upgradesPurchased s) "hw_cooling")%Z ->
  (0 <= level_of (perks (meta s)) "perk_latency_shield")%Z ->
  lanesInv (modules s) (lanes s) -> lanesInv (modules s) (tickLaneResult s d).1.
Proof.
  intros Hc Hs (Hlen & Hids & Hall).
  pose proof (totalLatencyReduction_range _ _ Hc Hs) as [Hr0 Hr1].
  unfold tickLaneResult. rewrite laneLoop_eq. cbn [fst].
  rewrite zip_with_diag, <- list_fmap_compose.
  split; [by rewrite length_fmap|]. split.
  - intros i l'. rewrite list_lookup_fmap.
    destruct (lanes s !! i) as [l|] eqn:E; [|done].
    cbn [fmap option_fmap option_map]. intros Heq. apply (inj Some) in Heq.
    rewrite <- Heq. cbn [compose]. unfold laneBody. cbn [fst lane_id]. by apply Hids.
  - apply Forall_fmap. eapply Forall_impl; [exact Hall|].
    intros l (_ & _ & _ & Hnd & Hlev). cbn [compose fst snd].
    pose proof (laneBody_bounds s d
                  (calculateScrapGenRate s * d / inject_Z (Z.of_nat (length (lanes s))))
                  (inject_Z (level_of (upgradesPurchased s) "hw_buffer" * 10))
                  _ l l Hr0 Hr1) as (? & ? & ?).
    cbv zeta in *. done.
Qed.

Lemma processTick_protocolsUsed (s : GameState) (d : Q) :
  protocolsUsed (processTick s d) = new_Set (protocolsUsed s).
Proof.
  rewrite processTick_stages.
  pose proof (prestigeReadyStep_frame
                (contractStep (tickPayload s d) d (beforeContracts s d))) as Hp.
  pose proof (contractStep_frame (tickPayload s d) d (beforeContracts s d)) as Hc.
  cbv zeta in Hp, Hc.
  destruct Hp as (_ & _ & _ & _ & _ & _ & _ & _ & _ & _ & _ & _ & ->).
  destruct Hc as (_ & _ & _ & _ & _ & _ & _ & -> & _).
  done.
Qed.

Lemma fairTerms_terms (l l' : list ContractState) :
  contractTerms <$> l' = contractTerms <$> l ->
  Forall fairTerms l -> Forall fairTerms l'.
Proof.
  intros Ht Hl. apply Forall_forall. intros c' Hc'.
  apply (list_elem_of_fmap_2 contractTerms) in Hc'. rewrite Ht in Hc'.
  apply list_elem_of_fmap in Hc' as (c & Heq & Hc).
  rewrite Forall_forall in Hl. specialize (Hl c Hc).
  unfold contractTerms in Heq. unfold fairTerms in *.
  by injection Heq as _ _ _ _ -> _ -> -> _.
Qed.

Lemma contractStep_pointerLive (total d : Q) (s : GameState) :
  pointerLive s -> pointerLive (contractStep total d s).
Proof.
  intros Hlive. unfold contractStep.
  destruct (truthy _); [|done].
  destruct (list_find _ _) as [[i c]|] eqn:Hfind; [|done].
  apply list_find_Some in Hfind as (Hi & Hid & _).
  destruct (active c) eqn:Hact; [|done].
  assert (Hlen : (i < length (contracts s))%nat) by by eapply lookup_lt_Some.
  unfold pointerLive.
  destruct (timeRemainingS _) as [t|].
  - destruct (Qleb (t - d) 0);
      cbn [set_active set_expired set_timeRemainingS set_progressPayload
           progressPayload targetPayload rewardFragments rewardCredits tier];
      destruct (Qleb _ _); try destruct (bool_decide _); fields; try done.
    intros contractId Hptr. eexists. split; [|split].
    + eapply list_elem_of_lookup_2. by apply list_lookup_insert_eq.
    + fields. congruence.
    + done.
  - cbn [set_progressPayload progressPayload targetPayload rewardCredits tier].
    destruct (Qleb _ _); try destruct (bool_decide _); fields; try done.
    intros contractId Hptr. eexists. split; [|split].
    + eapply list_elem_of_lookup_2. by apply list_lookup_insert_eq.
    + fields. congruence.
    + done.
Qed.

Lemma processTick_pointerLive (s : GameState) (d : Q) :
  pointerLive s -> pointerLive (processTick s d).
Proof.
  intros Hlive. rewrite processTick_stages.
  pose proof (prestigeReadyStep_frame
                (contractStep (tickPayload s d) d (beforeContracts s d))) as Hp.
  cbv zeta in Hp. destruct Hp as (_ & _ & Hc & Hptr & _).
  unfold pointerLive. rewrite Hc, Hptr.
  by apply (contractStep_pointerLive (tickPayload s d) d (beforeContracts s d)).
Qed.

Lemma processTick_playInv (s : GameState) (d : Q) :
  playInv s -> 0 <= d -> playInv (processTick s d).
Proof.
  intros Hinv Hd. pose proof (playInv_wellFormed s Hinv) as Hwf.
  destruct Hinv as [Hv Hl Hlev Hm Hf Hr Hp Ho].
  pose proof (processTick_config s d) as (Hv' & _ & Hmod & Hproto & Hup & Hmeta).
  pose proof (processTick_grows s d Hwf Hd)
    as (Hg1 & Hg2 & Hg3 & Hg4 & Hg5 & Hg6 & Hg7 & Hg8 & Hg9).
  destruct (processTick_accounts s d) as (reward & _ & _ & _ & _ & Hscrap & Hcount).
  pose proof (processTick_ready s d) as (Hkeep & Hset & Hnew).
  cbv zeta in *.
  split.
  - by rewrite Hv'.
  - rewrite Hmod, processTick_lanes. apply tickLaneResult_lanesInv; [| |done].
    + apply (wf_upgrades s Hwf).
    + apply (wf_perks s Hwf).
  - by rewrite Hmod, Hup.
  - by rewrite Hmeta.
  - destruct Hf as (? & ? & ? & ? & ? & ? & ? & ? & ? & ?).
    unfold fundsInv. rewrite Hscrap.
    repeat split; try lra; try lia; try done.
    destruct Hcount as [(-> & -> & _)|(i & c & _ & -> & -> & _)]; [lia|].
    destruct (bool_decide _); lia.
  - destruct Hr as [Hr1 Hr2]. split; [done|].
    intros n Hn. destruct (prestigeReadyAt (stats s)) as [m|] eqn:Hmark.
    + rewrite (Hkeep m eq_refl) in Hn. injection Hn as <-.
      destruct (Hr2 m eq_refl) as [Hcan Hm'].
      split; [|lia]. unfold canPrestige, Qleb in *.
      apply Qle_bool_iff in Hcan. apply Qle_bool_iff. lra.
    + destruct (Hnew eq_refl n Hn) as [-> Hcan]. split; [done|].
      rewrite processTick_tickCount. destruct Hf as (_ & _ & _ & _ & _ & _ & _ & ? & _). lia.
  - destruct Hp as (Hnd & Hact & Hburst). unfold protocolsInv.
    rewrite processTick_protocolsUsed, Hproto, new_Set_id by done. done.
  - destruct Ho as (Hb & Hfair & Hlen & Hlive).
    pose proof (processTick_contractTerms s d) as Ht.
    split; [by apply processTick_boardInv|]. split; [|split].
    + by apply (fairTerms_terms (contracts s)).
    + apply (f_equal length) in Ht. rewrite !length_fmap in Ht. lia.
    + by apply processTick_pointerLive.
Qed.

(** *** The board and the clock *)

Lemma stamp_playInv (now : Z) (s : GameState) : playInv s -> playInv (stamp now s).
Proof.
  intros [Hv Hl Hlev Hm Hf Hr Hp Ho]. unfold stamp. split; inv_unfold; done.
Qed.

Lemma refreshContractBoard_playInv (s : GameState) :
  playInv s -> playInv (refreshContractBoard s).
Proof.
  intros [Hv Hl Hlev Hm Hf Hr Hp Ho].
  split; try (unfold refreshContractBoard; inv_unfold; done).
  split; [apply refreshContractBoard_boardInv|]. split; [|split].
  - eapply Forall_impl; [apply refreshContractBoard_open|]. by intros c [_ ?].
  - unfold refreshContractBoard. action_fields.
    rewrite buildContractBoard_first_three, length_imap, length_take. lia.
  - unfold refreshContractBoard, pointerLive. action_fields. done.
Qed.

Lemma activateContract_playInv (s s' : GameState) (contractId : string) :
  playInv s -> activateContract s contractId = Some s' -> playInv s'.
Proof.
  intros [Hv Hl Hlev Hm Hf Hr Hp Ho] Hact.
  pose proof (activateContract_boardInv s s' contractId (proj1 Ho) Hact) as Hb.
  unfold activateContract in Hact.
  destruct (list_find _ _) as [[i c]|] eqn:Hfind; [|done].
  destruct (_ || _ || _); [done|]. destruct (truthy _); [done|].
  injection Hact as <-.
  split; try (inv_unfold; done).
  destruct Ho as (_ & Hfair & Hlen & _). split; [done|]. unfold pointerLive.
  action_fields. split; [|split].
  - apply Forall_fmap. eapply Forall_impl; [exact Hfair|].
    intros x Hx. cbn [compose]. by destruct (bool_decide _).
  - by rewrite length_fmap.
  - intros contractId' [= <-].
    apply list_find_Some in Hfind as (Hi & Hid & _).
    exists (set_active true c). split; [|done].
    apply list_elem_of_fmap. exists c.
    split; [by rewrite bool_decide_eq_true_2 by done|].
    by eapply list_elem_of_lookup_2.
Qed.

(** *** The reset *)

Lemma applyPrestige_playInv `{Engine} (now : Z) (s : GameState) :
  playInv s -> playInv (applyPrestige now s).
Proof.
  intros [Hv Hl Hlev (Hperks & Hrep & Hpc) Hf Hr Hp Ho].
  pose proof (createInitialState_playInv now) as [Iv Il Ilev Im If Ir Ip Io].
  unfold applyPrestige. split; inv_unfold.
  - done.
  - pose proof (Hperks "perk_head_start") as Hhs.
    change (perkCap "perk_head_start") with 1%Z in Hhs.
    revert Hhs. generalize (level_of (perks (meta s)) "perk_head_start"). intros hs Hhs.
    split; [rewrite length_fmap, length_seqZ; lia|]. split.
    + intros i l. rewrite list_lookup_fmap.
      destruct (seqZ 0 (1 + hs) !! i) as [z|] eqn:E; [|done].
      apply lookup_seqZ in E as [-> _]. intros [= <-]. cbn. lia.
    + apply Forall_fmap, Forall_forall. intros z _.
      cbn [compose createLane queue heat enabledModules].
      split; [apply Qle_refl|]. split; [apply Qle_refl|]. split; [lra|].
      split; [apply NoDup_singleton|].
      intros m ->%list_elem_of_singleton. cbn. lia.
  - done.
  - split; [done|]. pose proof (calculateReputationGain_ge_1 s). lia.
  - done.
  - done.
  - split; [compute_done|]. split; compute_done.
  - done.
Qed.

(** *** The shops *)

Lemma buyUpgrade_playInv (s s' : GameState) (upgradeId : string) :
  playInv s -> buyUpgrade upgradeCost s upgradeId = Some s' -> playInv s'.
Proof.
  intros [Hv Hl (Hups & Hmods & Hdec) Hm Hf Hr Hp Ho]. unfold buyUpgrade.
  destruct (UPGRADE_MAP upgradeId) as [def|] eqn:Hmap; [|done].
  destruct (Z.leb_spec (Upg.maxLevel def) (level_of (upgradesPurchased s) upgradeId))
    as [Hmax|Hmax]; [done|].
  destruct (Qltb _ _) eqn:Hc; [done|]. apply Qltb_false in Hc. cbv zeta.
  pose proof (UPGRADE_MAP_Some _ _ Hmap) as [Hin Hid].
  assert (Hups' : forall k,
    (0 <= level_of (<[upgradeId := (level_of (upgradesPurchased s) upgradeId + 1)%Z]>
                      (upgradesPurchased s)) k <= upgradeCap k)%Z).
  { intros k. rewrite level_of_insert. destruct (decide (k = upgradeId)) as [->|]; [|apply Hups].
    unfold upgradeCap. rewrite Hmap. cbn. pose proof (Hups upgradeId). lia. }
  assert (Hfunds : fundsInv s ->
    0 <= credits (resources s)
         - upgradeCost def (level_of (upgradesPurchased s) upgradeId)) by (intros _; lra).
  destruct (upgraded_module def Hin) as [(Hcat & t & Hkey & Hname & Hother)|(Hcat & Hother)];
    rewrite Hid in *.
  - rewrite bool_decide_eq_true_2, Hkey by done. intros [= <-].
    split; inv_unfold; try done.
    + destruct Hl as (Hlen & Hids & Hall). split; [done|]. split; [done|].
      eapply Forall_impl; [exact Hall|]. intros l (? & ? & ? & ? & Hlev).
      repeat (split; [done|]). intros m Hm'. rewrite module_info_set_module.
      destruct (decide (m = t)) as [->|]; [|by apply Hlev].
      action_fields. pose proof (Hlev t Hm'). lia.
    + split; [done|]. split.
      * intros u. rewrite module_info_set_module, level_of_insert.
        destruct (decide (u = t)) as [->|Hne].
        -- action_fields. unfold moduleUpgradeId. rewrite <- Hname.
           destruct (decide (upgradeId = upgradeId)); [|done].
           pose proof (Hmods t) as [? ?]. unfold moduleUpgradeId in *.
           rewrite <- Hname in *. split; [done | lia].
        -- destruct (decide (moduleUpgradeId u = upgradeId)) as [Heq|]; [|apply Hmods].
           exfalso. by apply (Hother u Hne).
      * rewrite module_info_set_module.
        destruct (decide (decrypt = t)) as [<-|]; [action_fields; lia | done].
    + destruct Hf as (? & ? & ? & ? & ? & ? & ? & ? & ?). repeat split; try done; (lra || lia).
  - rewrite bool_decide_eq_false_2 by done. intros [= <-].
    split; inv_unfold; try done.
    + split; [done|]. split; [|done]. intros u. rewrite level_of_insert.
      destruct (decide (moduleUpgradeId u = upgradeId)) as [Heq|]; [|apply Hmods].
      exfalso. by apply (Hother u).
    + destruct Hf as (? & ? & ? & ? & ? & ? & ? & ? & ?). repeat split; try done; (lra || lia).
Qed.

Lemma unlockModule_playInv (s s' : GameState) (m : ModuleType) :
  playInv s -> unlockModule s m = Some s' -> playInv s'.
Proof.
  intros [Hv Hl (Hups & Hmods & Hdec) Hm Hf Hr Hp Ho]. unfold unlockModule.
  destruct (Z.ltb_spec 0 (level (module_info (modules s) m))) as [|Hl0]; [done|].
  destruct (Qltb _ _) eqn:Hc; [done|]. apply Qltb_false in Hc.
  intros [= <-]. split; inv_unfold; try done.
  - destruct Hl as (Hlen & Hids & Hall).
    split; [by rewrite length_fmap|]. split.
    + intros i l. rewrite list_lookup_fmap.
      destruct (lanes s !! i) as [l0|] eqn:E; [|done].
      intros [= <-]. action_fields. by apply Hids.
    + apply Forall_fmap. eapply Forall_impl; [exact Hall|].
      intros l (? & ? & ? & Hnd & Hlev). cbn [compose]. action_fields.
      repeat (split; [done|]).
      assert (Hlev' : forall x, x ∈ enabledModules l \/ x = m ->
                (0 < level (module_info (set_module m (mkModuleInfo m 1) (modules s)) x))%Z).
      { intros x Hx. rewrite module_info_set_module.
        destruct (decide (x = m)); [action_fields; lia|].
        destruct Hx as [Hx|?]; [by apply Hlev | done]. }
      destruct (bool_decide_reflect (m ∈ enabledModules l)) as [Hin|Hin].
      * split; [done|]. intros x Hx. apply Hlev'. by left.
      * split.
        -- apply NoDup_app. split; [done|]. split; [|apply NoDup_singleton].
           intros y Hy ->%list_elem_of_singleton. done.
        -- intros x Hx. apply Hlev'.
           apply elem_of_app in Hx as [?|Hx%list_elem_of_singleton]; auto.
  - split; [done|]. split.
    + intros u. rewrite module_info_set_module.
      destruct (decide (u = m)) as [->|]; [|apply Hmods].
      action_fields. split; [done|]. pose proof (Hups (moduleUpgradeId m)). lia.
    + rewrite module_info_set_module.
      destruct (decide (decrypt = m)) as [<-|]; [action_fields; lia | done].
  - destruct Hf as (? & ? & ? & ? & ? & ? & ? & ? & ?). repeat split; try done; (lra || lia).
Qed.

Lemma toggleLaneModule_playInv (s s' : GameState) (laneId : Z) (m : ModuleType) :
  playInv s -> toggleLaneModule s laneId m = Some s' -> playInv s'.
Proof.
  intros [Hv Hl (Hups & Hmods & Hdec) Hm Hf Hr Hp Ho]. unfold toggleLaneModule.
  destruct (list_find _ _) as [[idx lane]|] eqn:Hfind; [|done].
  destruct (Z.eqb_spec (level (module_info (modules s) m)) 0) as [|Hne]; [done|].
  apply list_find_Some in Hfind as (Hidx & _ & _).
  rewrite (imap_replace _ _ _ _ Hidx).
  intros [= <-]. split; inv_unfold; try done.
  destruct Hl as (Hlen & Hids & Hall).
  split; [by rewrite length_insert|]. split.
  - intros i l Hi. apply list_lookup_insert_Some in Hi as [(-> & <- & _)|(_ & Hi)].
    + action_fields. by apply Hids.
    + by apply Hids.
  - apply Forall_insert; [done|].
    rewrite Forall_forall in Hall.
    destruct (Hall lane (list_elem_of_lookup_2 _ _ _ Hidx)) as (? & ? & ? & Hnd & Hlev).
    action_fields. repeat (split; [done|]).
    destruct (bool_decide_reflect (m ∈ enabledModules lane)) as [Hin|Hin].
    + split; [by apply NoDup_filter|].
      intros x Hx. apply list_elem_of_filter in Hx as [_ Hx]. by apply Hlev.
    + split.
      * apply NoDup_app. split; [done|]. split; [|apply NoDup_singleton].
        intros y Hy ->%list_elem_of_singleton. done.
      * intros x Hx. apply elem_of_app in Hx as [?|Hx%list_elem_of_singleton];
          [by apply Hlev|].
        subst x. pose proof (Hmods m) as [_ ?]. lia.
Qed.

Lemma addLane_playInv (s s' : GameState) : playInv s -> addLane s = Some s' -> playInv s'.
Proof.
  intros [Hv Hl Hlev Hm Hf Hr Hp Ho]. unfold addLane.
  destruct (Nat.leb_spec 3 (length (lanes s))) as [|Hn]; [done|].
  destruct (Qltb _ _) eqn:Hc; [done|]. apply Qltb_false in Hc.
  intros [= <-]. split; inv_unfold; try done.
  - destruct Hl as (Hlen & Hids & Hall).
    split; [rewrite length_app; cbn; lia|]. split.
    + intros i l Hi. apply lookup_app_Some in Hi as [Hi|[Hge Hi]]; [by apply Hids|].
      apply list_lookup_singleton_Some in Hi as [Hi <-]. action_fields. lia.
    + apply Forall_app. split; [done|]. constructor; [|constructor].
      action_fields.
      split; [apply Qle_refl|]. split; [apply Qle_refl|]. split; [lra|].
      split; [apply NoDup_filter; compute_done|].
      intros x Hx. by apply list_elem_of_filter in Hx as [? _].
  - destruct Hf as (? & ? & ? & ? & ? & ? & ? & ? & ?). repeat split; try done; (lra || lia).
Qed.

Lemma switchProtocol_playInv (s s' : GameState) (p : ProtocolFamily) :
  playInv s -> switchProtocol s p = Some s' -> playInv s'.
Proof.
  intros [Hv Hl Hlev Hm Hf Hr Hp Ho]. unfold switchProtocol.
  destruct (bool_decide _); [done|].
  destruct (Qltb _ _) eqn:Hc; [done|]. apply Qltb_false in Hc.
  intros [= <-]. split; inv_unfold; try done.
  - destruct Hf as (? & ? & ? & ? & ? & ? & ? & ? & ?). repeat split; try done; (lra || lia).
  - destruct Hp as (_ & _ & Hburst).
    split; [apply Set_add_NoDup, new_Set_NoDup|].
    split; apply Set_add_elem; [by left|]. right. by apply new_Set_elem.
Qed.

Lemma buyMetaPerk_playInv (s s' : GameState) (perkId : string) :
  playInv s -> buyMetaPerk s perkId = Some s' -> playInv s'.
Proof.
  intros [Hv Hl Hlev (Hperks & Hrep & Hpc) Hf Hr Hp Ho]. unfold buyMetaPerk.
  pose proof (META_PERKS_find perkId) as Hspec.
  destruct (list_find _ _) as [[i perkDef]|] eqn:Hfind; [|done].
  destruct Hspec as (_ & _ & Hcost & _).
  destruct (Z.leb_spec (Perk.maxLevel perkDef) (level_of (perks (meta s)) perkId))
    as [|Hmax]; [done|].
  destruct (Z.ltb_spec (availableReputation s) (Perk.costPerLevel perkDef)) as [|Hav]; [done|].
  intros [= <-]. split; inv_unfold; try done.
  split; [|split; [lia | done]].
  intros k. rewrite level_of_insert. destruct (decide (k = perkId)) as [->|]; [|apply Hperks].
  unfold perkCap. rewrite Hfind. cbn. pose proof (Hperks perkId). lia.
Qed.

(** Every state of a run satisfies the invariant. *)
Lemma playable_playInv (s : GameState) : playable upgradeCost s -> playInv s.
Proof.
  induction 1 as [now | s d _ IH Hd | now s _ IH | s _ IH | s s' contractId _ IH Hact
                  | E now s _ IH | s s' upgradeId _ IH Hbuy | s s' m _ IH Hun
                  | s s' laneId m _ IH Htog | s s' _ IH Hadd | s s' p _ IH Hsw
                  | s s' perkId _ IH Hbuy].
  - apply createInitialState_playInv.
  - by apply processTick_playInv.
  - by apply stamp_playInv.
  - by apply refreshContractBoard_playInv.
  - by eapply activateContract_playInv.
  - by apply applyPrestige_playInv.
  - by eapply buyUpgrade_playInv.
  - by eapply unlockModule_playInv.
  - by eapply toggleLaneModule_playInv.
  - by eapply addLane_playInv.
  - by eapply switchProtocol_playInv.
  - by eapply buyMetaPerk_playInv.
Qed.

End Invariant.

(** ** What the invariant gives *)

Section Consequences.

Lemma fold_moduleStep_count (st : GameState) (ms : list ModuleType) (acc : LaneThroughput) :
  (forall m, m ∈ ms -> (0 < level (module_info (modules st) m))%Z) ->
  activeModuleCount (fold_left (moduleStep st) ms acc)
  = (activeModuleCount acc + Z.of_nat (length ms))%Z.
Proof.
  revert acc. induction ms as [|m ms IH]; intros acc Hall; cbn [fold_left length]; [lia|].
  rewrite IH by (intros x Hx; apply Hall; by right).
  unfold moduleStep. pose proof (Hall m ltac:(by left)) as Hm.
  destruct (Z.eqb_spec (level (module_info (modules st) m)) 0) as [|_]; [lia|].
  cbn [activeModuleCount]. lia.
Qed.

Lemma calculateLaneThroughput_count (lane : LaneState) (st : GameState) :
  (forall m, m ∈ enabledModules lane -> (0 < level (module_info (modules st) m))%Z) ->
  activeModuleCount (calculateLaneThroughput lane st)
  = Z.of_nat (length (enabledModules lane)).
Proof.
  intros Hall. unfold calculateLaneThroughput. cbv zeta.
  destruct (0 <? _)%Z; cbn [activeModuleCount]; by rewrite fold_moduleStep_count.
Qed.

Lemma ModuleType_NoDup_length (l : list ModuleType) : NoDup l -> (length l <= 4)%nat.
Proof.
  intros Hnd.
  change 4%nat with (length [decrypt; checksum; compress; tag]).
  apply submseteq_length, NoDup_submseteq; [done|].
  intros []; intros _; repeat constructor.
Qed.

Lemma ProtocolFamily_NoDup_length (l : list ProtocolFamily) : NoDup l -> (length l <= 3)%nat.
Proof.
  intros Hnd.
  change 3%nat with (length [burst; secure; legacy]).
  apply submseteq_length, NoDup_submseteq; [done|].
  intros []; intros _; repeat constructor.
Qed.

Lemma perkCap_catalog (p : Perk.t) : p ∈ META_PERKS -> perkCap (Perk.id p) = Perk.maxLevel p.
Proof.
  intros Hin. unfold META_PERKS in Hin.
  repeat (apply elem_of_cons in Hin as [->|Hin]; [reflexivity|]).
  by apply elem_of_nil in Hin.
Qed.

Lemma upgradeCap_catalog (def : Upg.t) :
  def ∈ UPGRADE_DEFINITIONS -> upgradeCap (Upg.id def) = Upg.maxLevel def.
Proof. intros Hin. unfold upgradeCap. by rewrite (UPGRADE_MAP_catalog def Hin). Qed.

Lemma moduleUpgradeId_cap (t : ModuleType) : upgradeCap (moduleUpgradeId t) = 4%Z.
Proof. by destruct t. Qed.

End Consequences.

(** X22. The lanes of a run.  In every state of a run there are between
    one and three lanes; the id of a lane is its position; queues are not
    negative and heat lies between 0 and 0.9; the modules enabled on a lane
    are distinct and unlocked, so that every enabled module counts as active
    in [calculateLaneThroughput] and at most four do. *)
Theorem playable_lanes (upgradeCost : Upg.t -> Z -> Q) (s : GameState) :
  playable upgradeCost s ->
  (1 <= length (lanes s) <= 3)%nat
  /\ (forall i l, lanes s !! i = Some l -> lane_id l = Z.of_nat i)
  /\ Forall (fun l =>
        0 <= queue l /\ 0 <= heat l /\ heat l <= 0.9
        /\ NoDup (enabledModules l)
        /\ (forall m, m ∈ enabledModules l -> (0 < level (module_info (modules s) m))%Z)
        /\ activeModuleCount (calculateLaneThroughput l s)
           = Z.of_nat (length (enabledModules l))
        /\ (length (enabledModules l) <= 4)%nat)
      (lanes s).
Proof.
  intros Hplay. apply playable_playInv in Hplay as [_ (Hlen & Hids & Hall) _ _ _ _ _ _].
  split; [done|]. split; [done|].
  eapply Forall_impl; [exact Hall|]. intros l (? & ? & ? & Hnd & Hlev).
  repeat (split; [done|]).
  split; [by apply calculateLaneThroughput_count | by apply ModuleType_NoDup_length].
Qed.

Lemma playable_lanes_witness :
  (1 <= length (lanes shoppingState) <= 3)%nat
  /\ (forall i l, lanes shoppingState !! i = Some l -> lane_id l = Z.of_nat i)
  /\ Forall (fun l =>
        0 <= queue l /\ 0 <= heat l /\ heat l <= 0.9
        /\ NoDup (enabledModules l)
        /\ (forall m, m ∈ enabledModules l ->
              (0 < level (module_info (modules shoppingState) m))%Z)
        /\ activeModuleCount (calculateLaneThroughput l shoppingState)
           = Z.of_nat (length (enabledModules l))
        /\ (length (enabledModules l) <= 4)%nat)
      (lanes shoppingState).
Proof.
  apply (playable_lanes basePrices shoppingState).
  apply (play_buyUpgrade basePrices (processTick (createInitialState 0) 60) _
                         "module_decrypt").
  - apply play_tick; [apply play_init | lra].
  - vm_compute. reflexivity.
Defined.

(** X23. The levels of a run.  In every state of a run the level of every
    catalog upgrade lies between 0 and its maximum, and so does the level of
    every catalog perk; every module has a level between 0 and 5, and the
    decrypt module, with which a run starts, has level 1 at least. *)
Theorem playable_levels (upgradeCost : Upg.t -> Z -> Q) (s : GameState) :
  playable upgradeCost s ->
  (forall def, def ∈ UPGRADE_DEFINITIONS ->
     (0 <= level_of (upgradesPurchased s) (Upg.id def) <= Upg.maxLevel def)%Z)
  /\ (forall p, p ∈ META_PERKS ->
        (0 <= level_of (perks (meta s)) (Perk.id p) <= Perk.maxLevel p)%Z)
  /\ (forall t, mtype (module_info (modules s) t) = t
                /\ (0 <= level (module_info (modules s) t) <= 5)%Z)
  /\ (1 <= level (module_info (modules s) decrypt))%Z.
Proof.
  intros Hplay.
  apply playable_playInv in Hplay as [_ _ (Hups & Hmods & Hdec) (Hperks & _) _ _ _ _].
  split; [|split; [|split; [|done]]].
  - intros def Hin. rewrite <- (upgradeCap_catalog def Hin). apply Hups.
  - intros p Hin. rewrite <- (perkCap_catalog p Hin). apply Hperks.
  - intros t. destruct (Hmods t) as [Ht Hlev]. split; [done|].
    pose proof (Hups (moduleUpgradeId t)) as H. rewrite moduleUpgradeId_cap in H. lia.
Qed.

Lemma playable_levels_witness :
  (forall def, def ∈ UPGRADE_DEFINITIONS ->
     (0 <= level_of (upgradesPurchased shoppingState) (Upg.id def) <= Upg.maxLevel def)%Z)
  /\ (forall p, p ∈ META_PERKS ->
        (0 <= level_of (perks (meta shoppingState)) (Perk.id p) <= Perk.maxLevel p)%Z)
  /\ (forall t, mtype (module_info (modules shoppingState) t) = t
                /\ (0 <= level (module_info (modules shoppingState) t) <= 5)%Z)
  /\ (1 <= level (module_info (modules shoppingState) decrypt))%Z.
Proof.
  apply (playable_levels basePrices shoppingState).
  apply (play_buyUpgrade basePrices (processTick (createInitialState 0) 60) _
                         "module_decrypt").
  - apply play_tick; [apply play_init | lra].
  - vm_compute. reflexivity.
Defined.

(** X24. The funds of a run.  In no state of a run is a pool or a lifetime
    total negative, and no purchase overdraws: payload, credits and
    fragments, the lifetime payload and credits and the elapsed time are not
    negative, scrap in the pool is zero, the reputation spent does not
    exceed the lifetime reputation, and the counters of steps, resets and
    completed contracts are not negative, the high-tier counter not above
    the counter of all completions. *)
Theorem playable_funds (upgradeCost : Upg.t -> Z -> Q) (s : GameState) :
  playable upgradeCost s ->
  (0 <= payload (resources s) /\ 0 <= credits (resources s)
   /\ 0 <= fragments (resources s) /\ scrap (resources s) = 0)
  /\ (0 <= totalPayloadProduced (stats s) /\ 0 <= totalCreditsEarned (stats s)
      /\ 0 <= playtimeSec (stats s))
  /\ ((0 <= spentReputation (meta s))%Z /\ (0 <= availableReputation s)%Z)
  /\ ((0 <= tickCount s)%Z /\ (0 <= prestigeCount (meta s))%Z
      /\ (0 <= highTierContractsCompleted s <= completedContractCount s)%Z)
  /\ version s = 1%Z.
Proof.
  intros Hplay.
  apply playable_playInv in Hplay
    as [Hv _ _ (_ & Hrep & Hpc) (? & ? & ? & ? & ? & ? & ? & ? & ?) _ _ _].
  unfold availableReputation. repeat split; try done; lia.
Qed.

Lemma playable_funds_witness :
  (0 <= payload (resources shoppingState) /\ 0 <= credits (resources shoppingState)
   /\ 0 <= fragments (resources shoppingState) /\ scrap (resources shoppingState) = 0)
  /\ (0 <= totalPayloadProduced (stats shoppingState)
      /\ 0 <= totalCreditsEarned (stats shoppingState)
      /\ 0 <= playtimeSec (stats shoppingState))
  /\ ((0 <= spentReputation (meta shoppingState))%Z
      /\ (0 <= availableReputation shoppingState)%Z)
  /\ ((0 <= tickCount shoppingState)%Z /\ (0 <= prestigeCount (meta shoppingState))%Z
      /\ (0 <= highTierContractsCompleted shoppingState
          <= completedContractCount shoppingState)%Z)
  /\ version shoppingState = 1%Z.
Proof.
  apply (playable_funds basePrices shoppingState).
  apply (play_buyUpgrade basePrices (processTick (createInitialState 0) 60) _
                         "module_decrypt").
  - apply play_tick; [apply play_init | lra].
  - vm_compute. reflexivity.
Defined.

(** X25. The protocols of a run.  In every state of a run the set of
    protocols used holds nothing twice, holds the active protocol and the
    starting protocol, and so has between one and three members: the
    protocol score of the prestige reward lies between 1 and 3. *)
Theorem playable_protocols (upgradeCost : Upg.t -> Z -> Q) (s : GameState) :
  playable upgradeCost s ->
  NoDup (protocolsUsed s)
  /\ activeProtocol s ∈ protocolsUsed s
  /\ burst ∈ protocolsUsed s
  /\ (1 <= length (protocolsUsed s) <= 3)%nat.
Proof.
  intros Hplay. apply playable_playInv in Hplay as [_ _ _ _ _ _ (Hnd & Hact & Hb) _].
  repeat (split; [done|]). split; [|by apply ProtocolFamily_NoDup_length].
  destruct (protocolsUsed s); [by apply elem_of_nil in Hb | cbn; lia].
Qed.

Lemma playable_protocols_witness :
  NoDup (protocolsUsed shoppingState)
  /\ activeProtocol shoppingState ∈ protocolsUsed shoppingState
  /\ burst ∈ protocolsUsed shoppingState
  /\ (1 <= length (protocolsUsed shoppingState) <= 3)%nat.
Proof.
  apply (playable_protocols basePrices shoppingState).
  apply (play_buyUpgrade basePrices (processTick (createInitialState 0) 60) _
                         "module_decrypt").
  - apply play_tick; [apply play_init | lra].
  - vm_compute. reflexivity.
Defined.

(** X26. The board of a run, with every action of the player in play.  In
    every state of a run the board has three contracts at most, with
    distinct ids that are not empty, positive targets and rewards that are
    not negative; at most one contract is active; a contract is active only
    if the pointer names it, and the pointer, when it is set, names a
    contract that is active. *)
Theorem playable_board (upgradeCost : Upg.t -> Z -> Q) (s : GameState) :
  playable upgradeCost s ->
  (length (contracts s) <= 3)%nat
  /\ NoDup (contract_id <$> contracts s)
  /\ Forall (fun c => contract_id c <> "" /\ fairTerms c) (contracts s)
  /\ singleActive (contracts s)
  /\ (forall c, c ∈ contracts s -> active c = true ->
        activeContractId s = Some (contract_id c))
  /\ (forall contractId, activeContractId s = Some contractId ->
        exists c, c ∈ contracts s /\ contract_id c = contractId /\ active c = true).
Proof.
  intros Hplay.
  apply playable_playInv in Hplay as [_ _ _ _ _ _ _ (Hb & Hfair & Hlen & Hlive)].
  pose proof (boardOk_singleActive _ _ Hb) as Hsingle.
  destruct Hb as (Hnd & Hne & Hptr).
  split; [done|]. split; [done|]. split; [|done].
  rewrite Forall_forall in Hfair. apply Forall_forall. intros c Hc.
  split; [by apply Hne | by apply Hfair].
Qed.

Lemma playable_board_witness :
  (length (contracts runningContractState) <= 3)%nat
  /\ NoDup (contract_id <$> contracts runningContractState)
  /\ Forall (fun c => contract_id c <> "" /\ fairTerms c) (contracts runningContractState)
  /\ singleActive (contracts runningContractState)
  /\ (forall c, c ∈ contracts runningContractState -> active c = true ->
        activeContractId runningContractState = Some (contract_id c))
  /\ (forall contractId, activeContractId runningContractState = Some contractId ->
        exists c, c ∈ contracts runningContractState /\ contract_id c = contractId
                  /\ active c = true).
Proof.
  apply (playable_board basePrices runningContractState).
  apply play_tick; [|lra].
  apply (play_activate basePrices firstBoardState _ "tpl_burst_low_1_run0_0").
  - apply play_refresh, play_init.
  - vm_compute. reflexivity.
Defined.

(** X27. The readiness marker of a run.  In every state of a run the
    marker is set exactly when [canPrestige] holds, and a marker that is set
    holds a step count between 1 and the step counter. *)
Theorem playable_readiness (upgradeCost : Upg.t -> Z -> Q) (s : GameState) :
  playable upgradeCost s ->
  (canPrestige s = true <-> prestigeReadyAt (stats s) <> None)
  /\ (forall n, prestigeReadyAt (stats s) = Some n -> (1 <= n <= tickCount s)%Z).
Proof.
  intros Hplay. apply playable_playInv in Hplay as [_ _ _ _ _ [Hr1 Hr2] _ _].
  split.
  - split; [done|]. destruct (prestigeReadyAt (stats s)) as [n|] eqn:E; [|done].
    intros _. by destruct (Hr2 n eq_refl).
  - intros n Hn. destruct (Hr2 n Hn). lia.
Qed.

Lemma playable_readiness_witness :
  (canPrestige shoppingState = true <-> prestigeReadyAt (stats shoppingState) <> None)
  /\ (forall n, prestigeReadyAt (stats shoppingState) = Some n ->
        (1 <= n <= tickCount shoppingState)%Z).
Proof.
  apply (playable_readiness basePrices shoppingState).
  apply (play_buyUpgrade basePrices (processTick (createInitialState 0) 60) _
                         "module_decrypt").
  - apply play_tick; [apply play_init | lra].
  - vm_compute. reflexivity.
Defined.

Section Composites.

Variable upgradeCost : Upg.t -> Z -> Q.

Lemma iter_playable (s : GameState) (d : Q) (n : nat) :
  playable upgradeCost s -> 0 <= d ->
  playable upgradeCost (Nat.iter n (fun st => processTick st d) s).
Proof.
  intros Hplay Hd. induction n as [|n IH]; [done|].
  rewrite Nat.iter_succ. by apply play_tick.
Qed.

End Composites.

(** X28. The composite operations of the interface stay within a run: on a
    state of a run, [ensureBoard] and the offline replay (for any clock
    reading) give a state of a run, to which everything that holds of the
    states of a run applies. *)
Theorem playable_composites (upgradeCost : Upg.t -> Z -> Q) (s : GameState) :
  playable upgradeCost s ->
  playable upgradeCost (ensureBoard s)
  /\ (forall nowMs, playable upgradeCost (processOfflineProgress s nowMs).1).
Proof.
  intros Hplay. split.
  - unfold ensureBoard. destruct (_ || _); [by apply play_refresh | done].
  - intros nowMs. rewrite processOfflineProgress_run. cbn [fst].
    apply (play_stamp upgradeCost nowMs).
    set (elapsed := Qmin _ _).
    pose proof (iter_playable upgradeCost s 60 (fullChunks elapsed) Hplay ltac:(lra))
      as Hchunks.
    destruct (Qltb 0 _) eqn:Hpos; [|done].
    apply Qltb_true in Hpos. apply play_tick; [done | lra].
Qed.

Lemma playable_composites_witness :
  playable basePrices (ensureBoard shoppingState)
  /\ (forall nowMs, playable basePrices (processOfflineProgress shoppingState nowMs).1).
Proof.
  apply (playable_composites basePrices shoppingState).
  apply (play_buyUpgrade basePrices (processTick (createInitialState 0) 60) _
                         "module_decrypt").
  - apply play_tick; [apply play_init | lra].
  - vm_compute. reflexivity.
Defined.

(** * Rates *)

Section Rates.

Lemma fold_moduleStep_count_le (st : GameState) (ms : list ModuleType) (acc : LaneThroughput) :
  (activeModuleCount acc <= activeModuleCount (fold_left (moduleStep st) ms acc)
   <= activeModuleCount acc + Z.of_nat (length ms))%Z.
Proof.
  revert acc. induction ms as [|m ms IH]; intros acc; cbn [fold_left length]; [lia|].
  specialize (IH (moduleStep st acc m)).
  assert (activeModuleCount acc <= activeModuleCount (moduleStep st acc m)
          <= activeModuleCount acc + 1)%Z; [|lia].
  unfold moduleStep. destruct (_ =? 0)%Z; cbn [activeModuleCount]; lia.
Qed.

Lemma calculateLaneThroughput_ranges (lane : LaneState) (st : GameState) :
  levelsNonneg (upgradesPurchased st) -> levelsNonneg (perks (meta st)) ->
  modulesNonneg (modules st) ->
  2.4 <= processingCapacity (calculateLaneThroughput lane st)
  /\ 0.5 <= outputMultiplier (calculateLaneThroughput lane st)
  /\ (0 <= activeModuleCount (calculateLaneThroughput lane st)
      <= Z.of_nat (length (enabledModules lane)))%Z.
Proof.
  intros Hu Hp Hms. unfold calculateLaneThroughput. cbv zeta.
  pose proof (fold_moduleStep_bounds st (enabledModules lane) (mkThroughput 3 1.0 0) Hms)
    as (Hc & Ho & _); [cbn; lra | cbn; lra | cbn; lia |].
  pose proof (fold_moduleStep_count_le st (enabledModules lane) (mkThroughput 3 1.0 0)) as Hn.
  cbn [activeModuleCount] in Hn.
  revert Hc Ho Hn.
  generalize (fold_left (moduleStep st) (enabledModules lane) (mkThroughput 3 1.0 0)).
  intros t0 Hc Ho Hn.
  pose proof (inject_Z_nonneg _ (Hu "hw_module_speed")) as Hs. revert Hs.
  generalize (inject_Z (level_of (upgradesPurchased st) "hw_module_speed")). intros sp Hs.
  assert (Ht : 0.8 <= throughputMultiplier (PROTOCOL_DEFINITIONS (activeProtocol st))).
  { destruct (activeProtocol st); cbn; lra. }
  revert Ht.
  generalize (throughputMultiplier (PROTOCOL_DEFINITIONS (activeProtocol st))). intros tm Ht.
  pose proof (inject_Z_nonneg _ (Hp "perk_throughput_boost")) as Hb. revert Hb.
  generalize (inject_Z (level_of (perks (meta st)) "perk_throughput_boost")). intros tb Hb.
  assert (Hcap : 2.4 <= (processingCapacity t0 + sp * 2) * tm) by nra.
  revert Hcap. generalize ((processingCapacity t0 + sp * 2) * tm). intros cap Hcap.
  assert (Hout : 0.5 <= (if negb
                         (forallb
                            (fun m => bool_decide (m ∈ enabledModules lane)
                                      && (0 <? level (module_info (modules st) m))%Z)
                            (requiredModules (PROTOCOL_DEFINITIONS (activeProtocol st))))
                         && (0 <? length (requiredModules
                                            (PROTOCOL_DEFINITIONS (activeProtocol st))))%nat
                       then outputMultiplier t0 * 0.5 else outputMultiplier t0)).
  { destruct (_ && _); lra. }
  revert Hout. generalize (if negb
                         (forallb
                            (fun m => bool_decide (m ∈ enabledModules lane)
                                      && (0 <? level (module_info (modules st) m))%Z)
                            (requiredModules (PROTOCOL_DEFINITIONS (activeProtocol st))))
                         && (0 <? length (requiredModules
                                            (PROTOCOL_DEFINITIONS (activeProtocol st))))%nat
                       then outputMultiplier t0 * 0.5 else outputMultiplier t0).
  intros out Hout.
  destruct (0 <? _)%Z; cbn [processingCapacity outputMultiplier activeModuleCount];
    (split; [|split; [|lia]]); nra.
Qed.

Lemma calculateScrapGenRate_ge (st : GameState) :
  levelsNonneg (upgradesPurchased st) -> levelsNonneg (perks (meta st)) ->
  5 * inject_Z (Z.of_nat (length (lanes st))) <= calculateScrapGenRate st.
Proof.
  intros Hu Hp. unfold calculateScrapGenRate. cbv zeta.
  pose proof (inject_Z_nonneg _ (Hu "sw_routing_ai")) as Hr. revert Hr.
  generalize (inject_Z (level_of (upgradesPurchased st) "sw_routing_ai")). intros r Hr.
  pose proof (inject_Z_nonneg _ (Hp "perk_throughput_boost")) as Hb. revert Hb.
  generalize (inject_Z (level_of (perks (meta st)) "perk_throughput_boost")). intros tb Hb.
  assert (Hn : 0 <= inject_Z (Z.of_nat (length (lanes st)))) by (apply inject_Z_nonneg; lia).
  revert Hn. generalize (inject_Z (Z.of_nat (length (lanes st)))). intros n Hn.
  assert (H1 : 5 * n <= 5 * n * (1 + r * 0.15)) by nra.
  destruct (0 <? _)%Z; [|done].
  revert H1. generalize (5 * n * (1 + r * 0.15)). intros x Hx. nra.
Qed.

Lemma calculateCreditRate_ge (st : GameState) :
  levelsNonneg (upgradesPurchased st) -> 0.9 <= calculateCreditRate st.
Proof.
  intros Hu. unfold calculateCreditRate. cbv zeta.
  pose proof (inject_Z_nonneg _ (Hu "sw_protocol_parser")) as Hr. revert Hr.
  generalize (inject_Z (level_of (upgradesPurchased st) "sw_protocol_parser")). intros r Hr.
  assert (Hm : 0.9 <= creditMultiplier (PROTOCOL_DEFINITIONS (activeProtocol st))).
  { destruct (activeProtocol st); cbn; lra. }
  revert Hm. generalize (creditMultiplier (PROTOCOL_DEFINITIONS (activeProtocol st))).
  intros m Hm. destruct (0 <? _)%Z; nra.
Qed.

Lemma calculateFragmentInterval_range (st : GameState) :
  levelsNonneg (upgradesPurchased st) -> levelsNonneg (perks (meta st)) ->
  (5 <= calculateFragmentInterval st <= 33)%Z.
Proof.
  intros Hu Hp. unfold calculateFragmentInterval. cbv zeta.
  pose proof (Hu "sw_fragment_miner"). pose proof (Hp "perk_fragment_surge").
  assert (Hbase : (Math_round (100 / fragmentsPerHundredTicks
                                        (PROTOCOL_DEFINITIONS (activeProtocol st))) <= 33)%Z).
  { destruct (activeProtocol st); vm_compute; discriminate. }
  lia.
Qed.

End Rates.

(** X29. The rates of a well-formed state.  With levels that are counts, a
    lane has a processing capacity of 2.4 at least and an output multiplier
    of 0.5 at least, and counts as active no more modules than are enabled
    on it; scrap is generated at 5 per lane and second at least; a unit of
    payload is worth 0.9 credits at least; and fragments drop every 5 to 33
    ticks. *)
Theorem pipeline_ranges (s : GameState) :
  wellFormed s ->
  (forall lane,
     2.4 <= processingCapacity (calculateLaneThroughput lane s)
     /\ 0.5 <= outputMultiplier (calculateLaneThroughput lane s)
     /\ (0 <= activeModuleCount (calculateLaneThroughput lane s)
         <= Z.of_nat (length (enabledModules lane)))%Z)
  /\ 5 * inject_Z (Z.of_nat (length (lanes s))) <= calculateScrapGenRate s
  /\ 0.9 <= calculateCreditRate s
  /\ (5 <= calculateFragmentInterval s <= 33)%Z.
Proof.
  intros [Hu Hp Hms _ _].
  split; [intros lane; by apply calculateLaneThroughput_ranges|].
  split; [by apply calculateScrapGenRate_ge|].
  split; [by apply calculateCreditRate_ge | by apply calculateFragmentInterval_range].
Qed.

Lemma pipeline_ranges_witness :
  let s := createInitialState 0 in
  (forall lane,
     2.4 <= processingCapacity (calculateLaneThroughput lane s)
     /\ 0.5 <= outputMultiplier (calculateLaneThroughput lane s)
     /\ (0 <= activeModuleCount (calculateLaneThroughput lane s)
         <= Z.of_nat (length (enabledModules lane)))%Z)
  /\ 5 * inject_Z (Z.of_nat (length (lanes s))) <= calculateScrapGenRate s
  /\ 0.9 <= calculateCreditRate s
  /\ (5 <= calculateFragmentInterval s <= 33)%Z.
Proof.
  apply (pipeline_ranges (createInitialState 0)). apply createInitialState_wellFormed.
Defined.

(** * Scenarios of the repository's test suite, replayed on the embedding *)

Example scenario_latency_free_depth :
  penalty (calculateLatency 0 0 0 0) == 1
  /\ penalty (calculateLatency 3 0 0 0) == 1
  /\ penalty (calculateLatency 4 0 0 0) < penalty (calculateLatency 3 0 0 0)
  /\ penalty (calculateLatency 5 0 0 0) < penalty (calculateLatency 4 0 0 0).
Proof. repeat split; vm_compute; reflexivity. Qed.

Example scenario_latency_congestion :
  penalty (calculateLatency 2 500 0 0) < penalty (calculateLatency 2 100 0 0)
  /\ penalty (calculateLatency 2 100 0 0) < penalty (calculateLatency 2 0 0 0)
  /\ penalty (calculateLatency 10 10000 0 0) == 0.1
  /\ penalty (calculateLatency 2 100 0 0) < penalty (calculateLatency 2 100 100 0)
  /\ penalty (calculateLatency 4 50 0 0) < penalty (calculateLatency 4 50 0 0.3).
Proof. repeat split; vm_compute; reflexivity. Qed.

Example scenario_tick_counts :
  tickCount (processTick (processTick (createInitialState 0) 1) 1) = 2%Z
  /\ playtimeSec (stats (Nat.iter 5 (fun s => processTick s 1) (createInitialState 0))) == 5
  /\ 0 < totalPayloadProduced (stats (Nat.iter 10 (fun s => processTick s 1)
                                         (createInitialState 0))).
Proof. repeat split; vm_compute; reflexivity. Qed.

Example scenario_chunk_tolerance :
  totalPayloadProduced (stats (Nat.iter 60 (fun s => processTick s 1) (createInitialState 0)))
  == 300
  /\ totalPayloadProduced (stats (processTick (createInitialState 0) 60)) == 300.
Proof. split; vm_compute; reflexivity. Qed.

Example scenario_readiness_marker :
  canPrestige (createInitialState 0) = false
  /\ prestigeReadyAt (stats (processTick (createInitialState 0) 599)) = None
  /\ prestigeReadyAt (stats (processTick (createInitialState 0) 600)) = Some 1%Z
  /\ prestigeReadyAt (stats (processTick (processTick (createInitialState 0) 600) 600))
     = Some 1%Z.
Proof. repeat split; vm_compute; reflexivity. Qed.

Example scenario_contract_completes :
  let s := processTick fastContractState 1 in
  completedContractCount s = 1%Z
  /\ 500 <= credits (resources s)
  /\ 3 <= fragments (resources s)
  /\ activeContractId s = None.
Proof. repeat split; vm_compute; (reflexivity || discriminate). Qed.

Example scenario_contract_expires :
  let s1 := processTick timedContractState 1 in
  let s2 := processTick s1 1 in
  expired <$> contracts s1 = [false]
  /\ activeContractId s1 = Some "timed_contract"
  /\ expired <$> contracts s2 = [true]
  /\ active <$> contracts s2 = [false]
  /\ activeContractId s2 = None
  /\ completedContractCount s2 = 0%Z.
Proof. repeat split; vm_compute; reflexivity. Qed.

Example scenario_board :
  length (contracts (refreshContractBoard (createInitialState 0))) = 3%nat
  /\ contract_id <$> buildContractBoard 0 42
     = ["tpl_legacy_mid_1_run42_0"; "tpl_secure_low_1_run42_1"; "tpl_secure_high_1_run42_2"]
  /\ contract_id <$> buildContractBoard 0 1 <> contract_id <$> buildContractBoard 0 9999
  /\ isBoardExhausted
       (with_contracts
          [mkContract "c1" "C1" "" burst 1 None 0 0 1 low false false None;
           mkContract "c2" "C2" "" burst 1 None 0 0 0 low false true None]
          (createInitialState 0)) = true.
Proof. repeat split; vm_compute; (reflexivity || discriminate). Qed.

Example scenario_second_activation_refused :
  match activateContract firstBoardState "tpl_burst_low_1_run0_0" with
  | Some s =>
      activeContractId s = Some "tpl_burst_low_1_run0_0"
      /\ active <$> contracts s = [true; false; false]
      /\ activateContract s "tpl_burst_low_2_run0_1" = None
  | None => False
  end.
Proof. vm_compute. repeat split; reflexivity. Qed.

Example scenario_prestige `{Engine} :
  let s := processTick (createInitialState 0) 3000 in
  Qfloor (Math_pow 0 0.25) = 0%Z -> Qfloor (Math_pow 15000 0.25) = 11%Z ->
  calculateReputationGain (createInitialState 0) = 1%Z
  /\ calculateReputationGain s = 12%Z
  /\ credits (resources (applyPrestige 7 s)) = 0
  /\ tickCount (applyPrestige 7 s) = 0%Z
  /\ prestigeCount (meta (applyPrestige 7 s)) = 1%Z
  /\ totalReputation (meta (applyPrestige 7 s)) = 12%Z
  /\ length (lanes (applyPrestige 7
                      (with_meta (mkMeta 1 12 4 {[ "perk_head_start" := 1%Z ]}) s))) = 2%nat.
Proof.
  intros s H0 H1.
  assert (Hfresh : calculateReputationGain (createInitialState 0) = 1%Z).
  { unfold calculateReputationGain. cbv zeta.
    assert (Qfloor (Math_pow (Qmax 0 (totalPayloadProduced (stats (createInitialState 0))))
                             0.25) = 0%Z) as ->
      by (etransitivity; [|exact H0]; apply Qfloor_comp, Math_pow_wd; vm_compute; reflexivity).
    vm_compute. reflexivity. }
  assert (Hgain : calculateReputationGain s = 12%Z).
  { unfold calculateReputationGain. cbv zeta.
    assert (Qfloor (Math_pow (Qmax 0 (totalPayloadProduced (stats s))) 0.25) = 11%Z) as ->
      by (etransitivity; [|exact H1]; apply Qfloor_comp, Math_pow_wd; vm_compute; reflexivity).
    vm_compute. reflexivity. }
  split; [exact Hfresh|]. split; [exact Hgain|].
  split; [reflexivity|]. split; [reflexivity|]. split; [reflexivity|].
  split; [|vm_compute; reflexivity].
  unfold applyPrestige; fields. rewrite Hgain. reflexivity.
Qed.

Example scenario_offline_replay :
  let '(s, summary) := processOfflineProgress (createInitialState 0) 150500 in
  tickCount s = 3%Z
  /\ lastTickTime s = 150500%Z
  /\ ticksSimulated summary = 3%Z
  /\ elapsedSeconds summary == 150.5
  /\ playtimeSec (stats s) == 150.5
  /\ payloadEarned summary == totalPayloadProduced (stats s).
Proof. vm_compute. repeat split; reflexivity. Qed.

(** The rounding of [Binary64] is the rounding of the machine, on the
    samples. *)
Example binary64_agrees_with_machine :
  forallb (fun ab => agree ab.1 ab.2) machineSamples = true.
Proof. vm_compute. reflexivity. Qed.
